(** * Wa-Tor: the step-transition engine of KirubelCode/WaTor-Project

    A shallow embedding of the Go sources

      - [main/movement.go]         (row-partition strategy, [MoveEntitiesWithThreads])
      - [wat-or/main/movement.go]  (message-passing strategy, [MoveEntitiesConcurrent])
      - [wat-or/main/grid.go]      ([NewGrid], [Initialise], [addEntity], [CountEntities])
      - the entity declarations ([Fish], [Shark]) and the two [main] functions

    Go values of type [*Fish] and [*Shark] are pointers: a cell of the grid
    holds a reference, and the same object is reachable from the current grid
    and from the next grid.  The embedding therefore has an explicit store
    (objects, cell arrays, channels), and every Go function is a computation
    in a state-and-failure monad over that store. *)

From Stdlib Require Import ZArith Lia List Bool.
From stdpp Require Import base tactics option list numbers.

Open Scope Z_scope.

(** ** Go's [int] (64 bits, two's complement) *)

Module GoInt.

Definition min_int : Z := - 2 ^ 63.
Definition max_int : Z := 2 ^ 63 - 1.

Definition in_range (z : Z) : Prop := min_int <= z <= max_int.

(** Wrap-around of the arithmetic operators. *)
Definition wrap (z : Z) : Z := (z + 2 ^ 63) mod 2 ^ 64 - 2 ^ 63.

Definition add (a b : Z) : Z := wrap (a + b).
Definition sub (a b : Z) : Z := wrap (a - b).
Definition mul (a b : Z) : Z := wrap (a * b).

(** [/] and [%] truncate towards zero and panic on a zero divisor. *)
Definition div (a b : Z) : option Z :=
  if b =? 0 then None else Some (wrap (Z.quot a b)).
Definition rem (a b : Z) : option Z :=
  if b =? 0 then None else Some (Z.rem a b).

End GoInt.

(** ** Entities *)

(** [type Fish struct { BreedCounter int }] *)
Record Fish := mkFish { Fish_BreedCounter : Z }.

(** [type Shark struct { BreedCounter int; Energy int }] *)
Record Shark := mkShark { Shark_BreedCounter : Z; Shark_Energy : Z }.

(** A value of the interface type [Entity]: [nil], or a dynamic type
    together with the address of the object. *)
Inductive Entity :=
| Nil
| FishPtr (p : nat)
| SharkPtr (p : nat).

#[global] Instance Entity_eq_dec : EqDecision Entity.
Proof. solve_decision. Defined.

Definition is_nil (e : Entity) : bool :=
  match e with Nil => true | _ => false end.

(** [type Grid struct { Size int; Cells [][]Entity }]: [Cells] is a slice,
    that is a reference to a cell array of the store. *)
Record Grid := mkGrid { Size : Z; Cells : nat }.

(** [type Move struct { X, Y int; Entity Entity }] *)
Record Move := mkMove { X : Z; Y : Z; Ent : Entity }.

(** A buffered channel of moves. *)
Record Chan := mkChan { cap : Z; buf : list Move; closed : bool }.

(** ** The store *)

(** Events of a run, recorded for the accounting of entities; they are
    not read by the program. *)
Inductive Event :=
| EvOverwrite (x y : Z)   (* a write to a cell array landed on an occupied cell *)
| EvBorn (x y : Z)        (* an offspring was left at (x, y) *)
| EvStarved (x y : Z).    (* the shark of (x, y) ran out of energy *)

Abbreviation Matrix := (list (list Entity)).

Record State := mkState {
  fishes : list Fish;          (* the Fish objects, by address *)
  sharks : list Shark;         (* the Shark objects, by address *)
  arrays : list Matrix;        (* the cell arrays, by reference *)
  chans : list Chan;           (* the channels, by reference *)
  draws : nat -> Z;            (* the random source: the raw draws *)
  drawn : nat;                 (* how many draws were consumed *)
  events : list Event          (* the events so far, latest first *)
}.

Definition set_fishes (v : list Fish) (s : State) : State :=
  mkState v (sharks s) (arrays s) (chans s) (draws s) (drawn s) (events s).
Definition set_sharks (v : list Shark) (s : State) : State :=
  mkState (fishes s) v (arrays s) (chans s) (draws s) (drawn s) (events s).
Definition set_arrays (v : list Matrix) (s : State) : State :=
  mkState (fishes s) (sharks s) v (chans s) (draws s) (drawn s) (events s).
Definition set_chans (v : list Chan) (s : State) : State :=
  mkState (fishes s) (sharks s) (arrays s) v (draws s) (drawn s) (events s).
Definition set_drawn (v : nat) (s : State) : State :=
  mkState (fishes s) (sharks s) (arrays s) (chans s) (draws s) v (events s).
Definition set_events (v : list Event) (s : State) : State :=
  mkState (fishes s) (sharks s) (arrays s) (chans s) (draws s) (drawn s) v.

(** ** The monad: a run returns, or fails *)

Inductive failure :=
| Panic       (* a run-time panic: index out of range, division by zero, ... *)
| Deadlock    (* fatal error: all goroutines are asleep *)
| Fuel.       (* the loop did not finish within the fuel given *)

Inductive result (A : Type) :=
| Done (a : A) (s : State)
| Fail (f : failure).
Arguments Done {A} a s.
Arguments Fail {A} f.

Definition M (A : Type) : Type := State -> result A.

Definition ret {A} (a : A) : M A := fun s => Done a s.

Definition bind {A B} (m : M A) (k : A -> M B) : M B :=
  fun s => match m s with
           | Done a s' => k a s'
           | Fail f => Fail f
           end.

Definition fail {A} (f : failure) : M A := fun _ => Fail f.

Declare Scope go_scope.
Delimit Scope go_scope with go.
Notation "x <- m ;; k" := (bind m (fun x => k))
  (at level 20, m at level 99, k at level 200, only parsing) : go_scope.
Notation "' pat <- m ;; k" := (bind m (fun x => match x with pat => k end))
  (at level 20, pat pattern, m at level 99, k at level 200, only parsing) : go_scope.
Notation "m ;; k" := (bind m (fun _ => k))
  (at level 100, k at level 200, only parsing, right associativity) : go_scope.
Open Scope go_scope.

(** Lifting of a partial operation: [None] is a panic. *)
Definition orPanic {A} (o : option A) : M A :=
  match o with Some a => ret a | None => fail Panic end.

(** [for _, a := range l { body a }] *)
Fixpoint forList {A} (l : list A) (body : A -> M unit) : M unit :=
  match l with
  | [] => ret tt
  | a :: l' => body a ;; forList l' body
  end.

(** [for i := lo; i < hi; i++ { body i }] *)
Definition forRange (lo hi : Z) (body : Z -> M unit) : M unit :=
  forList (seqZ lo (hi - lo)) body.

(** ** Slices and objects *)

(** [l[i]]: panics when [i] is out of range. *)
Definition index {A} (l : list A) (i : Z) : option A :=
  if i <? 0 then None else l !! Z.to_nat i.

(** [l[i] = v] *)
Definition update {A} (l : list A) (i : Z) (v : A) : option (list A) :=
  if i <? 0 then None
  else if (Z.to_nat i <? length l)%nat then Some (<[Z.to_nat i := v]> l)
  else None.

Definition matrix_get (m : Matrix) (x y : Z) : option Entity :=
  row ← index m x; index row y.

Definition matrix_set (m : Matrix) (x y : Z) (e : Entity) : option Matrix :=
  row ← index m x; row' ← update row y e; update m x row'.

(** [g.Cells[x][y]] *)
Definition getCell (g : Grid) (x y : Z) : M Entity :=
  fun s => orPanic (m ← arrays s !! Cells g; matrix_get m x y) s.

Definition emit (ev : Event) : M unit :=
  fun s => Done tt (set_events (ev :: events s) s).

(** [g.Cells[x][y] = e] *)
Definition setCell (g : Grid) (x y : Z) (e : Entity) : M unit :=
  fun s =>
    match arrays s !! Cells g with
    | None => Fail Panic
    | Some m =>
        match matrix_get m x y, matrix_set m x y e with
        | Some old, Some m' =>
            let s' := set_arrays (<[Cells g := m']> (arrays s)) s in
            if is_nil old then Done tt s' else emit (EvOverwrite x y) s'
        | _, _ => Fail Panic
        end
    end.

(** Dereference of a [*Fish] or [*Shark]. *)
Definition loadFish (p : nat) : M Fish := fun s => orPanic (fishes s !! p) s.
Definition loadShark (p : nat) : M Shark := fun s => orPanic (sharks s !! p) s.

Definition storeFish (p : nat) (f : Fish) : M unit :=
  fun s => if (p <? length (fishes s))%nat
           then Done tt (set_fishes (<[p := f]> (fishes s)) s)
           else Fail Panic.
Definition storeShark (p : nat) (k : Shark) : M unit :=
  fun s => if (p <? length (sharks s))%nat
           then Done tt (set_sharks (<[p := k]> (sharks s)) s)
           else Fail Panic.

(** [&Fish{...}] and [&Shark{...}]: a new object at a fresh address. *)
Definition newFish (f : Fish) : M nat :=
  fun s => Done (length (fishes s)) (set_fishes (fishes s ++ [f]) s).
Definition newShark (k : Shark) : M nat :=
  fun s => Done (length (sharks s)) (set_sharks (sharks s ++ [k]) s).

(** ** math/rand *)

(** [rand.Intn(n)]: panics when [n <= 0], else a draw in [[0, n)]. *)
Definition Intn (n : Z) : M Z :=
  fun s => if n <=? 0 then Fail Panic
           else Done (draws s (drawn s) mod n) (set_drawn (S (drawn s)) s).

(** [l[i], l[j] = l[j], l[i]] *)
Definition swap {A} (l : list A) (i j : nat) : option (list A) :=
  a ← l !! i; b ← l !! j; Some (<[j := a]> (<[i := b]> l)).

(** [rand.Shuffle(len(l), swap)], the Fisher-Yates loop
    [for i := n - 1; i > 0; i-- { j := Intn(i + 1); swap(i, j) }]. *)
Fixpoint shuffleFrom {A} (i : nat) (l : list A) : M (list A) :=
  match i with
  | O => ret l
  | S i' =>
      j <- Intn (Z.of_nat i + 1) ;;
      l' <- orPanic (swap l i (Z.to_nat j)) ;;
      shuffleFrom i' l'
  end.

Definition Shuffle {A} (l : list A) : M (list A) :=
  shuffleFrom (length l - 1) l.

(** ** grid.go *)

(** The allocation limit of the Go run time on 64-bit platforms:
    [make] panics when the slice would be larger. *)
Definition maxAlloc : Z := 2 ^ 48.

(** [make([]T, n)] for elements of [elemSize] bytes. *)
Definition makeslice {A} (elemSize n : Z) (a : A) : option (list A) :=
  if (0 <=? n) && (n * elemSize <=? maxAlloc)
  then Some (replicate (Z.to_nat n) a) else None.

(** [func NewGrid(size int) *Grid] *)
Definition NewGrid (size : Z) : M Grid :=
  cells <- orPanic (makeslice 24 size ([] : list Entity)) ;;
  row <- orPanic (if size =? 0 then Some [] else makeslice 16 size Nil) ;;
  fun s => Done (mkGrid size (length (arrays s)))
                (set_arrays (arrays s ++ [const row <$> cells]) s).

(** [func (g *Grid) addEntity(e Entity)]: the loop [for { ... }] runs until
    an empty cell is drawn; [fuel] bounds the number of iterations. *)
Fixpoint addEntity (fuel : nat) (g : Grid) (e : Entity) : M unit :=
  match fuel with
  | O => fail Fuel
  | S fuel' =>
      x <- Intn (Size g) ;;
      y <- Intn (Size g) ;;
      c <- getCell g x y ;;
      if is_nil c then setCell g x y e
      else addEntity fuel' g e
  end.

(** [func (g *Grid) Initialise(numFish, numSharks int)] *)
Definition Initialise (fuel : nat) (g : Grid) (numFish numSharks : Z) : M unit :=
  forRange 0 numFish (fun _ =>
    p <- newFish (mkFish 0) ;; addEntity fuel g (FishPtr p)) ;;
  forRange 0 numSharks (fun _ =>
    p <- newShark (mkShark 0 4) ;; addEntity fuel g (SharkPtr p)).

(** [func (g *Grid) CountEntities() (numFish, numSharks int)] *)
Definition countCell (e : Entity) (c : Z * Z) : Z * Z :=
  let c1 := match e with FishPtr _ => (GoInt.add (fst c) 1, snd c) | _ => c end in
  match e with SharkPtr _ => (fst c1, GoInt.add (snd c1) 1) | _ => c1 end.

Fixpoint countLoop (g : Grid) (cells : list (Z * Z)) (c : Z * Z) : M (Z * Z) :=
  match cells with
  | [] => ret c
  | (x, y) :: rest => e <- getCell g x y ;; countLoop g rest (countCell e c)
  end.

(** The cells visited by [for x := lo; x < hi; x++ { for y := 0; y < n; y++ ]. *)
Definition cellsOf (lo hi n : Z) : list (Z * Z) :=
  x ← seqZ lo (hi - lo); y ← seqZ 0 n; [(x, y)].

Definition CountEntities (g : Grid) : M (Z * Z) :=
  countLoop g (cellsOf 0 (Size g) (Size g)) (0, 0).

(** ** movement.go: the neighbour scans

    [findEmptyAdjacent] and [findNearestFish] are the same in
    [main/movement.go] and in [wat-or/main/movement.go]. *)

(** North, South, West, East. *)
Definition directions : list (Z * Z) := [(-1, 0); (1, 0); (0, -1); (0, 1)].

(** [(x + dir.dx + g.Size) % g.Size] *)
Definition wrapCoord (n x d : Z) : option Z :=
  GoInt.rem (GoInt.add (GoInt.add x d) n) n.

(** The loop [for _, dir := range directions] of [findEmptyAdjacent]. *)
Fixpoint scanEmpty (g : Grid) (x y : Z) (dirs : list (Z * Z)) : M (Z * Z) :=
  match dirs with
  | [] => ret (-1, -1)
  | (dx, dy) :: rest =>
      newX <- orPanic (wrapCoord (Size g) x dx) ;;
      newY <- orPanic (wrapCoord (Size g) y dy) ;;
      c <- getCell g newX newY ;;
      if is_nil c then ret (newX, newY) else scanEmpty g x y rest
  end.

(** [func (g *Grid) findEmptyAdjacent(x, y int) (int, int)] *)
Definition findEmptyAdjacent (g : Grid) (x y : Z) : M (Z * Z) :=
  dirs <- Shuffle directions ;;
  scanEmpty g x y dirs.

Definition is_fish (e : Entity) : bool :=
  match e with FishPtr _ => true | _ => false end.

(** The loop of [findNearestFish]. *)
Fixpoint scanFish (g : Grid) (x y : Z) (dirs : list (Z * Z)) : M (Z * Z) :=
  match dirs with
  | [] => ret (-1, -1)
  | (dx, dy) :: rest =>
      newX <- orPanic (wrapCoord (Size g) x dx) ;;
      newY <- orPanic (wrapCoord (Size g) y dy) ;;
      c <- getCell g newX newY ;;
      if is_fish c then ret (newX, newY) else scanFish g x y rest
  end.

(** [func (g *Grid) findNearestFish(x, y int) (int, int)] *)
Definition findNearestFish (g : Grid) (x y : Z) : M (Z * Z) :=
  dirs <- Shuffle directions ;;
  scanFish g x y dirs.

(** [newX != -1 && newY != -1] *)
Definition found (newX newY : Z) : bool :=
  negb (newX =? -1) && negb (newY =? -1).

(** Updates of one field of an object through its pointer. *)
Definition modifyFish (p : nat) (f : Fish -> Fish) : M unit :=
  o <- loadFish p ;; storeFish p (f o).
Definition modifyShark (p : nat) (f : Shark -> Shark) : M unit :=
  o <- loadShark p ;; storeShark p (f o).

Definition setFishBreed (v : Z) (_ : Fish) : Fish := mkFish v.
Definition setSharkBreed (v : Z) (k : Shark) : Shark := mkShark v (Shark_Energy k).
Definition setSharkEnergy (v : Z) (k : Shark) : Shark := mkShark (Shark_BreedCounter k) v.

(** ** main/movement.go: the row-partition strategy *)

(** [func (g *Grid) processFish(newGrid *Grid, fish *Fish, x, y, fishBreed int)] *)
Definition processFish (g newGrid : Grid) (fish : nat) (x y fishBreed : Z) : M unit :=
  '(newX, newY) <- findEmptyAdjacent g x y ;;
  (if found newX newY
   then setCell newGrid newX newY (FishPtr fish)
   else setCell newGrid x y (FishPtr fish)) ;;
  modifyFish fish (fun f => setFishBreed (GoInt.add (Fish_BreedCounter f) 1) f) ;;
  f <- loadFish fish ;;
  if fishBreed <=? Fish_BreedCounter f then
    baby <- newFish (mkFish 0) ;;
    setCell newGrid x y (FishPtr baby) ;;
    emit (EvBorn x y) ;;
    modifyFish fish (setFishBreed 0)
  else ret tt.

(** [func (g *Grid) processShark(newGrid *Grid, shark *Shark, x, y, sharkBreed, starveEnergy int)] *)
Definition processShark (g newGrid : Grid) (shark : nat)
    (x y sharkBreed starveEnergy : Z) : M unit :=
  modifyShark shark (fun k => setSharkEnergy (GoInt.sub (Shark_Energy k) 1) k) ;;
  k <- loadShark shark ;;
  if Shark_Energy k <=? 0 then emit (EvStarved x y)
  else
    '(newX, newY) <- findNearestFish g x y ;;
    (if found newX newY then
       setCell newGrid newX newY (SharkPtr shark) ;;
       modifyShark shark (setSharkEnergy starveEnergy)
     else
       '(newX, newY) <- findEmptyAdjacent g x y ;;
       if found newX newY
       then setCell newGrid newX newY (SharkPtr shark)
       else setCell newGrid x y (SharkPtr shark)) ;;
    modifyShark shark (fun k => setSharkBreed (GoInt.add (Shark_BreedCounter k) 1) k) ;;
    k <- loadShark shark ;;
    if sharkBreed <=? Shark_BreedCounter k then
      baby <- newShark (mkShark 0 starveEnergy) ;;
      setCell newGrid x y (SharkPtr baby) ;;
      emit (EvBorn x y) ;;
      modifyShark shark (setSharkBreed 0)
    else ret tt.

(** The body of the two loops of [processSection]. *)
Definition processCell (g newGrid : Grid) (fishBreed sharkBreed starveEnergy : Z)
    (x y : Z) : M unit :=
  c <- getCell g x y ;;
  match c with
  | FishPtr fish => processFish g newGrid fish x y fishBreed
  | SharkPtr shark => processShark g newGrid shark x y sharkBreed starveEnergy
  | Nil => ret tt
  end.

(** [func (g *Grid) processSection(newGrid *Grid, startRow, endRow, fishBreed, sharkBreed, starveEnergy int)] *)
Definition processSection (g newGrid : Grid)
    (startRow endRow fishBreed sharkBreed starveEnergy : Z) : M unit :=
  forRange startRow endRow (fun x =>
    forRange 0 (Size g) (fun y =>
      processCell g newGrid fishBreed sharkBreed starveEnergy x y)).

(** The row range of worker [i]. *)
Definition startRowOf (rowsPerThread i : Z) : Z := GoInt.mul i rowsPerThread.
Definition endRowOf (size threads rowsPerThread i : Z) : Z :=
  if i =? GoInt.sub threads 1 then size
  else GoInt.add (startRowOf rowsPerThread i) rowsPerThread.

(** [func (g *Grid) MoveEntitiesWithThreads(fishBreed, sharkBreed, starveEnergy, threads int)]

    The goroutines are run one after the other in the order in which they
    are launched; [wg.Wait()] is then the end of the loop.  The value
    returned is the receiver after [g.Cells = newGrid.Cells].

    With one worker this is the program.  With more workers it is one of
    its schedules: the goroutines share the next grid and the random
    source, and the order in which they run is the scheduler's
    ([MoveEntitiesWithThreadsIn] below). *)
Definition MoveEntitiesWithThreads (g : Grid)
    (fishBreed sharkBreed starveEnergy threads : Z) : M Grid :=
  newGrid <- NewGrid (Size g) ;;
  rowsPerThread <- orPanic (GoInt.div (Size g) threads) ;;
  forRange 0 threads (fun i =>
    processSection g newGrid
      (startRowOf rowsPerThread i) (endRowOf (Size g) threads rowsPerThread i)
      fishBreed sharkBreed starveEnergy) ;;
  ret (mkGrid (Size g) (Cells newGrid)).

(** [MoveEntitiesWithThreads] when the scheduler runs the goroutines in the
    order [order] of their numbers [i], each to its end: the loop launches
    the goroutine of every [i] in [0 .. threads-1], so that [order] is a
    permutation of these numbers, and [wg.Wait()] returns once they have
    all run.  The launch order [0, 1, ..., threads-1] gives
    [MoveEntitiesWithThreads]. *)
Definition MoveEntitiesWithThreadsIn (order : list Z) (g : Grid)
    (fishBreed sharkBreed starveEnergy threads : Z) : M Grid :=
  newGrid <- NewGrid (Size g) ;;
  rowsPerThread <- orPanic (GoInt.div (Size g) threads) ;;
  forList order (fun i =>
    processSection g newGrid
      (startRowOf rowsPerThread i) (endRowOf (Size g) threads rowsPerThread i)
      fishBreed sharkBreed starveEnergy) ;;
  ret (mkGrid (Size g) (Cells newGrid)).

(** ** wat-or/main/movement.go: the message-passing strategy *)

(** [make(chan Move, n)] *)
Definition makeChan (n : Z) : M nat :=
  fun s => if n <? 0 then Fail Panic
           else Done (length (chans s)) (set_chans (chans s ++ [mkChan n [] false]) s).

(** [ch <- m].  Nobody receives before the senders are done: a send on a
    full buffer blocks for ever, and the run time stops the program. *)
Definition send (ch : nat) (m : Move) : M unit :=
  fun s => match chans s !! ch with
           | None => Fail Panic
           | Some c =>
               if closed c then Fail Panic
               else if Z.of_nat (length (buf c)) <? cap c
               then Done tt (set_chans (<[ch := mkChan (cap c) (buf c ++ [m]) false]> (chans s)) s)
               else Fail Deadlock
           end.

(** [close(ch)] *)
Definition closeChan (ch : nat) : M unit :=
  fun s => match chans s !! ch with
           | None => Fail Panic
           | Some c =>
               if closed c then Fail Panic
               else Done tt (set_chans (<[ch := mkChan (cap c) (buf c) true]> (chans s)) s)
           end.

(** The values received by [for move := range ch] on a closed channel. *)
Definition recvAll (ch : nat) : M (list Move) :=
  fun s => match chans s !! ch with
           | None => Fail Panic
           | Some c =>
               if closed c
               then Done (buf c) (set_chans (<[ch := mkChan (cap c) [] true]> (chans s)) s)
               else Fail Deadlock
           end.

(** The body of the loops of [moveFish]. *)
Definition moveFishCell (g newGrid : Grid) (fishBreed : Z) (x y : Z) : M unit :=
  c <- getCell g x y ;;
  match c with
  | FishPtr fish =>
      '(newX, newY) <- findEmptyAdjacent g x y ;;
      (if found newX newY
       then setCell newGrid newX newY (FishPtr fish)
       else setCell newGrid x y (FishPtr fish)) ;;
      modifyFish fish (fun f => setFishBreed (GoInt.add (Fish_BreedCounter f) 1) f) ;;
      f <- loadFish fish ;;
      if fishBreed <=? Fish_BreedCounter f then
        baby <- newFish (mkFish 0) ;;
        setCell newGrid x y (FishPtr baby) ;;
        emit (EvBorn x y) ;;
        modifyFish fish (setFishBreed 0)
      else ret tt
  | _ => ret tt
  end.

(** [func (g *Grid) moveFish(newGrid *Grid, fishBreed int)] *)
Definition moveFish (g newGrid : Grid) (fishBreed : Z) : M unit :=
  forRange 0 (Size g) (fun x =>
    forRange 0 (Size g) (fun y => moveFishCell g newGrid fishBreed x y)).

(** The body of the loops of [moveSharksConcurrent]. *)
Definition moveSharkCell (g : Grid) (sharkBreed starveEnergy : Z)
    (moveChannel : nat) (x y : Z) : M unit :=
  c <- getCell g x y ;;
  match c with
  | SharkPtr shark =>
      modifyShark shark (fun k => setSharkEnergy (GoInt.sub (Shark_Energy k) 1) k) ;;
      k <- loadShark shark ;;
      if Shark_Energy k <=? 0 then emit (EvStarved x y)
      else
        '(newX, newY) <- findNearestFish g x y ;;
        (if found newX newY then
           send moveChannel (mkMove newX newY (SharkPtr shark)) ;;
           modifyShark shark (setSharkEnergy starveEnergy)
         else
           '(newX, newY) <- findEmptyAdjacent g x y ;;
           if found newX newY
           then send moveChannel (mkMove newX newY (SharkPtr shark))
           else send moveChannel (mkMove x y (SharkPtr shark))) ;;
        modifyShark shark (fun k => setSharkBreed (GoInt.add (Shark_BreedCounter k) 1) k) ;;
        k <- loadShark shark ;;
        if sharkBreed <=? Shark_BreedCounter k then
          baby <- newShark (mkShark 0 starveEnergy) ;;
          send moveChannel (mkMove x y (SharkPtr baby)) ;;
          emit (EvBorn x y) ;;
          modifyShark shark (setSharkBreed 0)
        else ret tt
  | _ => ret tt
  end.

(** [func (g *Grid) moveSharksConcurrent(newGrid *Grid, sharkBreed, starveEnergy int, moveChannel chan<- Move)] *)
Definition moveSharksConcurrent (g newGrid : Grid) (sharkBreed starveEnergy : Z)
    (moveChannel : nat) : M unit :=
  forRange 0 (Size g) (fun x =>
    forRange 0 (Size g) (fun y =>
      moveSharkCell g sharkBreed starveEnergy moveChannel x y)).

(** [func (g *Grid) MoveEntitiesConcurrent(fishBreed, sharkBreed, starveEnergy int)]

    The single goroutine runs [moveSharksConcurrent]; the main goroutine
    waits for it, closes the channel and applies the moves. *)
Definition MoveEntitiesConcurrent (g : Grid)
    (fishBreed sharkBreed starveEnergy : Z) : M Grid :=
  newGrid <- NewGrid (Size g) ;;
  moveFish g newGrid fishBreed ;;
  moveChannel <- makeChan (GoInt.mul (Size g) (Size g)) ;;
  moveSharksConcurrent g newGrid sharkBreed starveEnergy moveChannel ;;
  closeChan moveChannel ;;
  moves <- recvAll moveChannel ;;
  forList moves (fun move => setCell newGrid (X move) (Y move) (Ent move)) ;;
  ret (mkGrid (Size g) (Cells newGrid)).

(** ** main.go (the version with threads) *)

(** What [main] did: it printed the usage line and returned, or it ran
    the simulation and printed the final tally. *)
Inductive Exit :=
| Usage
| Ran (numFish numSharks : Z).

(** [for step := 0; step < n; step++ { ...; grid.Move...(...) }] *)
Fixpoint simulate (n : nat) (step : Grid -> M Grid) (g : Grid) : M Grid :=
  match n with
  | O => ret g
  | S n' =>
      _ <- CountEntities g ;;
      g' <- step g ;;
      simulate n' step g'
  end.

(** The seven parameters of a run, in the order of the command line. *)
Record Config := mkConfig {
  numShark : Z; numFish : Z; fishBreed : Z; sharkBreed : Z;
  starveEnergy : Z; gridSize : Z; threads : Z }.

Definition defaultConfig : Config := mkConfig 100 100 3 3 4 100 10.

(** Modelled from the spec: [Initialize] of [main/grid.go], the file of the
    version with threads that declares the grid and that is not among the
    sources.  The spec has it as the initial random placement of the fish
    and of the sharks; it is taken to be [Initialise] of
    [wat-or/main/grid.go], as [NewGrid] and [CountEntities] are. *)
Definition Initialize (fuel : nat) (g : Grid) (numFish numShark : Z) : M unit :=
  Initialise fuel g numFish numShark.

(** The part of [main] after the parameters are known. *)
Definition run (fuel : nat) (c : Config) : M Exit :=
  grid <- NewGrid (gridSize c) ;;
  Initialize fuel grid (numFish c) (numShark c) ;;
  grid <- simulate 50
            (fun g => MoveEntitiesWithThreads g (fishBreed c) (sharkBreed c)
                        (starveEnergy c) (threads c)) grid ;;
  '(nf, ns) <- CountEntities grid ;;
  ret (Ran nf ns).

(** [func main()]; [args] are the values [strconv.Atoi] gives for
    [os.Args[1:]] (0 for an argument that is not a number). *)
Definition main (fuel : nat) (args : list Z) : M Exit :=
  match args with
  | [a1; a2; a3; a4; a5; a6; a7] => run fuel (mkConfig a1 a2 a3 a4 a5 a6 a7)
  | [] => run fuel defaultConfig
  | _ => ret Usage
  end.

(** ** Notions used in the statements *)

(** The quotient computed by [g.Size / threads]. *)
Definition rowsPerThreadOf (N threads : Z) : Z := N ÷ threads.

(** A side for which [NewGrid] can allocate the rows. *)
Definition valid_side (n : Z) : Prop := 0 < n /\ n * 24 <= maxAlloc.

(** A cell array of [n] rows of [n] cells. *)
Definition shape (n : Z) (m : Matrix) : Prop :=
  length m = Z.to_nat n /\ Forall (fun row => length row = Z.to_nat n) m.

(** The pointer of an entity refers to an object of the store. *)
Definition valid_ent (s : State) (e : Entity) : Prop :=
  match e with
  | Nil => True
  | FishPtr p => (p < length (fishes s))%nat
  | SharkPtr p => (p < length (sharks s))%nat
  end.

Definition valid_matrix (s : State) (m : Matrix) : Prop :=
  Forall (Forall (valid_ent s)) m.

(** In store [s], the cells of grid [g] are the square array [m]. *)
Definition grid_at (s : State) (g : Grid) (m : Matrix) : Prop :=
  arrays s !! Cells g = Some m /\ shape (Size g) m /\ valid_matrix s m.

(** A well-formed grid: what [NewGrid], [Initialise] and the steps build. *)
Definition wf (s : State) (g : Grid) : Prop :=
  valid_side (Size g) /\ exists m, grid_at s g m.

(** The toroidal neighbour of [(x, y)] in direction [d]. *)
Definition neighbour (n x y : Z) (d : Z * Z) : Z * Z :=
  ((x + d.1) mod n, (y + d.2) mod n).

Definition in_grid (n : Z) (c : Z * Z) : Prop := 0 <= c.1 < n /\ 0 <= c.2 < n.

(** What a scan for cells that satisfy [p] may return: [(-1, -1)] when no
    neighbour satisfies [p], else a neighbour that does. *)
Definition scan_result (p : Entity -> bool) (n : Z) (m : Matrix) (x y : Z)
    (r : Z * Z) : Prop :=
  (r = (-1, -1)
   /\ forall d, d ∈ directions ->
        exists e, matrix_get m (neighbour n x y d).1 (neighbour n x y d).2 = Some e
                  /\ p e = false)
  \/ (exists d e, d ∈ directions /\ r = neighbour n x y d
                  /\ matrix_get m r.1 r.2 = Some e /\ p e = true).

(** The two scans, with the test as a parameter. *)
Fixpoint scanWith (p : Entity -> bool) (g : Grid) (x y : Z) (dirs : list (Z * Z))
    : M (Z * Z) :=
  match dirs with
  | [] => ret (-1, -1)
  | (dx, dy) :: rest =>
      newX <- orPanic (wrapCoord (Size g) x dx) ;;
      newY <- orPanic (wrapCoord (Size g) y dy) ;;
      c <- getCell g newX newY ;;
      if p c then ret (newX, newY) else scanWith p g x y rest
  end.

(** The store after [g.Cells[x][y] = e], where the cell held [old]. *)
Definition written (g : Grid) (x y : Z) (old : Entity) (m' : Matrix) (s : State) : State :=
  set_events (if is_nil old then events s else EvOverwrite x y :: events s)
    (set_arrays (<[Cells g := m']> (arrays s)) s).

(** Sums over lists. *)
Definition sumZ {A} (f : A -> Z) (l : list A) : Z :=
  foldr (fun a acc => f a + acc) 0 l.

(** The number of entities of a cell array. *)
Definition occupied (e : Entity) : Z := if is_nil e then 0 else 1.
Definition population (m : Matrix) : Z := sumZ (sumZ occupied) m.

(** The numbers of fish and of sharks of a cell array. *)
Definition fishIn (m : Matrix) : Z :=
  sumZ (sumZ (fun e => if is_fish e then 1 else 0)) m.
Definition is_shark (e : Entity) : bool :=
  match e with SharkPtr _ => true | _ => false end.
Definition sharksIn (m : Matrix) : Z :=
  sumZ (sumZ (fun e => if is_shark e then 1 else 0)) m.

(** The events of each kind. *)
Definition overwrites (evs : list Event) : Z :=
  sumZ (fun ev => match ev with EvOverwrite _ _ => 1 | _ => 0 end) evs.
Definition births (evs : list Event) : Z :=
  sumZ (fun ev => match ev with EvBorn _ _ => 1 | _ => 0 end) evs.
Definition starvations (evs : list Event) : Z :=
  sumZ (fun ev => match ev with EvStarved _ _ => 1 | _ => 0 end) evs.

(** Objects are never freed. *)
Definition grows (s s' : State) : Prop :=
  (length (fishes s) <= length (fishes s'))%nat
  /\ (length (sharks s) <= length (sharks s'))%nat.

(** What holds of the store while the workers run: the current grid [g]
    has the cells [m], and the next grid [newGrid] is another square array
    of the same side. *)
Definition dispatch_inv (g newGrid : Grid) (m : Matrix) (s : State) : Prop :=
  valid_side (Size g) /\ Size newGrid = Size g /\ Cells newGrid <> Cells g
  /\ grid_at s g m /\ exists m', grid_at s newGrid m'.

(** The cells of grid [g] in store [s]. *)
Definition cells_of (s : State) (g : Grid) : Matrix :=
  default [] (arrays s !! Cells g).

(** The quantity that every processed entity raises by one: the entities
    of the next grid, plus those that were overwritten or that starved,
    minus the offspring. *)
Definition balance (ng : Grid) (s : State) : Z :=
  population (cells_of s ng) + overwrites (events s) + starvations (events s)
  - births (events s).

(** A pointer to an object that store [s] does not have yet. *)
Definition fresh (s : State) (e : Entity) : Prop :=
  match e with
  | Nil => False
  | FishPtr p => (length (fishes s) <= p)%nat
  | SharkPtr p => (length (sharks s) <= p)%nat
  end.

(** What a part of the processing of entity [ent] may do to the store, from
    [s] to [s']: it raises the balance of the next grid by [d], writes to no
    other cell array and to no channel, frees no object, changes no object
    but [ent], and puts only entities of [W] into the next grid. *)
Definition effect (ng : Grid) (ent : Entity) (d : Z) (W : Entity -> Prop)
    (s s' : State) : Prop :=
  balance ng s' = balance ng s + d
  /\ (forall c, c <> Cells ng -> arrays s' !! c = arrays s !! c)
  /\ chans s' = chans s
  /\ grows s s'
  /\ (forall q o, ent <> FishPtr q -> fishes s !! q = Some o -> fishes s' !! q = Some o)
  /\ (forall q o, ent <> SharkPtr q -> sharks s !! q = Some o -> sharks s' !! q = Some o)
  /\ (forall x y e, matrix_get (cells_of s' ng) x y = Some e ->
        matrix_get (cells_of s ng) x y = Some e \/ W e).

(** The weight of an event in the balance. *)
Definition weight (ev : Event) : Z :=
  match ev with EvBorn _ _ => -1 | _ => 1 end.

(** The weight [f] of the entity of cell [c] (0 outside of the array). *)
Definition cell_weight (f : Entity -> Z) (m : Matrix) (c : Z * Z) : Z :=
  match matrix_get m c.1 c.2 with Some e => f e | None => 0 end.

(** The moves that wait in channel [ch]. *)
Definition pending (ch : nat) (s : State) : Z :=
  match chans s !! ch with
  | Some c => Z.of_nat (length (buf c))
  | None => 0
  end.

(** The quantity that every shark raises by one while the moves are
    collected: the moves sent and the sharks starved, minus the offspring. *)
Definition msg_balance (ch : nat) (s : State) : Z :=
  pending ch s + starvations (events s) - births (events s).

(** Every move that waits in [ch] carries an entity. *)
Definition msgs_ok (ch : nat) (s : State) : Prop :=
  forall c, chans s !! ch = Some c -> Forall (fun mv => Ent mv <> Nil) (buf c).

(** What a part of [moveSharksConcurrent] may do to the store: it writes to
    no cell array and to no fish, and raises the balance of the moves by
    [d]. *)
Definition msg_effect (ch : nat) (d : Z) (s s' : State) : Prop :=
  arrays s' = arrays s
  /\ fishes s' = fishes s
  /\ overwrites (events s') = overwrites (events s)
  /\ msg_balance ch s' = msg_balance ch s + d
  /\ (msgs_ok ch s -> msgs_ok ch s').

(** No cell of the array holds [e]. *)
Definition absent (e : Entity) (m : Matrix) : Prop :=
  forall x y, matrix_get m x y <> Some e.

(** A 3x3 grid that holds one shark, at [(i, j)]. *)
Definition lone_shark_cells (i j : Z) : Matrix :=
  default [] (matrix_set (replicate 3 (replicate 3 Nil)) i j (SharkPtr 0)).

Definition lone_shark (i j : Z) (k : Shark) (d : nat -> Z) : State :=
  mkState [] [k] [lone_shark_cells i j] [] d 0 [].

(** What [Initialise] maintains, from the store [s0] in which it starts:
    the grid stays square with valid pointers, no object is freed or
    changed, the objects it allocates are fish with breed counter 0 and
    sharks with breed counter 0 and energy 4, and a cell holds what it held
    in [s0] or one of these new objects. *)
Definition placing (g : Grid) (s0 s : State) : Prop :=
  (forall m, grid_at s0 g m -> exists m', grid_at s g m')
  /\ grows s0 s
  /\ (forall p o, fishes s !! p = Some o ->
        fishes s0 !! p = Some o \/ ((length (fishes s0) <= p)%nat /\ o = mkFish 0))
  /\ (forall p o, sharks s !! p = Some o ->
        sharks s0 !! p = Some o \/ ((length (sharks s0) <= p)%nat /\ o = mkShark 0 4))
  /\ (forall x y e, matrix_get (cells_of s g) x y = Some e ->
        matrix_get (cells_of s0 g) x y = Some e \/ (fresh s0 e /\ valid_ent s e)).

(** A move that the drain can apply: its target is a cell of the grid and
    it carries an entity of the store. *)
Definition valid_move (n : Z) (s : State) (mv : Move) : Prop :=
  in_grid n (X mv, Y mv) /\ valid_ent s (Ent mv).

(** What holds of the store while the moves of the sharks are collected in
    channel [ch]: the dispatch invariant, and the channel is open, holds
    moves that can be applied, and has room for [n] more. *)
Definition collect_inv (g ng : Grid) (m : Matrix) (ch : nat) (n : Z) (s : State) : Prop :=
  dispatch_inv g ng m s
  /\ exists c, chans s !! ch = Some c /\ closed c = false
               /\ Z.of_nat (length (buf c)) + n <= cap c
               /\ Forall (valid_move (Size g) s) (buf c).

(** No move that waits in [ch] carries the entity [e]. *)
Definition no_move (e : Entity) (ch : nat) (s : State) : Prop :=
  forall c, chans s !! ch = Some c -> Forall (fun mv => Ent mv <> e) (buf c).

(** What the collection of the move of another shark does to shark [p]:
    the object is not changed, and no move carries it. *)
Definition spares (p : nat) (ch : nat) (s s' : State) : Prop :=
  (length (sharks s) <= length (sharks s'))%nat
  /\ sharks s' !! p = sharks s !! p
  /\ (no_move (SharkPtr p) ch s -> no_move (SharkPtr p) ch s').

(** The cell that the loop of [addEntity] draws in its iteration [k],
    counted from 0, when it starts in store [s]. *)
Definition drawnCell (g : Grid) (s : State) (k : nat) : Z * Z :=
  (draws s (drawn s + 2 * k)%nat mod Size g,
   draws s (drawn s + 2 * k + 1)%nat mod Size g).

(** ** Notions used in the further properties *)

(** Every cell of the array holds an entity. *)
Definition full (m : Matrix) : Prop := Forall (Forall (fun e => e <> Nil)) m.

(** The moves that the processing of the shark [o] sends: none when it
    starves, one for the shark, and one more for its offspring. *)
Definition movesOf (sharkBreed : Z) (o : Shark) : Z :=
  if GoInt.sub (Shark_Energy o) 1 <=? 0 then 0
  else if sharkBreed <=? GoInt.add (Shark_BreedCounter o) 1 then 2 else 1.

Definition movesOfCell (sharkBreed : Z) (s : State) (e : Entity) : Z :=
  match e with
  | SharkPtr p => from_option (movesOf sharkBreed) 0 (sharks s !! p)
  | _ => 0
  end.

(** The moves that the sharks of the cell array [m] send in a chronon. *)
Definition movesNeeded (sharkBreed : Z) (s : State) (m : Matrix) : Z :=
  sumZ (sumZ (movesOfCell sharkBreed s)) m.

(** No shark is in two cells. *)
Definition sharks_distinct (m : Matrix) : Prop :=
  forall x y x' y' p,
    matrix_get m x y = Some (SharkPtr p) -> matrix_get m x' y' = Some (SharkPtr p) ->
    (x, y) = (x', y').

(** The room left in channel [ch]. *)
Definition room (ch : nat) (s : State) : Z :=
  match chans s !! ch with
  | Some c => cap c - Z.of_nat (length (buf c))
  | None => 0
  end.

(** [body] sends [k] moves into channel [ch]: it returns when the channel
    has room for them, takes that room and establishes [Q]; it blocks for
    ever when the channel has not. *)
Definition sends (ch : nat) (k : Z) (body : M unit) (s : State)
    (Q : State -> Prop) : Prop :=
  (k <= room ch s ->
   exists s', body s = Done tt s' /\ room ch s' = room ch s - k /\ Q s')
  /\ (room ch s < k -> body s = Fail Deadlock).

(** No object is in two cells. *)
Definition distinct (m : Matrix) : Prop :=
  forall x y x' y' e, e <> Nil ->
    matrix_get m x y = Some e -> matrix_get m x' y' = Some e -> (x, y) = (x', y').

(** The cell [(x, y)] and its four toroidal neighbours. *)
Definition near (n x y : Z) (c : Z * Z) : Prop :=
  c = (x, y) \/ exists d, d ∈ directions /\ c = neighbour n x y d.

(** The counters of the object of [e] are where the rules leave them: a
    breed counter is 0 or below the breed age, and the energy of a shark is
    the starvation energy or positive. *)
Definition ruled (fishBreed sharkBreed starveEnergy : Z) (s : State) (e : Entity) : Prop :=
  match e with
  | Nil => True
  | FishPtr p =>
      exists o, fishes s !! p = Some o
                /\ (Fish_BreedCounter o = 0 \/ Fish_BreedCounter o < fishBreed)
  | SharkPtr p =>
      exists o, sharks s !! p = Some o
                /\ (Shark_BreedCounter o = 0 \/ Shark_BreedCounter o < sharkBreed)
                /\ (Shark_Energy o = starveEnergy \/ 0 < Shark_Energy o)
  end.

(** What the processing [body] of the cell [(x, y)], which holds [e0], writes
    to the next grid: nothing, or [e0] to the cell or to a neighbour, and
    then possibly a new object to [(x, y)]; what it writes satisfies [K] in
    the store that it leaves. *)
Definition writes (K : State -> Entity -> Prop) (g ng : Grid) (m : Matrix) (x y : Z)
    (e0 : Entity) (body : M unit) (s : State) : Prop :=
  exists s' m0,
    body s = Done tt s'
    /\ dispatch_inv g ng m s' /\ grows s s'
    /\ arrays s !! Cells ng = Some m0
    /\ (arrays s' !! Cells ng = Some m0
        \/ (e0 <> Nil /\ K s' e0
            /\ exists tx ty m1,
                 near (Size g) x y (tx, ty)
                 /\ matrix_set m0 tx ty e0 = Some m1
                 /\ (arrays s' !! Cells ng = Some m1
                     \/ exists b m2, fresh s b /\ valid_ent s' b /\ K s' b
                          /\ matrix_set m1 x y b = Some m2
                          /\ arrays s' !! Cells ng = Some m2))).

(** The moves that wait in channel [ch], oldest first. *)
Definition waiting (ch : nat) (s : State) : list Move :=
  match chans s !! ch with
  | Some c => buf c
  | None => []
  end.

(** The moves [l] that the processing of the cell of [e0] sends, from store
    [s] to store [s']: each carries a shark, [e0] or an object that is new
    in [s'], and no two carry the same shark. *)
Definition sent_by (s s' : State) (e0 : Entity) (l : list Move) : Prop :=
  NoDup (Ent <$> l)
  /\ Forall (fun mv => is_shark (Ent mv) = true
                       /\ (Ent mv = e0 \/ (fresh s (Ent mv) /\ valid_ent s' (Ent mv)))) l.

(** The moves [l] that the sharks of the cells [cells] send, from store
    [s]: each carries a shark of one of these cells or an object that is
    new, and no two carry the same shark. *)
Definition sent_from (s : State) (m : Matrix) (cells : list (Z * Z))
    (l : list Move) : Prop :=
  NoDup (Ent <$> l)
  /\ Forall (fun mv => is_shark (Ent mv) = true
                       /\ (fresh s (Ent mv)
                           \/ exists c, c ∈ cells /\ matrix_get m c.1 c.2 = Some (Ent mv))) l.

(** [func main()] of [wat-or/main], the version with the channel: a grid
    of side 100 with 100 fish and 100 sharks, and fifty chronons with a fish
    breed age of 3, a shark breed age of 4 and a starvation energy of 4. *)
Definition watorMain (fuel : nat) : M Exit :=
  grid <- NewGrid 100 ;;
  Initialise fuel grid 100 100 ;;
  grid <- simulate 50 (fun g => MoveEntitiesConcurrent g 3 4 4) grid ;;
  '(nf, ns) <- CountEntities grid ;;
  ret (Ran nf ns).

(** The rule of a shark, with the way in which an entity is put into a
    cell of the next grid as a parameter: [processShark] writes to the cell,
    [moveSharksConcurrent] sends a move. *)
Definition sharkRule (put : Z -> Z -> Entity -> M unit) (g : Grid) (shark : nat)
    (x y sharkBreed starveEnergy : Z) : M unit :=
  modifyShark shark (fun k => setSharkEnergy (GoInt.sub (Shark_Energy k) 1) k) ;;
  k <- loadShark shark ;;
  if Shark_Energy k <=? 0 then emit (EvStarved x y)
  else
    '(newX, newY) <- findNearestFish g x y ;;
    (if found newX newY then
       put newX newY (SharkPtr shark) ;;
       modifyShark shark (setSharkEnergy starveEnergy)
     else
       '(newX, newY) <- findEmptyAdjacent g x y ;;
       if found newX newY
       then put newX newY (SharkPtr shark)
       else put x y (SharkPtr shark)) ;;
    modifyShark shark (fun k => setSharkBreed (GoInt.add (Shark_BreedCounter k) 1) k) ;;
    k <- loadShark shark ;;
    if sharkBreed <=? Shark_BreedCounter k then
      baby <- newShark (mkShark 0 starveEnergy) ;;
      put x y (SharkPtr baby) ;;
      emit (EvBorn x y) ;;
      modifyShark shark (setSharkBreed 0)
    else ret tt.

(** The processing of the shark of a cell with its writes made at once, to
    compare the collection of the moves with: [moveSharkCell] with the rule
    of [processShark] in the place of its own. *)
Definition writeSharkCell (g newGrid : Grid) (sharkBreed starveEnergy : Z)
    (x y : Z) : M unit :=
  c <- getCell g x y ;;
  match c with
  | SharkPtr shark => processShark g newGrid shark x y sharkBreed starveEnergy
  | _ => ret tt
  end.

(** The cell array once the moves [l] are applied to it, in order. *)
Fixpoint applyMoves (l : list Move) (m : Matrix) : option Matrix :=
  match l with
  | [] => Some m
  | mv :: l' => m' ← matrix_set m (X mv) (Y mv) (Ent mv); applyMoves l' m'
  end.

(** Store [sa], in which the entities were written to the next grid, and
    store [sb], in which they were sent as moves after the moves [w0]: the
    stores agree on the objects, on the random source and on the other cell
    arrays, and the next grid of [sa] is that of [sb] once the moves sent are
    applied. *)
Definition deferred (ng : Grid) (ch : nat) (w0 : list Move) (sa sb : State) : Prop :=
  fishes sa = fishes sb /\ sharks sa = sharks sb
  /\ draws sa = draws sb /\ drawn sa = drawn sb
  /\ length (arrays sa) = length (arrays sb)
  /\ (forall c, c <> Cells ng -> arrays sa !! c = arrays sb !! c)
  /\ exists l mb, waiting ch sb = w0 ++ l /\ arrays sb !! Cells ng = Some mb
                  /\ arrays sa !! Cells ng = applyMoves l mb.

(** Two computations that keep the stores in this correspondence and
    return the same value. *)
Definition corresponds {A} (ng : Grid) (ch : nat) (w0 : list Move) (ca cb : M A) : Prop :=
  forall sa sb a sa' b sb',
    deferred ng ch w0 sa sb -> ca sa = Done a sa' -> cb sb = Done b sb' ->
    a = b /\ deferred ng ch w0 sa' sb'.

(** A computation that reads the cells of [g] and the random source only,
    and that changes the number of draws consumed only. *)
Definition reader {A} (g : Grid) (c : M A) : Prop :=
  forall sa sb a sa',
    draws sa = draws sb -> drawn sa = drawn sb ->
    arrays sa !! Cells g = arrays sb !! Cells g ->
    c sa = Done a sa' ->
    sa' = set_drawn (drawn sa') sa /\ c sb = Done a (set_drawn (drawn sa') sb).

(** ** The stores of the examples *)

(** A random source all of whose draws are 0, and one whose draws vary. *)
Definition zeros : nat -> Z := fun _ => 0.
Definition sevens : nat -> Z := fun n => Z.of_nat n * 7.

(** The store in which a program starts. *)
Definition empty_store (d : nat -> Z) : State := mkState [] [] [] [] d 0 [].

(** A 3x3 grid with a shark of energy 5 at [(0, 0)] and a fish at [(0, 1)]. *)
Definition feeding_cells : Matrix :=
  [[SharkPtr 0; FishPtr 0; Nil]; [Nil; Nil; Nil]; [Nil; Nil; Nil]].
Definition feeding (d : nat -> Z) : State :=
  mkState [mkFish 0] [mkShark 0 5] [feeding_cells] [] d 0 [].

(** A 3x3 grid with one fish, in the middle. *)
Definition lone_fish_cells : Matrix :=
  [[Nil; Nil; Nil]; [Nil; FishPtr 0; Nil]; [Nil; Nil; Nil]].
Definition lone_fish (d : nat -> Z) : State :=
  mkState [mkFish 0] [] [lone_fish_cells] [] d 0 [].

(** A 3x3 grid with a fish in the middle, about to breed with a breed age
    of 3, and a fish on each of its four neighbours; a random source with
    which the four neighbours move to four different corners. *)
Definition crowded_cells : Matrix :=
  [[Nil; FishPtr 1; Nil]; [FishPtr 2; FishPtr 0; FishPtr 3]; [Nil; FishPtr 4; Nil]].
Definition crowded_draws : nat -> Z :=
  fun n => nth n [3; 2; 1; 3; 2; 0; 3; 2; 1; 3; 2; 1; 2; 2; 1] 0.
Definition crowded : State :=
  mkState [mkFish 2; mkFish 0; mkFish 0; mkFish 0; mkFish 0] [] [crowded_cells] []
    crowded_draws 0 [].

(** The same store once the next grid is allocated. *)
Definition crowded_dispatch : State :=
  set_arrays [crowded_cells; replicate 3 (replicate 3 Nil)] crowded.

(** A 2x2 grid with three fish. *)
Definition packed_cells : Matrix := [[FishPtr 0; Nil]; [FishPtr 1; FishPtr 2]].
Definition packed : State :=
  mkState [mkFish 0; mkFish 0; mkFish 0] [] [packed_cells] [] zeros 0 [].

(** A 2x2 grid with a shark and three fish. *)
Definition hunted_cells : Matrix := [[SharkPtr 0; FishPtr 0]; [FishPtr 1; FishPtr 2]].
Definition hunted : State :=
  mkState [mkFish 0; mkFish 0; mkFish 0] [mkShark 0 5] [hunted_cells] [] zeros 0 [].

(** * Reasoning about runs *)

Section Monad.
Context {A B : Type}.

Lemma bind_Done (m : M A) (k : A -> M B) s b s' :
  bind m k s = Done b s' <-> exists a s1, m s = Done a s1 /\ k a s1 = Done b s'.
Proof.
  unfold bind. destruct (m s) as [a s1|f]; split.
  - intros H. exists a, s1. auto.
  - intros (a' & s1' & E & H). congruence.
  - discriminate.
  - intros (a' & s1' & E & _). discriminate.
Qed.

Lemma bind_run (m : M A) (k : A -> M B) s a s1 :
  m s = Done a s1 -> bind m k s = k a s1.
Proof. unfold bind. intros ->. reflexivity. Qed.

Lemma bind_Fail (m : M A) (k : A -> M B) s f :
  m s = Fail f -> bind m k s = Fail f.
Proof. unfold bind. intros ->. reflexivity. Qed.
End Monad.

Lemma orPanic_Done {A} (o : option A) s a s' :
  orPanic o s = Done a s' <-> o = Some a /\ s' = s.
Proof.
  destruct o; simpl; unfold ret, fail; split; intros H.
  - inversion H; auto.
  - destruct H as [H ->]. inversion H. reflexivity.
  - discriminate.
  - destruct H; discriminate.
Qed.

Lemma orPanic_Some {A} (a : A) s : orPanic (Some a) s = Done a s.
Proof. reflexivity. Qed.

(** Loops. *)

Lemma forList_app {A} (l1 l2 : list A) body s :
  forList (l1 ++ l2) body s = (forList l1 body ;; forList l2 body) s.
Proof.
  revert s. induction l1 as [|a l1 IH]; intros s; simpl.
  - reflexivity.
  - unfold bind. destruct (body a s) as [[] s1|f]; [|reflexivity].
    rewrite IH. reflexivity.
Qed.

(** A nest of two loops visits the cells of [cellsOf] in order. *)
Lemma forRange_nest lo hi n (f : Z -> Z -> M unit) s :
  forRange lo hi (fun x => forRange 0 n (fun y => f x y)) s
  = forList (cellsOf lo hi n) (fun c => f c.1 c.2) s.
Proof.
  unfold forRange, cellsOf. rewrite Z.sub_0_r. generalize (seqZ lo (hi - lo)) as rows.
  intros rows. revert s. induction rows as [|x rows IH]; intros s.
  - reflexivity.
  - change ((x :: rows) ≫= (fun x0 => seqZ 0 n ≫= (fun y => [(x0, y)])))
      with ((seqZ 0 n ≫= (fun y => [(x, y)]))
              ++ (rows ≫= (fun x0 => seqZ 0 n ≫= (fun y => [(x0, y)])))).
    rewrite forList_app. simpl. unfold bind.
    assert (E : forall l s0, forList l (fun y => f x y) s0
                = forList (l ≫= (fun y => [(x, y)])) (fun c => f c.1 c.2) s0).
    { clear. induction l as [|y l IHl]; intros s0; [reflexivity|].
      simpl. unfold bind. destruct (f x y s0); [apply IHl | reflexivity]. }
    rewrite <- E.
    destruct (forList (seqZ 0 n) (fun y => f x y) s) as [[] s1|]; [apply IH | reflexivity].
Qed.

(** An invariant of a loop whose body returns on every element: the loop
    returns, and the invariant holds at the end. *)
Lemma forList_total {A} (I : State -> Prop) (l : list A) body :
  (forall a s, a ∈ l -> I s -> exists s', body a s = Done tt s' /\ I s') ->
  forall s, I s -> exists s', forList l body s = Done tt s' /\ I s'.
Proof.
  induction l as [|a l IH]; intros Hb s Hs; simpl.
  - exists s. auto.
  - destruct (Hb a s) as (s1 & E & H1); [left | assumption |].
    rewrite (bind_run _ _ _ _ _ E).
    apply IH; [|assumption]. intros a' s0 Ha'. apply Hb. right. assumption.
Qed.

(** An invariant of a loop, with a measure [f] that step [a] raises by
    [w a]: if the loop returns, the measure was raised by the sum. *)
Lemma forList_measure {A} (I : State -> Prop) (f : State -> Z) (w : A -> Z)
    (l : list A) body :
  (forall a s s', a ∈ l -> I s -> body a s = Done tt s' -> I s' /\ f s' = f s + w a) ->
  forall s s', I s -> forList l body s = Done tt s' ->
    I s' /\ f s' = f s + sumZ w l.
Proof.
  unfold sumZ. induction l as [|a l IH]; intros Hb s s' Hs H; simpl in *.
  - inversion H; subst. split; [assumption | lia].
  - apply bind_Done in H. destruct H as ([] & s1 & E1 & E2).
    destruct (Hb a s s1) as [H1 F1]; [left | assumption | assumption |].
    destruct (IH (fun a' s0 s0' Ha' => Hb a' s0 s0' (list_elem_of_further _ _ _ Ha')) s1 s' H1 E2)
      as [H2 F2].
    split; [assumption | lia].
Qed.

(** Two loops whose bodies agree while an invariant holds. *)
Lemma forList_ext {A} (I : State -> Prop) (l : list A) body1 body2 :
  (forall a s, a ∈ l -> I s -> body1 a s = body2 a s) ->
  (forall a s s', a ∈ l -> I s -> body1 a s = Done tt s' -> I s') ->
  forall s, I s -> forList l body1 s = forList l body2 s.
Proof.
  induction l as [|a l IH]; intros He Hp s Hs; simpl.
  - reflexivity.
  - unfold bind. rewrite <- (He a s); [|left|assumption].
    destruct (body1 a s) as [[] s1|] eqn:E; [|reflexivity].
    apply IH.
    + intros a' s0 Ha'. apply He. right. assumption.
    + intros a' s0 s0' Ha'. apply Hp. right. assumption.
    + apply (Hp a s s1); [left | assumption | assumption].
Qed.

(** ** Go's [int] *)

Lemma wrap_id z : GoInt.in_range z -> GoInt.wrap z = z.
Proof.
  unfold GoInt.in_range, GoInt.min_int, GoInt.max_int, GoInt.wrap.
  intros H. rewrite Z.mod_small; lia.
Qed.

Lemma wrap_in_range z : GoInt.in_range (GoInt.wrap z).
Proof.
  unfold GoInt.in_range, GoInt.min_int, GoInt.max_int, GoInt.wrap.
  pose proof (Z.mod_pos_bound (z + 2 ^ 63) (2 ^ 64) ltac:(lia)). lia.
Qed.

Lemma add_id a b : GoInt.in_range (a + b) -> GoInt.add a b = a + b.
Proof. apply wrap_id. Qed.

Lemma sub_id a b : GoInt.in_range (a - b) -> GoInt.sub a b = a - b.
Proof. apply wrap_id. Qed.

Lemma mul_id a b : GoInt.in_range (a * b) -> GoInt.mul a b = a * b.
Proof. apply wrap_id. Qed.

(** * The row ranges of the workers *)

Section RowRanges.
Variables N threads : Z.
Hypothesis HN : 1 <= N <= GoInt.max_int.
Hypothesis Ht : 1 <= threads <= GoInt.max_int.

Let rpt := rowsPerThreadOf N threads.

Lemma rowsPerThread_eq : GoInt.div N threads = Some rpt.
Proof.
  unfold GoInt.div. destruct (Z.eqb_spec threads 0) as [E|_]; [lia|].
  f_equal. apply wrap_id. unfold rpt, rowsPerThreadOf, GoInt.in_range, GoInt.min_int, GoInt.max_int in *.
  rewrite Z.quot_div_nonneg by lia.
  pose proof (Z.div_pos N threads ltac:(lia) ltac:(lia)).
  pose proof (Z.div_le_upper_bound N threads N ltac:(lia) ltac:(nia)). lia.
Qed.

Lemma rowsPerThread_bounds : 0 <= rpt /\ threads * rpt <= N < threads * (rpt + 1).
Proof.
  unfold rpt, rowsPerThreadOf. rewrite Z.quot_div_nonneg by lia.
  pose proof (Z.div_pos N threads ltac:(lia) ltac:(lia)).
  pose proof (Z.mul_div_le N threads ltac:(lia)).
  pose proof (Z.mul_succ_div_gt N threads ltac:(lia)). lia.
Qed.

Lemma startRowOf_eq i : 0 <= i < threads -> startRowOf rpt i = i * rpt.
Proof.
  intros Hi. unfold startRowOf. apply mul_id.
  pose proof rowsPerThread_bounds.
  unfold GoInt.in_range, GoInt.min_int, GoInt.max_int in *. nia.
Qed.

Lemma endRowOf_eq i :
  0 <= i < threads ->
  endRowOf N threads rpt i = if decide (i = threads - 1) then N else (i + 1) * rpt.
Proof.
  intros Hi. unfold endRowOf. rewrite sub_id
    by (unfold GoInt.in_range, GoInt.min_int, GoInt.max_int in *; lia).
  destruct (Z.eqb_spec i (threads - 1)) as [E|E]; destruct (decide _); try lia.
  rewrite startRowOf_eq by assumption. pose proof rowsPerThread_bounds.
  rewrite add_id; [lia|].
  unfold GoInt.in_range, GoInt.min_int, GoInt.max_int in *. nia.
Qed.

Lemma row_range_bounds i :
  0 <= i < threads ->
  0 <= startRowOf rpt i <= endRowOf N threads rpt i /\ endRowOf N threads rpt i <= N.
Proof.
  intros Hi. rewrite startRowOf_eq, endRowOf_eq by assumption.
  pose proof rowsPerThread_bounds. destruct (decide _); nia.
Qed.

Lemma row_range_contiguous i :
  0 <= i < threads - 1 -> endRowOf N threads rpt i = startRowOf rpt (i + 1).
Proof.
  intros Hi. rewrite startRowOf_eq, endRowOf_eq by lia.
  destruct (decide _); lia.
Qed.

Lemma row_range_owner r :
  0 <= r < N ->
  exists i, (0 <= i < threads /\ startRowOf rpt i <= r < endRowOf N threads rpt i)
    /\ forall j, 0 <= j < threads ->
         startRowOf rpt j <= r < endRowOf N threads rpt j -> j = i.
Proof.
  intros Hr. pose proof rowsPerThread_bounds as Hb.
  assert (Hex : exists i, 0 <= i < threads /\ i * rpt <= r
                  /\ (i <> threads - 1 -> r < (i + 1) * rpt)).
  { destruct (decide (rpt = 0)) as [E|E].
    - exists (threads - 1). rewrite E. lia.
    - pose proof (Z.div_pos r rpt ltac:(lia) ltac:(lia)).
      pose proof (Z.mul_div_le r rpt ltac:(lia)).
      pose proof (Z.mul_succ_div_gt r rpt ltac:(lia)).
      destruct (decide (r / rpt < threads - 1)).
      + exists (r / rpt). lia.
      + exists (threads - 1). nia. }
  destruct Hex as (i & Hi & Hlo & Hhi). exists i. split.
  - split; [assumption|]. rewrite startRowOf_eq, endRowOf_eq by assumption.
    destruct (decide _); lia.
  - intros j Hj. rewrite startRowOf_eq, endRowOf_eq by assumption.
    destruct (decide (j = threads - 1)); intros Hjr.
    + destruct (decide (i = threads - 1)); [lia|]. specialize (Hhi ltac:(assumption)). nia.
    + destruct (decide (i = threads - 1)); [nia|]. specialize (Hhi ltac:(assumption)). nia.
Qed.
End RowRanges.

(** C7.  For a grid of side [N >= 1] and [threads >= 1] workers, the row
    ranges [[startRow, endRow)] that [MoveEntitiesWithThreads] hands to its
    workers are contiguous and do not overlap, and their union is all the
    rows: the first range starts at row 0, each range ends where the next
    one starts, the last one ends at [N] (it takes the remainder), and every
    row of [[0, N)] lies in the range of exactly one worker. *)
Theorem row_partition_covers (N threads : Z) :
  1 <= N <= GoInt.max_int ->
  1 <= threads <= GoInt.max_int ->
  exists rowsPerThread,
    GoInt.div N threads = Some rowsPerThread
    /\ startRowOf rowsPerThread 0 = 0
    /\ endRowOf N threads rowsPerThread (threads - 1) = N
    /\ (forall i, 0 <= i < threads ->
          0 <= startRowOf rowsPerThread i <= endRowOf N threads rowsPerThread i
          /\ endRowOf N threads rowsPerThread i <= N)
    /\ (forall i, 0 <= i < threads - 1 ->
          endRowOf N threads rowsPerThread i = startRowOf rowsPerThread (i + 1))
    /\ (forall r, 0 <= r < N ->
          exists i,
            (0 <= i < threads
             /\ startRowOf rowsPerThread i <= r < endRowOf N threads rowsPerThread i)
            /\ forall j, 0 <= j < threads ->
                 startRowOf rowsPerThread j <= r < endRowOf N threads rowsPerThread j ->
                 j = i).
Proof.
  intros HN Ht. exists (rowsPerThreadOf N threads). split; [|split; [|split; [|split; [|split]]]].
  - apply rowsPerThread_eq; assumption.
  - rewrite startRowOf_eq by lia. lia.
  - rewrite endRowOf_eq by lia. destruct (decide _); lia.
  - intros i. apply row_range_bounds; assumption.
  - intros i. apply row_range_contiguous; assumption.
  - intros r. apply row_range_owner; assumption.
Qed.

(** The partition of 10 rows among 3 workers. *)
Lemma row_partition_covers_witness :
  exists rowsPerThread,
    GoInt.div 10 3 = Some rowsPerThread
    /\ startRowOf rowsPerThread 0 = 0
    /\ endRowOf 10 3 rowsPerThread (3 - 1) = 10
    /\ (forall i, 0 <= i < 3 ->
          0 <= startRowOf rowsPerThread i <= endRowOf 10 3 rowsPerThread i
          /\ endRowOf 10 3 rowsPerThread i <= 10)
    /\ (forall i, 0 <= i < 3 - 1 ->
          endRowOf 10 3 rowsPerThread i = startRowOf rowsPerThread (i + 1))
    /\ (forall r, 0 <= r < 10 ->
          exists i,
            (0 <= i < 3
             /\ startRowOf rowsPerThread i <= r < endRowOf 10 3 rowsPerThread i)
            /\ forall j, 0 <= j < 3 ->
                 startRowOf rowsPerThread j <= r < endRowOf 10 3 rowsPerThread j ->
                 j = i).
Proof.
  apply (row_partition_covers 10 3); unfold GoInt.max_int; lia.
Defined.

(** * Slices, cell arrays and the primitives of the store *)

Lemma index_Some {A} (l : list A) i a :
  index l i = Some a <-> 0 <= i /\ l !! Z.to_nat i = Some a.
Proof.
  unfold index. destruct (Z.ltb_spec i 0) as [Hi|Hi]; split; intros H; try discriminate.
  - destruct H. lia.
  - split; [lia | assumption].
  - apply H.
Qed.

Lemma index_in_range {A} (l : list A) i :
  0 <= i < Z.of_nat (length l) -> exists a, index l i = Some a.
Proof.
  intros H. destruct (lookup_lt_is_Some_2 l (Z.to_nat i) ltac:(lia)) as [a Ha].
  exists a. apply index_Some. split; [lia | assumption].
Qed.

Lemma update_Some {A} (l : list A) i v l' :
  update l i v = Some l' <->
  0 <= i /\ (Z.to_nat i < length l)%nat /\ l' = <[Z.to_nat i := v]> l.
Proof.
  unfold update. destruct (Z.ltb_spec i 0) as [Hi|Hi].
  - split; [discriminate | lia].
  - destruct (Nat.ltb_spec (Z.to_nat i) (length l)) as [Hl|Hl]; split; intros H'.
    + inversion H'. auto.
    + destruct H' as (_ & _ & ->). reflexivity.
    + discriminate.
    + lia.
Qed.

Lemma matrix_get_Some m x y e :
  matrix_get m x y = Some e <->
  exists row, index m x = Some row /\ index row y = Some e.
Proof.
  unfold matrix_get. destruct (index m x) as [row|]; simpl; split.
  - intros H. exists row. auto.
  - intros (row' & E & H). congruence.
  - discriminate.
  - intros (row' & E & _). discriminate.
Qed.

Lemma matrix_set_Some m x y e m' :
  matrix_set m x y e = Some m' <->
  exists row, index m x = Some row /\ 0 <= y /\ (Z.to_nat y < length row)%nat
              /\ m' = <[Z.to_nat x := <[Z.to_nat y := e]> row]> m.
Proof.
  unfold matrix_set. destruct (index m x) as [row|] eqn:E; simpl.
  - destruct (update row y e) as [row'|] eqn:E'; simpl.
    + apply update_Some in E'. destruct E' as (Hy & Hl & ->).
      apply index_Some in E. destruct E as [Hx E].
      pose proof (lookup_lt_Some _ _ _ E).
      split.
      * intros H'. apply update_Some in H'. destruct H' as (_ & _ & ->). eauto.
      * intros (row2 & E2 & _ & _ & ->). inversion E2; subst.
        apply update_Some. auto.
    + split; [discriminate|]. intros (row2 & E2 & Hy & Hl & _).
      inversion E2; subst. assert (update row2 y e = Some (<[Z.to_nat y := e]> row2))
        by (apply update_Some; auto). congruence.
  - split; [discriminate|]. intros (row2 & E2 & _). discriminate.
Qed.

Lemma matrix_get_shape n m x y :
  shape n m -> 0 <= x < n -> 0 <= y < n -> exists e, matrix_get m x y = Some e.
Proof.
  intros [Hl Hr] Hx Hy.
  destruct (index_in_range m x ltac:(lia)) as [row Hrow].
  pose proof Hrow as Hrow'. apply index_Some in Hrow'. destruct Hrow' as [_ Hrow'].
  rewrite Forall_lookup in Hr. specialize (Hr _ _ Hrow').
  destruct (index_in_range row y ltac:(lia)) as [e He].
  exists e. apply matrix_get_Some. eauto.
Qed.

Lemma matrix_set_shape n m x y e :
  shape n m -> 0 <= x < n -> 0 <= y < n ->
  exists m', matrix_set m x y e = Some m' /\ shape n m'.
Proof.
  intros [Hl Hr] Hx Hy.
  destruct (index_in_range m x ltac:(lia)) as [row Hrow].
  pose proof Hrow as Hrow'. apply index_Some in Hrow'. destruct Hrow' as [_ Hrow'].
  pose proof Hr as Hr'. rewrite Forall_lookup in Hr'. specialize (Hr' _ _ Hrow').
  eexists. split.
  - apply matrix_set_Some. exists row. repeat split; [assumption | lia | lia].
  - split; [rewrite length_insert; assumption|].
    apply Forall_insert; [assumption|]. cbv beta. rewrite length_insert. assumption.
Qed.

Lemma matrix_get_valid s m x y e :
  valid_matrix s m -> matrix_get m x y = Some e -> valid_ent s e.
Proof.
  intros Hv H. apply matrix_get_Some in H. destruct H as (row & H1 & H2).
  apply index_Some in H1, H2. destruct H1 as [_ H1], H2 as [_ H2].
  unfold valid_matrix in Hv. rewrite Forall_lookup in Hv.
  specialize (Hv _ _ H1). rewrite Forall_lookup in Hv. exact (Hv _ _ H2).
Qed.

Lemma matrix_set_valid s m x y e m' :
  valid_matrix s m -> valid_ent s e -> matrix_set m x y e = Some m' ->
  valid_matrix s m'.
Proof.
  intros Hv He H. apply matrix_set_Some in H. destruct H as (row & H1 & _ & _ & ->).
  apply index_Some in H1. destruct H1 as [_ H1].
  apply Forall_insert; [assumption|].
  apply Forall_insert; [|assumption].
  unfold valid_matrix in Hv. rewrite Forall_lookup in Hv. exact (Hv _ _ H1).
Qed.

Lemma matrix_get_set m x y e m' x' y' :
  matrix_set m x y e = Some m' ->
  matrix_get m' x' y' = if decide ((x', y') = (x, y)) then Some e else matrix_get m x' y'.
Proof.
  intros H. apply matrix_set_Some in H. destruct H as (row & H1 & Hy & Hl & ->).
  apply index_Some in H1. destruct H1 as [Hx H1].
  pose proof (lookup_lt_Some _ _ _ H1) as Hlx.
  unfold matrix_get, index.
  destruct (Z.ltb_spec x' 0) as [Hx'|Hx'].
  { destruct (decide _) as [E|E]; [inversion E; lia | reflexivity]. }
  destruct (decide (x' = x)) as [->|Nx].
  - rewrite list_lookup_insert_eq by assumption. rewrite H1. simpl.
    destruct (Z.ltb_spec y' 0) as [Hy'|Hy'].
    { destruct (decide _) as [E|E]; [inversion E; lia | reflexivity]. }
    destruct (decide (y' = y)) as [->|Ny].
    + rewrite list_lookup_insert_eq by assumption.
      destruct (decide _); [reflexivity | congruence].
    + rewrite list_lookup_insert_ne by lia.
      destruct (decide _) as [E|E]; [inversion E; lia | reflexivity].
  - rewrite list_lookup_insert_ne by lia.
    destruct (decide _) as [E|E]; [inversion E; lia | reflexivity].
Qed.

(** The primitives: when they return, and what they leave. *)

Lemma getCell_Done g x y s e s' :
  getCell g x y s = Done e s' <->
  s' = s /\ exists m, arrays s !! Cells g = Some m /\ matrix_get m x y = Some e.
Proof.
  unfold getCell. rewrite orPanic_Done.
  destruct (arrays s !! Cells g) as [m|]; simpl; split.
  - intros [H ->]. eauto.
  - intros [-> (m' & E & H)]. inversion E; subst. auto.
  - intros [H _]. discriminate.
  - intros [_ (m' & E & _)]. discriminate.
Qed.

Lemma getCell_run g x y s m e :
  arrays s !! Cells g = Some m -> matrix_get m x y = Some e ->
  getCell g x y s = Done e s.
Proof. intros H1 H2. apply getCell_Done. eauto. Qed.

Lemma setCell_Done g x y e s u s' :
  setCell g x y e s = Done u s' <->
  exists m old m', arrays s !! Cells g = Some m /\ matrix_get m x y = Some old
                   /\ matrix_set m x y e = Some m' /\ s' = written g x y old m' s.
Proof.
  unfold setCell, written. destruct (arrays s !! Cells g) as [m|]; split.
  - destruct (matrix_get m x y) as [old|] eqn:E1; [|discriminate].
    destruct (matrix_set m x y e) as [m'|] eqn:E2; [|discriminate].
    intros H. exists m, old, m'. do 3 (split; [reflexivity || assumption|]).
    destruct (is_nil old); unfold emit in H; inversion H; subst; clear H;
      destruct s; reflexivity.
  - intros (m0 & old & m' & E & E1 & E2 & ->). inversion E; subst m0.
    rewrite E1, E2. destruct u.
    destruct (is_nil old); unfold emit; destruct s; reflexivity.
  - discriminate.
  - intros (m0 & old & m' & E & _). discriminate.
Qed.

Lemma loadFish_Done p s f s' :
  loadFish p s = Done f s' <-> s' = s /\ fishes s !! p = Some f.
Proof. unfold loadFish. rewrite orPanic_Done. tauto. Qed.

Lemma loadShark_Done p s k s' :
  loadShark p s = Done k s' <-> s' = s /\ sharks s !! p = Some k.
Proof. unfold loadShark. rewrite orPanic_Done. tauto. Qed.

Lemma modifyFish_Done p f s u s' :
  modifyFish p f s = Done u s' <->
  exists o, fishes s !! p = Some o /\ s' = set_fishes (<[p := f o]> (fishes s)) s.
Proof.
  unfold modifyFish. rewrite bind_Done. split.
  - intros (o & s1 & H1 & H2). apply loadFish_Done in H1. destruct H1 as [-> H1].
    exists o. split; [assumption|]. unfold storeFish in H2.
    destruct (Nat.ltb_spec p (length (fishes s))); inversion H2. reflexivity.
  - intros (o & H1 & ->). exists o, s. split; [apply loadFish_Done; auto|].
    unfold storeFish. pose proof (lookup_lt_Some _ _ _ H1).
    destruct (Nat.ltb_spec p (length (fishes s))); [destruct u; reflexivity | lia].
Qed.

Lemma modifyShark_Done p f s u s' :
  modifyShark p f s = Done u s' <->
  exists o, sharks s !! p = Some o /\ s' = set_sharks (<[p := f o]> (sharks s)) s.
Proof.
  unfold modifyShark. rewrite bind_Done. split.
  - intros (o & s1 & H1 & H2). apply loadShark_Done in H1. destruct H1 as [-> H1].
    exists o. split; [assumption|]. unfold storeShark in H2.
    destruct (Nat.ltb_spec p (length (sharks s))); inversion H2. reflexivity.
  - intros (o & H1 & ->). exists o, s. split; [apply loadShark_Done; auto|].
    unfold storeShark. pose proof (lookup_lt_Some _ _ _ H1).
    destruct (Nat.ltb_spec p (length (sharks s))); [destruct u; reflexivity | lia].
Qed.

Lemma bind_Intn {B} n (k : Z -> M B) s :
  0 < n ->
  bind (Intn n) k s = k (draws s (drawn s) mod n) (set_drawn (S (drawn s)) s).
Proof.
  intros Hn. unfold bind, Intn. destruct (Z.leb_spec n 0); [lia | reflexivity].
Qed.

Lemma small_cases (z n : Z) :
  0 <= z < n -> exists a, z = Z.of_nat a /\ (a < Z.to_nat n)%nat.
Proof. intros H. exists (Z.to_nat z). lia. Qed.

(** A shuffle of the four directions takes three draws and returns the
    four directions in some order. *)
Lemma Shuffle_directions s :
  exists l, Shuffle directions s = Done l (set_drawn (S (S (S (drawn s)))) s)
            /\ l ≡ₚ directions.
Proof.
  unfold Shuffle, directions. cbn [length Nat.sub shuffleFrom].
  rewrite bind_Intn by lia.
  destruct (small_cases (draws s (drawn s) mod (Z.of_nat 3 + 1)) 4) as (a3 & -> & L3);
    [apply Z.mod_pos_bound; lia|].
  rewrite Nat2Z.id.
  destruct a3 as [|[|[|[|]]]]; [| | | |simpl in L3; lia];
    cbn [swap lookup list_lookup mbind option_bind insert list_insert orPanic bind ret];
    rewrite bind_Intn by lia; cbn [draws drawn set_drawn];
    (destruct (small_cases (draws s (S (drawn s)) mod (Z.of_nat 2 + 1)) 3) as (a2 & -> & L2);
      [apply Z.mod_pos_bound; lia|]);
    rewrite Nat2Z.id;
    (destruct a2 as [|[|[|]]]; [| | |simpl in L2; lia]);
    cbn [swap lookup list_lookup mbind option_bind insert list_insert orPanic bind ret];
    rewrite bind_Intn by lia; cbn [draws drawn set_drawn];
    (destruct (small_cases (draws s (S (S (drawn s))) mod (Z.of_nat 1 + 1)) 2) as (a1 & -> & L1);
      [apply Z.mod_pos_bound; lia|]);
    rewrite Nat2Z.id;
    (destruct a1 as [|[|]]; [| |simpl in L1; lia]);
    cbn [swap lookup list_lookup mbind option_bind insert list_insert orPanic bind ret];
    (eexists; split; [reflexivity|]); solve_Permutation.
Qed.

(** A property of all the cells holds of the cell that a lookup returns. *)
Lemma matrix_get_Forall (P : Entity -> Prop) m x y e :
  Forall (Forall P) m -> matrix_get m x y = Some e -> P e.
Proof.
  intros Hall H. apply matrix_get_Some in H. destruct H as (row & H1 & H2).
  apply index_Some in H1, H2. destruct H1 as [_ H1], H2 as [_ H2].
  apply (proj1 (Forall_lookup _ _) (proj1 (Forall_lookup _ _) Hall _ _ H1) _ _ H2).
Qed.

(** The side conditions on a grid of a store that is known. *)
Ltac known_grid :=
  lazymatch goal with
  | |- valid_side _ => unfold valid_side, maxAlloc; simpl; lia
  | |- _ <= _ <= GoInt.max_int => unfold GoInt.max_int; simpl; lia
  | |- _ <= GoInt.max_int => unfold GoInt.max_int; simpl; lia
  | |- in_grid _ _ => unfold in_grid; simpl; lia
  | |- shape _ _ => split; [reflexivity | repeat constructor]
  | |- valid_matrix _ _ => repeat (constructor; simpl; try lia)
  | |- grid_at _ _ _ =>
      split; [reflexivity | split; [split; [reflexivity | repeat constructor]
                                   | repeat (constructor; simpl; try lia)]]
  | |- _ !! _ = Some _ => reflexivity
  end.

(** * The neighbour scans *)

Lemma directions_cardinal d :
  d ∈ directions -> -1 <= d.1 <= 1 /\ -1 <= d.2 <= 1.
Proof.
  unfold directions. rewrite !elem_of_cons, elem_of_nil.
  intros [->|[->|[->|[->|[]]]]]; simpl; lia.
Qed.

Lemma wrapCoord_eq n x d :
  valid_side n -> 0 <= x < n -> -1 <= d <= 1 ->
  wrapCoord n x d = Some ((x + d) mod n).
Proof.
  unfold valid_side, maxAlloc. intros [Hn Hm] Hx Hd.
  unfold wrapCoord, GoInt.rem. destruct (Z.eqb_spec n 0) as [E|_]; [lia|].
  rewrite (add_id x d)
    by (unfold GoInt.in_range, GoInt.min_int, GoInt.max_int; lia).
  rewrite add_id by (unfold GoInt.in_range, GoInt.min_int, GoInt.max_int; lia).
  rewrite Z.rem_mod_nonneg by lia.
  f_equal. replace (x + d + n) with (x + d + 1 * n) by lia. apply Z_mod_plus_full.
Qed.

Lemma wrapCoord_shift n x d :
  valid_side n -> 0 <= x < n -> -1 <= d <= 1 ->
  wrapCoord n (x + n) d = wrapCoord n x d.
Proof.
  intros Hv Hx Hd. rewrite (wrapCoord_eq n x d) by assumption.
  unfold valid_side, maxAlloc in Hv. destruct Hv as [Hn Hm].
  unfold wrapCoord, GoInt.rem. destruct (Z.eqb_spec n 0) as [E|_]; [lia|].
  rewrite (add_id (x + n) d)
    by (unfold GoInt.in_range, GoInt.min_int, GoInt.max_int; lia).
  rewrite add_id by (unfold GoInt.in_range, GoInt.min_int, GoInt.max_int; lia).
  rewrite Z.rem_mod_nonneg by lia.
  f_equal. replace (x + n + d + n) with (x + d + 2 * n) by lia. apply Z_mod_plus_full.
Qed.

Lemma neighbour_in_grid n x y d : 0 < n -> in_grid n (neighbour n x y d).
Proof.
  intros Hn. unfold in_grid, neighbour. simpl.
  split; apply Z.mod_pos_bound; assumption.
Qed.

Lemma found_in_grid n r : in_grid n r -> found r.1 r.2 = true.
Proof.
  unfold in_grid, found. intros [H1 H2].
  destruct (Z.eqb_spec r.1 (-1)); [lia|]. destruct (Z.eqb_spec r.2 (-1)); [lia|].
  reflexivity.
Qed.

Lemma scanEmpty_scanWith g x y dirs : scanEmpty g x y dirs = scanWith is_nil g x y dirs.
Proof.
  induction dirs as [|[dx dy] rest IH]; [reflexivity|]. simpl. rewrite IH. reflexivity.
Qed.

Lemma scanFish_scanWith g x y dirs : scanFish g x y dirs = scanWith is_fish g x y dirs.
Proof.
  induction dirs as [|[dx dy] rest IH]; [reflexivity|]. simpl. rewrite IH. reflexivity.
Qed.

(** A scan reads the grid and leaves the store as it is. *)
Lemma scanWith_state p g x y dirs s r s' :
  scanWith p g x y dirs s = Done r s' -> s' = s.
Proof.
  revert s. induction dirs as [|[dx dy] rest IH]; intros s H; simpl in H.
  - inversion H. reflexivity.
  - apply bind_Done in H. destruct H as (nx & s1 & H1 & H).
    apply orPanic_Done in H1. destruct H1 as [_ ->].
    apply bind_Done in H. destruct H as (ny & s2 & H2 & H).
    apply orPanic_Done in H2. destruct H2 as [_ ->].
    apply bind_Done in H. destruct H as (c & s3 & H3 & H).
    apply getCell_Done in H3. destruct H3 as [-> _].
    destruct (p c); [inversion H; reflexivity | apply IH; assumption].
Qed.

(** On a square grid a scan returns: no lookup is out of range. *)
Lemma scanWith_run p g m x y dirs s :
  valid_side (Size g) -> arrays s !! Cells g = Some m -> shape (Size g) m ->
  in_grid (Size g) (x, y) ->
  (forall d, d ∈ dirs -> d ∈ directions) ->
  exists r, scanWith p g x y dirs s = Done r s
    /\ ((r = (-1, -1)
         /\ forall d, d ∈ dirs ->
              exists e, matrix_get m (neighbour (Size g) x y d).1
                                     (neighbour (Size g) x y d).2 = Some e
                        /\ p e = false)
        \/ (exists d e, d ∈ dirs /\ r = neighbour (Size g) x y d
                        /\ matrix_get m r.1 r.2 = Some e /\ p e = true)).
Proof.
  intros Hv Hm Hs [Hx Hy] Hd. simpl in Hx, Hy.
  induction dirs as [|[dx dy] rest IH].
  - exists (-1, -1). split; [reflexivity|]. left. split; [reflexivity|].
    intros d Hin. apply elem_of_nil in Hin. destruct Hin.
  - destruct (directions_cardinal (dx, dy)) as [Hdx Hdy]; [apply Hd; left|].
    simpl in Hdx, Hdy. cbn [scanWith].
    rewrite (wrapCoord_eq _ x dx), (wrapCoord_eq _ y dy) by assumption.
    rewrite (bind_run _ _ _ _ _ (orPanic_Some _ _)).
    rewrite (bind_run _ _ _ _ _ (orPanic_Some _ _)).
    pose proof (neighbour_in_grid (Size g) x y (dx, dy) (proj1 Hv)) as [Hnx Hny].
    simpl in Hnx, Hny.
    destruct (matrix_get_shape _ _ _ _ Hs Hnx Hny) as [e He].
    rewrite (bind_run _ _ _ _ _ (getCell_run _ _ _ _ _ _ Hm He)).
    destruct (p e) eqn:Hp.
    + eexists. split; [reflexivity|]. right. exists (dx, dy), e.
      split; [left|]. split; [reflexivity|]. split; assumption.
    + destruct IH as (r & Hr & Hcases).
      { intros d Hin. apply Hd. right. assumption. }
      exists r. split; [assumption|].
      destruct Hcases as [[-> Hall]|(d & e' & Hin & -> & Hg & Hp')].
      * left. split; [reflexivity|]. intros d Hin.
        apply elem_of_cons in Hin. destruct Hin as [->|Hin]; [|auto].
        exists e. split; assumption.
      * right. exists d, e'. split; [right; assumption|]. auto.
Qed.

Lemma scan_directions_run p g m x y s :
  valid_side (Size g) -> arrays s !! Cells g = Some m -> shape (Size g) m ->
  in_grid (Size g) (x, y) ->
  exists r, (dirs <- Shuffle directions ;; scanWith p g x y dirs) s
            = Done r (set_drawn (S (S (S (drawn s)))) s)
    /\ scan_result p (Size g) m x y r.
Proof.
  intros Hv Hm Hs Hxy.
  destruct (Shuffle_directions s) as (l & Hl & Hperm).
  rewrite (bind_run _ _ _ _ _ Hl).
  destruct (scanWith_run p g m x y l (set_drawn (S (S (S (drawn s)))) s))
    as (r & Hr & Hcases); try assumption.
  { intros d Hin. rewrite <- Hperm. assumption. }
  exists r. split; [assumption|].
  destruct Hcases as [[-> Hall]|(d & e & Hin & -> & Hg & Hp)].
  - left. split; [reflexivity|]. intros d Hin. apply Hall. rewrite Hperm. assumption.
  - right. exists d, e. rewrite <- Hperm. auto.
Qed.

Lemma findEmptyAdjacent_run g m x y s :
  valid_side (Size g) -> arrays s !! Cells g = Some m -> shape (Size g) m ->
  in_grid (Size g) (x, y) ->
  exists r, findEmptyAdjacent g x y s = Done r (set_drawn (S (S (S (drawn s)))) s)
    /\ scan_result is_nil (Size g) m x y r.
Proof.
  intros Hv Hm Hs Hxy. unfold findEmptyAdjacent.
  destruct (scan_directions_run is_nil g m x y s Hv Hm Hs Hxy) as (r & Hr & Hres).
  exists r. split; [|assumption]. rewrite <- Hr. unfold bind.
  destruct (Shuffle directions s); [|reflexivity]. rewrite scanEmpty_scanWith. reflexivity.
Qed.

Lemma findNearestFish_run g m x y s :
  valid_side (Size g) -> arrays s !! Cells g = Some m -> shape (Size g) m ->
  in_grid (Size g) (x, y) ->
  exists r, findNearestFish g x y s = Done r (set_drawn (S (S (S (drawn s)))) s)
    /\ scan_result is_fish (Size g) m x y r.
Proof.
  intros Hv Hm Hs Hxy. unfold findNearestFish.
  destruct (scan_directions_run is_fish g m x y s Hv Hm Hs Hxy) as (r & Hr & Hres).
  exists r. split; [|assumption]. rewrite <- Hr. unfold bind.
  destruct (Shuffle directions s); [|reflexivity]. rewrite scanFish_scanWith. reflexivity.
Qed.

(** Whenever a scan returns, it has taken three draws and changed nothing
    else. *)
Lemma findEmptyAdjacent_state g x y s r s' :
  findEmptyAdjacent g x y s = Done r s' -> s' = set_drawn (S (S (S (drawn s)))) s.
Proof.
  unfold findEmptyAdjacent. intros H. apply bind_Done in H.
  destruct H as (l & s1 & H1 & H2).
  destruct (Shuffle_directions s) as (l' & Hl & _). rewrite Hl in H1.
  inversion H1; subst. rewrite scanEmpty_scanWith in H2.
  exact (scanWith_state _ _ _ _ _ _ _ _ H2).
Qed.

Lemma findNearestFish_state g x y s r s' :
  findNearestFish g x y s = Done r s' -> s' = set_drawn (S (S (S (drawn s)))) s.
Proof.
  unfold findNearestFish. intros H. apply bind_Done in H.
  destruct H as (l & s1 & H1 & H2).
  destruct (Shuffle_directions s) as (l' & Hl & _). rewrite Hl in H1.
  inversion H1; subst. rewrite scanFish_scanWith in H2.
  exact (scanWith_state _ _ _ _ _ _ _ _ H2).
Qed.

Lemma scan_result_cases p n m x y r :
  0 < n -> scan_result p n m x y r ->
  (r = (-1, -1) /\ found r.1 r.2 = false)
  \/ (in_grid n r /\ found r.1 r.2 = true
      /\ exists e, matrix_get m r.1 r.2 = Some e /\ p e = true).
Proof.
  intros Hn [[-> _]|(d & e & _ & -> & Hg & Hp)].
  - left. split; reflexivity.
  - right. pose proof (neighbour_in_grid n x y d Hn) as Hin.
    split; [assumption|]. split; [apply (found_in_grid n); assumption|]. eauto.
Qed.

(** C9.  On a square grid of side [N >= 1], for a cell [(x, y)] of the grid
    and each of the four directions, the wrapped coordinates computed by
    [findEmptyAdjacent] and [findNearestFish] lie in [[0, N)] and the lookup
    of that cell succeeds; the wrapped coordinate of [x + N] is that of [x]
    (and the same for [y]), so the access is toroidal; and both scans return,
    either [(-1, -1)] or a cell of the grid. *)
Theorem neighbour_lookup_in_bounds (s : State) (g : Grid) (m : Matrix) (x y : Z) :
  valid_side (Size g) ->
  arrays s !! Cells g = Some m ->
  shape (Size g) m ->
  in_grid (Size g) (x, y) ->
  (forall d, d ∈ directions ->
     exists cx cy e,
       wrapCoord (Size g) x d.1 = Some cx /\ wrapCoord (Size g) y d.2 = Some cy
       /\ 0 <= cx < Size g /\ 0 <= cy < Size g
       /\ getCell g cx cy s = Done e s
       /\ wrapCoord (Size g) (x + Size g) d.1 = Some cx
       /\ wrapCoord (Size g) (y + Size g) d.2 = Some cy)
  /\ (exists r s', findEmptyAdjacent g x y s = Done r s'
                   /\ (r = (-1, -1) \/ in_grid (Size g) r))
  /\ (exists r s', findNearestFish g x y s = Done r s'
                   /\ (r = (-1, -1) \/ in_grid (Size g) r)).
Proof.
  intros Hv Hm Hs Hxy. split; [|split].
  - intros d Hd. destruct (directions_cardinal d Hd) as [Hd1 Hd2].
    destruct Hxy as [Hx Hy]. simpl in Hx, Hy.
    pose proof (neighbour_in_grid (Size g) x y d (proj1 Hv)) as [Hnx Hny].
    unfold neighbour in Hnx, Hny. simpl in Hnx, Hny.
    destruct (matrix_get_shape _ _ _ _ Hs Hnx Hny) as [e He].
    exists ((x + d.1) mod Size g), ((y + d.2) mod Size g), e.
    rewrite !wrapCoord_shift, !wrapCoord_eq by assumption.
    repeat split; try lia. apply (getCell_run _ _ _ _ m); assumption.
  - destruct (findEmptyAdjacent_run g m x y s Hv Hm Hs Hxy) as (r & Hr & Hres).
    exists r. eexists. split; [eassumption|].
    destruct (scan_result_cases _ _ _ _ _ _ (proj1 Hv) Hres) as [[-> _]|[Hin _]]; auto.
  - destruct (findNearestFish_run g m x y s Hv Hm Hs Hxy) as (r & Hr & Hres).
    exists r. eexists. split; [eassumption|].
    destruct (scan_result_cases _ _ _ _ _ _ (proj1 Hv) Hres) as [[-> _]|[Hin _]]; auto.
Qed.

(** The neighbours of the corner [(0, 2)] of the feeding grid. *)
Lemma neighbour_lookup_in_bounds_witness :
  (forall d, d ∈ directions ->
     exists cx cy e,
       wrapCoord 3 0 d.1 = Some cx /\ wrapCoord 3 2 d.2 = Some cy
       /\ 0 <= cx < 3 /\ 0 <= cy < 3
       /\ getCell (mkGrid 3 0) cx cy (feeding zeros) = Done e (feeding zeros)
       /\ wrapCoord 3 (0 + 3) d.1 = Some cx
       /\ wrapCoord 3 (2 + 3) d.2 = Some cy)
  /\ (exists r s', findEmptyAdjacent (mkGrid 3 0) 0 2 (feeding zeros) = Done r s'
                   /\ (r = (-1, -1) \/ in_grid 3 r))
  /\ (exists r s', findNearestFish (mkGrid 3 0) 0 2 (feeding zeros) = Done r s'
                   /\ (r = (-1, -1) \/ in_grid 3 r)).
Proof.
  apply (neighbour_lookup_in_bounds (feeding zeros) (mkGrid 3 0) feeding_cells 0 2);
    known_grid.
Defined.

(** * The dispatch invariant, and the runs of the primitives under it *)

Lemma grows_refl s : grows s s.
Proof. split; lia. Qed.

Lemma grows_trans s1 s2 s3 : grows s1 s2 -> grows s2 s3 -> grows s1 s3.
Proof. intros [? ?] [? ?]. split; lia. Qed.

Lemma valid_ent_grows s s' e : grows s s' -> valid_ent s e -> valid_ent s' e.
Proof. intros [? ?]. destruct e; simpl; [tauto | lia | lia]. Qed.

Lemma valid_matrix_grows s s' m : grows s s' -> valid_matrix s m -> valid_matrix s' m.
Proof.
  intros Hg. unfold valid_matrix. apply Forall_impl. intros row.
  apply Forall_impl. intros e. apply valid_ent_grows. assumption.
Qed.

Lemma grid_at_frame s s' g m :
  arrays s' !! Cells g = arrays s !! Cells g -> grows s s' ->
  grid_at s g m -> grid_at s' g m.
Proof.
  intros Ha Hg (H1 & H2 & H3). split; [congruence|]. split; [assumption|].
  apply (valid_matrix_grows s); assumption.
Qed.

Lemma dispatch_inv_frame g ng m s s' :
  arrays s' = arrays s -> grows s s' ->
  dispatch_inv g ng m s -> dispatch_inv g ng m s'.
Proof.
  intros Ha Hg (H1 & H2 & H3 & H4 & m' & H5).
  split; [assumption|]. split; [assumption|]. split; [assumption|].
  split; [|exists m']; (eapply grid_at_frame; [rewrite Ha; reflexivity | eassumption | assumption]).
Qed.

Lemma matrix_set_keeps_shape n m x y e m' :
  shape n m -> matrix_set m x y e = Some m' -> shape n m'.
Proof.
  intros [Hl Hr] H. apply matrix_set_Some in H. destruct H as (row & H1 & _ & _ & ->).
  apply index_Some in H1. destruct H1 as [_ H1].
  split; [rewrite length_insert; assumption|].
  apply Forall_insert; [assumption|]. rewrite length_insert.
  rewrite Forall_lookup in Hr. exact (Hr _ _ H1).
Qed.

Lemma dispatch_inv_written g ng m s m0 x y old e m' :
  dispatch_inv g ng m s -> arrays s !! Cells ng = Some m0 ->
  matrix_set m0 x y e = Some m' -> valid_ent s e ->
  dispatch_inv g ng m (written ng x y old m' s).
Proof.
  intros (H1 & H2 & H3 & (G1 & G2 & G3) & m1 & (N1 & N2 & N3)) Hm0 Hset He.
  assert (m1 = m0) as -> by congruence.
  pose proof (lookup_lt_Some _ _ _ Hm0) as Hlt.
  split; [assumption|]. split; [assumption|]. split; [assumption|]. split.
  - split; [|split; assumption].
    unfold written. simpl. rewrite list_lookup_insert_ne by assumption. assumption.
  - exists m'. split; [|split].
    + unfold written. simpl. apply list_lookup_insert_eq. assumption.
    + apply (matrix_set_keeps_shape _ m0 x y e); assumption.
    + apply (matrix_set_valid _ m0 x y e); assumption.
Qed.

Lemma setCell_run g ng m s x y e :
  dispatch_inv g ng m s -> in_grid (Size g) (x, y) ->
  exists m0 old m',
    arrays s !! Cells ng = Some m0 /\ matrix_get m0 x y = Some old
    /\ matrix_set m0 x y e = Some m'
    /\ setCell ng x y e s = Done tt (written ng x y old m' s).
Proof.
  intros (H1 & H2 & H3 & _ & m0 & (N1 & N2 & N3)) [Hx Hy]. simpl in Hx, Hy.
  rewrite H2 in N2.
  destruct (matrix_get_shape _ _ _ _ N2 Hx Hy) as [old Hold].
  destruct (matrix_set_shape _ _ _ _ e N2 Hx Hy) as (m' & Hset & _).
  exists m0, old, m'. do 3 (split; [assumption|]).
  apply setCell_Done. exists m0, old, m'. auto.
Qed.

Lemma modifyFish_run p f s o :
  fishes s !! p = Some o ->
  modifyFish p f s = Done tt (set_fishes (<[p := f o]> (fishes s)) s).
Proof. intros H. apply modifyFish_Done. eauto. Qed.

Lemma modifyShark_run p f s o :
  sharks s !! p = Some o ->
  modifyShark p f s = Done tt (set_sharks (<[p := f o]> (sharks s)) s).
Proof. intros H. apply modifyShark_Done. eauto. Qed.

Lemma loadFish_run p s o : fishes s !! p = Some o -> loadFish p s = Done o s.
Proof. intros H. apply loadFish_Done. auto. Qed.

Lemma loadShark_run p s o : sharks s !! p = Some o -> loadShark p s = Done o s.
Proof. intros H. apply loadShark_Done. auto. Qed.

(** * Every entity is processed: the runs of the transition rules *)

Ltac solve_grows :=
  split; simpl; rewrite ?length_insert, ?length_app, ?length_insert; simpl; lia.

Lemma processFish_run g ng m s fish x y fb o :
  dispatch_inv g ng m s -> in_grid (Size g) (x, y) ->
  fishes s !! fish = Some o ->
  exists r m0 m1 s',
    scan_result is_nil (Size g) m x y r
    /\ arrays s !! Cells ng = Some m0
    /\ matrix_set m0 (if found r.1 r.2 then r.1 else x)
                     (if found r.1 r.2 then r.2 else y) (FishPtr fish) = Some m1
    /\ processFish g ng fish x y fb s = Done tt s'
    /\ dispatch_inv g ng m s' /\ grows s s'
    /\ sharks s' = sharks s
    /\ if fb <=? GoInt.add (Fish_BreedCounter o) 1
       then exists m', matrix_set m1 x y (FishPtr (length (fishes s))) = Some m'
              /\ arrays s' !! Cells ng = Some m'
              /\ fishes s' = <[fish := mkFish 0]>
                               (<[fish := mkFish (GoInt.add (Fish_BreedCounter o) 1)]>
                                  (fishes s) ++ [mkFish 0])
       else arrays s' !! Cells ng = Some m1
            /\ fishes s' = <[fish := mkFish (GoInt.add (Fish_BreedCounter o) 1)]> (fishes s).
Proof.
  intros Hinv Hxy Ho.
  pose proof Hinv as (Hv & HN & Hne & (Gm & Gs & Gv) & _).
  pose proof (lookup_lt_Some _ _ _ Ho) as Hfish.
  unfold processFish.
  destruct (findEmptyAdjacent_run g m x y s Hv Gm Gs Hxy) as (r & Hr & Hres).
  rewrite (bind_run _ _ _ _ _ Hr). destruct r as [rx ry]. cbn [fst snd].
  set (s1 := set_drawn (S (S (S (drawn s)))) s) in *.
  assert (Hinv1 : dispatch_inv g ng m s1).
  { apply (dispatch_inv_frame _ _ _ s); [reflexivity | solve_grows | assumption]. }
  assert (Htarget : in_grid (Size g) (if found rx ry then rx else x, if found rx ry then ry else y)).
  { destruct (scan_result_cases _ _ _ _ _ _ (proj1 Hv) Hres) as [[_ Hf]|[Hin [Hf _]]];
      simpl in Hf; rewrite Hf; assumption. }
  destruct (setCell_run g ng m s1 _ _ (FishPtr fish) Hinv1 Htarget)
    as (m0 & old & m1 & Hm0 & Hold & Hset & Hrun).
  exists (rx, ry), m0, m1. cbn [fst snd].
  assert (Hstep1 : (if found rx ry then setCell ng rx ry (FishPtr fish)
                    else setCell ng x y (FishPtr fish)) s1
                   = Done tt (written ng (if found rx ry then rx else x)
                                         (if found rx ry then ry else y) old m1 s1)).
  { destruct (found rx ry); assumption. }
  rewrite (bind_run _ _ _ _ _ Hstep1).
  set (s2 := written ng _ _ old m1 s1) in *.
  assert (Hinv2 : dispatch_inv g ng m s2).
  { apply (dispatch_inv_written _ _ _ _ m0 _ _ _ (FishPtr fish)); assumption. }
  assert (Ho2 : fishes s2 !! fish = Some o) by exact Ho.
  rewrite (bind_run _ _ _ _ _ (modifyFish_run _ _ _ _ Ho2)).
  set (c := GoInt.add (Fish_BreedCounter o) 1).
  set (s3 := set_fishes _ s2).
  assert (Ho3 : fishes s3 !! fish = Some (mkFish c)).
  { unfold s3. simpl. apply list_lookup_insert_eq. assumption. }
  rewrite (bind_run _ _ _ _ _ (loadFish_run _ _ _ Ho3)). cbn [Fish_BreedCounter].
  assert (Hinv3 : dispatch_inv g ng m s3).
  { apply (dispatch_inv_frame _ _ _ s2); [reflexivity | | assumption].
    split; simpl; [rewrite length_insert|]; lia. }
  assert (Ha3 : arrays s3 !! Cells ng = Some m1).
  { simpl. apply list_lookup_insert_eq. exact (lookup_lt_Some _ _ _ Hm0). }
  destruct (fb <=? c).
  - (* the fish breeds *)
    unfold newFish at 1.
    set (s4 := set_fishes (fishes s3 ++ [mkFish 0]) s3).
    rewrite (bind_run _ _ (s3) (length (fishes s3)) s4) by reflexivity.
    assert (Hinv4 : dispatch_inv g ng m s4).
    { apply (dispatch_inv_frame _ _ _ s3); [reflexivity | | assumption].
      split; simpl; [rewrite length_app|]; lia. }
    destruct (setCell_run g ng m s4 x y (FishPtr (length (fishes s3))) Hinv4 Hxy)
      as (m1' & old' & m' & Hm1' & Hold' & Hset' & Hrun').
    assert (m1' = m1) as -> by (change (arrays s4) with (arrays s3) in Hm1'; congruence).
    rewrite (bind_run _ _ _ _ _ Hrun').
    set (s5 := written ng x y old' m' s4) in *.
    unfold emit at 1.
    rewrite (bind_run _ _ s5 tt (set_events (EvBorn x y :: events s5) s5)) by reflexivity.
    set (s6 := set_events _ s5).
    assert (Ho6 : fishes s6 !! fish = Some (mkFish c)).
    { simpl. rewrite lookup_app_l by (rewrite length_insert; assumption).
      apply list_lookup_insert_eq. assumption. }
    rewrite (modifyFish_run _ _ _ _ Ho6). eexists.
    do 3 (split; [assumption|]). split; [reflexivity|].
    assert (Hvalid : valid_ent s4 (FishPtr (length (fishes s3)))).
    { simpl. rewrite length_app, !length_insert. simpl. lia. }
    assert (Hinv5 : dispatch_inv g ng m s5).
    { apply (dispatch_inv_written _ _ _ _ m1 _ _ _ (FishPtr (length (fishes s3)))); assumption. }
    split; [|split; [|split; [|]]].
    + apply (dispatch_inv_frame _ _ _ s5); [reflexivity | | assumption].
      split; simpl; [rewrite !length_insert|]; lia.
    + split; simpl; [rewrite !length_insert, length_app, !length_insert|]; lia.
    + reflexivity.
    + exists m'. split; [|split].
      * replace (length (fishes s)) with (length (fishes s3)); [assumption|].
        simpl. apply length_insert.
      * simpl. apply list_lookup_insert_eq. rewrite length_insert.
        exact (lookup_lt_Some _ _ _ Hm0).
      * reflexivity.
  - eexists. do 3 (split; [assumption|]). split; [reflexivity|].
    split; [assumption|]. split.
    { split; simpl; [rewrite length_insert|]; lia. }
    split; [reflexivity|]. split; [assumption | reflexivity].
Qed.

Lemma bind_assoc_pair {A B C D} (c : M (A * B)) (f : A -> B -> M C) (k : M D) s :
  bind c (fun p => let (a, b) := p in bind (f a b) (fun _ => k)) s
  = bind (bind c (fun p => let (a, b) := p in f a b)) (fun _ => k) s.
Proof. unfold bind. destruct (c s) as [[a b] s'|]; reflexivity. Qed.

(** The last part of [processShark]: the breed counter and the offspring. *)
Lemma sharkBreeds_run g ng m s shark x y sb se o :
  dispatch_inv g ng m s -> in_grid (Size g) (x, y) ->
  sharks s !! shark = Some o ->
  exists s',
    (modifyShark shark (fun k => setSharkBreed (GoInt.add (Shark_BreedCounter k) 1) k) ;;
     k <- loadShark shark ;;
     if sb <=? Shark_BreedCounter k then
       baby <- newShark (mkShark 0 se) ;;
       setCell ng x y (SharkPtr baby) ;;
       emit (EvBorn x y) ;;
       modifyShark shark (setSharkBreed 0)
     else ret tt) s = Done tt s'
    /\ dispatch_inv g ng m s' /\ grows s s' /\ fishes s' = fishes s.
Proof.
  intros Hinv Hxy Ho. pose proof (lookup_lt_Some _ _ _ Ho) as Hlt.
  rewrite (bind_run _ _ _ _ _ (modifyShark_run _ _ _ _ Ho)).
  set (s1 := set_sharks _ s).
  assert (Ho1 : sharks s1 !! shark
                = Some (setSharkBreed (GoInt.add (Shark_BreedCounter o) 1) o)).
  { simpl. apply list_lookup_insert_eq. assumption. }
  rewrite (bind_run _ _ _ _ _ (loadShark_run _ _ _ Ho1)).
  assert (Hinv1 : dispatch_inv g ng m s1).
  { apply (dispatch_inv_frame _ _ _ s); [reflexivity | solve_grows | assumption]. }
  destruct (sb <=? _).
  - unfold newShark at 1.
    set (s2 := set_sharks (sharks s1 ++ [mkShark 0 se]) s1).
    rewrite (bind_run _ _ s1 (length (sharks s1)) s2) by reflexivity.
    assert (Hinv2 : dispatch_inv g ng m s2).
    { apply (dispatch_inv_frame _ _ _ s1); [reflexivity | solve_grows | assumption]. }
    destruct (setCell_run g ng m s2 x y (SharkPtr (length (sharks s1))) Hinv2 Hxy)
      as (m1 & old & m' & Hm1 & Hold & Hset & Hrun).
    rewrite (bind_run _ _ _ _ _ Hrun).
    set (s3 := written ng x y old m' s2) in *.
    assert (Hinv3 : dispatch_inv g ng m s3).
    { apply (dispatch_inv_written _ _ _ _ m1 _ _ _ (SharkPtr (length (sharks s1))));
        try assumption. simpl. rewrite length_app. simpl. lia. }
    unfold emit at 1.
    rewrite (bind_run _ _ s3 tt (set_events (EvBorn x y :: events s3) s3)) by reflexivity.
    set (s4 := set_events _ s3).
    assert (Ho4 : sharks s4 !! shark
                  = Some (setSharkBreed (GoInt.add (Shark_BreedCounter o) 1) o)).
    { simpl. rewrite lookup_app_l by (rewrite length_insert; assumption).
      apply list_lookup_insert_eq. assumption. }
    rewrite (modifyShark_run _ _ _ _ Ho4). eexists. split; [reflexivity|].
    split; [|split; [solve_grows | reflexivity]].
    apply (dispatch_inv_frame _ _ _ s3); [reflexivity | solve_grows | assumption].
  - eexists. split; [reflexivity|]. split; [assumption|].
    split; [solve_grows | reflexivity].
Qed.

(** The middle part of [processShark]: the move. *)
Lemma sharkMoves_run g ng m s shark x y se o :
  dispatch_inv g ng m s -> in_grid (Size g) (x, y) ->
  sharks s !! shark = Some o ->
  exists s' o',
    ('(newX, newY) <- findNearestFish g x y ;;
     if found newX newY then
       setCell ng newX newY (SharkPtr shark) ;;
       modifyShark shark (setSharkEnergy se)
     else
       '(newX, newY) <- findEmptyAdjacent g x y ;;
       if found newX newY
       then setCell ng newX newY (SharkPtr shark)
       else setCell ng x y (SharkPtr shark)) s = Done tt s'
    /\ dispatch_inv g ng m s' /\ grows s s' /\ fishes s' = fishes s
    /\ sharks s' !! shark = Some o'.
Proof.
  intros Hinv Hxy Ho. pose proof (lookup_lt_Some _ _ _ Ho) as Hlt.
  pose proof Hinv as (Hv & HN & Hne & (Gm & Gs & Gv) & _).
  destruct (findNearestFish_run g m x y s Hv Gm Gs Hxy) as ([rx ry] & Hr & Hres).
  rewrite (bind_run _ _ _ _ _ Hr).
  set (s1 := set_drawn (S (S (S (drawn s)))) s) in *.
  assert (Hinv1 : dispatch_inv g ng m s1).
  { apply (dispatch_inv_frame _ _ _ s); [reflexivity | solve_grows | assumption]. }
  destruct (scan_result_cases _ _ _ _ _ _ (proj1 Hv) Hres) as [[_ Hf]|[Hin [Hf _]]];
    simpl in Hf; rewrite Hf.
  - (* no fish next to the shark *)
    destruct (findEmptyAdjacent_run g m x y s1 Hv Gm Gs Hxy) as ([ex ey] & He & Hres').
    rewrite (bind_run _ _ _ _ _ He).
    set (s2 := set_drawn _ s1) in *.
    assert (Hinv2 : dispatch_inv g ng m s2).
    { apply (dispatch_inv_frame _ _ _ s1); [reflexivity | solve_grows | assumption]. }
    assert (Ht : in_grid (Size g) (if found ex ey then ex else x,
                                   if found ex ey then ey else y)).
    { destruct (scan_result_cases _ _ _ _ _ _ (proj1 Hv) Hres') as [[_ Hf']|[Hin' [Hf' _]]];
        simpl in Hf'; rewrite Hf'; assumption. }
    destruct (setCell_run g ng m s2 _ _ (SharkPtr shark) Hinv2 Ht)
      as (m0 & old & m1 & Hm0 & Hold & Hset & Hrun).
    exists (written ng (if found ex ey then ex else x)
                       (if found ex ey then ey else y) old m1 s2), o.
    split; [destruct (found ex ey); assumption|].
    split; [|split; [solve_grows | split; [reflexivity | assumption]]].
    apply (dispatch_inv_written _ _ _ _ m0 _ _ _ (SharkPtr shark)); assumption.
  - (* a fish is eaten *)
    destruct (setCell_run g ng m s1 rx ry (SharkPtr shark) Hinv1 Hin)
      as (m0 & old & m1 & Hm0 & Hold & Hset & Hrun).
    rewrite (bind_run _ _ _ _ _ Hrun).
    set (s2 := written ng rx ry old m1 s1) in *.
    assert (Ho2 : sharks s2 !! shark = Some o) by exact Ho.
    rewrite (modifyShark_run _ _ _ _ Ho2). eexists. eexists.
    split; [reflexivity|].
    split; [|split; [solve_grows | split; [reflexivity |]]].
    + apply (dispatch_inv_frame _ _ _ s2); [reflexivity | solve_grows |].
      apply (dispatch_inv_written _ _ _ _ m0 _ _ _ (SharkPtr shark)); assumption.
    + simpl. apply list_lookup_insert_eq. assumption.
Qed.

Lemma processShark_run g ng m s shark x y sb se o :
  dispatch_inv g ng m s -> in_grid (Size g) (x, y) ->
  sharks s !! shark = Some o ->
  exists s', processShark g ng shark x y sb se s = Done tt s'
    /\ dispatch_inv g ng m s' /\ grows s s' /\ fishes s' = fishes s.
Proof.
  intros Hinv Hxy Ho. pose proof (lookup_lt_Some _ _ _ Ho) as Hlt.
  unfold processShark.
  rewrite (bind_run _ _ _ _ _ (modifyShark_run _ _ _ _ Ho)).
  set (s1 := set_sharks _ s).
  assert (Ho1 : sharks s1 !! shark
                = Some (setSharkEnergy (GoInt.sub (Shark_Energy o) 1) o)).
  { simpl. apply list_lookup_insert_eq. assumption. }
  rewrite (bind_run _ _ _ _ _ (loadShark_run _ _ _ Ho1)).
  assert (Hinv1 : dispatch_inv g ng m s1).
  { apply (dispatch_inv_frame _ _ _ s); [reflexivity | solve_grows | assumption]. }
  destruct (Shark_Energy _ <=? 0).
  - eexists. split; [reflexivity|].
    split; [|split; [solve_grows | reflexivity]].
    apply (dispatch_inv_frame _ _ _ s1); [reflexivity | solve_grows | assumption].
  - destruct (sharkMoves_run g ng m s1 shark x y se _ Hinv1 Hxy Ho1)
      as (s2 & o2 & Hrun2 & Hinv2 & Hg2 & Hf2 & Ho2).
    rewrite bind_assoc_pair. rewrite (bind_run _ _ _ _ _ Hrun2).
    destruct (sharkBreeds_run g ng m s2 shark x y sb se _ Hinv2 Hxy Ho2)
      as (s3 & Hrun3 & Hinv3 & Hg3 & Hf3).
    exists s3. split; [exact Hrun3|]. split; [assumption|]. split.
    + apply (grows_trans _ s1); [solve_grows|]. apply (grows_trans _ s2); assumption.
    + rewrite Hf3, Hf2. reflexivity.
Qed.

Lemma elem_of_cellsOf lo hi n c :
  c ∈ cellsOf lo hi n <-> lo <= c.1 < hi /\ 0 <= c.2 < n.
Proof.
  unfold cellsOf. rewrite list_elem_of_bind. split.
  - intros (x & Hc & Hx). apply list_elem_of_bind in Hc. destruct Hc as (y & Hc & Hy).
    apply list_elem_of_singleton in Hc. subst c. simpl.
    apply elem_of_seqZ in Hx, Hy. lia.
  - intros [H1 H2]. exists c.1. split; [|apply elem_of_seqZ; lia].
    apply list_elem_of_bind. exists c.2. split; [|apply elem_of_seqZ; lia].
    destruct c. simpl. apply list_elem_of_singleton. reflexivity.
Qed.

Lemma processCell_run g ng m s fb sb se x y :
  dispatch_inv g ng m s -> in_grid (Size g) (x, y) ->
  exists s', processCell g ng fb sb se x y s = Done tt s'
    /\ dispatch_inv g ng m s' /\ grows s s'.
Proof.
  intros Hinv Hxy. pose proof Hinv as (Hv & HN & Hne & (Gm & Gs & Gv) & _).
  destruct Hxy as [Hx Hy]. simpl in Hx, Hy.
  destruct (matrix_get_shape _ _ _ _ Gs Hx Hy) as [e He].
  pose proof (matrix_get_valid _ _ _ _ _ Gv He) as Hval.
  unfold processCell. rewrite (bind_run _ _ _ _ _ (getCell_run _ _ _ _ _ _ Gm He)).
  destruct e as [|fish|shark]; simpl in Hval.
  - exists s. split; [reflexivity|]. split; [assumption | apply grows_refl].
  - destruct (lookup_lt_is_Some_2 _ _ Hval) as [o Ho].
    destruct (processFish_run g ng m s fish x y fb o Hinv (conj Hx Hy) Ho)
      as (r & m0 & m1 & s' & _ & _ & _ & Hrun & Hinv' & Hg & _).
    exists s'. auto.
  - destruct (lookup_lt_is_Some_2 _ _ Hval) as [o Ho].
    destruct (processShark_run g ng m s shark x y sb se o Hinv (conj Hx Hy) Ho)
      as (s' & Hrun & Hinv' & Hg & _).
    exists s'. auto.
Qed.

Lemma processSection_run g ng m s lo hi fb sb se :
  dispatch_inv g ng m s -> 0 <= lo -> hi <= Size g ->
  exists s', processSection g ng lo hi fb sb se s = Done tt s'
    /\ dispatch_inv g ng m s' /\ grows s s'.
Proof.
  intros Hinv Hlo Hhi. unfold processSection. rewrite forRange_nest.
  apply (forList_total (fun s' => dispatch_inv g ng m s' /\ grows s s')).
  - intros [x y] s1 Hc [Hinv1 Hg1]. apply elem_of_cellsOf in Hc. simpl in Hc.
    destruct (processCell_run g ng m s1 fb sb se x y Hinv1) as (s2 & Hrun & Hinv2 & Hg2).
    { split; simpl; lia. }
    exists s2. split; [assumption|]. split; [assumption|].
    apply (grows_trans _ s1); assumption.
  - split; [assumption | apply grows_refl].
Qed.

Lemma NewGrid_run n s :
  valid_side n ->
  NewGrid n s = Done (mkGrid n (length (arrays s)))
                  (set_arrays (arrays s ++ [replicate (Z.to_nat n) (replicate (Z.to_nat n) Nil)]) s).
Proof.
  unfold valid_side, maxAlloc. intros [Hn Hm]. unfold NewGrid, makeslice, maxAlloc.
  destruct (Z.leb_spec 0 n); [|lia].
  destruct (Z.leb_spec (n * 24) (2 ^ 48)); [|lia].
  destruct (Z.leb_spec (n * 16) (2 ^ 48)); [|lia].
  destruct (Z.eqb_spec n 0); [lia|]. cbn [andb].
  unfold bind, orPanic, ret. rewrite fmap_replicate. reflexivity.
Qed.

Lemma shape_replicate n :
  0 <= n -> shape n (replicate (Z.to_nat n) (replicate (Z.to_nat n) Nil)).
Proof.
  intros Hn. split; [apply length_replicate|].
  apply Forall_replicate. apply length_replicate.
Qed.

Lemma valid_matrix_replicate s a b : valid_matrix s (replicate a (replicate b Nil)).
Proof. apply Forall_replicate, Forall_replicate. exact I. Qed.

Lemma valid_side_in_range n : valid_side n -> 1 <= n <= GoInt.max_int.
Proof. unfold valid_side, maxAlloc, GoInt.max_int. lia. Qed.

(** One chronon of the row-partition strategy runs to its end on every
    well-formed grid, whatever the breed ages and the starvation energy. *)
Lemma MoveEntitiesWithThreads_run g m s fb sb se threads :
  valid_side (Size g) -> grid_at s g m ->
  1 <= threads <= GoInt.max_int ->
  exists g' s' m',
    MoveEntitiesWithThreads g fb sb se threads s = Done g' s'
    /\ Size g' = Size g /\ Cells g' = length (arrays s)
    /\ grid_at s' g' m' /\ grows s s'
    /\ arrays s' !! Cells g = Some m.
Proof.
  intros Hv Hg Ht. pose proof Hg as (Gm & Gs & Gv).
  pose proof (valid_side_in_range _ Hv) as HN.
  unfold MoveEntitiesWithThreads.
  rewrite (bind_run _ _ _ _ _ (NewGrid_run _ s Hv)).
  set (ng := mkGrid (Size g) (length (arrays s))).
  set (s1 := set_arrays _ s).
  rewrite (rowsPerThread_eq _ _ HN Ht).
  rewrite (bind_run _ _ _ _ _ (orPanic_Some _ _)).
  assert (Hinv1 : dispatch_inv g ng m s1).
  { pose proof (lookup_lt_Some _ _ _ Gm) as Hlt.
    split; [assumption|]. split; [reflexivity|]. split; [simpl; lia|]. split.
    - split; [|split; assumption]. simpl. rewrite lookup_app_l by assumption. assumption.
    - eexists. split; [|split].
      + simpl. rewrite lookup_app_r by lia. rewrite Nat.sub_diag. reflexivity.
      + apply shape_replicate. lia.
      + apply valid_matrix_replicate. }
  destruct (forList_total (fun s' => dispatch_inv g ng m s' /\ grows s1 s')
              (seqZ 0 (threads - 0))
              (fun i => processSection g ng
                          (startRowOf (rowsPerThreadOf (Size g) threads) i)
                          (endRowOf (Size g) threads (rowsPerThreadOf (Size g) threads) i)
                          fb sb se)) with (s := s1) as (s2 & Hrun & Hinv2 & Hg2).
  - intros i s' Hi [Hinv' Hg']. apply elem_of_seqZ in Hi.
    destruct (row_range_bounds _ _ HN Ht i ltac:(lia)) as [Hlo Hhi].
    destruct (processSection_run g ng m s' _ _ fb sb se Hinv' (proj1 Hlo) Hhi)
      as (s'' & Hrun & Hinv'' & Hg'').
    exists s''. split; [assumption|]. split; [assumption|].
    apply (grows_trans _ s'); assumption.
  - split; [assumption | apply grows_refl].
  - unfold forRange. rewrite (bind_run _ _ _ _ _ Hrun).
    destruct Hinv2 as (_ & _ & _ & (Gm2 & _) & m' & Hnew).
    exists (mkGrid (Size g) (Cells ng)), s2, m'.
    split; [reflexivity|]. split; [reflexivity|]. split; [reflexivity|].
    split; [exact Hnew|]. split; [|assumption].
    apply (grows_trans _ s1); [split; simpl; lia | assumption].
Qed.

(** * What a run does to the store *)

Lemma sumZ_app {A} (f : A -> Z) l1 l2 : sumZ f (l1 ++ l2) = sumZ f l1 + sumZ f l2.
Proof. unfold sumZ. induction l1 as [|a l1 IH]; simpl; lia. Qed.

Lemma sumZ_insert {A} (f : A -> Z) l i a b :
  l !! i = Some a -> sumZ f (<[i := b]> l) = sumZ f l - f a + f b.
Proof.
  unfold sumZ. revert i. induction l as [|c l IH]; intros i H; [discriminate|].
  destruct i as [|i]; simpl in *.
  - inversion H; subst. lia.
  - rewrite (IH i H). lia.
Qed.

Lemma sumZ_cons {A} (f : A -> Z) a l : sumZ f (a :: l) = f a + sumZ f l.
Proof. reflexivity. Qed.

Lemma sumZ_ext {A} (f h : A -> Z) l :
  (forall a, a ∈ l -> f a = h a) -> sumZ f l = sumZ h l.
Proof.
  unfold sumZ. induction l as [|a l IH]; intros H; simpl; [reflexivity|].
  rewrite (H a) by left. rewrite IH; [reflexivity|].
  intros a' Ha'. apply H. right. assumption.
Qed.

(** What a write does to a count of the cells. *)
Lemma count_set (f : Entity -> Z) m x y old e m' :
  matrix_get m x y = Some old -> matrix_set m x y e = Some m' ->
  sumZ (sumZ f) m' = sumZ (sumZ f) m - f old + f e.
Proof.
  intros Hget Hset. apply matrix_set_Some in Hset.
  destruct Hset as (row & Hrow & Hy & Hl & ->).
  apply matrix_get_Some in Hget. destruct Hget as (row' & Hrow' & Hold).
  assert (row' = row) as -> by congruence.
  apply index_Some in Hrow, Hold. destruct Hrow as [_ Hrow], Hold as [_ Hold].
  rewrite (sumZ_insert _ _ _ _ _ Hrow), (sumZ_insert _ _ _ _ _ Hold). lia.
Qed.

Lemma population_set m x y old e m' :
  matrix_get m x y = Some old -> matrix_set m x y e = Some m' ->
  population m' = population m - occupied old + occupied e.
Proof. apply count_set. Qed.

Lemma cells_of_written_eq ng x y old m' s m0 :
  arrays s !! Cells ng = Some m0 -> cells_of (written ng x y old m' s) ng = m'.
Proof.
  intros H. unfold cells_of, written. simpl.
  rewrite list_lookup_insert_eq by exact (lookup_lt_Some _ _ _ H). reflexivity.
Qed.

Lemma balance_written ng s m0 x y old e m' :
  arrays s !! Cells ng = Some m0 -> matrix_get m0 x y = Some old ->
  matrix_set m0 x y e = Some m' -> e <> Nil ->
  balance ng (written ng x y old m' s) = balance ng s + 1.
Proof.
  intros Hm0 Hold Hset He. unfold balance.
  rewrite (cells_of_written_eq _ _ _ _ _ _ _ Hm0).
  rewrite (population_set _ _ _ _ _ _ Hold Hset).
  unfold cells_of. rewrite Hm0. simpl.
  assert (occupied e = 1) as -> by (destruct e; [congruence | reflexivity | reflexivity]).
  unfold written, overwrites, starvations, births, occupied, sumZ.
  destruct old; cbn [events set_events set_arrays is_nil foldr]; lia.
Qed.


Lemma balance_emit ng ev s :
  balance ng (set_events (ev :: events s) s) = balance ng s + weight ev.
Proof.
  unfold balance, overwrites, starvations, births, sumZ, cells_of.
  destruct ev; cbn [events set_events arrays set_arrays foldr weight]; lia.
Qed.

Lemma effect_refl ng ent W s : effect ng ent 0 W s s.
Proof.
  split; [lia|]. split; [reflexivity|]. split; [reflexivity|].
  split; [apply grows_refl|]. split; [auto|]. split; [auto|]. auto.
Qed.

(** A step that writes neither to the next grid nor to the events. *)
Lemma effect_post_silent ng ent d W s0 s1 s2 :
  effect ng ent d W s0 s1 ->
  arrays s2 = arrays s1 -> events s2 = events s1 -> chans s2 = chans s1 ->
  grows s1 s2 ->
  (forall q o, ent <> FishPtr q -> fishes s1 !! q = Some o -> fishes s2 !! q = Some o) ->
  (forall q o, ent <> SharkPtr q -> sharks s1 !! q = Some o -> sharks s2 !! q = Some o) ->
  effect ng ent d W s0 s2.
Proof.
  intros (E1 & E2 & E3 & E4 & E5 & E6 & E7) Ha He Hc Hg Hf Hs.
  split; [|split; [|split; [|split; [|split; [|split]]]]].
  - rewrite <- E1. unfold balance, cells_of. rewrite Ha, He. reflexivity.
  - intros c Hne. rewrite Ha. auto.
  - congruence.
  - apply (grows_trans _ s1); assumption.
  - auto.
  - auto.
  - intros x y e. unfold cells_of. rewrite Ha. apply E7.
Qed.

Lemma effect_post_drawn ng ent d W s0 s1 n :
  effect ng ent d W s0 s1 -> effect ng ent d W s0 (set_drawn n s1).
Proof.
  intros E.
  apply (effect_post_silent _ _ _ _ _ s1);
    [assumption | reflexivity | reflexivity | reflexivity | split; simpl; lia | auto | auto].
Qed.

Lemma effect_post_modifyFish ng p d W s0 s1 v :
  effect ng (FishPtr p) d W s0 s1 ->
  effect ng (FishPtr p) d W s0 (set_fishes (<[p := v]> (fishes s1)) s1).
Proof.
  intros E.
  apply (effect_post_silent _ _ _ _ _ s1);
    [assumption | reflexivity | reflexivity | reflexivity | | | auto].
  - split; simpl; [rewrite length_insert|]; lia.
  - intros q o Hne Hq. simpl. rewrite list_lookup_insert_ne by congruence. assumption.
Qed.

Lemma effect_post_modifyShark ng p d W s0 s1 v :
  effect ng (SharkPtr p) d W s0 s1 ->
  effect ng (SharkPtr p) d W s0 (set_sharks (<[p := v]> (sharks s1)) s1).
Proof.
  intros E.
  apply (effect_post_silent _ _ _ _ _ s1);
    [assumption | reflexivity | reflexivity | reflexivity | | auto | ].
  - split; simpl; [|rewrite length_insert]; lia.
  - intros q o Hne Hq. simpl. rewrite list_lookup_insert_ne by congruence. assumption.
Qed.

Lemma effect_post_newFish ng ent d W s0 s1 f :
  effect ng ent d W s0 s1 ->
  effect ng ent d W s0 (set_fishes (fishes s1 ++ [f]) s1).
Proof.
  intros E.
  apply (effect_post_silent _ _ _ _ _ s1);
    [assumption | reflexivity | reflexivity | reflexivity | | | auto].
  - split; simpl; [rewrite length_app|]; lia.
  - intros q o Hne Hq. simpl. apply lookup_app_l_Some. assumption.
Qed.

Lemma effect_post_newShark ng ent d W s0 s1 k :
  effect ng ent d W s0 s1 ->
  effect ng ent d W s0 (set_sharks (sharks s1 ++ [k]) s1).
Proof.
  intros E.
  apply (effect_post_silent _ _ _ _ _ s1);
    [assumption | reflexivity | reflexivity | reflexivity | | auto | ].
  - split; simpl; [|rewrite length_app]; lia.
  - intros q o Hne Hq. simpl. apply lookup_app_l_Some. assumption.
Qed.

Lemma effect_post_emit ng ent d W s0 s1 ev :
  effect ng ent d W s0 s1 ->
  effect ng ent (d + weight ev) W s0 (set_events (ev :: events s1) s1).
Proof.
  intros (E1 & E2 & E3 & E4 & E5 & E6 & E7).
  split; [|split; [|split; [|split; [|split; [|split]]]]]; try assumption.
  rewrite balance_emit. lia.
Qed.

Lemma effect_post_written ng ent d W s0 s1 m0 x y old e m' :
  effect ng ent d W s0 s1 ->
  arrays s1 !! Cells ng = Some m0 -> matrix_get m0 x y = Some old ->
  matrix_set m0 x y e = Some m' -> e <> Nil -> W e ->
  effect ng ent (d + 1) W s0 (written ng x y old m' s1).
Proof.
  intros (E1 & E2 & E3 & E4 & E5 & E6 & E7) Hm0 Hold Hset He HW.
  split; [|split; [|split; [|split; [|split; [|split]]]]]; try assumption.
  - rewrite (balance_written _ _ _ _ _ _ _ _ Hm0 Hold Hset He). lia.
  - intros c Hne. rewrite <- (E2 c Hne). unfold written. simpl.
    apply list_lookup_insert_ne. congruence.
  - intros x' y' e'. rewrite (cells_of_written_eq _ _ _ _ _ _ _ Hm0).
    rewrite (matrix_get_set _ _ _ _ _ x' y' Hset).
    destruct (decide _) as [Eq|Ne].
    + intros H. inversion H; subst. right. assumption.
    + intros H. apply E7. unfold cells_of. rewrite Hm0. assumption.
Qed.

Lemma effect_delta ng ent d d' W s0 s1 :
  effect ng ent d W s0 s1 -> d = d' -> effect ng ent d' W s0 s1.
Proof. intros E <-. assumption. Qed.

Lemma effect_grows ng ent d W s0 s1 : effect ng ent d W s0 s1 -> grows s0 s1.
Proof. intros (_ & _ & _ & E & _). assumption. Qed.

Lemma newFish_Done f s a s' :
  newFish f s = Done a s' <->
  a = length (fishes s) /\ s' = set_fishes (fishes s ++ [f]) s.
Proof.
  unfold newFish. split; [intros H; inversion H; auto | intros [-> ->]; reflexivity].
Qed.

Lemma newShark_Done k s a s' :
  newShark k s = Done a s' <->
  a = length (sharks s) /\ s' = set_sharks (sharks s ++ [k]) s.
Proof.
  unfold newShark. split; [intros H; inversion H; auto | intros [-> ->]; reflexivity].
Qed.

Lemma emit_Done ev s u s' :
  emit ev s = Done u s' <-> s' = set_events (ev :: events s) s.
Proof.
  unfold emit. destruct u. split; [intros H; inversion H; auto | intros ->; reflexivity].
Qed.

(** Inversion of a run that returned, down to the primitives. *)
Ltac inv_run :=
  repeat match goal with
  | H : bind _ _ _ = Done _ _ |- _ =>
      let a := fresh "a" in let s := fresh "s" in let E := fresh "E" in
      apply bind_Done in H; destruct H as (a & s & E & H)
  | H : ret _ _ = Done _ _ |- _ => inversion H; subst; clear H
  | H : (let (_, _) := ?p in _) _ = Done _ _ |- _ => destruct p
  | H : findEmptyAdjacent _ _ _ _ = Done _ _ |- _ => apply findEmptyAdjacent_state in H
  | H : findNearestFish _ _ _ _ = Done _ _ |- _ => apply findNearestFish_state in H
  | H : setCell _ _ _ _ _ = Done _ _ |- _ =>
      let m := fresh "m" in let old := fresh "old" in let m' := fresh "m'" in
      let Ha := fresh "Ha" in let Hg := fresh "Hg" in let Hs := fresh "Hs" in
      apply setCell_Done in H; destruct H as (m & old & m' & Ha & Hg & Hs & H)
  | H : modifyFish _ _ _ = Done _ _ |- _ =>
      let o := fresh "o" in let Ho := fresh "Ho" in
      apply modifyFish_Done in H; destruct H as (o & Ho & H)
  | H : modifyShark _ _ _ = Done _ _ |- _ =>
      let o := fresh "o" in let Ho := fresh "Ho" in
      apply modifyShark_Done in H; destruct H as (o & Ho & H)
  | H : loadFish _ _ = Done _ _ |- _ =>
      let Ho := fresh "Ho" in apply loadFish_Done in H; destruct H as [H Ho]
  | H : loadShark _ _ = Done _ _ |- _ =>
      let Ho := fresh "Ho" in apply loadShark_Done in H; destruct H as [H Ho]
  | H : getCell _ _ _ _ = Done _ _ |- _ =>
      let m := fresh "m" in let Ha := fresh "Ha" in let Hg := fresh "Hg" in
      apply getCell_Done in H; destruct H as (H & m & Ha & Hg)
  | H : newFish _ _ = Done _ _ |- _ => apply newFish_Done in H; destruct H as [-> H]
  | H : newShark _ _ = Done _ _ |- _ => apply newShark_Done in H; destruct H as [-> H]
  | H : emit _ _ = Done _ _ |- _ => apply emit_Done in H
  | H : ?s = ?t |- _ => is_var s; is_var t; subst s
  end.

(** One more step of a run whose effect so far is [E]. *)
Ltac eff E tac :=
  match type of E with
  | effect ?ng ?ent ?d ?W ?s0 ?s1 =>
      match goal with
      | H : ?s2 = set_drawn ?n s1 |- _ =>
          apply (effect_post_drawn _ _ _ _ _ _ n) in E; rewrite <- H in E; clear H
      | H : ?s2 = set_fishes (<[_ := ?v]> (fishes s1)) s1 |- _ =>
          apply (effect_post_modifyFish _ _ _ _ _ _ v) in E; rewrite <- H in E; clear H
      | H : ?s2 = set_sharks (<[_ := ?v]> (sharks s1)) s1 |- _ =>
          apply (effect_post_modifyShark _ _ _ _ _ _ v) in E; rewrite <- H in E; clear H
      | H : ?s2 = set_fishes (fishes s1 ++ [?f]) s1 |- _ =>
          apply (effect_post_newFish _ _ _ _ _ _ f) in E; rewrite <- H in E; clear H
      | H : ?s2 = set_sharks (sharks s1 ++ [?k]) s1 |- _ =>
          apply (effect_post_newShark _ _ _ _ _ _ k) in E; rewrite <- H in E; clear H
      | H : ?s2 = set_events (?ev :: events s1) s1 |- _ =>
          apply (effect_post_emit _ _ _ _ _ _ ev) in E; rewrite <- H in E; clear H
      | H : ?s2 = written ?g ?x ?y ?old ?m' s1,
        Ha : arrays s1 !! Cells ?g = Some ?m0,
        Hg : matrix_get ?m0 ?x ?y = Some ?old,
        Hs : matrix_set ?m0 ?x ?y ?e = Some ?m' |- _ =>
          let HW := fresh "HW" in
          assert (HW : W e) by tac;
          apply (fun E' => effect_post_written _ _ _ _ _ _ _ _ _ _ _ _ E' Ha Hg Hs
                             ltac:(discriminate) HW) in E;
          rewrite <- H in E; clear H HW
      end
  end.

(** What processing a fish does to the store, whenever it returns. *)
Lemma processFish_effect g ng fish x y fb s s' :
  processFish g ng fish x y fb s = Done tt s' ->
  effect ng (FishPtr fish) 1 (fun e => e = FishPtr fish \/ fresh s e) s s'.
Proof.
  intros H. unfold processFish in H.
  pose proof (effect_refl ng (FishPtr fish) (fun e => e = FishPtr fish \/ fresh s e) s) as E.
  inv_run. eff E idtac.
  assert (E' : exists tx ty m0 old m1, s1 = written ng tx ty old m1 s0
            /\ arrays s0 !! Cells ng = Some m0 /\ matrix_get m0 tx ty = Some old
            /\ matrix_set m0 tx ty (FishPtr fish) = Some m1).
  { destruct (found z z0); inv_run; eauto 10. }
  clear E1. destruct E' as (tx & ty & m0 & old & m1 & E1 & Ha & Hg & Hs).
  eff E ltac:(left; reflexivity). eff E idtac.
  destruct (fb <=? Fish_BreedCounter a1); inv_run.
  - pose proof (effect_grows _ _ _ _ _ _ E) as [Hgr _].
    eff E idtac.
    eff E ltac:(right; simpl; lia).
    eff E idtac. eff E idtac.
    apply (effect_delta _ _ _ _ _ _ _ E). simpl. lia.
  - apply (effect_delta _ _ _ _ _ _ _ E). lia.
Qed.

(** What processing a shark does to the store, whenever it returns. *)
Lemma processShark_effect g ng shark x y sb se s s' :
  processShark g ng shark x y sb se s = Done tt s' ->
  effect ng (SharkPtr shark) 1 (fun e => e = SharkPtr shark \/ fresh s e) s s'.
Proof.
  intros H. unfold processShark in H.
  pose proof (effect_refl ng (SharkPtr shark)
                (fun e => e = SharkPtr shark \/ fresh s e) s) as E.
  inv_run. eff E idtac.
  destruct (Shark_Energy a0 <=? 0); inv_run.
  { eff E idtac. apply (effect_delta _ _ _ _ _ _ _ E). simpl. lia. }
  eff E idtac.
  assert (E' : effect ng (SharkPtr shark) (0 + 1)
                 (fun e => e = SharkPtr shark \/ fresh s e) s s2).
  { destruct (found z z0); inv_run.
    - eff E ltac:(left; reflexivity). eff E idtac. assumption.
    - eff E idtac. destruct (found z1 z2); inv_run;
        eff E ltac:(left; reflexivity); assumption. }
  clear E E1. rename E' into E.
  eff E idtac.
  destruct (sb <=? Shark_BreedCounter a3); inv_run.
  - pose proof (effect_grows _ _ _ _ _ _ E) as [_ Hgr].
    eff E idtac.
    eff E ltac:(right; simpl; lia).
    eff E idtac. eff E idtac.
    apply (effect_delta _ _ _ _ _ _ _ E). simpl. lia.
  - apply (effect_delta _ _ _ _ _ _ _ E). lia.
Qed.

Lemma effect_weaken ng ent d (W W' : Entity -> Prop) s s' :
  (forall e, W e -> W' e) -> effect ng ent d W s s' -> effect ng ent d W' s s'.
Proof.
  intros HW (E1 & E2 & E3 & E4 & E5 & E6 & E7).
  split; [|split; [|split; [|split; [|split; [|split]]]]]; try assumption.
  intros x y e He. destruct (E7 x y e He); auto.
Qed.

(** What processing a cell does: the cell of the current grid is read, and
    the entity found there is processed. *)
Lemma processCell_effect g ng fb sb se x y s s' :
  processCell g ng fb sb se x y s = Done tt s' ->
  exists m ent, arrays s !! Cells g = Some m /\ matrix_get m x y = Some ent
    /\ effect ng ent (occupied ent) (fun e => ent <> Nil /\ (e = ent \/ fresh s e)) s s'.
Proof.
  intros H. unfold processCell in H. inv_run. exists m, a.
  split; [assumption|]. split; [assumption|].
  destruct a as [|fish|shark].
  - inv_run. apply effect_refl.
  - apply processFish_effect in H. revert H. apply effect_weaken.
    intros e He. split; [discriminate | assumption].
  - apply processShark_effect in H. revert H. apply effect_weaken.
    intros e He. split; [discriminate | assumption].
Qed.

(** * Counting the entities *)

Lemma sumZ_bind {A B} (f : B -> Z) (k : A -> list B) (l : list A) :
  sumZ f (l ≫= k) = sumZ (fun a => sumZ f (k a)) l.
Proof.
  induction l as [|a l IH]; [reflexivity|].
  change ((a :: l) ≫= k) with (k a ++ (l ≫= k)).
  rewrite sumZ_app, IH. reflexivity.
Qed.

(** A sum over the indices of a slice is a sum over its elements. *)
Lemma sumZ_index {A} (h : A -> Z) (l : list A) :
  sumZ (fun i => from_option h 0 (index l i)) (seqZ 0 (Z.of_nat (length l)))
  = sumZ h l.
Proof.
  induction l as [|a l IH] using rev_ind; [reflexivity|].
  rewrite length_app. simpl length. rewrite Nat.add_1_r, seqZ_S, Z.add_0_l, !sumZ_app.
  rewrite <- IH. f_equal.
  - apply sumZ_ext. intros i Hi. apply elem_of_seqZ in Hi.
    unfold index. destruct (Z.ltb_spec i 0); [lia|].
    rewrite lookup_app_l by lia. reflexivity.
  - unfold sumZ. simpl. unfold index. destruct (Z.ltb_spec (Z.of_nat (length l)) 0); [lia|].
    rewrite Nat2Z.id, list_lookup_middle by reflexivity. reflexivity.
Qed.

(** The scan of [CountEntities] counts what the cell array holds. *)
Lemma sumZ_cells (f : Entity -> Z) n m :
  0 <= n -> shape n m ->
  sumZ (cell_weight f m) (cellsOf 0 n n) = sumZ (sumZ f) m.
Proof.
  intros Hn [Hl Hr]. unfold cellsOf. rewrite Z.sub_0_r, sumZ_bind.
  rewrite <- (sumZ_index (sumZ f) m). rewrite Hl, Z2Nat.id by assumption.
  apply sumZ_ext. intros x Hx. apply elem_of_seqZ in Hx.
  rewrite sumZ_bind.
  destruct (index_in_range m x ltac:(lia)) as [row Hrow]. rewrite Hrow. simpl.
  pose proof Hrow as Hrow'. apply index_Some in Hrow'. destruct Hrow' as [_ Hrow'].
  rewrite Forall_lookup in Hr. specialize (Hr _ _ Hrow').
  rewrite <- (sumZ_index f row). rewrite Hr, Z2Nat.id by assumption.
  apply sumZ_ext. intros y Hy.
  unfold sumZ, cell_weight, matrix_get. simpl. rewrite Hrow. simpl.
  destruct (index row y); simpl; lia.
Qed.

Lemma sumZ_replicate {A} (f : A -> Z) n a :
  sumZ f (replicate n a) = Z.of_nat n * f a.
Proof.
  induction n as [|n IH]; [reflexivity|].
  change (sumZ f (replicate (S n) a)) with (f a + sumZ f (replicate n a)). lia.
Qed.

Lemma population_replicate a b : population (replicate a (replicate b Nil)) = 0.
Proof. unfold population. rewrite !sumZ_replicate. unfold occupied. simpl. lia. Qed.

(** The cells visited by a section that starts where another one ends. *)
Lemma cellsOf_app lo mid hi n :
  lo <= mid <= hi -> cellsOf lo mid n ++ cellsOf mid hi n = cellsOf lo hi n.
Proof.
  intros H. unfold cellsOf. rewrite <- bind_app.
  replace (hi - lo) with ((mid - lo) + (hi - mid)) by lia.
  rewrite seqZ_app by lia. replace (lo + (mid - lo)) with mid by lia. reflexivity.
Qed.

Lemma processSection_cells g ng lo hi fb sb se s :
  processSection g ng lo hi fb sb se s
  = forList (cellsOf lo hi (Size g)) (fun c => processCell g ng fb sb se c.1 c.2) s.
Proof. unfold processSection. apply forRange_nest. Qed.

(** With the workers run one after the other, the sections of the workers
    [0 .. k-1] visit the cells of the rows below the start of worker [k],
    each once, row by row. *)
Lemma workers_visit g ng fb sb se threads (k : nat) s :
  1 <= Size g <= GoInt.max_int -> 1 <= threads <= GoInt.max_int ->
  Z.of_nat k <= threads ->
  forList (seqZ 0 (Z.of_nat k))
    (fun i => processSection g ng
                (startRowOf (rowsPerThreadOf (Size g) threads) i)
                (endRowOf (Size g) threads (rowsPerThreadOf (Size g) threads) i)
                fb sb se) s
  = forList (cellsOf 0 (if decide (Z.of_nat k = threads) then Size g
                        else Z.of_nat k * rowsPerThreadOf (Size g) threads) (Size g))
      (fun c => processCell g ng fb sb se c.1 c.2) s.
Proof.
  intros HN Ht. revert s. induction k as [|k IH]; intros s Hk.
  - destruct (decide _); [lia|]. reflexivity.
  - rewrite seqZ_S, Z.add_0_l, forList_app. unfold bind at 1. rewrite IH by lia.
    destruct (decide (Z.of_nat k = threads)); [lia|].
    set (hi := if decide (Z.of_nat (S k) = threads) then Size g
               else Z.of_nat (S k) * rowsPerThreadOf (Size g) threads).
    rewrite <- (cellsOf_app 0 (Z.of_nat k * rowsPerThreadOf (Size g) threads) hi).
    2:{ pose proof (rowsPerThread_bounds _ _ HN Ht). unfold hi.
        destruct (decide _); nia. }
    unfold hi. clear hi.
    rewrite forList_app. unfold bind.
    destruct (forList (cellsOf 0 _ _) _ s) as [[] s1|]; [|reflexivity].
    simpl. unfold bind. rewrite processSection_cells.
    rewrite startRowOf_eq, endRowOf_eq by lia.
    replace (Z.of_nat (S k)) with (Z.of_nat k + 1) by lia.
    destruct (decide (Z.of_nat k = threads - 1)), (decide (Z.of_nat k + 1 = threads)); try lia.
    + destruct (forList _ _ s1) as [[] ?|]; reflexivity.
    + destruct (forList _ _ s1) as [[] ?|]; reflexivity.
Qed.

(** With the workers run one after the other, a chronon of the
    row-partition strategy is one sweep over the cells, row by row. *)
Lemma MoveEntitiesWithThreads_sweep g fb sb se threads s :
  valid_side (Size g) -> 1 <= threads <= GoInt.max_int ->
  let ng := mkGrid (Size g) (length (arrays s)) in
  let s1 := set_arrays (arrays s ++ [replicate (Z.to_nat (Size g))
                                       (replicate (Z.to_nat (Size g)) Nil)]) s in
  MoveEntitiesWithThreads g fb sb se threads s
  = (forList (cellsOf 0 (Size g) (Size g)) (fun c => processCell g ng fb sb se c.1 c.2) ;;
     ret ng) s1.
Proof.
  intros Hv Ht ng s1. pose proof (valid_side_in_range _ Hv) as HN.
  unfold MoveEntitiesWithThreads.
  rewrite (bind_run _ _ _ _ _ (NewGrid_run _ s Hv)).
  rewrite (rowsPerThread_eq _ _ HN Ht).
  rewrite (bind_run _ _ _ _ _ (orPanic_Some _ _)).
  fold ng. fold s1. unfold forRange, bind. rewrite Z.sub_0_r.
  pose proof (workers_visit g ng fb sb se threads (Z.to_nat threads) s1 HN Ht ltac:(lia)) as E.
  rewrite Z2Nat.id in E by lia. rewrite E.
  destruct (decide (threads = threads)); [|congruence]. reflexivity.
Qed.

(** The sweep raises the balance of the next grid by one for each entity
    of the current grid, and leaves the cells of the current grid alone. *)
Lemma sweep_account g ng m fb sb se cells s s' :
  Cells ng <> Cells g -> arrays s !! Cells g = Some m ->
  forList cells (fun c => processCell g ng fb sb se c.1 c.2) s = Done tt s' ->
  arrays s' !! Cells g = Some m
  /\ balance ng s' = balance ng s + sumZ (cell_weight occupied m) cells.
Proof.
  intros Hne Hm.
  apply (forList_measure (fun s0 => arrays s0 !! Cells g = Some m) (balance ng)
           (cell_weight occupied m)); [|assumption].
  intros [x y] s0 s0' _ Hm0 Hrun. apply processCell_effect in Hrun.
  destruct Hrun as (m' & ent & Hm' & Hent & (E1 & E2 & _)).
  assert (m' = m) as -> by congruence. split.
  - rewrite E2 by congruence. assumption.
  - rewrite E1. unfold cell_weight. cbn [fst snd] in *. rewrite Hent. reflexivity.
Qed.

(** The entities of the next grid after a chronon of the row-partition
    strategy, with the workers run one after the other. *)
Lemma MoveEntitiesWithThreads_account g m fb sb se threads s g' s' :
  valid_side (Size g) -> grid_at s g m -> 1 <= threads <= GoInt.max_int ->
  MoveEntitiesWithThreads g fb sb se threads s = Done g' s' ->
  population (cells_of s' g')
  = population m
    + (births (events s') - births (events s))
    - (starvations (events s') - starvations (events s))
    - (overwrites (events s') - overwrites (events s)).
Proof.
  intros Hv (Hm & Hs & _) Ht Hrun.
  rewrite MoveEntitiesWithThreads_sweep in Hrun by assumption.
  apply bind_Done in Hrun. destruct Hrun as ([] & s2 & Hsweep & Hret).
  inversion Hret; subst. clear Hret.
  pose proof (lookup_lt_Some _ _ _ Hm) as Hlt.
  apply (sweep_account _ _ m) in Hsweep.
  - destruct Hsweep as [_ Hbal].
    rewrite (sumZ_cells occupied (Size g) m) in Hbal by (destruct Hv; (lia || assumption)).
    unfold balance in Hbal. unfold cells_of at 2 in Hbal. simpl in Hbal.
    rewrite lookup_app_r, Nat.sub_diag in Hbal by lia. simpl in Hbal.
    rewrite population_replicate in Hbal. fold (population m) in Hbal. lia.
  - simpl. lia.
  - simpl. rewrite lookup_app_l by assumption. assumption.
Qed.

(** * The message-passing strategy *)

Lemma send_Done ch mv s u s' :
  send ch mv s = Done u s' <->
  exists c, chans s !! ch = Some c /\ closed c = false
            /\ Z.of_nat (length (buf c)) < cap c
            /\ s' = set_chans (<[ch := mkChan (cap c) (buf c ++ [mv]) false]> (chans s)) s.
Proof.
  unfold send. destruct (chans s !! ch) as [c|]; split.
  - destruct (closed c) eqn:Hcl; [discriminate|].
    destruct (Z.ltb_spec (Z.of_nat (length (buf c))) (cap c)) as [Hlt|Hge]; [|discriminate].
    intros H. inversion H. exists c. auto.
  - intros (c' & E & Hc & Hl & ->). inversion E; subst c'. rewrite Hc.
    destruct (Z.ltb_spec (Z.of_nat (length (buf c))) (cap c)) as [Hlt|Hge]; [|lia].
    destruct u. reflexivity.
  - discriminate.
  - intros (c' & E & _). discriminate.
Qed.

Lemma msg_effect_refl ch s : msg_effect ch 0 s s.
Proof. repeat split; auto; lia. Qed.

Lemma msg_effect_post_silent ch d s0 s1 s2 :
  msg_effect ch d s0 s1 ->
  arrays s2 = arrays s1 -> fishes s2 = fishes s1 -> events s2 = events s1 ->
  chans s2 = chans s1 ->
  msg_effect ch d s0 s2.
Proof.
  intros (E1 & E2 & E3 & E4 & E5) Ha Hf He Hc.
  split; [congruence|]. split; [congruence|]. split; [congruence|]. split.
  - rewrite <- E4. unfold msg_balance, pending. rewrite He, Hc. reflexivity.
  - intros H c. rewrite Hc. apply E5. assumption.
Qed.

Lemma msg_effect_post_emit ch d s0 s1 ev :
  msg_effect ch d s0 s1 -> (forall x y, ev <> EvOverwrite x y) ->
  msg_effect ch (d + weight ev) s0 (set_events (ev :: events s1) s1).
Proof.
  intros (E1 & E2 & E3 & E4 & E5) Hev.
  split; [assumption|]. split; [assumption|]. split; [|split].
  - rewrite <- E3. destruct ev; [destruct (Hev x y); reflexivity | reflexivity | reflexivity].
  - unfold msg_balance, pending, starvations, births, sumZ in *.
    destruct ev; [destruct (Hev x y); reflexivity | |];
      cbn [events set_events chans foldr weight]; lia.
  - assumption.
Qed.

Lemma msg_effect_post_send ch d s0 s1 c mv :
  msg_effect ch d s0 s1 -> chans s1 !! ch = Some c -> Ent mv <> Nil ->
  msg_effect ch (d + 1) s0
    (set_chans (<[ch := mkChan (cap c) (buf c ++ [mv]) false]> (chans s1)) s1).
Proof.
  intros (E1 & E2 & E3 & E4 & E5) Hc Hmv.
  pose proof (lookup_lt_Some _ _ _ Hc) as Hlt.
  split; [assumption|]. split; [assumption|]. split; [assumption|]. split.
  - unfold msg_balance, pending in *. cbn [chans set_chans events].
    rewrite list_lookup_insert_eq by assumption. rewrite Hc in E4. simpl.
    rewrite length_app. simpl. lia.
  - intros H0 c'. cbn [chans set_chans].
    rewrite list_lookup_insert_eq by assumption. intros Hc'. inversion Hc'; subst. simpl.
    apply Forall_app. split; [apply (E5 H0 c Hc) | repeat constructor; assumption].
Qed.

(** One more step of the collection of the moves. *)
Ltac meff E :=
  match type of E with
  | msg_effect ?ch ?d ?s0 ?s1 =>
      match goal with
      | H : ?s2 = set_drawn ?n s1 |- _ =>
          apply (fun E' => msg_effect_post_silent ch d s0 s1 (set_drawn n s1) E'
                             eq_refl eq_refl eq_refl eq_refl) in E;
          rewrite <- H in E; clear H
      | H : ?s2 = set_sharks ?v s1 |- _ =>
          apply (fun E' => msg_effect_post_silent ch d s0 s1 (set_sharks v s1) E'
                             eq_refl eq_refl eq_refl eq_refl) in E;
          rewrite <- H in E; clear H
      | H : ?s2 = set_events (?ev :: events s1) s1 |- _ =>
          apply (fun E' => msg_effect_post_emit ch d s0 s1 ev E'
                             ltac:(discriminate)) in E;
          rewrite <- H in E; clear H
      | H : ?s2 = set_chans (<[ch := mkChan (cap ?c) (buf ?c ++ [?mv]) false]> (chans s1)) s1,
        Hc : chans s1 !! ch = Some ?c |- _ =>
          apply (fun E' => msg_effect_post_send ch d s0 s1 c mv E' Hc
                             ltac:(discriminate)) in E;
          rewrite <- H in E; clear H
      end
  end.

Ltac inv_send :=
  repeat match goal with
  | H : send _ _ _ = Done _ _ |- _ =>
      let c := fresh "c" in let Hc := fresh "Hc" in
      let Hcl := fresh "Hcl" in let Hcap := fresh "Hcap" in
      apply send_Done in H; destruct H as (c & Hc & Hcl & Hcap & H)
  end.

Lemma msg_effect_delta ch d d' s0 s1 : msg_effect ch d s0 s1 -> d = d' -> msg_effect ch d' s0 s1.
Proof. intros E <-. assumption. Qed.

(** What the collection of the move of one cell does to the store. *)
Lemma moveSharkCell_effect g sb se ch x y s s' :
  moveSharkCell g sb se ch x y s = Done tt s' ->
  exists m ent, arrays s !! Cells g = Some m /\ matrix_get m x y = Some ent
    /\ msg_effect ch (if is_shark ent then 1 else 0) s s'.
Proof.
  intros H. unfold moveSharkCell in H. inv_run. exists m, a.
  split; [assumption|]. split; [assumption|].
  pose proof (msg_effect_refl ch s) as E.
  destruct a as [|fish|shark]; inv_run; try assumption. simpl.
  meff E.
  destruct (Shark_Energy a0 <=? 0); inv_run.
  { meff E. apply (msg_effect_delta _ _ _ _ _ E). simpl. lia. }
  meff E.
  assert (E' : msg_effect ch (0 + 1) s s2).
  { destruct (found z z0); inv_run; inv_send.
    - meff E. meff E. assumption.
    - meff E. destruct (found z1 z2); inv_run; inv_send; meff E; assumption. }
  clear E E1. rename E' into E.
  meff E.
  destruct (sb <=? Shark_BreedCounter a3); inv_run; inv_send.
  - meff E. meff E. meff E. meff E.
    apply (msg_effect_delta _ _ _ _ _ E). simpl. lia.
  - apply (msg_effect_delta _ _ _ _ _ E). lia.
Qed.

Lemma moveFishCell_eq g ng fb x y :
  moveFishCell g ng fb x y
  = (c <- getCell g x y ;;
     match c with
     | FishPtr fish => processFish g ng fish x y fb
     | _ => ret tt
     end).
Proof. reflexivity. Qed.

(** What the move of the fish of one cell does to the store. *)
Lemma moveFishCell_effect g ng fb x y s s' :
  moveFishCell g ng fb x y s = Done tt s' ->
  exists m ent, arrays s !! Cells g = Some m /\ matrix_get m x y = Some ent
    /\ effect ng (if is_fish ent then ent else Nil) (if is_fish ent then 1 else 0)
         (fun e => is_fish ent = true /\ (e = ent \/ fresh s e)) s s'.
Proof.
  intros H. rewrite moveFishCell_eq in H. inv_run. exists m, a.
  split; [assumption|]. split; [assumption|].
  destruct a as [|fish|shark]; inv_run; try apply effect_refl. simpl.
  apply processFish_effect in H. revert H. apply effect_weaken. auto.
Qed.

Lemma sumZ_add {A} (f h : A -> Z) l :
  sumZ (fun a => f a + h a) l = sumZ f l + sumZ h l.
Proof. unfold sumZ. induction l as [|a l IH]; simpl; lia. Qed.

Lemma moveFish_cells g ng fb s :
  moveFish g ng fb s
  = forList (cellsOf 0 (Size g) (Size g)) (fun c => moveFishCell g ng fb c.1 c.2) s.
Proof. unfold moveFish. apply forRange_nest. Qed.

Lemma moveSharksConcurrent_cells g ng sb se ch s :
  moveSharksConcurrent g ng sb se ch s
  = forList (cellsOf 0 (Size g) (Size g)) (fun c => moveSharkCell g sb se ch c.1 c.2) s.
Proof. unfold moveSharksConcurrent. apply forRange_nest. Qed.

Lemma moveFish_account g ng m fb cells s s' :
  Cells ng <> Cells g -> arrays s !! Cells g = Some m ->
  forList cells (fun c => moveFishCell g ng fb c.1 c.2) s = Done tt s' ->
  (arrays s' !! Cells g = Some m /\ chans s' = chans s)
  /\ balance ng s' = balance ng s
                     + sumZ (cell_weight (fun e => if is_fish e then 1 else 0) m) cells.
Proof.
  intros Hne Hm.
  pose proof (forList_measure
                (fun s0 => arrays s0 !! Cells g = Some m /\ chans s0 = chans s)
                (balance ng)
                (cell_weight (fun e => if is_fish e then 1 else 0) m) cells
                (fun c => moveFishCell g ng fb c.1 c.2)) as L.
  intros Hrun. apply (L) with (s := s); [|split; [assumption | reflexivity] | assumption].
  intros [x y] s0 s0' _ [Hm0 Hc0] Hstep. cbn [fst snd] in *.
  apply moveFishCell_effect in Hstep.
  destruct Hstep as (m' & ent & Hm' & Hent & (E1 & E2 & E3 & _)).
  assert (m' = m) as -> by congruence. split; [split|].
  - rewrite E2 by congruence. assumption.
  - congruence.
  - rewrite E1. unfold cell_weight. cbn [fst snd]. rewrite Hent. reflexivity.
Qed.

Lemma moveSharks_account g m sb se ch cells s s' :
  arrays s !! Cells g = Some m -> msgs_ok ch s ->
  forList cells (fun c => moveSharkCell g sb se ch c.1 c.2) s = Done tt s' ->
  (arrays s' = arrays s /\ overwrites (events s') = overwrites (events s)
   /\ msgs_ok ch s')
  /\ msg_balance ch s' = msg_balance ch s
                         + sumZ (cell_weight (fun e => if is_shark e then 1 else 0) m) cells.
Proof.
  intros Hm Hok.
  pose proof (forList_measure
                (fun s0 => arrays s0 = arrays s
                           /\ overwrites (events s0) = overwrites (events s)
                           /\ msgs_ok ch s0)
                (msg_balance ch)
                (cell_weight (fun e => if is_shark e then 1 else 0) m) cells
                (fun c => moveSharkCell g sb se ch c.1 c.2)) as L.
  intros Hrun. apply L with (s := s); [|auto | assumption].
  intros [x y] s0 s0' _ (Ha0 & Ho0 & Hok0) Hstep. cbn [fst snd] in *.
  apply moveSharkCell_effect in Hstep.
  destruct Hstep as (m' & ent & Hm' & Hent & (E1 & E2 & E3 & E4 & E5)).
  assert (m' = m) as -> by congruence. split; [split; [|split]|].
  - congruence.
  - congruence.
  - auto.
  - rewrite E4. unfold cell_weight. cbn [fst snd]. rewrite Hent. reflexivity.
Qed.

(** The moves are applied to the next grid: each one raises the balance. *)
Lemma drain_account ng moves s s' :
  Forall (fun mv => Ent mv <> Nil) moves ->
  forList moves (fun move => setCell ng (X move) (Y move) (Ent move)) s = Done tt s' ->
  balance ng s' = balance ng s + Z.of_nat (length moves)
  /\ (forall c, c <> Cells ng -> arrays s' !! c = arrays s !! c).
Proof.
  intros Hall. revert s. induction Hall as [|mv moves Hmv Hall IH]; intros s Hrun.
  - inversion Hrun. split; [simpl; lia | auto].
  - simpl in Hrun. apply bind_Done in Hrun. destruct Hrun as ([] & s1 & H1 & H2).
    apply setCell_Done in H1. destruct H1 as (m0 & old & m' & Ha & Hg & Hs & ->).
    destruct (IH _ H2) as [IH1 IH2]. split.
    + rewrite IH1, (balance_written _ _ _ _ _ _ _ _ Ha Hg Hs Hmv).
      simpl length. lia.
    + intros c Hc. rewrite (IH2 c Hc). unfold written. simpl.
      apply list_lookup_insert_ne. congruence.
Qed.

Lemma sumZ_fish_shark m cells :
  sumZ (cell_weight (fun e => if is_fish e then 1 else 0) m) cells
  + sumZ (cell_weight (fun e => if is_shark e then 1 else 0) m) cells
  = sumZ (cell_weight occupied m) cells.
Proof.
  rewrite <- sumZ_add. apply sumZ_ext. intros c _. unfold cell_weight.
  destruct (matrix_get m c.1 c.2) as [[| |]|]; reflexivity.
Qed.

(** The entities of the next grid after a chronon of the message-passing
    strategy, whenever the chronon returns. *)
Lemma MoveEntitiesConcurrent_account g m fb sb se s g' s' :
  valid_side (Size g) -> grid_at s g m ->
  MoveEntitiesConcurrent g fb sb se s = Done g' s' ->
  population (cells_of s' g')
  = population m
    + (births (events s') - births (events s))
    - (starvations (events s') - starvations (events s))
    - (overwrites (events s') - overwrites (events s)).
Proof.
  intros Hv (Hm & Hs & _) Hrun. unfold MoveEntitiesConcurrent in Hrun.
  rewrite (bind_run _ _ _ _ _ (NewGrid_run _ s Hv)) in Hrun.
  set (ng := mkGrid (Size g) (length (arrays s))) in *.
  set (s1 := set_arrays _ s) in *.
  pose proof (lookup_lt_Some _ _ _ Hm) as Hlt.
  assert (Hne : Cells ng <> Cells g) by (simpl; lia).
  assert (Hm1 : arrays s1 !! Cells g = Some m)
    by (simpl; rewrite lookup_app_l by assumption; assumption).
  apply bind_Done in Hrun. destruct Hrun as ([] & s2 & Hfish & Hrun).
  rewrite moveFish_cells in Hfish.
  apply (moveFish_account _ _ m) in Hfish; [|assumption|assumption].
  destruct Hfish as [[Hm2 Hc2] Hb2].
  apply bind_Done in Hrun. destruct Hrun as (ch & s3 & Hmk & Hrun).
  unfold makeChan in Hmk. destruct (_ <? 0); [discriminate|]. inversion Hmk; subst ch s3.
  clear Hmk. set (ch := length (chans s2)) in *.
  set (s3 := set_chans _ s2) in *.
  apply bind_Done in Hrun. destruct Hrun as ([] & s4 & Hsharks & Hrun).
  rewrite moveSharksConcurrent_cells in Hsharks.
  apply (moveSharks_account _ m) in Hsharks; [|assumption|].
  2:{ intros c Hc. simpl in Hc. unfold ch in Hc.
      rewrite lookup_app_r, Nat.sub_diag in Hc by lia. inversion Hc. constructor. }
  destruct Hsharks as [(Ha4 & Ho4 & Hok4) Hb4].
  apply bind_Done in Hrun. destruct Hrun as ([] & s5 & Hclose & Hrun).
  unfold closeChan in Hclose. destruct (chans s4 !! ch) as [c|] eqn:Hc4; [|discriminate].
  destruct (closed c); [discriminate|]. inversion Hclose; subst s5. clear Hclose.
  apply bind_Done in Hrun. destruct Hrun as (moves & s6 & Hrecv & Hrun).
  unfold recvAll in Hrecv. cbn [chans set_chans] in Hrecv.
  rewrite list_lookup_insert_eq in Hrecv by exact (lookup_lt_Some _ _ _ Hc4).
  cbn [closed buf cap] in Hrecv. inversion Hrecv; subst moves s6. clear Hrecv.
  apply bind_Done in Hrun. destruct Hrun as ([] & s7 & Hdrain & Hret).
  inversion Hret; subst g' s7. clear Hret.
  apply drain_account in Hdrain; [|exact (Hok4 c Hc4)].
  destruct Hdrain as [Hb7 _].
  unfold msg_balance, pending in Hb4. rewrite Hc4 in Hb4.
  unfold s3 in Hb4. cbn [chans set_chans events] in Hb4. unfold ch in Hb4.
  rewrite lookup_app_r, Nat.sub_diag in Hb4 by lia. cbn [lookup list_lookup buf length] in Hb4.
  pose proof (sumZ_fish_shark m (cellsOf 0 (Size g) (Size g))) as Hsum.
  rewrite (sumZ_cells occupied (Size g) m) in Hsum by (destruct Hv; (lia || assumption)).
  fold (population m) in Hsum.
  change (cells_of s' (mkGrid (Size g) (Cells ng))) with (cells_of s' ng).
  unfold balance, cells_of in Hb7, Hb2. cbn [arrays events set_chans] in Hb7, Hb2.
  unfold cells_of. rewrite Ha4 in Hb7. cbn [arrays set_chans] in Hb7.
  rewrite Ho4 in Hb7. cbn [events set_chans] in Hb7, Ho4.
  unfold s1 in Hb2 at 2. cbn [arrays set_arrays events] in Hb2.
  replace ((arrays s ++ [replicate (Z.to_nat (Size g)) (replicate (Z.to_nat (Size g)) Nil)])
             !! Cells ng)
    with (Some (replicate (Z.to_nat (Size g)) (replicate (Z.to_nat (Size g)) Nil))) in Hb2
    by (simpl; rewrite lookup_app_r, Nat.sub_diag by lia; reflexivity).
  cbn [from_option id] in Hb2. rewrite population_replicate in Hb2.
  subst s3 s1 ng. cbn [arrays events set_chans set_arrays Cells] in *. lia.
Qed.

(** ** The chronon of the message-passing strategy returns *)

Lemma forList_total_rest {A} (I : list A -> State -> Prop) (l : list A) body :
  (forall a rest s, I (a :: rest) s -> exists s', body a s = Done tt s' /\ I rest s') ->
  forall s, I l s -> exists s', forList l body s = Done tt s' /\ I [] s'.
Proof.
  intros Hb. induction l as [|a l IH]; intros s Hs; simpl.
  - exists s. auto.
  - destruct (Hb a l s Hs) as (s1 & E & H1).
    rewrite (bind_run _ _ _ _ _ E). apply IH. assumption.
Qed.

Lemma collect_inv_frame g ng m ch n s s' :
  arrays s' = arrays s -> chans s' = chans s -> grows s s' ->
  collect_inv g ng m ch n s -> collect_inv g ng m ch n s'.
Proof.
  intros Ha Hc Hg (Hinv & c & C1 & C2 & C3 & C4).
  split; [apply (dispatch_inv_frame _ _ _ s); assumption|].
  exists c. rewrite Hc. repeat (split; [assumption|]).
  revert C4. apply Forall_impl. intros mv [V1 V2].
  split; [assumption | apply (valid_ent_grows s); assumption].
Qed.

Lemma collect_inv_weaken g ng m ch n n' s :
  n' <= n -> collect_inv g ng m ch n s -> collect_inv g ng m ch n' s.
Proof.
  intros Hn (Hinv & c & C1 & C2 & C3 & C4). split; [assumption|].
  exists c. repeat (split; [assumption|]). split; [lia | assumption].
Qed.

(** A send into a channel that has room. *)
Lemma send_run g ng m ch n s mv :
  collect_inv g ng m ch n s -> 1 <= n -> valid_move (Size g) s mv ->
  exists s', send ch mv s = Done tt s'
    /\ collect_inv g ng m ch (n - 1) s'
    /\ grows s s' /\ sharks s' = sharks s.
Proof.
  intros (Hinv & c & C1 & C2 & C3 & C4) Hn Hmv.
  pose proof (lookup_lt_Some _ _ _ C1) as Hlt.
  exists (set_chans (<[ch := mkChan (cap c) (buf c ++ [mv]) false]> (chans s)) s).
  split; [apply send_Done; exists c; repeat (split; [assumption || lia|]); reflexivity|].
  split; [|split; [solve_grows | reflexivity]]. split.
  - apply (dispatch_inv_frame _ _ _ s); [reflexivity | solve_grows | assumption].
  - eexists. split; [simpl; apply list_lookup_insert_eq; assumption|].
    split; [reflexivity|]. simpl. rewrite length_app. simpl. split; [lia|].
    apply Forall_app. split; [exact C4 | repeat constructor; apply Hmv].
Qed.

(** The first part of the collection of the move of a shark. *)
Lemma sharkSends_run g ng m ch n s shark x y se o :
  collect_inv g ng m ch n s -> 1 <= n -> in_grid (Size g) (x, y) ->
  sharks s !! shark = Some o ->
  exists s' o',
    ('(newX, newY) <- findNearestFish g x y ;;
     if found newX newY then
       send ch (mkMove newX newY (SharkPtr shark)) ;;
       modifyShark shark (setSharkEnergy se)
     else
       '(newX, newY) <- findEmptyAdjacent g x y ;;
       if found newX newY
       then send ch (mkMove newX newY (SharkPtr shark))
       else send ch (mkMove x y (SharkPtr shark))) s = Done tt s'
    /\ collect_inv g ng m ch (n - 1) s' /\ grows s s'
    /\ sharks s' !! shark = Some o'.
Proof.
  intros Hinv Hn Hxy Ho. pose proof (lookup_lt_Some _ _ _ Ho) as Hlt.
  pose proof Hinv as ((Hv & HN & Hne & (Gm & Gs & Gv) & _) & _).
  destruct (findNearestFish_run g m x y s Hv Gm Gs Hxy) as ([rx ry] & Hr & Hres).
  rewrite (bind_run _ _ _ _ _ Hr).
  set (s1 := set_drawn (S (S (S (drawn s)))) s) in *.
  assert (Hinv1 : collect_inv g ng m ch n s1).
  { apply (collect_inv_frame _ _ _ _ _ s); [reflexivity | reflexivity | solve_grows | assumption]. }
  destruct (scan_result_cases _ _ _ _ _ _ (proj1 Hv) Hres) as [[_ Hf]|[Hin [Hf _]]];
    simpl in Hf; rewrite Hf.
  - (* no fish next to the shark *)
    destruct (findEmptyAdjacent_run g m x y s1 Hv Gm Gs Hxy) as ([ex ey] & He & Hres').
    rewrite (bind_run _ _ _ _ _ He).
    set (s2 := set_drawn _ s1) in *.
    assert (Hinv2 : collect_inv g ng m ch n s2).
    { apply (collect_inv_frame _ _ _ _ _ s1); [reflexivity | reflexivity | solve_grows | assumption]. }
    assert (Ht : in_grid (Size g) (if found ex ey then ex else x,
                                   if found ex ey then ey else y)).
    { destruct (scan_result_cases _ _ _ _ _ _ (proj1 Hv) Hres') as [[_ Hf']|[Hin' [Hf' _]]];
        simpl in Hf'; rewrite Hf'; assumption. }
    destruct (send_run g ng m ch n s2
                (mkMove (if found ex ey then ex else x) (if found ex ey then ey else y)
                        (SharkPtr shark)) Hinv2 Hn)
      as (s3 & Hsend & Hinv3 & Hg3 & Hsh); [split; [exact Ht | exact Hlt]|].
    exists s3, o. split; [destruct (found ex ey); exact Hsend|].
    split; [assumption|]. split; [|rewrite Hsh; exact Ho].
    apply (grows_trans _ s2); [solve_grows | assumption].
  - (* a fish is eaten *)
    destruct (send_run g ng m ch n s1 (mkMove rx ry (SharkPtr shark)) Hinv1 Hn)
      as (s2 & Hsend & Hinv2 & Hg2 & Hsh); [split; [exact Hin | exact Hlt]|].
    rewrite (bind_run _ _ _ _ _ Hsend).
    assert (Ho2 : sharks s2 !! shark = Some o) by (rewrite Hsh; exact Ho).
    rewrite (modifyShark_run _ _ _ _ Ho2). eexists. eexists.
    split; [reflexivity|]. split; [|split].
    + apply (collect_inv_frame _ _ _ _ _ s2); [reflexivity | reflexivity | solve_grows | assumption].
    + apply (grows_trans _ s1); [solve_grows|].
      apply (grows_trans _ s2); [assumption | solve_grows].
    + simpl. apply list_lookup_insert_eq. rewrite Hsh. assumption.
Qed.

(** The last part: the breed counter and the offspring. *)
Lemma sharkBreedSends_run g ng m ch n s shark x y sb se o :
  collect_inv g ng m ch n s -> 1 <= n -> in_grid (Size g) (x, y) ->
  sharks s !! shark = Some o ->
  exists s',
    (modifyShark shark (fun k => setSharkBreed (GoInt.add (Shark_BreedCounter k) 1) k) ;;
     k <- loadShark shark ;;
     if sb <=? Shark_BreedCounter k then
       baby <- newShark (mkShark 0 se) ;;
       send ch (mkMove x y (SharkPtr baby)) ;;
       emit (EvBorn x y) ;;
       modifyShark shark (setSharkBreed 0)
     else ret tt) s = Done tt s'
    /\ collect_inv g ng m ch (n - 1) s' /\ grows s s'.
Proof.
  intros Hinv Hn Hxy Ho. pose proof (lookup_lt_Some _ _ _ Ho) as Hlt.
  rewrite (bind_run _ _ _ _ _ (modifyShark_run _ _ _ _ Ho)).
  set (s1 := set_sharks _ s).
  assert (Ho1 : sharks s1 !! shark
                = Some (setSharkBreed (GoInt.add (Shark_BreedCounter o) 1) o)).
  { simpl. apply list_lookup_insert_eq. assumption. }
  rewrite (bind_run _ _ _ _ _ (loadShark_run _ _ _ Ho1)).
  assert (Hinv1 : collect_inv g ng m ch n s1).
  { apply (collect_inv_frame _ _ _ _ _ s); [reflexivity | reflexivity | solve_grows | assumption]. }
  destruct (sb <=? _).
  - unfold newShark at 1.
    set (s2 := set_sharks (sharks s1 ++ [mkShark 0 se]) s1).
    rewrite (bind_run _ _ s1 (length (sharks s1)) s2) by reflexivity.
    assert (Hinv2 : collect_inv g ng m ch n s2).
    { apply (collect_inv_frame _ _ _ _ _ s1); [reflexivity | reflexivity | solve_grows | assumption]. }
    destruct (send_run g ng m ch n s2 (mkMove x y (SharkPtr (length (sharks s1)))) Hinv2 Hn)
      as (s3 & Hsend & Hinv3 & Hg3 & Hsh).
    { split; [exact Hxy|]. simpl. rewrite length_app. simpl. lia. }
    rewrite (bind_run _ _ _ _ _ Hsend).
    unfold emit at 1.
    rewrite (bind_run _ _ s3 tt (set_events (EvBorn x y :: events s3) s3)) by reflexivity.
    set (s4 := set_events _ s3).
    assert (Ho4 : sharks s4 !! shark
                  = Some (setSharkBreed (GoInt.add (Shark_BreedCounter o) 1) o)).
    { simpl. rewrite Hsh. simpl. rewrite lookup_app_l by (rewrite length_insert; assumption).
      apply list_lookup_insert_eq. assumption. }
    rewrite (modifyShark_run _ _ _ _ Ho4). eexists. split; [reflexivity|]. split.
    + apply (collect_inv_frame _ _ _ _ _ s3); [reflexivity | reflexivity | solve_grows |].
      assumption.
    + apply (grows_trans _ s2); [solve_grows|].
      apply (grows_trans _ s3); [assumption | solve_grows].
  - eexists. split; [reflexivity|]. split; [|solve_grows].
    apply (collect_inv_weaken _ _ _ _ n); [lia | assumption].
Qed.

(** The collection of the move of one cell returns. *)
Lemma moveSharkCell_run g ng m ch n s sb se x y :
  collect_inv g ng m ch n s -> in_grid (Size g) (x, y) ->
  cell_weight (fun e => if is_shark e then 2 else 0) m (x, y) <= n ->
  exists s', moveSharkCell g sb se ch x y s = Done tt s'
    /\ collect_inv g ng m ch
         (n - cell_weight (fun e => if is_shark e then 2 else 0) m (x, y)) s'
    /\ grows s s'.
Proof.
  intros Hinv Hxy Hn. pose proof Hinv as ((Hv & HN & Hne & (Gm & Gs & Gv) & _) & _).
  destruct Hxy as [Hx Hy]. simpl in Hx, Hy.
  destruct (matrix_get_shape _ _ _ _ Gs Hx Hy) as [e He].
  pose proof (matrix_get_valid _ _ _ _ _ Gv He) as Hval.
  unfold cell_weight in *. cbn [fst snd] in *. rewrite He in *.
  unfold moveSharkCell. rewrite (bind_run _ _ _ _ _ (getCell_run _ _ _ _ _ _ Gm He)).
  destruct e as [|fish|shark]; simpl in Hval, Hn |- *.
  - exists s. split; [reflexivity|]. rewrite Z.sub_0_r. split; [assumption | apply grows_refl].
  - exists s. split; [reflexivity|]. rewrite Z.sub_0_r. split; [assumption | apply grows_refl].
  - destruct (lookup_lt_is_Some_2 _ _ Hval) as [o Ho].
    rewrite (bind_run _ _ _ _ _ (modifyShark_run _ _ _ _ Ho)).
    set (s1 := set_sharks _ s).
    assert (Ho1 : sharks s1 !! shark
                  = Some (setSharkEnergy (GoInt.sub (Shark_Energy o) 1) o)).
    { simpl. apply list_lookup_insert_eq. assumption. }
    rewrite (bind_run _ _ _ _ _ (loadShark_run _ _ _ Ho1)).
    assert (Hinv1 : collect_inv g ng m ch n s1).
    { apply (collect_inv_frame _ _ _ _ _ s); [reflexivity | reflexivity | solve_grows | assumption]. }
    destruct (Shark_Energy _ <=? 0).
    + eexists. split; [reflexivity|]. split; [|solve_grows].
      apply (collect_inv_frame _ _ _ _ _ s1); [reflexivity | reflexivity | solve_grows |].
      apply (collect_inv_weaken _ _ _ _ n); [lia | assumption].
    + destruct (sharkSends_run g ng m ch n s1 shark x y se _ Hinv1 ltac:(lia)
                  (conj Hx Hy) Ho1) as (s2 & o2 & Hrun2 & Hinv2 & Hg2 & Ho2).
      rewrite bind_assoc_pair. rewrite (bind_run _ _ _ _ _ Hrun2).
      destruct (sharkBreedSends_run g ng m ch (n - 1) s2 shark x y sb se _ Hinv2
                  ltac:(lia) (conj Hx Hy) Ho2) as (s3 & Hrun3 & Hinv3 & Hg3).
      exists s3. split; [exact Hrun3|]. split.
      * replace (n - 2) with (n - 1 - 1) by lia. assumption.
      * apply (grows_trans _ s1); [solve_grows|].
        apply (grows_trans _ s2); assumption.
Qed.

(** The move of the fish of one cell returns. *)
Lemma moveFishCell_run g ng m s fb x y :
  dispatch_inv g ng m s -> in_grid (Size g) (x, y) ->
  exists s', moveFishCell g ng fb x y s = Done tt s'
    /\ dispatch_inv g ng m s' /\ grows s s'.
Proof.
  intros Hinv Hxy. pose proof Hinv as (Hv & HN & Hne & (Gm & Gs & Gv) & _).
  destruct Hxy as [Hx Hy]. simpl in Hx, Hy.
  destruct (matrix_get_shape _ _ _ _ Gs Hx Hy) as [e He].
  pose proof (matrix_get_valid _ _ _ _ _ Gv He) as Hval.
  rewrite moveFishCell_eq. rewrite (bind_run _ _ _ _ _ (getCell_run _ _ _ _ _ _ Gm He)).
  destruct e as [|fish|shark]; simpl in Hval.
  - exists s. split; [reflexivity|]. split; [assumption | apply grows_refl].
  - destruct (lookup_lt_is_Some_2 _ _ Hval) as [o Ho].
    destruct (processFish_run g ng m s fish x y fb o Hinv (conj Hx Hy) Ho)
      as (r & m0 & m1 & s' & _ & _ & _ & Hrun & Hinv' & Hg & _).
    exists s'. auto.
  - exists s. split; [reflexivity|]. split; [assumption | apply grows_refl].
Qed.

(** The moves that were collected are applied. *)
Lemma drain_run g ng m moves s :
  dispatch_inv g ng m s -> Forall (valid_move (Size g) s) moves ->
  exists s', forList moves (fun move => setCell ng (X move) (Y move) (Ent move)) s
             = Done tt s'
    /\ dispatch_inv g ng m s' /\ grows s s'.
Proof.
  intros Hinv Hall. revert s Hinv Hall.
  induction moves as [|mv moves IH]; intros s Hinv Hall.
  - exists s. split; [reflexivity|]. split; [assumption | apply grows_refl].
  - apply list.Forall_cons in Hall. destruct Hall as [[Hin Hval] Hall]. cbn [forList].
    destruct (setCell_run g ng m s (X mv) (Y mv) (Ent mv) Hinv Hin)
      as (m0 & old & m' & Hm0 & Hold & Hset & Hrun).
    rewrite (bind_run _ _ _ _ _ Hrun).
    set (s1 := written ng (X mv) (Y mv) old m' s) in *.
    assert (Hg1 : grows s s1) by solve_grows.
    destruct (IH s1) as (s' & Hrun' & Hinv' & Hg').
    + apply (dispatch_inv_written _ _ _ _ m0 _ _ _ (Ent mv)); assumption.
    + revert Hall. apply Forall_impl. intros mv' [V1 V2].
      split; [assumption | apply (valid_ent_grows s); assumption].
    + exists s'. split; [assumption|]. split; [assumption|].
      apply (grows_trans _ s1); assumption.
Qed.

(** A chronon of the message-passing strategy returns when the channel has
    room for two moves for each shark. *)
Lemma MoveEntitiesConcurrent_run g m s fb sb se :
  valid_side (Size g) -> grid_at s g m ->
  Size g * Size g <= GoInt.max_int ->
  2 * sharksIn m <= Size g * Size g ->
  exists g' s' m',
    MoveEntitiesConcurrent g fb sb se s = Done g' s'
    /\ Size g' = Size g /\ Cells g' = length (arrays s)
    /\ grid_at s' g' m' /\ grows s s'
    /\ arrays s' !! Cells g = Some m.
Proof.
  intros Hv Hg Hsq Hroom. pose proof Hg as (Gm & Gs & Gv).
  pose proof (valid_side_in_range _ Hv) as HN.
  unfold MoveEntitiesConcurrent.
  rewrite (bind_run _ _ _ _ _ (NewGrid_run _ s Hv)).
  set (ng := mkGrid (Size g) (length (arrays s))).
  set (s1 := set_arrays _ s).
  assert (Hinv1 : dispatch_inv g ng m s1).
  { pose proof (lookup_lt_Some _ _ _ Gm) as Hlt.
    split; [assumption|]. split; [reflexivity|]. split; [simpl; lia|]. split.
    - split; [|split; assumption]. simpl. rewrite lookup_app_l by assumption. assumption.
    - eexists. split; [|split].
      + simpl. rewrite lookup_app_r by lia. rewrite Nat.sub_diag. reflexivity.
      + apply shape_replicate. lia.
      + apply valid_matrix_replicate. }
  (* the fish *)
  destruct (forList_total (fun s' => dispatch_inv g ng m s' /\ grows s1 s')
              (cellsOf 0 (Size g) (Size g))
              (fun c => moveFishCell g ng fb c.1 c.2)) with (s := s1)
    as (s2 & Hfish & Hinv2 & Hg2).
  { intros [x y] s' Hc [Hinv' Hg']. apply elem_of_cellsOf in Hc. cbn [fst snd] in *.
    destruct (moveFishCell_run g ng m s' fb x y Hinv') as (s'' & Hrun & Hinv'' & Hg'').
    { split; simpl; lia. }
    exists s''. split; [assumption|]. split; [assumption|].
    apply (grows_trans _ s'); assumption. }
  { split; [assumption | apply grows_refl]. }
  rewrite <- moveFish_cells in Hfish. rewrite (bind_run _ _ _ _ _ Hfish).
  (* the channel *)
  assert (Hcap : GoInt.mul (Size g) (Size g) = Size g * Size g).
  { apply mul_id. unfold GoInt.in_range, GoInt.min_int. nia. }
  unfold makeChan at 1. rewrite Hcap.
  destruct (Z.ltb_spec (Size g * Size g) 0) as [Hneg|_]; [nia|].
  set (ch := length (chans s2)).
  set (s3 := set_chans (chans s2 ++ [mkChan (Size g * Size g) [] false]) s2).
  rewrite (bind_run _ _ s2 ch s3) by reflexivity.
  (* the sharks *)
  set (w := cell_weight (fun e => if is_shark e then 2 else 0) m).
  assert (Hw : forall cells, 0 <= sumZ w cells).
  { intros cells. unfold sumZ. induction cells as [|c cells IH]; simpl; [lia|].
    unfold w at 1, cell_weight. destruct (matrix_get m c.1 c.2) as [[| |]|]; simpl; lia. }
  assert (Hsum : sumZ w (cellsOf 0 (Size g) (Size g)) = 2 * sharksIn m).
  { unfold w. rewrite (sumZ_cells _ (Size g) m) by (assumption || lia).
    unfold sharksIn, sumZ. clear. induction m as [|row m IH]; simpl; [reflexivity|].
    rewrite IH. clear IH.
    assert (E : foldr (fun a acc => (if is_shark a then 2 else 0) + acc) 0 row
                = 2 * foldr (fun a acc => (if is_shark a then 1 else 0) + acc) 0 row).
    { induction row as [|e row IH]; simpl; [reflexivity|]. destruct (is_shark e); lia. }
    lia. }
  destruct (forList_total_rest
              (fun rest s' => (forall c, c ∈ rest -> in_grid (Size g) c)
                              /\ collect_inv g ng m ch (sumZ w rest) s' /\ grows s3 s')
              (cellsOf 0 (Size g) (Size g))
              (fun c => moveSharkCell g sb se ch c.1 c.2)) with (s := s3)
    as (s4 & Hsharks & _ & Hinv4 & Hg4).
  { intros [x y] rest s' (Hin & Hinv' & Hg'). rewrite sumZ_cons in Hinv'.
    destruct (moveSharkCell_run g ng m ch _ s' sb se x y Hinv')
      as (s'' & Hrun & Hinv'' & Hg'').
    - apply Hin. left.
    - specialize (Hw rest). fold w. lia.
    - exists s''. split; [exact Hrun|]. split; [|split].
      + intros c Hc. apply Hin. right. assumption.
      + fold w in Hinv''. replace (sumZ w rest) with (w (x, y) + sumZ w rest - w (x, y)) by lia.
        assumption.
      + apply (grows_trans _ s'); assumption. }
  { split; [|split; [|apply grows_refl]].
    - intros c Hc. apply elem_of_cellsOf in Hc. split; lia.
    - split.
      + apply (dispatch_inv_frame _ _ _ s2); [reflexivity | solve_grows | assumption].
      + eexists. split; [unfold s3, ch; simpl; rewrite lookup_app_r, Nat.sub_diag by lia; reflexivity|].
        split; [reflexivity|]. simpl. split; [lia | constructor]. }
  rewrite <- moveSharksConcurrent_cells with (ng := ng) in Hsharks.
  rewrite (bind_run _ _ _ _ _ Hsharks).
  (* the moves are applied *)
  destruct Hinv4 as (Hinv4 & c & C1 & C2 & C3 & C4).
  pose proof (lookup_lt_Some _ _ _ C1) as Hch.
  unfold closeChan at 1. unfold bind at 1. rewrite C1, C2.
  unfold recvAll at 1. unfold bind at 1. cbn [chans set_chans].
  rewrite list_lookup_insert_eq by assumption. cbn [closed cap buf].
  set (s6 := set_chans _ (set_chans _ s4)).
  destruct (drain_run g ng m (buf c) s6) as (s7 & Hdrain & Hinv7 & Hg7).
  { apply (dispatch_inv_frame _ _ _ s4); [reflexivity | solve_grows | assumption]. }
  { revert C4. apply Forall_impl. intros mv [V1 V2]. split; assumption. }
  rewrite (bind_run _ _ _ _ _ Hdrain).
  destruct Hinv7 as (_ & _ & _ & (Gm7 & _) & m' & Hnew).
  exists (mkGrid (Size g) (Cells ng)), s7, m'.
  split; [reflexivity|]. split; [reflexivity|]. split; [reflexivity|].
  split; [exact Hnew|]. split; [|assumption].
  apply (grows_trans _ s1); [split; simpl; lia|].
  apply (grows_trans _ s2); [assumption|].
  apply (grows_trans _ s3); [solve_grows|].
  apply (grows_trans _ s4); [assumption|].
  apply (grows_trans _ s6); [solve_grows | assumption].
Qed.

(** * Starvation *)

(** An invariant that depends on the elements still to be visited. *)
Lemma forList_rest {A} (I : list A -> State -> Prop) (l : list A) body :
  (forall a rest s s', I (a :: rest) s -> body a s = Done tt s' -> I rest s') ->
  forall s s', I l s -> forList l body s = Done tt s' -> I [] s'.
Proof.
  intros Hb. induction l as [|a l IH]; intros s s' Hs H; simpl in H.
  - inversion H; subst. assumption.
  - apply bind_Done in H. destruct H as ([] & s1 & E1 & E2).
    exact (IH s1 s' (Hb a l s s1 Hs E1) E2).
Qed.

(** A shark whose energy runs out: nothing but its energy changes. *)
Lemma processShark_starved g ng shark x y sb se s o :
  sharks s !! shark = Some o ->
  GoInt.sub (Shark_Energy o) 1 <= 0 ->
  processShark g ng shark x y sb se s
  = Done tt (set_events (EvStarved x y :: events s)
               (set_sharks (<[shark := mkShark (Shark_BreedCounter o)
                                         (GoInt.sub (Shark_Energy o) 1)]> (sharks s)) s)).
Proof.
  intros Ho He. unfold processShark.
  rewrite (bind_run _ _ _ _ _ (modifyShark_run _ _ _ _ Ho)).
  pose proof (lookup_lt_Some _ _ _ Ho) as Hlt.
  erewrite bind_run; [|apply loadShark_run; simpl; apply list_lookup_insert_eq; assumption].
  cbn [setSharkEnergy Shark_Energy].
  destruct (Z.leb_spec (GoInt.sub (Shark_Energy o) 1) 0); [reflexivity | lia].
Qed.

Lemma moveSharkCell_starved g m shark x y sb se ch s o :
  arrays s !! Cells g = Some m -> matrix_get m x y = Some (SharkPtr shark) ->
  sharks s !! shark = Some o ->
  GoInt.sub (Shark_Energy o) 1 <= 0 ->
  moveSharkCell g sb se ch x y s
  = Done tt (set_events (EvStarved x y :: events s)
               (set_sharks (<[shark := mkShark (Shark_BreedCounter o)
                                         (GoInt.sub (Shark_Energy o) 1)]> (sharks s)) s)).
Proof.
  intros Hm Hg Ho He. unfold moveSharkCell.
  rewrite (bind_run _ _ _ _ _ (getCell_run _ _ _ _ _ _ Hm Hg)).
  rewrite (bind_run _ _ _ _ _ (modifyShark_run _ _ _ _ Ho)).
  pose proof (lookup_lt_Some _ _ _ Ho) as Hlt.
  erewrite bind_run; [|apply loadShark_run; simpl; apply list_lookup_insert_eq; assumption].
  cbn [setSharkEnergy Shark_Energy].
  destruct (Z.leb_spec (GoInt.sub (Shark_Energy o) 1) 0); [reflexivity | lia].
Qed.

(** The sweep over the cells never puts a starving shark into the next
    grid. *)
Lemma sweep_starved_absent g ng m fb sb se p o x y s s' :
  Cells ng <> Cells g -> arrays s !! Cells g = Some m ->
  (forall x' y', matrix_get m x' y' = Some (SharkPtr p) -> (x', y') = (x, y)) ->
  sharks s !! p = Some o -> GoInt.sub (Shark_Energy o) 1 <= 0 ->
  absent (SharkPtr p) (cells_of s ng) ->
  forall cells, NoDup cells ->
  forList cells (fun c => processCell g ng fb sb se c.1 c.2) s = Done tt s' ->
  absent (SharkPtr p) (cells_of s' ng).
Proof.
  intros Hne Hm Honly Ho He Habs cells Hnd Hrun.
  pose (I := fun (rest : list (Z * Z)) (s0 : State) =>
               NoDup rest /\ arrays s0 !! Cells g = Some m
               /\ (p < length (sharks s0))%nat
               /\ absent (SharkPtr p) (cells_of s0 ng)
               /\ ((x, y) ∈ rest -> sharks s0 !! p = Some o)).
  assert (Hfinal : I [] s').
  { apply (forList_rest I cells (fun c => processCell g ng fb sb se c.1 c.2)) with (s := s);
      [| |assumption].
    - clear Hrun Habs Ho Hm Hnd s s'.
      intros [cx cy] rest s s' (Hnd & Hm & Hlt & Habs & Ho) Hstep. cbn [fst snd] in Hstep.
      apply list.NoDup_cons in Hnd. destruct Hnd as [Hnotin Hnd].
      pose proof Hstep as Heff. apply processCell_effect in Heff.
      destruct Heff as (m' & ent & Hm' & Hent & (E1 & E2 & E3 & E4 & E5 & E6 & E7)).
      assert (m' = m) as -> by congruence.
      split; [assumption|]. split; [rewrite E2 by congruence; assumption|].
      split; [destruct E4; lia|].
      destruct (decide (ent = SharkPtr p)) as [->|Hother].
      + (* the cell of the starving shark *)
        pose proof (Honly _ _ Hent) as Hxy. inversion Hxy; subst cx cy.
        specialize (Ho ltac:(left)).
        unfold processCell in Hstep.
        rewrite (bind_run _ _ _ _ _ (getCell_run _ _ _ _ _ _ Hm Hent)) in Hstep.
        rewrite (processShark_starved _ _ _ _ _ _ _ _ _ Ho He) in Hstep.
        inversion Hstep; subst s'. split; [exact Habs|]. intros Hin. contradiction.
      + split.
        * intros x' y' Hcell. destruct (E7 _ _ _ Hcell) as [Hold|[_ [Heq|Hfresh]]].
          -- exact (Habs _ _ Hold).
          -- congruence.
          -- simpl in Hfresh. lia.
        * intros Hin. apply E6; [congruence|]. apply Ho. right. assumption.
    - split; [assumption|]. split; [assumption|].
      split; [exact (lookup_lt_Some _ _ _ Ho)|]. split; [assumption|]. auto. }
  destruct Hfinal as (_ & _ & _ & Hres & _). exact Hres.
Qed.

Lemma NoDup_cellsOf lo hi n : NoDup (cellsOf lo hi n).
Proof.
  unfold cellsOf. apply NoDup_bind.
  - intros x1 x2 c _ _ H1 H2.
    apply list_elem_of_bind in H1, H2.
    destruct H1 as (y1 & H1 & _), H2 as (y2 & H2 & _).
    apply list_elem_of_singleton in H1, H2. congruence.
  - intros x _. apply NoDup_bind.
    + intros y1 y2 c _ _ H1 H2. apply list_elem_of_singleton in H1, H2. congruence.
    + intros y _. apply NoDup_singleton.
    + apply NoDup_seqZ.
  - apply NoDup_seqZ.
Qed.

Lemma matrix_get_replicate a b x y e :
  matrix_get (replicate a (replicate b Nil)) x y = Some e -> e = Nil.
Proof.
  intros H. apply matrix_get_Some in H. destruct H as (row & H1 & H2).
  apply index_Some in H1, H2. destruct H1 as [_ H1], H2 as [_ H2].
  apply lookup_replicate in H1. destruct H1 as [-> _].
  apply lookup_replicate in H2. destruct H2 as [-> _]. reflexivity.
Qed.

(** After a chronon of the row-partition strategy, a shark whose energy ran
    out is in no cell of the next grid. *)
Lemma MoveEntitiesWithThreads_starved g m fb sb se threads s p o x y :
  valid_side (Size g) -> grid_at s g m -> 1 <= threads <= GoInt.max_int ->
  (forall x' y', matrix_get m x' y' = Some (SharkPtr p) -> (x', y') = (x, y)) ->
  sharks s !! p = Some o -> GoInt.sub (Shark_Energy o) 1 <= 0 ->
  exists g' s', MoveEntitiesWithThreads g fb sb se threads s = Done g' s'
                /\ absent (SharkPtr p) (cells_of s' g').
Proof.
  intros Hv Hg Ht Honly Ho He.
  destruct (MoveEntitiesWithThreads_run g m s fb sb se threads Hv Hg Ht)
    as (g' & s' & m' & Hrun & _).
  exists g', s'. split; [assumption|].
  rewrite MoveEntitiesWithThreads_sweep in Hrun by assumption.
  apply bind_Done in Hrun. destruct Hrun as ([] & s2 & Hsweep & Hret).
  inversion Hret; subst g' s2. clear Hret.
  destruct Hg as (Hm & _). pose proof (lookup_lt_Some _ _ _ Hm) as Hlt.
  revert Hsweep. apply (sweep_starved_absent g _ m fb sb se p o x y); try assumption.
  - simpl. lia.
  - simpl. rewrite lookup_app_l by assumption. assumption.
  - intros x' y' Hcell. unfold cells_of in Hcell. simpl in Hcell.
    rewrite lookup_app_r, Nat.sub_diag in Hcell by lia. simpl in Hcell.
    apply matrix_get_replicate in Hcell. discriminate.
  - apply NoDup_cellsOf.
Qed.

(** ** Starvation in the message-passing strategy *)

Lemma spares_refl p ch s : spares p ch s s.
Proof. split; [lia|]. split; [reflexivity | auto]. Qed.

Lemma spares_post_silent p ch s0 s1 s2 :
  spares p ch s0 s1 -> sharks s2 = sharks s1 -> chans s2 = chans s1 ->
  spares p ch s0 s2.
Proof.
  intros (E1 & E2 & E3) Hs Hc. unfold spares, no_move. rewrite Hs, Hc. auto.
Qed.

Lemma spares_post_store p ch s0 s1 q v :
  spares p ch s0 s1 -> q <> p ->
  spares p ch s0 (set_sharks (<[q := v]> (sharks s1)) s1).
Proof.
  intros (E1 & E2 & E3) Hq. unfold spares, no_move. simpl.
  rewrite length_insert, list_lookup_insert_ne by assumption. auto.
Qed.

Lemma spares_post_new p ch s0 s1 k :
  spares p ch s0 s1 -> (p < length (sharks s0))%nat ->
  spares p ch s0 (set_sharks (sharks s1 ++ [k]) s1).
Proof.
  intros (E1 & E2 & E3) Hp. unfold spares, no_move. simpl.
  rewrite length_app, lookup_app_l by lia. split; [lia | auto].
Qed.

Lemma spares_post_send p ch s0 s1 c mv :
  spares p ch s0 s1 -> chans s1 !! ch = Some c -> Ent mv <> SharkPtr p ->
  spares p ch s0
    (set_chans (<[ch := mkChan (cap c) (buf c ++ [mv]) false]> (chans s1)) s1).
Proof.
  intros (E1 & E2 & E3) Hc Hmv. pose proof (lookup_lt_Some _ _ _ Hc) as Hlt.
  split; [assumption|]. split; [assumption|].
  intros H0 c'. cbn [chans set_chans].
  rewrite list_lookup_insert_eq by assumption. intros Hc'. inversion Hc'; subst. simpl.
  apply Forall_app. split; [apply (E3 H0 c Hc) | repeat constructor; assumption].
Qed.

(** One more step of the collection of the moves. *)
Ltac spr E :=
  match type of E with
  | spares ?p ?ch ?s0 ?s1 =>
      match goal with
      | H : ?s2 = set_drawn ?n s1 |- _ =>
          apply (fun E' => spares_post_silent p ch s0 s1 (set_drawn n s1) E'
                             eq_refl eq_refl) in E;
          rewrite <- H in E; clear H
      | H : ?s2 = set_events ?v s1 |- _ =>
          apply (fun E' => spares_post_silent p ch s0 s1 (set_events v s1) E'
                             eq_refl eq_refl) in E;
          rewrite <- H in E; clear H
      | H : ?s2 = set_sharks (<[?q := ?v]> (sharks s1)) s1 |- _ =>
          apply (fun E' => spares_post_store p ch s0 s1 q v E' ltac:(congruence)) in E;
          rewrite <- H in E; clear H
      | H : ?s2 = set_sharks (sharks s1 ++ [?k]) s1 |- _ =>
          apply (fun E' => spares_post_new p ch s0 s1 k E' ltac:(assumption)) in E;
          rewrite <- H in E; clear H
      | H : ?s2 = set_chans (<[ch := mkChan (cap ?c) (buf ?c ++ [?mv]) false]> (chans s1)) s1,
        Hc : chans s1 !! ch = Some ?c |- _ =>
          apply (fun E' => spares_post_send p ch s0 s1 c mv E' Hc
                             ltac:(simpl; congruence)) in E;
          rewrite <- H in E; clear H
      end
  end.

Lemma moveSharkCell_spares g sb se ch x y s s' p :
  moveSharkCell g sb se ch x y s = Done tt s' ->
  (p < length (sharks s))%nat ->
  (forall m, arrays s !! Cells g = Some m -> matrix_get m x y <> Some (SharkPtr p)) ->
  spares p ch s s'.
Proof.
  intros H Hp Hcell. unfold moveSharkCell in H. inv_run.
  specialize (Hcell _ Ha).
  pose proof (spares_refl p ch s) as E.
  destruct a as [|fish|shark]; inv_run; try assumption.
  assert (Hq : shark <> p) by congruence.
  spr E.
  destruct (Shark_Energy a0 <=? 0); inv_run.
  { spr E. assumption. }
  spr E.
  assert (E' : spares p ch s s2).
  { destruct (found z z0); inv_run; inv_send.
    - spr E. spr E. assumption.
    - spr E. destruct (found z1 z2); inv_run; inv_send; spr E; assumption. }
  clear E E1. rename E' into E.
  spr E.
  destruct (sb <=? Shark_BreedCounter a3); inv_run; inv_send.
  - assert (Hbaby : length (sharks s3) <> p) by (destruct E as [L _]; lia).
    spr E. spr E. spr E. spr E. assumption.
  - assumption.
Qed.

(** The collection of the moves never sends a move for a starving shark. *)
Lemma moveSharks_starved g m sb se ch p o x y s s' :
  arrays s !! Cells g = Some m ->
  (forall x' y', matrix_get m x' y' = Some (SharkPtr p) -> (x', y') = (x, y)) ->
  sharks s !! p = Some o -> GoInt.sub (Shark_Energy o) 1 <= 0 ->
  no_move (SharkPtr p) ch s ->
  forall cells, NoDup cells ->
  forList cells (fun c => moveSharkCell g sb se ch c.1 c.2) s = Done tt s' ->
  no_move (SharkPtr p) ch s' /\ arrays s' = arrays s.
Proof.
  intros Hm Honly Ho He Hno cells Hnd Hrun.
  pose (I := fun (rest : list (Z * Z)) (s0 : State) =>
               NoDup rest /\ arrays s0 = arrays s
               /\ (p < length (sharks s0))%nat
               /\ no_move (SharkPtr p) ch s0
               /\ ((x, y) ∈ rest -> sharks s0 !! p = Some o)).
  assert (Hfinal : I [] s').
  { apply (forList_rest I cells (fun c => moveSharkCell g sb se ch c.1 c.2)) with (s := s);
      [| |assumption].
    - clear Hrun Hno Ho Hnd s'.
      intros [cx cy] rest s0 s0' (Hnd & Ha & Hlt & Hno & Ho) Hstep. cbn [fst snd] in Hstep.
      apply list.NoDup_cons in Hnd. destruct Hnd as [Hnotin Hnd].
      pose proof Hstep as Heff. apply moveSharkCell_effect in Heff.
      destruct Heff as (m' & ent & Hm' & Hent & (E1 & _)).
      assert (m' = m) as -> by congruence.
      split; [assumption|]. split; [congruence|].
      destruct (decide (ent = SharkPtr p)) as [->|Hother].
      + (* the cell of the starving shark *)
        pose proof (Honly _ _ Hent) as Hxy. inversion Hxy; subst cx cy.
        specialize (Ho ltac:(left)).
        rewrite (moveSharkCell_starved g m p x y sb se ch s0 o) in Hstep;
          [|congruence|assumption..].
        inversion Hstep; subst s0'. simpl. rewrite length_insert.
        split; [assumption|]. split; [exact Hno|]. intros Hin. contradiction.
      + apply (moveSharkCell_spares _ _ _ _ _ _ _ _ p) in Hstep; [|assumption|].
        * destruct Hstep as (S1 & S2 & S3). split; [lia|]. split; [auto|].
          intros Hin. rewrite S2. apply Ho. right. assumption.
        * intros m0 Hm0. assert (m0 = m) as -> by congruence. congruence.
    - split; [assumption|]. split; [reflexivity|].
      split; [exact (lookup_lt_Some _ _ _ Ho)|]. split; [assumption|]. auto. }
  destruct Hfinal as (_ & Ha & _ & Hres & _). auto.
Qed.

(** The moves of the fish put no shark into the next grid, and change no
    shark. *)
Lemma moveFish_absent g ng m fb p o cells s s' :
  Cells ng <> Cells g -> arrays s !! Cells g = Some m ->
  sharks s !! p = Some o ->
  absent (SharkPtr p) (cells_of s ng) ->
  forList cells (fun c => moveFishCell g ng fb c.1 c.2) s = Done tt s' ->
  arrays s' !! Cells g = Some m /\ sharks s' !! p = Some o
  /\ absent (SharkPtr p) (cells_of s' ng).
Proof.
  intros Hne Hm Ho Habs.
  apply (forList_rest (fun _ s0 => arrays s0 !! Cells g = Some m /\ sharks s0 !! p = Some o
                                   /\ absent (SharkPtr p) (cells_of s0 ng)));
    [|auto].
  clear Hm Ho Habs s s'. intros [x y] _ s s' (Hm & Ho & Habs) Hstep.
  cbn [fst snd] in Hstep. apply moveFishCell_effect in Hstep.
  destruct Hstep as (m' & ent & Hm' & Hent & (E1 & E2 & E3 & E4 & E5 & E6 & E7)).
  split; [|split].
  - rewrite E2 by congruence. assumption.
  - apply E6; [|assumption]. destruct ent; discriminate.
  - intros x' y' Hcell. destruct (E7 _ _ _ Hcell) as [Hold|[Hf [Heq|Hfresh]]].
    + exact (Habs _ _ Hold).
    + subst ent. discriminate.
    + simpl in Hfresh. apply lookup_lt_Some in Ho. lia.
Qed.

(** The drain puts into the next grid the entities of the moves only. *)
Lemma drain_absent ng e moves s s' :
  Forall (fun mv => Ent mv <> e) moves ->
  absent e (cells_of s ng) ->
  forList moves (fun move => setCell ng (X move) (Y move) (Ent move)) s = Done tt s' ->
  absent e (cells_of s' ng).
Proof.
  intros Hall. revert s. induction Hall as [|mv moves Hmv Hall IH]; intros s Habs Hrun.
  - inversion Hrun; subst. assumption.
  - simpl in Hrun. apply bind_Done in Hrun. destruct Hrun as ([] & s1 & H1 & H2).
    apply setCell_Done in H1. destruct H1 as (m0 & old & m' & Ha & Hg & Hs & ->).
    apply (IH _) in H2; [assumption|].
    intros x' y'. rewrite (cells_of_written_eq _ _ _ _ _ _ _ Ha).
    rewrite (matrix_get_set _ _ _ _ _ x' y' Hs).
    destruct (decide _); [congruence|].
    unfold cells_of in Habs. rewrite Ha in Habs. apply Habs.
Qed.

(** After a chronon of the message-passing strategy, a shark whose energy
    ran out is in no cell of the next grid. *)
Lemma MoveEntitiesConcurrent_starved g m fb sb se s p o x y g' s' :
  valid_side (Size g) -> grid_at s g m ->
  (forall x' y', matrix_get m x' y' = Some (SharkPtr p) -> (x', y') = (x, y)) ->
  sharks s !! p = Some o -> GoInt.sub (Shark_Energy o) 1 <= 0 ->
  MoveEntitiesConcurrent g fb sb se s = Done g' s' ->
  absent (SharkPtr p) (cells_of s' g').
Proof.
  intros Hv (Hm & Hs & _) Honly Ho He Hrun. unfold MoveEntitiesConcurrent in Hrun.
  rewrite (bind_run _ _ _ _ _ (NewGrid_run _ s Hv)) in Hrun.
  set (ng := mkGrid (Size g) (length (arrays s))) in *.
  set (s1 := set_arrays _ s) in *.
  pose proof (lookup_lt_Some _ _ _ Hm) as Hlt.
  assert (Hne : Cells ng <> Cells g) by (simpl; lia).
  assert (Hm1 : arrays s1 !! Cells g = Some m)
    by (simpl; rewrite lookup_app_l by assumption; assumption).
  assert (Habs1 : absent (SharkPtr p) (cells_of s1 ng)).
  { intros x' y' Hcell. unfold cells_of in Hcell. simpl in Hcell.
    rewrite lookup_app_r, Nat.sub_diag in Hcell by lia. simpl in Hcell.
    apply matrix_get_replicate in Hcell. discriminate. }
  apply bind_Done in Hrun. destruct Hrun as ([] & s2 & Hfish & Hrun).
  rewrite moveFish_cells in Hfish.
  apply (moveFish_absent g ng m fb p o) in Hfish; try assumption.
  destruct Hfish as (Hm2 & Ho2 & Habs2).
  apply bind_Done in Hrun. destruct Hrun as (ch & s3 & Hmk & Hrun).
  unfold makeChan in Hmk. destruct (_ <? 0); [discriminate|]. inversion Hmk; subst ch s3.
  clear Hmk. set (ch := length (chans s2)) in *.
  set (s3 := set_chans _ s2) in *.
  apply bind_Done in Hrun. destruct Hrun as ([] & s4 & Hsharks & Hrun).
  rewrite moveSharksConcurrent_cells in Hsharks.
  apply (moveSharks_starved g m sb se ch p o x y) in Hsharks;
    [|assumption..| |apply NoDup_cellsOf].
  2:{ intros c Hc. simpl in Hc. unfold ch in Hc.
      rewrite lookup_app_r, Nat.sub_diag in Hc by lia. inversion Hc. constructor. }
  destruct Hsharks as [Hno4 Ha4].
  apply bind_Done in Hrun. destruct Hrun as ([] & s5 & Hclose & Hrun).
  unfold closeChan in Hclose. destruct (chans s4 !! ch) as [c|] eqn:Hc4; [|discriminate].
  destruct (closed c); [discriminate|]. inversion Hclose; subst s5. clear Hclose.
  apply bind_Done in Hrun. destruct Hrun as (moves & s6 & Hrecv & Hrun).
  unfold recvAll in Hrecv. cbn [chans set_chans] in Hrecv.
  rewrite list_lookup_insert_eq in Hrecv by exact (lookup_lt_Some _ _ _ Hc4).
  cbn [closed buf cap] in Hrecv. inversion Hrecv; subst moves s6. clear Hrecv.
  apply bind_Done in Hrun. destruct Hrun as ([] & s7 & Hdrain & Hret).
  inversion Hret; subst g' s7. clear Hret.
  change (cells_of s' (mkGrid (Size g) (Cells ng))) with (cells_of s' ng).
  revert Hdrain. apply drain_absent; [exact (Hno4 c Hc4)|].
  unfold cells_of. cbn [arrays set_chans]. rewrite Ha4. exact Habs2.
Qed.

(** The bound that a lookup in a list that is known gives on the index. *)
Ltac known_index H :=
  let Hlo := fresh "Hlo" in
  let Hlt := fresh "Hlt" in
  apply index_Some in H; destruct H as [Hlo H];
  pose proof (lookup_lt_Some _ _ _ H) as Hlt;
  match type of Hlt with
  | (_ < ?n)%nat => let v := eval vm_compute in n in change n with v in Hlt
  end.

Lemma lone_shark_only i j x y :
  0 <= i < 3 -> 0 <= j < 3 ->
  matrix_get (lone_shark_cells i j) x y = Some (SharkPtr 0) -> (x, y) = (i, j).
Proof.
  intros Hi Hj H. pose proof H as H'.
  apply matrix_get_Some in H'. destruct H' as (row & H1 & H2).
  assert (Ci : i = 0 \/ i = 1 \/ i = 2) by lia.
  assert (Cj : j = 0 \/ j = 1 \/ j = 2) by lia.
  destruct Ci as [-> | [-> | ->]], Cj as [-> | [-> | ->]];
    known_index H1;
    (assert (Cx : x = 0 \/ x = 1 \/ x = 2) by lia);
    destruct Cx as [-> | [-> | ->]];
    vm_compute in H1; inversion H1; subst row;
    known_index H2;
    (assert (Cy : y = 0 \/ y = 1 \/ y = 2) by lia);
    destruct Cy as [-> | [-> | ->]];
    (reflexivity || (vm_compute in H; discriminate H)).
Qed.

Lemma lone_shark_starves i j bc d fb sb se threads :
  0 <= i < 3 -> 0 <= j < 3 -> 1 <= threads <= GoInt.max_int ->
  CountEntities (mkGrid 3 0) (lone_shark i j (mkShark bc 1) d)
  = Done (0, 1) (lone_shark i j (mkShark bc 1) d)
  /\ (exists g' s',
        MoveEntitiesWithThreads (mkGrid 3 0) fb sb se threads
          (lone_shark i j (mkShark bc 1) d)
        = Done g' s'
        /\ CountEntities g' s' = Done (0, 0) s')
  /\ (exists g' s',
        MoveEntitiesConcurrent (mkGrid 3 0) fb sb se (lone_shark i j (mkShark bc 1) d)
        = Done g' s'
        /\ CountEntities g' s' = Done (0, 0) s').
Proof.
  intros Hi Hj Ht.
  assert (Ci : i = 0 \/ i = 1 \/ i = 2) by lia.
  assert (Cj : j = 0 \/ j = 1 \/ j = 2) by lia.
  split; [|split].
  - destruct Ci as [-> | [-> | ->]], Cj as [-> | [-> | ->]]; vm_compute; reflexivity.
  - destruct Ci as [-> | [-> | ->]], Cj as [-> | [-> | ->]];
      eexists; eexists;
      rewrite MoveEntitiesWithThreads_sweep by (assumption || known_grid);
      (split; [vm_compute; reflexivity | vm_compute; reflexivity]).
  - destruct Ci as [-> | [-> | ->]], Cj as [-> | [-> | ->]];
      eexists; eexists; (split; [vm_compute; reflexivity | vm_compute; reflexivity]).
Qed.

(** C6.  The first thing that the processing of a shark does is to take 1
    from its energy.  When the result is [<= 0], nothing else happens in
    either strategy, whatever the breed age and the breed counter are: the
    energy of the shark is the only thing that changes in the store, so no
    cell is written, no move is sent and no object is allocated.  After the
    chronon the shark is in no cell of the next grid: the chronon of the
    row-partition strategy returns and the shark is absent; the shark is
    absent whenever the chronon of the message-passing strategy returns, and
    that chronon returns when its channel has room for two moves for each
    shark.  In a 3x3 grid that holds a single shark with energy 1 and no
    fish, wherever the shark is, the tally is one shark before the chronon
    and no shark after it, with either strategy. *)
Theorem starving_shark_removed :
  (forall (g : Grid) (m : Matrix) (s : State) (p : nat) (o : Shark)
          (x y fb sb se threads : Z),
     valid_side (Size g) -> grid_at s g m -> 1 <= threads <= GoInt.max_int ->
     matrix_get m x y = Some (SharkPtr p) ->
     (forall x' y', matrix_get m x' y' = Some (SharkPtr p) -> (x', y') = (x, y)) ->
     sharks s !! p = Some o ->
     GoInt.sub (Shark_Energy o) 1 <= 0 ->
     let s1 := set_events (EvStarved x y :: events s)
                 (set_sharks (<[p := mkShark (Shark_BreedCounter o)
                                             (GoInt.sub (Shark_Energy o) 1)]> (sharks s)) s) in
     (forall ng, processShark g ng p x y sb se s = Done tt s1)
     /\ (forall ch, moveSharkCell g sb se ch x y s = Done tt s1)
     /\ (exists g' s',
           MoveEntitiesWithThreads g fb sb se threads s = Done g' s'
           /\ absent (SharkPtr p) (cells_of s' g'))
     /\ (forall g' s',
           MoveEntitiesConcurrent g fb sb se s = Done g' s' ->
           absent (SharkPtr p) (cells_of s' g'))
     /\ (Size g * Size g <= GoInt.max_int -> 2 * sharksIn m <= Size g * Size g ->
         exists g' s',
           MoveEntitiesConcurrent g fb sb se s = Done g' s'
           /\ absent (SharkPtr p) (cells_of s' g')))
  /\ (forall (i j bc : Z) (d : nat -> Z) (fb sb se threads : Z),
        0 <= i < 3 -> 0 <= j < 3 -> 1 <= threads <= GoInt.max_int ->
        CountEntities (mkGrid 3 0) (lone_shark i j (mkShark bc 1) d)
        = Done (0, 1) (lone_shark i j (mkShark bc 1) d)
        /\ (exists g' s',
              MoveEntitiesWithThreads (mkGrid 3 0) fb sb se threads
                (lone_shark i j (mkShark bc 1) d)
              = Done g' s'
              /\ CountEntities g' s' = Done (0, 0) s')
        /\ (exists g' s',
              MoveEntitiesConcurrent (mkGrid 3 0) fb sb se
                (lone_shark i j (mkShark bc 1) d)
              = Done g' s'
              /\ CountEntities g' s' = Done (0, 0) s')).
Proof.
  split.
  - intros g m s p o x y fb sb se threads Hv Hg Ht Hcell Honly Ho He s1.
    split; [|split; [|split; [|split]]].
    + intros ng. apply processShark_starved; assumption.
    + intros ch. destruct Hg as (Hm & _).
      apply (moveSharkCell_starved g m); assumption.
    + apply (MoveEntitiesWithThreads_starved g m fb sb se threads s p o x y); assumption.
    + intros g' s'.
      apply (MoveEntitiesConcurrent_starved g m fb sb se s p o x y); assumption.
    + intros Hsq Hroom.
      destruct (MoveEntitiesConcurrent_run g m s fb sb se Hv Hg Hsq Hroom)
        as (g' & s' & _ & Hrun & _).
      exists g', s'. split; [assumption|].
      revert Hrun. apply (MoveEntitiesConcurrent_starved g m fb sb se s p o x y); assumption.
  - intros i j bc d fb sb se threads. apply lone_shark_starves.
Qed.

(** A shark with energy 1 and a breed counter of 3, in the middle of the
    grid, with two workers. *)
Lemma starving_shark_removed_witness :
  let s := lone_shark 1 1 (mkShark 3 1) zeros in
  let s1 := set_events [EvStarved 1 1] (set_sharks [mkShark 3 0] s) in
  (forall ng, processShark (mkGrid 3 0) ng 0 1 1 3 4 s = Done tt s1)
  /\ (forall ch, moveSharkCell (mkGrid 3 0) 3 4 ch 1 1 s = Done tt s1)
  /\ (exists g' s',
        MoveEntitiesWithThreads (mkGrid 3 0) 3 3 4 2 s = Done g' s'
        /\ absent (SharkPtr 0) (cells_of s' g'))
  /\ (exists g' s',
        MoveEntitiesConcurrent (mkGrid 3 0) 3 3 4 s = Done g' s'
        /\ absent (SharkPtr 0) (cells_of s' g')).
Proof.
  intros s s1.
  assert (W : valid_side 3 /\ grid_at s (mkGrid 3 0) (lone_shark_cells 1 1)
              /\ 1 <= 2 <= GoInt.max_int
              /\ matrix_get (lone_shark_cells 1 1) 1 1 = Some (SharkPtr 0)
              /\ sharks s !! 0%nat = Some (mkShark 3 1)
              /\ GoInt.sub 1 1 <= 0).
  { repeat split; try reflexivity; try (vm_compute; discriminate);
      repeat (constructor; simpl; try lia). }
  destruct W as (Hv & Hg & Ht & Hcell & Ho & He).
  destruct (proj1 starving_shark_removed (mkGrid 3 0) (lone_shark_cells 1 1) s 0%nat
              (mkShark 3 1) 1 1 3 3 4 2 Hv Hg Ht Hcell
              (fun x' y' => lone_shark_only 1 1 x' y' ltac:(lia) ltac:(lia)) Ho He)
    as (A & B & C & _ & E).
  split; [exact A|]. split; [exact B|]. split; [exact C|].
  apply E; vm_compute; discriminate.
Defined.

(** ** Reproduction of a fish *)

(** On the crowded grid the fish in the middle breeds and cannot move: its
    offspring takes its cell.  There were five fish and one was born; the
    next grid holds five fish, and the parent is in none of its cells.  Both
    strategies do so. *)
Lemma crowded_parent_replaced :
  CountEntities (mkGrid 3 0) crowded = Done (5, 0) crowded
  /\ (exists g' s',
        MoveEntitiesWithThreads (mkGrid 3 0) 3 3 4 1 crowded = Done g' s'
        /\ cells_of s' g'
           = [[FishPtr 1; Nil; FishPtr 3]; [Nil; FishPtr 5; Nil]; [FishPtr 2; Nil; FishPtr 4]]
        /\ absent (FishPtr 0) (cells_of s' g')
        /\ events s' = [EvBorn 1 1; EvOverwrite 1 1]
        /\ fishes s' !! 0%nat = Some (mkFish 0)
        /\ fishes s' !! 5%nat = Some (mkFish 0)
        /\ CountEntities g' s' = Done (5, 0) s')
  /\ (exists g' s',
        MoveEntitiesConcurrent (mkGrid 3 0) 3 3 4 crowded = Done g' s'
        /\ cells_of s' g'
           = [[FishPtr 1; Nil; FishPtr 3]; [Nil; FishPtr 5; Nil]; [FishPtr 2; Nil; FishPtr 4]]
        /\ absent (FishPtr 0) (cells_of s' g')
        /\ events s' = [EvBorn 1 1; EvOverwrite 1 1]
        /\ fishes s' !! 0%nat = Some (mkFish 0)
        /\ fishes s' !! 5%nat = Some (mkFish 0)
        /\ CountEntities g' s' = Done (5, 0) s').
Proof.
  split; [reflexivity|].
  split; eexists; eexists; (split; [vm_compute; reflexivity|]);
    (split; [reflexivity|]); (split; [|vm_compute; repeat split]);
    intros x y H;
    (apply (matrix_get_Forall (fun e => e <> FishPtr 0)) in H; [congruence|]);
    repeat (constructor; try discriminate).
Qed.

(** C3 (as amended).  When a fish at [(x, y)] is processed and its
    incremented breed counter reaches [fishBreed]: its breed counter is reset
    to 0 and a new fish with breed counter 0 is put at [(x, y)] of the next
    grid.  If an empty neighbour [r] was found, the parent is at [r] in the
    next grid, so that the next grid holds the two fish.  If no neighbour is
    empty, the offspring replaces the parent at [(x, y)]: no other cell of
    the next grid is written, and the parent is not put into the next grid.
    The message-passing strategy runs the same code for the fish of a
    cell. *)
Theorem fish_reproduction (g ng : Grid) (m : Matrix) (s : State)
    (fish : nat) (o : Fish) (x y fb : Z) :
  dispatch_inv g ng m s ->
  in_grid (Size g) (x, y) ->
  matrix_get m x y = Some (FishPtr fish) ->
  fishes s !! fish = Some o ->
  fb <= GoInt.add (Fish_BreedCounter o) 1 ->
  exists r m0 s' m',
    scan_result is_nil (Size g) m x y r
    /\ arrays s !! Cells ng = Some m0
    /\ processFish g ng fish x y fb s = Done tt s'
    /\ moveFishCell g ng fb x y s = Done tt s'
    /\ arrays s' !! Cells ng = Some m'
    /\ fishes s' !! fish = Some (mkFish 0)
    /\ fishes s' !! length (fishes s) = Some (mkFish 0)
    /\ matrix_get m' x y = Some (FishPtr (length (fishes s)))
    /\ (forall x' y', (x', y') <> (x, y) -> (x', y') <> r ->
          matrix_get m' x' y' = matrix_get m0 x' y')
    /\ if found r.1 r.2
       then r <> (x, y) /\ matrix_get m' r.1 r.2 = Some (FishPtr fish)
       else forall x' y', (x', y') <> (x, y) ->
              matrix_get m' x' y' = matrix_get m0 x' y'.
Proof.
  intros Hinv Hxy Hcell Ho Hfb.
  destruct (processFish_run g ng m s fish x y fb o Hinv Hxy Ho)
    as (r & m0 & m1 & s' & Hres & Hm0 & Hset1 & Hrun & _ & _ & _ & Hbreed).
  destruct (Z.leb_spec fb (GoInt.add (Fish_BreedCounter o) 1)) as [_|Hlt]; [|lia].
  destruct Hbreed as (m' & Hset2 & Hm' & Hfishes).
  pose proof (lookup_lt_Some _ _ _ Ho) as Hfish.
  exists r, m0, s', m'. do 3 (split; [assumption|]).
  split.
  { rewrite moveFishCell_eq.
    destruct Hinv as (_ & _ & _ & (Gm & _) & _).
    rewrite (bind_run _ _ _ _ _ (getCell_run _ _ _ _ _ _ Gm Hcell)). assumption. }
  split; [assumption|].
  split; [|split; [|split; [|split]]].
  - rewrite Hfishes. apply list_lookup_insert_eq.
    rewrite length_app, length_insert. lia.
  - rewrite Hfishes. rewrite list_lookup_insert_ne by lia.
    rewrite lookup_app_r by (rewrite length_insert; lia).
    rewrite length_insert, Nat.sub_diag. reflexivity.
  - rewrite (matrix_get_set _ _ _ _ _ x y Hset2).
    destruct (decide _); [reflexivity | congruence].
  - intros x' y' Hne1 Hne2.
    rewrite (matrix_get_set _ _ _ _ _ x' y' Hset2).
    destruct (decide _) as [E|_]; [congruence|].
    rewrite (matrix_get_set _ _ _ _ _ x' y' Hset1).
    destruct (decide _) as [E|_]; [|reflexivity].
    destruct (found r.1 r.2); [|congruence].
    destruct r. simpl in E. congruence.
  - destruct (scan_result_cases _ _ _ _ _ _ (proj1 (proj1 Hinv)) Hres)
      as [[-> Hf]|(Hin & Hf & e & He & Hnil)]; rewrite Hf in *.
    + intros x' y' Hne.
      rewrite (matrix_get_set _ _ _ _ _ x' y' Hset2).
      destruct (decide _) as [E|_]; [congruence|].
      rewrite (matrix_get_set _ _ _ _ _ x' y' Hset1).
      destruct (decide _) as [E|_]; [congruence | reflexivity].
    + assert (Hr : r <> (x, y)).
      { intros ->. simpl in He. rewrite Hcell in He. inversion He; subst e. discriminate. }
      split; [assumption|].
      rewrite (matrix_get_set _ _ _ _ _ r.1 r.2 Hset2).
      destruct (decide _) as [E|_]; [destruct r; simpl in E; congruence|].
      rewrite (matrix_get_set _ _ _ _ _ r.1 r.2 Hset1).
      destruct (decide _); [reflexivity | congruence].
Qed.

(** The fish in the middle of the crowded grid. *)
Lemma fish_reproduction_witness :
  exists r m0 s' m',
    scan_result is_nil 3 crowded_cells 1 1 r
    /\ arrays crowded_dispatch !! 1%nat = Some m0
    /\ processFish (mkGrid 3 0) (mkGrid 3 1) 0 1 1 3 crowded_dispatch = Done tt s'
    /\ moveFishCell (mkGrid 3 0) (mkGrid 3 1) 3 1 1 crowded_dispatch = Done tt s'
    /\ arrays s' !! 1%nat = Some m'
    /\ fishes s' !! 0%nat = Some (mkFish 0)
    /\ fishes s' !! 5%nat = Some (mkFish 0)
    /\ matrix_get m' 1 1 = Some (FishPtr 5)
    /\ (forall x' y', (x', y') <> (1, 1) -> (x', y') <> r ->
          matrix_get m' x' y' = matrix_get m0 x' y')
    /\ if found r.1 r.2
       then r <> (1, 1) /\ matrix_get m' r.1 r.2 = Some (FishPtr 0)
       else forall x' y', (x', y') <> (1, 1) ->
              matrix_get m' x' y' = matrix_get m0 x' y'.
Proof.
  apply (fish_reproduction (mkGrid 3 0) (mkGrid 3 1) crowded_cells crowded_dispatch
           0%nat (mkFish 2) 1 1 3).
  - split; [known_grid|]. split; [reflexivity|]. split; [simpl; lia|].
    split; [known_grid|]. eexists. known_grid.
  - known_grid.
  - reflexivity.
  - reflexivity.
  - vm_compute. discriminate.
Defined.

(** ** The tally of [CountEntities] *)

Lemma countLoop_run g m cells c s :
  arrays s !! Cells g = Some m ->
  (forall cell, cell ∈ cells -> exists e, matrix_get m cell.1 cell.2 = Some e) ->
  0 <= c.1 -> 0 <= c.2 ->
  c.1 + Z.of_nat (length cells) <= GoInt.max_int ->
  c.2 + Z.of_nat (length cells) <= GoInt.max_int ->
  countLoop g cells c s
  = Done (c.1 + sumZ (cell_weight (fun e => if is_fish e then 1 else 0) m) cells,
          c.2 + sumZ (cell_weight (fun e => if is_shark e then 1 else 0) m) cells) s.
Proof.
  intros Hm. revert c. induction cells as [|[x y] cells IH]; intros c Hcells H1 H2 B1 B2.
  - simpl. unfold ret, sumZ. simpl. rewrite !Z.add_0_r. destruct c. reflexivity.
  - destruct (Hcells (x, y)) as [e He]; [left|]. cbn [fst snd] in He.
    cbn [countLoop]. rewrite (bind_run _ _ _ _ _ (getCell_run _ _ _ _ _ _ Hm He)).
    simpl length in B1, B2.
    assert (Hadd1 : GoInt.add c.1 1 = c.1 + 1)
      by (apply add_id; unfold GoInt.in_range, GoInt.min_int, GoInt.max_int in *; lia).
    assert (Hadd2 : GoInt.add c.2 1 = c.2 + 1)
      by (apply add_id; unfold GoInt.in_range, GoInt.min_int, GoInt.max_int in *; lia).
    rewrite IH.
    + rewrite !sumZ_cons.
      assert (W1 : forall f, cell_weight f m (x, y) = f e)
        by (intros f; unfold cell_weight; cbn [fst snd]; rewrite He; reflexivity).
      rewrite !W1.
      destruct e; unfold countCell; cbn [fst snd is_fish is_shark]; rewrite ?Hadd1, ?Hadd2;
        f_equal; f_equal; lia.
    + intros cell Hin. apply Hcells. right. assumption.
    + destruct e; unfold countCell; cbn [fst snd]; rewrite ?Hadd1; lia.
    + destruct e; unfold countCell; cbn [fst snd]; rewrite ?Hadd2; lia.
    + destruct e; unfold countCell; cbn [fst snd]; rewrite ?Hadd1; lia.
    + destruct e; unfold countCell; cbn [fst snd]; rewrite ?Hadd2; lia.
Qed.

Lemma length_bind_const {A B} (k : A -> list B) (c : nat) (l : list A) :
  (forall a, length (k a) = c) -> length (l ≫= k) = (length l * c)%nat.
Proof.
  intros Hk. induction l as [|a l IH]; [reflexivity|].
  change ((a :: l) ≫= k) with (k a ++ (l ≫= k)).
  rewrite length_app, IH, Hk. reflexivity.
Qed.

Lemma length_cellsOf lo hi n :
  length (cellsOf lo hi n) = (Z.to_nat (hi - lo) * Z.to_nat n)%nat.
Proof.
  unfold cellsOf. rewrite (length_bind_const _ (Z.to_nat n)).
  - rewrite length_seqZ. reflexivity.
  - intros x. rewrite (length_bind_const _ 1%nat) by reflexivity.
    rewrite length_seqZ. lia.
Qed.

(** On a grid whose cells can be counted by an [int], [CountEntities]
    returns the number of fish and the number of sharks of the grid,
    and these add up to the population. *)
Lemma CountEntities_run g m s :
  valid_side (Size g) -> grid_at s g m -> Size g * Size g <= GoInt.max_int ->
  CountEntities g s = Done (fishIn m, sharksIn m) s
  /\ fishIn m + sharksIn m = population m.
Proof.
  intros [Hn Hmax] (Hm & Hs & _) Hsq. split.
  - unfold CountEntities. rewrite (countLoop_run g m); try assumption.
    + cbn [fst snd]. rewrite !Z.add_0_l.
      rewrite !(sumZ_cells _ (Size g) m) by (lia || assumption). reflexivity.
    + intros cell Hin. apply elem_of_cellsOf in Hin.
      apply (matrix_get_shape (Size g)); (assumption || lia).
    + simpl. lia.
    + simpl. lia.
    + rewrite length_cellsOf. simpl. nia.
    + rewrite length_cellsOf. simpl. nia.
  - pose proof (sumZ_fish_shark m (cellsOf 0 (Size g) (Size g))) as E.
    rewrite !(sumZ_cells _ (Size g) m) in E by (lia || assumption). exact E.
Qed.

(** ** No duplication, and what may be lost *)

(** On the packed grid, with a single worker, nothing is born and nothing
    starves, and yet there are three fish before the chronon and two after
    it: two fish moved to the same cell of the next grid, and the second
    write replaced the first.  The two strategies agree on it. *)
Lemma packed_fish_lost :
  population packed_cells = 3
  /\ CountEntities (mkGrid 2 0) packed = Done (3, 0) packed
  /\ (exists g' s',
        MoveEntitiesWithThreads (mkGrid 2 0) 10 10 4 1 packed = Done g' s'
        /\ cells_of s' g' = [[Nil; FishPtr 2]; [FishPtr 1; Nil]]
        /\ births (events s') = 0 /\ starvations (events s') = 0
        /\ population (cells_of s' g') = 2
        /\ CountEntities g' s' = Done (2, 0) s')
  /\ (exists g' s',
        MoveEntitiesConcurrent (mkGrid 2 0) 10 10 4 packed = Done g' s'
        /\ cells_of s' g' = [[Nil; FishPtr 2]; [FishPtr 1; Nil]]
        /\ births (events s') = 0 /\ starvations (events s') = 0
        /\ population (cells_of s' g') = 2
        /\ CountEntities g' s' = Done (2, 0) s').
Proof.
  split; [reflexivity|]. split; [reflexivity|].
  split; eexists; eexists; (split; [vm_compute; reflexivity|]); vm_compute; repeat split.
Qed.

(** C4 (as amended).  Over one chronon with a single worker, the number of
    entities of the next grid is the number of entities of the current grid,
    plus the offspring, minus the sharks that starved, minus the entities
    that were overwritten in the next grid by a later write to the same cell:
    no entity is duplicated, and an entity is lost only by such an overwrite.
    The row-partition strategy with one worker always returns; the
    message-passing strategy satisfies the equation whenever it returns, and
    it returns when its channel has room for two moves for each shark. *)
Theorem entity_accounting (g : Grid) (m : Matrix) (s : State) (fb sb se : Z) :
  valid_side (Size g) ->
  grid_at s g m ->
  (exists g' s',
     MoveEntitiesWithThreads g fb sb se 1 s = Done g' s'
     /\ population (cells_of s' g')
        = population m
          + (births (events s') - births (events s))
          - (starvations (events s') - starvations (events s))
          - (overwrites (events s') - overwrites (events s)))
  /\ (forall g' s',
        MoveEntitiesConcurrent g fb sb se s = Done g' s' ->
        population (cells_of s' g')
        = population m
          + (births (events s') - births (events s))
          - (starvations (events s') - starvations (events s))
          - (overwrites (events s') - overwrites (events s)))
  /\ (Size g * Size g <= GoInt.max_int -> 2 * sharksIn m <= Size g * Size g ->
      exists g' s', MoveEntitiesConcurrent g fb sb se s = Done g' s').
Proof.
  intros Hv Hg. split; [|split].
  - assert (Ht : 1 <= 1 <= GoInt.max_int) by (unfold GoInt.max_int; lia).
    destruct (MoveEntitiesWithThreads_run g m s fb sb se 1 Hv Hg Ht)
      as (g' & s' & m' & Hrun & _).
    exists g', s'. split; [assumption|].
    exact (MoveEntitiesWithThreads_account g m fb sb se 1 s g' s' Hv Hg Ht Hrun).
  - intros g' s'. apply MoveEntitiesConcurrent_account; assumption.
  - intros Hsq Hroom.
    destruct (MoveEntitiesConcurrent_run g m s fb sb se Hv Hg Hsq Hroom)
      as (g' & s' & _ & Hrun & _).
    exists g', s'. assumption.
Qed.

(** The accounting on the hunted grid. *)
Lemma entity_accounting_witness :
  (exists g' s',
     MoveEntitiesWithThreads (mkGrid 2 0) 10 10 5 1 hunted = Done g' s'
     /\ population (cells_of s' g')
        = population hunted_cells
          + (births (events s') - births (events hunted))
          - (starvations (events s') - starvations (events hunted))
          - (overwrites (events s') - overwrites (events hunted)))
  /\ (forall g' s',
        MoveEntitiesConcurrent (mkGrid 2 0) 10 10 5 hunted = Done g' s' ->
        population (cells_of s' g')
        = population hunted_cells
          + (births (events s') - births (events hunted))
          - (starvations (events s') - starvations (events hunted))
          - (overwrites (events s') - overwrites (events hunted)))
  /\ (2 * 2 <= GoInt.max_int -> 2 * sharksIn hunted_cells <= 2 * 2 ->
      exists g' s', MoveEntitiesConcurrent (mkGrid 2 0) 10 10 5 hunted = Done g' s').
Proof.
  apply (entity_accounting (mkGrid 2 0) hunted_cells hunted 10 10 5); known_grid.
Defined.

(** ** The two strategies on a grid without sharks *)

Lemma processCell_moveFishCell g ng fb sb se x y s :
  (forall e, getCell g x y s = Done e s -> is_shark e = false) ->
  processCell g ng fb sb se x y s = moveFishCell g ng fb x y s.
Proof.
  intros Hns. rewrite moveFishCell_eq. unfold processCell, bind.
  destruct (getCell g x y s) as [e s0|f] eqn:E; [|reflexivity].
  pose proof E as E'. apply getCell_Done in E'. destruct E' as [-> _].
  specialize (Hns e eq_refl). destruct e; [reflexivity | reflexivity | discriminate].
Qed.

Lemma sweep_moveFish g ng m fb sb se cells s :
  Cells ng <> Cells g -> arrays s !! Cells g = Some m ->
  (forall x y e, matrix_get m x y = Some e -> is_shark e = false) ->
  forList cells (fun c => processCell g ng fb sb se c.1 c.2) s
  = forList cells (fun c => moveFishCell g ng fb c.1 c.2) s.
Proof.
  intros Hne Hm Hns.
  apply (forList_ext (fun s0 => arrays s0 !! Cells g = Some m)); [| |assumption].
  - intros [x y] s0 _ Hm0. cbn [fst snd]. apply processCell_moveFishCell.
    intros e He. apply getCell_Done in He. destruct He as (_ & m' & Hm' & He).
    apply (Hns x y). congruence.
  - intros [x y] s0 s0' _ Hm0 Hstep. cbn [fst snd] in Hstep.
    apply processCell_effect in Hstep.
    destruct Hstep as (_ & _ & _ & _ & (_ & E2 & _)).
    rewrite E2 by congruence. assumption.
Qed.

(** Without sharks, the collection of the moves sends nothing. *)
Lemma moveSharks_idle g m sb se ch cells s :
  arrays s !! Cells g = Some m ->
  (forall c, c ∈ cells -> exists e, matrix_get m c.1 c.2 = Some e /\ is_shark e = false) ->
  forList cells (fun c => moveSharkCell g sb se ch c.1 c.2) s = Done tt s.
Proof.
  intros Hm Hcells.
  destruct (forList_total (fun s0 => s0 = s) cells
              (fun c => moveSharkCell g sb se ch c.1 c.2)) with (s := s)
    as (s' & Hrun & ->); [|reflexivity|assumption].
  intros [x y] s0 Hin ->. exists s. split; [|reflexivity].
  destruct (Hcells _ Hin) as (e & He & Hns). cbn [fst snd] in *.
  unfold moveSharkCell.
  rewrite (bind_run _ _ _ _ _ (getCell_run _ _ _ _ _ _ Hm He)).
  destruct e; [reflexivity | reflexivity | discriminate].
Qed.

(** On the hunted grid, from the same store, the two strategies return
    different next grids and different tallies.  Both move the shark onto
    the fish of [(1, 0)].  The row-partition strategy then processes that
    fish, which has no empty neighbour and is written over the shark: three
    fish and no shark.  The message-passing strategy applies the move of the
    shark after those of the fish: two fish and one shark. *)
Lemma hunted_strategies_differ :
  exists g1 s1 g2 s2,
    MoveEntitiesWithThreads (mkGrid 2 0) 10 10 5 1 hunted = Done g1 s1
    /\ MoveEntitiesConcurrent (mkGrid 2 0) 10 10 5 hunted = Done g2 s2
    /\ cells_of s1 g1 = [[Nil; FishPtr 0]; [FishPtr 1; FishPtr 2]]
    /\ cells_of s2 g2 = [[Nil; FishPtr 0]; [SharkPtr 0; FishPtr 2]]
    /\ CountEntities g1 s1 = Done (3, 0) s1
    /\ CountEntities g2 s2 = Done (2, 1) s2.
Proof.
  eexists. eexists. eexists. eexists.
  split; [vm_compute; reflexivity|]. split; [vm_compute; reflexivity|].
  vm_compute. repeat split.
Qed.

(** On the packed grid, which holds no shark, with two workers: when the
    worker of row 1 runs before the worker of row 0, the fish of [(0, 0)]
    is the last to be written to [(0, 1)], where the message-passing
    strategy, which moves the fish row by row, leaves the fish of
    [(1, 1)].  Every draw of the random source is 0, so that each fish
    makes the same choice in both. *)
Lemma packed_worker_order_matters :
  exists g1 s1 g2 s2,
    MoveEntitiesWithThreadsIn [1; 0] (mkGrid 2 0) 10 10 4 2 packed = Done g1 s1
    /\ MoveEntitiesConcurrent (mkGrid 2 0) 10 10 4 packed = Done g2 s2
    /\ cells_of s1 g1 = [[Nil; FishPtr 0]; [FishPtr 1; Nil]]
    /\ cells_of s2 g2 = [[Nil; FishPtr 2]; [FishPtr 1; Nil]].
Proof.
  eexists. eexists. eexists. eexists.
  split; [vm_compute; reflexivity|]. split; [vm_compute; reflexivity|].
  vm_compute. repeat split.
Qed.

(** With the workers run one after the other in launch order, the sweep
    of the row-partition strategy visits the cells row by row, as
    [moveFish] does: on a grid that holds no shark, and whose number of
    cells is an [int], this schedule and the message-passing strategy
    return the same next grid, the same objects and the same tally. *)
Lemma strategies_agree_in_launch_order (g : Grid) (m : Matrix) (s : State)
    (fb sb se threads : Z) :
  valid_side (Size g) ->
  grid_at s g m ->
  1 <= threads <= GoInt.max_int ->
  Size g * Size g <= GoInt.max_int ->
  (forall x y e, matrix_get m x y = Some e -> is_shark e = false) ->
  exists g' s1 s2 tally,
    MoveEntitiesWithThreads g fb sb se threads s = Done g' s1
    /\ MoveEntitiesConcurrent g fb sb se s = Done g' s2
    /\ arrays s2 = arrays s1 /\ fishes s2 = fishes s1 /\ sharks s2 = sharks s1
    /\ drawn s2 = drawn s1 /\ events s2 = events s1
    /\ CountEntities g' s1 = Done tally s1
    /\ CountEntities g' s2 = Done tally s2.
Proof.
  intros Hv Hg Ht Hsq Hns. pose proof Hg as (Hm & Hs & _).
  destruct (MoveEntitiesWithThreads_run g m s fb sb se threads Hv Hg Ht)
    as (g' & s1 & m' & Hrun & HN' & Hcells' & Hg' & _ & Hm1).
  exists g', s1.
  pose proof Hrun as Hsweep.
  rewrite MoveEntitiesWithThreads_sweep in Hsweep by assumption.
  apply bind_Done in Hsweep. destruct Hsweep as ([] & s1' & Hsweep & Hret).
  inversion Hret; subst g' s1'. clear Hret.
  set (ng := mkGrid (Size g) (length (arrays s))) in *.
  set (s0 := set_arrays _ s) in *.
  pose proof (lookup_lt_Some _ _ _ Hm) as Hlt.
  assert (Hne : Cells ng <> Cells g) by (simpl; lia).
  assert (Hm0 : arrays s0 !! Cells g = Some m)
    by (simpl; rewrite lookup_app_l by assumption; assumption).
  rewrite (sweep_moveFish g ng m) in Hsweep by assumption.
  set (ch := length (chans s1)).
  set (n := GoInt.mul (Size g) (Size g)).
  set (s3 := set_chans (chans s1 ++ [mkChan n [] false]) s1).
  set (s5 := set_chans (<[ch := mkChan n [] true]>
                          (<[ch := mkChan n [] true]> (chans s3))) s3).
  assert (Hconc : MoveEntitiesConcurrent g fb sb se s = Done ng s5).
  { unfold MoveEntitiesConcurrent.
    rewrite (bind_run _ _ _ _ _ (NewGrid_run _ s Hv)). fold ng. fold s0.
    unfold bind at 1. rewrite moveFish_cells, Hsweep.
    assert (Hn : n = Size g * Size g).
    { apply mul_id. destruct Hv. unfold GoInt.in_range, GoInt.min_int. nia. }
    unfold makeChan at 1. fold n. unfold bind at 1.
    destruct (Z.ltb_spec n 0) as [Hneg|_]; [destruct Hv; nia|].
    fold ch. fold s3.
    unfold bind at 1. rewrite moveSharksConcurrent_cells.
    rewrite (moveSharks_idle g m sb se ch _ s3 Hm1).
    - assert (Hch : chans s3 !! ch = Some (mkChan n [] false)).
      { unfold s3, ch. simpl. rewrite lookup_app_r, Nat.sub_diag by lia. reflexivity. }
      unfold closeChan at 1. unfold bind at 1. rewrite Hch. cbn [closed cap buf].
      unfold recvAll at 1. unfold bind at 1. cbn [chans set_chans].
      rewrite list_lookup_insert_eq by exact (lookup_lt_Some _ _ _ Hch).
      cbn [closed cap buf forList]. reflexivity.
    - intros c Hc. apply elem_of_cellsOf in Hc.
      destruct (matrix_get_shape (Size g) m c.1 c.2 Hs) as [e He]; try lia.
      exists e. split; [assumption|]. exact (Hns _ _ _ He). }
  assert (Hg5 : grid_at s5 ng m').
  { destruct Hg' as (G1 & G2 & G3). split; [exact G1|]. split; [exact G2 | exact G3]. }
  destruct (CountEntities_run ng m' s1 Hv Hg' Hsq) as [Hc1 _].
  destruct (CountEntities_run ng m' s5 Hv Hg5 Hsq) as [Hc5 _].
  exists s5, (fishIn m', sharksIn m').
  split; [assumption|]. split; [assumption|].
  repeat (split; [reflexivity|]). split; assumption.
Qed.

(** C5 (as amended).  With one worker, on a grid that holds no shark and
    whose number of cells is an [int], the row-partition strategy and the
    message-passing strategy return, from the same store (the same random
    source included), the same next grid with the same cells, the same
    objects, the same number of draws consumed and the same tally.  With
    sharks they can differ ([hunted_strategies_differ]), and so they can
    with more workers ([packed_worker_order_matters]). *)
Theorem strategies_agree_without_sharks (g : Grid) (m : Matrix) (s : State)
    (fb sb se : Z) :
  valid_side (Size g) ->
  grid_at s g m ->
  Size g * Size g <= GoInt.max_int ->
  (forall x y e, matrix_get m x y = Some e -> is_shark e = false) ->
  exists g' s1 s2 tally,
    MoveEntitiesWithThreads g fb sb se 1 s = Done g' s1
    /\ MoveEntitiesConcurrent g fb sb se s = Done g' s2
    /\ arrays s2 = arrays s1 /\ fishes s2 = fishes s1 /\ sharks s2 = sharks s1
    /\ drawn s2 = drawn s1 /\ events s2 = events s1
    /\ CountEntities g' s1 = Done tally s1
    /\ CountEntities g' s2 = Done tally s2.
Proof.
  intros Hv Hg Hsq Hns.
  apply (strategies_agree_in_launch_order g m s fb sb se 1); try assumption.
  unfold GoInt.max_int. lia.
Qed.

(** The two strategies on the packed grid, with one worker. *)
Lemma strategies_agree_without_sharks_witness :
  exists g' s1 s2 tally,
    MoveEntitiesWithThreads (mkGrid 2 0) 10 10 4 1 packed = Done g' s1
    /\ MoveEntitiesConcurrent (mkGrid 2 0) 10 10 4 packed = Done g' s2
    /\ arrays s2 = arrays s1 /\ fishes s2 = fishes s1 /\ sharks s2 = sharks s1
    /\ drawn s2 = drawn s1 /\ events s2 = events s1
    /\ CountEntities g' s1 = Done tally s1
    /\ CountEntities g' s2 = Done tally s2.
Proof.
  apply (strategies_agree_without_sharks (mkGrid 2 0) packed_cells packed 10 10 4);
    try known_grid.
  intros x y e H.
  apply (matrix_get_Forall (fun e => is_shark e = false)) in H; [assumption|].
  repeat constructor.
Defined.

(** ** The current grid during a step *)

(** The sweep writes to the cell array of the next grid only. *)
Lemma sweep_frame g ng fb sb se cells s s' :
  forList cells (fun c => processCell g ng fb sb se c.1 c.2) s = Done tt s' ->
  forall c, c <> Cells ng -> arrays s' !! c = arrays s !! c.
Proof.
  intros Hrun.
  apply (forList_rest (fun _ s0 => forall c, c <> Cells ng -> arrays s0 !! c = arrays s !! c)
           cells (fun c => processCell g ng fb sb se c.1 c.2) ) with (s := s);
    [|auto|assumption].
  intros [x y] _ s0 s0' H0 Hstep c Hc. cbn [fst snd] in Hstep.
  apply processCell_effect in Hstep.
  destruct Hstep as (_ & _ & _ & _ & (_ & E2 & _)).
  rewrite (E2 c Hc). auto.
Qed.

(** On the grid of the lone fish, the cell of the current grid still refers
    to the fish after the step, and the breed counter of that fish went from
    0 to 1: the step updated, in place, an object that the current grid
    refers to. *)
Lemma lone_fish_updated_in_place :
  exists g' s',
    MoveEntitiesWithThreads (mkGrid 3 0) 3 3 4 1 (lone_fish zeros) = Done g' s'
    /\ matrix_get (cells_of (lone_fish zeros) (mkGrid 3 0)) 1 1 = Some (FishPtr 0)
    /\ matrix_get (cells_of s' (mkGrid 3 0)) 1 1 = Some (FishPtr 0)
    /\ fishes (lone_fish zeros) !! 0%nat = Some (mkFish 0)
    /\ fishes s' !! 0%nat = Some (mkFish 1).
Proof.
  eexists. eexists. split; [vm_compute; reflexivity|]. vm_compute. repeat split.
Qed.

(** C1 (as amended).  A step never writes to the cells of the current
    grid: it returns, every cell array that the store had before the step,
    that of the current grid included, is the same after it, the writes go
    to a cell array that did not exist before, and the grid refers to that
    new array only once the step is over.  (The objects that the cells
    refer to are another matter: they are shared with the next grid and are
    updated in place.) *)
Theorem step_keeps_current_cells (g : Grid) (m : Matrix) (s : State)
    (fb sb se threads : Z) :
  valid_side (Size g) ->
  grid_at s g m ->
  1 <= threads <= GoInt.max_int ->
  exists g' s' m',
    MoveEntitiesWithThreads g fb sb se threads s = Done g' s'
    /\ (forall c a, arrays s !! c = Some a -> arrays s' !! c = Some a)
    /\ arrays s' !! Cells g = Some m
    /\ Size g' = Size g
    /\ Cells g' = length (arrays s)
    /\ grid_at s' g' m'.
Proof.
  intros Hv Hg Ht.
  destruct (MoveEntitiesWithThreads_run g m s fb sb se threads Hv Hg Ht)
    as (g' & s' & m' & Hrun & HN & Hcells & Hg' & _ & Hm).
  exists g', s', m'. split; [assumption|]. split; [|auto].
  rewrite MoveEntitiesWithThreads_sweep in Hrun by assumption.
  apply bind_Done in Hrun. destruct Hrun as ([] & s1 & Hsweep & Hret).
  inversion Hret; subst g' s1. clear Hret.
  intros c a Hc. pose proof (lookup_lt_Some _ _ _ Hc) as Hlt.
  rewrite (sweep_frame _ _ _ _ _ _ _ _ Hsweep c) by (simpl; lia).
  simpl. rewrite lookup_app_l by assumption. assumption.
Qed.

(** A step of the feeding grid, with two workers. *)
Lemma step_keeps_current_cells_witness :
  exists g' s' m',
    MoveEntitiesWithThreads (mkGrid 3 0) 3 3 5 2 (feeding zeros) = Done g' s'
    /\ (forall c a, arrays (feeding zeros) !! c = Some a -> arrays s' !! c = Some a)
    /\ arrays s' !! 0%nat = Some feeding_cells
    /\ Size g' = 3
    /\ Cells g' = 1%nat
    /\ grid_at s' g' m'.
Proof.
  apply (step_keeps_current_cells (mkGrid 3 0) feeding_cells (feeding zeros) 3 3 5 2);
    known_grid.
Defined.

(** ** The initial placement *)

Lemma addEntity_Done fuel g e s s' :
  addEntity fuel g e s = Done tt s' ->
  exists x y m m' n,
    arrays s !! Cells g = Some m /\ matrix_get m x y = Some Nil
    /\ matrix_set m x y e = Some m'
    /\ s' = written g x y Nil m' (set_drawn n s).
Proof.
  revert s. induction fuel as [|fuel IH]; intros s H; [discriminate|].
  cbn [addEntity] in H.
  apply bind_Done in H. destruct H as (x & s1 & Hx & H).
  apply bind_Done in H. destruct H as (y & s2 & Hy & H).
  unfold Intn in Hx, Hy. destruct (Size g <=? 0); [discriminate|].
  inversion Hx; subst x s1. clear Hx. inversion Hy; subst y s2. clear Hy.
  apply bind_Done in H. destruct H as (c & s3 & Hc & H).
  apply getCell_Done in Hc. destruct Hc as (-> & m & Hm & Hget).
  destruct c; cbn [is_nil] in H.
  - apply setCell_Done in H. destruct H as (m0 & old & m' & Hm0 & Hold & Hset & ->).
    assert (m0 = m) as -> by congruence.
    assert (old = Nil) as -> by congruence.
    eexists _, _, m, m', _. split; [exact Hm|]. split; [exact Hget|].
    split; [exact Hset | reflexivity].
  - destruct (IH _ H) as (x & y & m0 & m' & n & Hm0 & Hg0 & Hs0 & ->).
    exists x, y, m0, m', n. auto.
  - destruct (IH _ H) as (x & y & m0 & m' & n & Hm0 & Hg0 & Hs0 & ->).
    exists x, y, m0, m', n. auto.
Qed.

Lemma placing_refl g s : placing g s s.
Proof.
  split; [eauto|]. split; [apply grows_refl|]. split; [auto|]. split; auto.
Qed.

Lemma placing_put g s0 s s1 e x y m m' n :
  placing g s0 s ->
  grows s s1 -> arrays s1 = arrays s ->
  (forall p o, fishes s1 !! p = Some o ->
     fishes s !! p = Some o \/ ((length (fishes s) <= p)%nat /\ o = mkFish 0)) ->
  (forall p o, sharks s1 !! p = Some o ->
     sharks s !! p = Some o \/ ((length (sharks s) <= p)%nat /\ o = mkShark 0 4)) ->
  fresh s e -> valid_ent s1 e ->
  arrays s1 !! Cells g = Some m -> matrix_set m x y e = Some m' ->
  placing g s0 (written g x y Nil m' (set_drawn n s1)).
Proof.
  intros (P1 & P2 & P3 & P4 & P5) Hgr Harr Hf Hs Hfresh Hvalid Hm Hset.
  pose proof (lookup_lt_Some _ _ _ Hm) as Hlt.
  split; [|split; [|split; [|split]]].
  - intros m0 Hg0. destruct (P1 m0 Hg0) as (m1 & G1 & G2 & G3).
    assert (m1 = m) as -> by congruence.
    exists m'. split; [|split].
    + simpl. apply list_lookup_insert_eq. assumption.
    + apply (matrix_set_keeps_shape _ m x y e); assumption.
    + apply (matrix_set_valid _ m x y e); [|exact Hvalid|assumption].
      apply (valid_matrix_grows s); [|assumption].
      destruct Hgr. split; simpl; lia.
  - apply (grows_trans _ s); [assumption|]. destruct Hgr. split; simpl; lia.
  - intros p o Hp. simpl in Hp. destruct (Hf p o Hp) as [Hold|[Hge ->]].
    + apply P3. assumption.
    + right. split; [destruct P2; lia | reflexivity].
  - intros p o Hp. simpl in Hp. destruct (Hs p o Hp) as [Hold|[Hge ->]].
    + apply P4. assumption.
    + right. split; [destruct P2; lia | reflexivity].
  - intros x' y' e'. unfold cells_of at 1. simpl.
    rewrite list_lookup_insert_eq by assumption. simpl.
    rewrite (matrix_get_set _ _ _ _ _ x' y' Hset).
    destruct (decide _) as [_|_].
    + intros H. inversion H; subst e'. right. split.
      * destruct e; simpl in *; destruct P2; lia.
      * destruct e; simpl in *; lia.
    + intros H. destruct (P5 x' y' e') as [Hold|[Hfr Hv]].
      * unfold cells_of. rewrite <- Harr, Hm. assumption.
      * left. assumption.
      * right. split; [assumption|].
        apply (valid_ent_grows s); [|assumption]. destruct Hgr. split; simpl; lia.
Qed.

Lemma place_fish g fuel s0 s s' :
  placing g s0 s ->
  (p <- newFish (mkFish 0) ;; addEntity fuel g (FishPtr p)) s = Done tt s' ->
  placing g s0 s'.
Proof.
  intros Hp H. apply bind_Done in H. destruct H as (p & s1 & Hnew & H).
  apply newFish_Done in Hnew. destruct Hnew as [-> ->].
  apply addEntity_Done in H. destruct H as (x & y & m & m' & n & Hm & _ & Hset & ->).
  apply (placing_put g s0 s _ (FishPtr (length (fishes s))) x y m m' n); try assumption.
  - split; simpl; [rewrite length_app|]; lia.
  - reflexivity.
  - intros q o Hq. simpl in Hq. apply lookup_app_Some in Hq.
    destruct Hq as [Hq|[Hge Hq]]; [left; assumption|]. right. split; [assumption|].
    apply list_lookup_singleton_Some in Hq. destruct Hq as [_ <-]. reflexivity.
  - intros q o Hq. left. assumption.
  - simpl. lia.
  - simpl. rewrite length_app. simpl. lia.
Qed.

Lemma place_shark g fuel s0 s s' :
  placing g s0 s ->
  (p <- newShark (mkShark 0 4) ;; addEntity fuel g (SharkPtr p)) s = Done tt s' ->
  placing g s0 s'.
Proof.
  intros Hp H. apply bind_Done in H. destruct H as (p & s1 & Hnew & H).
  apply newShark_Done in Hnew. destruct Hnew as [-> ->].
  apply addEntity_Done in H. destruct H as (x & y & m & m' & n & Hm & _ & Hset & ->).
  apply (placing_put g s0 s _ (SharkPtr (length (sharks s))) x y m m' n); try assumption.
  - split; simpl; [|rewrite length_app]; lia.
  - reflexivity.
  - intros q o Hq. left. assumption.
  - intros q o Hq. simpl in Hq. apply lookup_app_Some in Hq.
    destruct Hq as [Hq|[Hge Hq]]; [left; assumption|]. right. split; [assumption|].
    apply list_lookup_singleton_Some in Hq. destruct Hq as [_ <-]. reflexivity.
  - simpl. lia.
  - simpl. rewrite length_app. simpl. lia.
Qed.

Lemma Initialise_placing fuel g nf ns s s' :
  Initialise fuel g nf ns s = Done tt s' -> placing g s s'.
Proof.
  intros H. unfold Initialise in H.
  apply bind_Done in H. destruct H as ([] & s1 & H1 & H2).
  assert (P1 : placing g s s1).
  { revert H1. unfold forRange.
    apply (forList_rest (fun _ s0 => placing g s s0)); [|apply placing_refl].
    intros _ _ sa sb Hp Hstep. exact (place_fish g fuel s sa sb Hp Hstep). }
  revert H2. unfold forRange.
  apply (forList_rest (fun _ s0 => placing g s s0)); [|assumption].
  intros _ _ sa sb Hp Hstep. exact (place_shark g fuel s sa sb Hp Hstep).
Qed.

(** ** The draws of a placement *)

Lemma drawnCell_in_grid g s k : 0 < Size g -> in_grid (Size g) (drawnCell g s k).
Proof.
  intros Hn. unfold in_grid, drawnCell. cbn [fst snd].
  split; apply Z.mod_pos_bound; assumption.
Qed.

Lemma drawnCell_next g s k :
  drawnCell g (set_drawn (S (S (drawn s))) s) k = drawnCell g s (S k).
Proof.
  unfold drawnCell. cbn [draws drawn set_drawn].
  replace (S (S (drawn s)) + 2 * k)%nat with (drawn s + 2 * S k)%nat by lia.
  replace (S (S (drawn s)) + 2 * k + 1)%nat with (drawn s + 2 * S k + 1)%nat by lia.
  reflexivity.
Qed.

(** One iteration of the loop of [addEntity]. *)
Lemma addEntity_step fuel g e s m :
  0 < Size g -> arrays s !! Cells g = Some m -> shape (Size g) m ->
  exists o, matrix_get m (drawnCell g s 0).1 (drawnCell g s 0).2 = Some o
    /\ addEntity (S fuel) g e s
       = if is_nil o
         then setCell g (drawnCell g s 0).1 (drawnCell g s 0).2 e
                (set_drawn (S (S (drawn s))) s)
         else addEntity fuel g e (set_drawn (S (S (drawn s))) s).
Proof.
  intros Hn Hm Hs.
  destruct (drawnCell_in_grid g s 0 Hn) as [Hx Hy].
  destruct (matrix_get_shape _ _ _ _ Hs Hx Hy) as [o Ho].
  exists o. split; [assumption|].
  cbn [addEntity]. unfold Intn at 1, bind at 1.
  destruct (Z.leb_spec (Size g) 0) as [|_]; [lia|].
  unfold Intn at 1, bind at 1.
  destruct (Z.leb_spec (Size g) 0) as [|_]; [lia|].
  cbn [draws drawn set_drawn].
  revert Ho. unfold drawnCell. cbn [fst snd].
  replace (drawn s + 2 * 0)%nat with (drawn s) by lia.
  replace (drawn s + 1)%nat with (S (drawn s)) by lia.
  intros Ho.
  change (set_drawn (S (S (drawn s))) (set_drawn (S (drawn s)) s))
    with (set_drawn (S (S (drawn s))) s).
  rewrite (bind_run _ _ _ o _
             (getCell_run g _ _ (set_drawn (S (S (drawn s))) s) m o Hm Ho)).
  destruct (is_nil o); reflexivity.
Qed.

Lemma addEntity_first_empty k : forall fuel g e s m,
  0 < Size g -> arrays s !! Cells g = Some m -> shape (Size g) m ->
  (forall j, (j < k)%nat ->
     matrix_get m (drawnCell g s j).1 (drawnCell g s j).2 <> Some Nil) ->
  matrix_get m (drawnCell g s k).1 (drawnCell g s k).2 = Some Nil ->
  (k < fuel)%nat ->
  exists m',
    matrix_set m (drawnCell g s k).1 (drawnCell g s k).2 e = Some m'
    /\ addEntity fuel g e s
       = Done tt (set_arrays (<[Cells g := m']> (arrays s))
                    (set_drawn (drawn s + 2 * (k + 1)) s)).
Proof.
  induction k as [|k IH]; intros fuel g e s m Hn Hm Hs Hocc Hnil Hfuel;
    (destruct fuel as [|fuel]; [lia|]);
    destruct (addEntity_step fuel g e s m Hn Hm Hs) as (o & Ho & ->).
  - assert (o = Nil) as -> by congruence. cbn [is_nil].
    destruct (drawnCell_in_grid g s 0 Hn) as [Hx Hy].
    destruct (matrix_set_shape _ _ _ _ e Hs Hx Hy) as (m' & Hset & _).
    exists m'. split; [assumption|].
    unfold setCell. cbn [arrays set_drawn]. rewrite Hm, Ho, Hset. cbn [is_nil].
    replace (drawn s + 2 * (0 + 1))%nat with (S (S (drawn s))) by lia.
    reflexivity.
  - assert (Ho' : is_nil o = false).
    { destruct o; [|reflexivity|reflexivity]. exfalso. apply (Hocc 0%nat); [lia | assumption]. }
    rewrite Ho'.
    destruct (IH fuel g e (set_drawn (S (S (drawn s))) s) m Hn Hm Hs)
      as (m' & Hset & Hrun).
    + intros j Hj. rewrite drawnCell_next. apply Hocc. lia.
    + rewrite drawnCell_next. assumption.
    + lia.
    + rewrite drawnCell_next in Hset. exists m'. split; [assumption|].
      rewrite Hrun. unfold set_arrays, set_drawn. cbn [fishes sharks arrays chans draws drawn events].
      replace (S (S (drawn s)) + 2 * (k + 1))%nat with (drawn s + 2 * (S k + 1))%nat by lia.
      reflexivity.
Qed.

(** ** The numbers of fish and of sharks that [Initialise] adds *)

Lemma sumZ_constant {A} (c : Z) (l : list A) :
  sumZ (fun _ => c) l = Z.of_nat (length l) * c.
Proof. unfold sumZ. induction l as [|a l IH]; simpl length; simpl foldr; lia. Qed.

(** What a placement adds to a sum over the cells. *)
Lemma addEntity_count (f : Entity -> Z) fuel g e s s' m :
  f Nil = 0 -> arrays s !! Cells g = Some m ->
  addEntity fuel g e s = Done tt s' ->
  sumZ (sumZ f) (cells_of s' g) = sumZ (sumZ f) m + f e.
Proof.
  intros Hf Hm H. apply addEntity_Done in H.
  destruct H as (x & y & m0 & m' & n & Hm0 & Hnil & Hset & ->).
  assert (m0 = m) as -> by congruence.
  rewrite (cells_of_written_eq _ _ _ _ _ _ m) by exact Hm.
  rewrite (count_set f _ _ _ _ _ _ Hnil Hset). lia.
Qed.

(** A placement leaves the occupied cells as they are. *)
Lemma addEntity_keeps fuel g e s s' m :
  arrays s !! Cells g = Some m ->
  addEntity fuel g e s = Done tt s' ->
  forall x y o, matrix_get m x y = Some o -> o <> Nil ->
    matrix_get (cells_of s' g) x y = Some o.
Proof.
  intros Hm H x y o Ho Hne. apply addEntity_Done in H.
  destruct H as (x0 & y0 & m0 & m' & n & Hm0 & Hnil & Hset & ->).
  assert (m0 = m) as -> by congruence.
  rewrite (cells_of_written_eq _ _ _ _ _ _ m) by exact Hm.
  rewrite (matrix_get_set _ _ _ _ _ x y Hset).
  destruct (decide ((x, y) = (x0, y0))) as [E|_]; [|assumption].
  inversion E; subst. congruence.
Qed.

Lemma Initialise_count (f : Entity -> Z) (a b : Z) fuel g nf ns s s' m :
  f Nil = 0 -> (forall p, f (FishPtr p) = a) -> (forall p, f (SharkPtr p) = b) ->
  grid_at s g m ->
  Initialise fuel g nf ns s = Done tt s' ->
  sumZ (sumZ f) (cells_of s' g) = sumZ (sumZ f) m + Z.max 0 nf * a + Z.max 0 ns * b.
Proof.
  intros Hf Ha Hb Hg H.
  unfold Initialise in H. apply bind_Done in H. destruct H as ([] & s1 & H1 & H2).
  pose (I := fun s0 : State => placing g s s0).
  pose (F := fun s0 : State => sumZ (sumZ f) (cells_of s0 g)).
  assert (Hstep : forall (e : nat -> Entity) (alloc : M nat) s0 s0',
             I s0 ->
             (forall sa p sb, alloc sa = Done p sb -> arrays sb = arrays sa) ->
             (p <- alloc ;; addEntity fuel g (e p)) s0 = Done tt s0' ->
             exists p, F s0' = F s0 + f (e p)).
  { intros e alloc s0 s0' (Q1 & _) Halloc Hrun.
    apply bind_Done in Hrun. destruct Hrun as (p & sa & Hal & Hadd).
    pose proof (Halloc _ _ _ Hal) as Harr.
    destruct (Q1 m Hg) as (m0 & Hm0 & _).
    exists p. unfold F.
    rewrite (addEntity_count f fuel g (e p) sa s0' m0 Hf); [|congruence|assumption].
    unfold cells_of. rewrite Hm0. reflexivity. }
  unfold forRange in H1, H2.
  apply (forList_measure I F (fun _ => a)) in H1; [| |apply placing_refl].
  2:{ intros _ s0 s0' _ Hs0 Hrun. split.
      - exact (place_fish g fuel s s0 s0' Hs0 Hrun).
      - destruct (Hstep FishPtr (newFish (mkFish 0)) s0 s0' Hs0) as [p Hp];
          [|exact Hrun|rewrite Hp, Ha; reflexivity].
        intros sa p sb Hn. apply newFish_Done in Hn. destruct Hn as [_ ->]. reflexivity. }
  destruct H1 as [I1 F1].
  apply (forList_measure I F (fun _ => b)) in H2; [| |exact I1].
  2:{ intros _ s0 s0' _ Hs0 Hrun. split.
      - exact (place_shark g fuel s s0 s0' Hs0 Hrun).
      - destruct (Hstep SharkPtr (newShark (mkShark 0 4)) s0 s0' Hs0) as [p Hp];
          [|exact Hrun|rewrite Hp, Hb; reflexivity].
        intros sa p sb Hn. apply newShark_Done in Hn. destruct Hn as [_ ->]. reflexivity. }
  destruct H2 as [_ F2].
  rewrite !sumZ_constant, !length_seqZ in F1, F2.
  unfold F in F1, F2. unfold cells_of in F1 at 2.
  destruct Hg as (Hm & _). rewrite Hm in F1.
  cbn [default from_option id] in F1. lia.
Qed.

Lemma Initialise_keeps fuel g nf ns s s' m :
  grid_at s g m ->
  Initialise fuel g nf ns s = Done tt s' ->
  forall x y o, matrix_get m x y = Some o -> o <> Nil ->
    matrix_get (cells_of s' g) x y = Some o.
Proof.
  intros Hg H.
  unfold Initialise in H. apply bind_Done in H. destruct H as ([] & s1 & H1 & H2).
  pose (I := fun s0 : State =>
               placing g s s0
               /\ forall x y o, matrix_get m x y = Some o -> o <> Nil ->
                    matrix_get (cells_of s0 g) x y = Some o).
  assert (Hstep : forall (e : nat -> Entity) (alloc : M nat) s0 s0',
             I s0 ->
             (forall sa p sb, alloc sa = Done p sb -> arrays sb = arrays sa) ->
             (p <- alloc ;; addEntity fuel g (e p)) s0 = Done tt s0' ->
             forall x y o, matrix_get m x y = Some o -> o <> Nil ->
               matrix_get (cells_of s0' g) x y = Some o).
  { intros e alloc s0 s0' ((Q1 & _) & Hkeep) Halloc Hrun x y o Ho Hne.
    apply bind_Done in Hrun. destruct Hrun as (p & sa & Hal & Hadd).
    pose proof (Halloc _ _ _ Hal) as Harr.
    destruct (Q1 m Hg) as (m0 & Hm0 & _).
    apply (addEntity_keeps fuel g (e p) sa s0' m0); [congruence | assumption | | assumption].
    specialize (Hkeep x y o Ho Hne). unfold cells_of in Hkeep. rewrite Hm0 in Hkeep.
    exact Hkeep. }
  assert (I0 : I s).
  { split; [apply placing_refl|]. intros x y o Ho _.
    unfold cells_of. destruct Hg as (Hm & _). rewrite Hm. exact Ho. }
  unfold forRange in H1, H2.
  apply (forList_rest (fun _ => I)) in H1; [| |exact I0].
  2:{ intros _ _ s0 s0' Hs0 Hrun. split.
      - exact (place_fish g fuel s s0 s0' (proj1 Hs0) Hrun).
      - apply (Hstep FishPtr (newFish (mkFish 0)) s0 s0' Hs0); [|exact Hrun].
        intros sa p sb Hn. apply newFish_Done in Hn. destruct Hn as [_ ->]. reflexivity. }
  apply (forList_rest (fun _ => I)) in H2; [| |exact H1].
  2:{ intros _ _ s0 s0' Hs0 Hrun. split.
      - exact (place_shark g fuel s s0 s0' (proj1 Hs0) Hrun).
      - apply (Hstep SharkPtr (newShark (mkShark 0 4)) s0 s0' Hs0); [|exact Hrun].
        intros sa p sb Hn. apply newShark_Done in Hn. destruct Hn as [_ ->]. reflexivity. }
  exact (proj2 H2).
Qed.

(** ** The placements when the cells drawn are empty *)

Lemma drawnCell_shift g s s' i j :
  draws s' = draws s -> drawn s' = (drawn s + 2 * i)%nat ->
  drawnCell g s' j = drawnCell g s (i + j).
Proof.
  intros Hd Hn. unfold drawnCell. rewrite Hd, Hn.
  replace (drawn s + 2 * i + 2 * j)%nat with (drawn s + 2 * (i + j))%nat by lia.
  reflexivity.
Qed.

(** A loop of placements, of which the one of number [i] puts [ent i] in
    the cell [c i], these cells being empty and different. *)
Lemma place_loop g (c : nat -> Z * Z) (ent : nat -> Entity) (body : M unit)
    (J : nat -> State -> Prop) (m : Matrix) (n : nat) :
  (forall a b, (a < b < n)%nat -> c a <> c b) ->
  (forall a, (a < n)%nat -> matrix_get m (c a).1 (c a).2 = Some Nil) ->
  (forall i si mi, (i < n)%nat -> J i si ->
     arrays si !! Cells g = Some mi -> shape (Size g) mi ->
     matrix_get mi (c i).1 (c i).2 = Some Nil ->
     exists mi' si',
       matrix_set mi (c i).1 (c i).2 (ent i) = Some mi'
       /\ body si = Done tt si'
       /\ arrays si' !! Cells g = Some mi'
       /\ J (S i) si') ->
  forall (l : list Z) i si mi,
    (i + length l <= n)%nat -> J i si ->
    arrays si !! Cells g = Some mi -> shape (Size g) mi ->
    (forall a, (a < i)%nat -> matrix_get mi (c a).1 (c a).2 = Some (ent a)) ->
    (forall x y, (forall a, (a < i)%nat -> (x, y) <> c a) ->
       matrix_get mi x y = matrix_get m x y) ->
    exists s' m',
      forList l (fun _ => body) si = Done tt s'
      /\ J (i + length l)%nat s'
      /\ arrays s' !! Cells g = Some m' /\ shape (Size g) m'
      /\ (forall a, (a < i + length l)%nat ->
            matrix_get m' (c a).1 (c a).2 = Some (ent a))
      /\ (forall x y, (forall a, (a < i + length l)%nat -> (x, y) <> c a) ->
            matrix_get m' x y = matrix_get m x y).
Proof.
  intros Hdist Hnil Hstep. induction l as [|z l IH]; intros i si mi Hn HJ Hm Hs Ha Hb.
  - exists si, mi. cbn [length]. rewrite Nat.add_0_r. auto 10.
  - cbn [length] in Hn.
    assert (Hci : matrix_get mi (c i).1 (c i).2 = Some Nil).
    { rewrite Hb; [apply Hnil; lia|].
      intros a Hlt E. apply (Hdist a i); [lia|]. rewrite <- E. destruct (c i). reflexivity. }
    destruct (Hstep i si mi ltac:(lia) HJ Hm Hs Hci) as (mi' & si' & Hset & Hrun & Hm' & HJ').
    destruct (IH (S i) si' mi') as (s' & m' & Hl & HJl & Hml & Hsl & Hal & Hbl);
      try assumption; try lia.
    + exact (matrix_set_keeps_shape _ _ _ _ _ _ Hs Hset).
    + intros a Hlt. rewrite (matrix_get_set _ _ _ _ _ _ _ Hset).
      destruct (decide (((c a).1, (c a).2) = ((c i).1, (c i).2))) as [E|N].
      * destruct (decide (a = i)) as [->|Hne]; [reflexivity|].
        exfalso. apply (Hdist a i); [lia|]. destruct (c a), (c i). exact E.
      * destruct (decide (a = i)) as [->|Hne]; [exfalso; apply N; reflexivity|].
        apply Ha. lia.
    + intros x y Hxy. rewrite (matrix_get_set _ _ _ _ _ _ _ Hset).
      destruct (decide ((x, y) = ((c i).1, (c i).2))) as [E|_].
      * exfalso. apply (Hxy i); [lia|]. rewrite E. destruct (c i). reflexivity.
      * apply Hb. intros a Hlt. apply Hxy. lia.
    + exists s', m'. cbn [forList length].
      rewrite (bind_run _ _ _ _ _ Hrun).
      replace (i + S (length l))%nat with (S i + length l)%nat by lia.
      auto 10.
Qed.

(** The placement of a fish, and of a shark, when the first cell drawn is
    empty. *)
Lemma place_fish_first fuel g s m :
  0 < Size g -> arrays s !! Cells g = Some m -> shape (Size g) m ->
  matrix_get m (drawnCell g s 0).1 (drawnCell g s 0).2 = Some Nil ->
  exists m',
    matrix_set m (drawnCell g s 0).1 (drawnCell g s 0).2 (FishPtr (length (fishes s)))
    = Some m'
    /\ (p <- newFish (mkFish 0) ;; addEntity (S fuel) g (FishPtr p)) s
       = Done tt (set_arrays (<[Cells g := m']> (arrays s))
                    (set_drawn (drawn s + 2)
                       (set_fishes (fishes s ++ [mkFish 0]) s))).
Proof.
  intros Hn Hm Hs Hnil.
  destruct (addEntity_first_empty 0 (S fuel) g (FishPtr (length (fishes s)))
              (set_fishes (fishes s ++ [mkFish 0]) s) m Hn Hm Hs)
    as (m' & Hset & Hrun); [intros j Hj; lia | exact Hnil | lia |].
  exists m'. split; [exact Hset|].
  unfold newFish at 1, bind at 1. exact Hrun.
Qed.

Lemma place_shark_first fuel g s m :
  0 < Size g -> arrays s !! Cells g = Some m -> shape (Size g) m ->
  matrix_get m (drawnCell g s 0).1 (drawnCell g s 0).2 = Some Nil ->
  exists m',
    matrix_set m (drawnCell g s 0).1 (drawnCell g s 0).2 (SharkPtr (length (sharks s)))
    = Some m'
    /\ (p <- newShark (mkShark 0 4) ;; addEntity (S fuel) g (SharkPtr p)) s
       = Done tt (set_arrays (<[Cells g := m']> (arrays s))
                    (set_drawn (drawn s + 2)
                       (set_sharks (sharks s ++ [mkShark 0 4]) s))).
Proof.
  intros Hn Hm Hs Hnil.
  destruct (addEntity_first_empty 0 (S fuel) g (SharkPtr (length (sharks s)))
              (set_sharks (sharks s ++ [mkShark 0 4]) s) m Hn Hm Hs)
    as (m' & Hset & Hrun); [intros j Hj; lia | exact Hnil | lia |].
  exists m'. split; [exact Hset|].
  unfold newShark at 1, bind at 1. exact Hrun.
Qed.

(** When the cells that the random source gives are empty and differ, each
    placement succeeds at its first draw: [Initialise] returns, with the
    fish in the first [numFish] cells drawn and the sharks in the next
    [numSharks]. *)
Lemma Initialise_first_draws fuel g nf ns s m :
  0 < Size g -> grid_at s g m -> (0 < fuel)%nat ->
  (forall i, (i < Z.to_nat nf + Z.to_nat ns)%nat ->
     matrix_get m (drawnCell g s i).1 (drawnCell g s i).2 = Some Nil) ->
  (forall i j, (i < j < Z.to_nat nf + Z.to_nat ns)%nat ->
     drawnCell g s i <> drawnCell g s j) ->
  exists s',
    Initialise fuel g nf ns s = Done tt s'
    /\ fishes s' = fishes s ++ replicate (Z.to_nat nf) (mkFish 0)
    /\ sharks s' = sharks s ++ replicate (Z.to_nat ns) (mkShark 0 4)
    /\ drawn s' = (drawn s + 2 * (Z.to_nat nf + Z.to_nat ns))%nat
    /\ (forall i, (i < Z.to_nat nf)%nat ->
          matrix_get (cells_of s' g) (drawnCell g s i).1 (drawnCell g s i).2
          = Some (FishPtr (length (fishes s) + i)))
    /\ (forall j, (j < Z.to_nat ns)%nat ->
          matrix_get (cells_of s' g) (drawnCell g s (Z.to_nat nf + j)).1
            (drawnCell g s (Z.to_nat nf + j)).2
          = Some (SharkPtr (length (sharks s) + j)))
    /\ (forall x y,
          (forall i, (i < Z.to_nat nf + Z.to_nat ns)%nat -> (x, y) <> drawnCell g s i) ->
          matrix_get (cells_of s' g) x y = matrix_get m x y).
Proof.
  intros Hn (Hm & Hs & _) Hfuel Hnil Hdist.
  destruct fuel as [|fuel]; [lia|]. clear Hfuel.
  set (nF := Z.to_nat nf) in *. set (nS := Z.to_nat ns) in *.
  pose (Jf := fun (i : nat) (si : State) =>
                draws si = draws s /\ drawn si = (drawn s + 2 * i)%nat
                /\ fishes si = fishes s ++ replicate i (mkFish 0)
                /\ sharks si = sharks s).
  pose (Js := fun (j : nat) (sj : State) =>
                draws sj = draws s /\ drawn sj = (drawn s + 2 * (nF + j))%nat
                /\ fishes sj = fishes s ++ replicate nF (mkFish 0)
                /\ sharks sj = sharks s ++ replicate j (mkShark 0 4)).
  (* the fish *)
  assert (HstepF : forall i si mi, (i < nF)%nat -> Jf i si ->
            arrays si !! Cells g = Some mi -> shape (Size g) mi ->
            matrix_get mi (drawnCell g s i).1 (drawnCell g s i).2 = Some Nil ->
            exists mi' si',
              matrix_set mi (drawnCell g s i).1 (drawnCell g s i).2
                (FishPtr (length (fishes s) + i)) = Some mi'
              /\ (p <- newFish (mkFish 0) ;; addEntity (S fuel) g (FishPtr p)) si
                 = Done tt si'
              /\ arrays si' !! Cells g = Some mi'
              /\ Jf (S i) si').
  { intros i si mi Hi (J1 & J2 & J3 & J4) Hmi Hsi Hci.
    assert (Hc : drawnCell g si 0 = drawnCell g s i).
    { rewrite (drawnCell_shift g s si i 0 J1 J2), Nat.add_0_r. reflexivity. }
    rewrite <- Hc in Hci.
    destruct (place_fish_first fuel g si mi Hn Hmi Hsi Hci) as (mi' & Hset & Hrun).
    rewrite Hc in Hset.
    exists mi'. eexists. split.
    { rewrite <- Hset. rewrite J3, length_app, length_replicate. reflexivity. }
    split; [exact Hrun|]. split.
    { cbn [arrays set_arrays set_drawn set_fishes].
      apply list_lookup_insert_eq. exact (lookup_lt_Some _ _ _ Hmi). }
    split; [exact J1|]. split; [cbn [drawn set_arrays set_drawn]; lia|].
    split; [|exact J4].
    cbn [fishes set_arrays set_drawn set_fishes].
    rewrite J3, replicate_S_end, app_assoc. reflexivity. }
  assert (HlenF : length (seqZ 0 (nf - 0)) = nF) by (rewrite length_seqZ; unfold nF; lia).
  destruct (place_loop g (drawnCell g s) (fun i => FishPtr (length (fishes s) + i))
              (p <- newFish (mkFish 0) ;; addEntity (S fuel) g (FishPtr p)) Jf m nF
              ltac:(intros a b Hab; apply Hdist; lia)
              ltac:(intros a Ha; apply Hnil; lia)
              HstepF (seqZ 0 (nf - 0)) 0%nat s m
              ltac:(lia)
              ltac:(unfold Jf; rewrite app_nil_r; auto)
              Hm Hs
              ltac:(intros a Ha; lia)
              ltac:(reflexivity))
    as (sF & mF & HrunF & HJF & HmF & HsF & HaF & HbF).
  rewrite HlenF in HJF, HaF, HbF. cbn [Nat.add] in HJF, HaF, HbF.
  (* the sharks *)
  assert (HstepS : forall j sj mj, (j < nS)%nat -> Js j sj ->
            arrays sj !! Cells g = Some mj -> shape (Size g) mj ->
            matrix_get mj (drawnCell g s (nF + j)).1 (drawnCell g s (nF + j)).2 = Some Nil ->
            exists mj' sj',
              matrix_set mj (drawnCell g s (nF + j)).1 (drawnCell g s (nF + j)).2
                (SharkPtr (length (sharks s) + j)) = Some mj'
              /\ (p <- newShark (mkShark 0 4) ;; addEntity (S fuel) g (SharkPtr p)) sj
                 = Done tt sj'
              /\ arrays sj' !! Cells g = Some mj'
              /\ Js (S j) sj').
  { intros j sj mj Hj (J1 & J2 & J3 & J4) Hmj Hsj Hcj.
    assert (Hc : drawnCell g sj 0 = drawnCell g s (nF + j)).
    { rewrite (drawnCell_shift g s sj (nF + j) 0 J1 J2), Nat.add_0_r. reflexivity. }
    rewrite <- Hc in Hcj.
    destruct (place_shark_first fuel g sj mj Hn Hmj Hsj Hcj) as (mj' & Hset & Hrun).
    rewrite Hc in Hset.
    exists mj'. eexists. split.
    { rewrite <- Hset. rewrite J4, length_app, length_replicate. reflexivity. }
    split; [exact Hrun|]. split.
    { cbn [arrays set_arrays set_drawn set_sharks].
      apply list_lookup_insert_eq. exact (lookup_lt_Some _ _ _ Hmj). }
    split; [exact J1|]. split; [cbn [drawn set_arrays set_drawn]; lia|].
    split; [exact J3|].
    cbn [sharks set_arrays set_drawn set_sharks].
    rewrite J4, replicate_S_end, app_assoc. reflexivity. }
  assert (HlenS : length (seqZ 0 (ns - 0)) = nS) by (rewrite length_seqZ; unfold nS; lia).
  assert (HnilS : forall a, (a < nS)%nat ->
            matrix_get mF (drawnCell g s (nF + a)).1 (drawnCell g s (nF + a)).2 = Some Nil).
  { intros a Ha. rewrite HbF; [apply Hnil; lia|].
    intros b Hb E. apply (Hdist b (nF + a)%nat); [lia|]. rewrite <- E.
    destruct (drawnCell g s (nF + a)). reflexivity. }
  assert (HJ0 : Js 0%nat sF).
  { destruct HJF as (J1 & J2 & J3 & J4). unfold Js.
    rewrite Nat.add_0_r, app_nil_r. auto. }
  destruct (place_loop g (fun j => drawnCell g s (nF + j))
              (fun j => SharkPtr (length (sharks s) + j))
              (p <- newShark (mkShark 0 4) ;; addEntity (S fuel) g (SharkPtr p)) Js mF nS
              ltac:(intros a b Hab; apply Hdist; lia)
              HnilS HstepS (seqZ 0 (ns - 0)) 0%nat sF mF
              ltac:(lia) HJ0 HmF HsF
              ltac:(intros a Ha; lia)
              ltac:(reflexivity))
    as (sS & mS & HrunS & HJS & HmS & HsS & HaS & HbS).
  rewrite HlenS in HJS, HaS, HbS. cbn [Nat.add] in HJS, HaS, HbS.
  destruct HJS as (_ & J2 & J3 & J4).
  exists sS. split.
  { unfold Initialise, forRange. rewrite (bind_run _ _ _ _ _ HrunF). exact HrunS. }
  assert (Hcells : cells_of sS g = mS) by (unfold cells_of; rewrite HmS; reflexivity).
  rewrite Hcells.
  split; [exact J3|]. split; [exact J4|]. split; [exact J2|]. split; [|split].
  - intros i Hi. rewrite HbS; [apply HaF; assumption|].
    intros j Hj E. apply (Hdist i (nF + j)%nat); [lia|]. rewrite <- E.
    destruct (drawnCell g s i). reflexivity.
  - intros j Hj. apply HaS. assumption.
  - intros x y Hxy. rewrite HbS; [apply HbF|].
    + intros a Ha. apply Hxy. lia.
    + intros j Hj. apply Hxy. lia.
Qed.

(** C10.  [Initialise] has no parameter for the starvation energy of the
    run: every shark that it places has energy 4 and breed counter 0
    whatever the run is configured with, and every fish that it places has
    breed counter 0.  Whenever a call returns, a cell of the grid holds
    what it held before the call, or a fish that the call allocated, or a
    shark that the call allocated, with these counters; the grid has
    [numFish] more fish and [numSharks] more sharks than before (a negative
    number counts as 0), and every entity that was on the grid is still in
    its cell.  The call returns, with any positive bound on the draws of a
    placement, when the cells that the random source gives for the
    placements are empty and differ: the fish are then in the first
    [numFish] of these cells and the sharks in the next [numSharks]. *)
Theorem Initialise_places_new_entities (fuel : nat) (g : Grid) (nf ns : Z)
    (s : State) (m : Matrix) :
  grid_at s g m ->
  (forall s', Initialise fuel g nf ns s = Done tt s' ->
     (forall x y e,
        matrix_get (cells_of s' g) x y = Some e ->
        matrix_get m x y = Some e
        \/ (exists p, e = FishPtr p /\ (length (fishes s) <= p)%nat
                      /\ fishes s' !! p = Some (mkFish 0))
        \/ (exists p, e = SharkPtr p /\ (length (sharks s) <= p)%nat
                      /\ sharks s' !! p = Some (mkShark 0 4)))
     /\ fishIn (cells_of s' g) = fishIn m + Z.max 0 nf
     /\ sharksIn (cells_of s' g) = sharksIn m + Z.max 0 ns
     /\ (forall x y o, matrix_get m x y = Some o -> o <> Nil ->
           matrix_get (cells_of s' g) x y = Some o))
  /\ (0 < Size g -> (0 < fuel)%nat ->
      (forall i, (i < Z.to_nat nf + Z.to_nat ns)%nat ->
         matrix_get m (drawnCell g s i).1 (drawnCell g s i).2 = Some Nil) ->
      (forall i j, (i < j < Z.to_nat nf + Z.to_nat ns)%nat ->
         drawnCell g s i <> drawnCell g s j) ->
      exists s',
        Initialise fuel g nf ns s = Done tt s'
        /\ fishes s' = fishes s ++ replicate (Z.to_nat nf) (mkFish 0)
        /\ sharks s' = sharks s ++ replicate (Z.to_nat ns) (mkShark 0 4)
        /\ (forall i, (i < Z.to_nat nf)%nat ->
              matrix_get (cells_of s' g) (drawnCell g s i).1 (drawnCell g s i).2
              = Some (FishPtr (length (fishes s) + i)))
        /\ (forall j, (j < Z.to_nat ns)%nat ->
              matrix_get (cells_of s' g) (drawnCell g s (Z.to_nat nf + j)).1
                (drawnCell g s (Z.to_nat nf + j)).2
              = Some (SharkPtr (length (sharks s) + j)))).
Proof.
  intros Hg. split.
  - intros s' H. split; [|split; [|split]].
    + intros x y e He. pose proof H as Hp. apply Initialise_placing in Hp.
      destruct Hp as (_ & _ & P3 & P4 & P5).
      destruct (P5 x y e He) as [Hold|[Hfresh Hvalid]].
      { left. unfold cells_of in Hold. destruct Hg as (Hm & _). rewrite Hm in Hold.
        exact Hold. }
      right. destruct e as [|p|p]; simpl in Hfresh, Hvalid; [contradiction| |].
      * left. exists p. split; [reflexivity|]. split; [assumption|].
        destruct (lookup_lt_is_Some_2 _ _ Hvalid) as [o Ho]. rewrite Ho.
        destruct (P3 p o Ho) as [Hold|[_ ->]]; [|reflexivity].
        apply lookup_lt_Some in Hold. lia.
      * right. exists p. split; [reflexivity|]. split; [assumption|].
        destruct (lookup_lt_is_Some_2 _ _ Hvalid) as [o Ho]. rewrite Ho.
        destruct (P4 p o Ho) as [Hold|[_ ->]]; [|reflexivity].
        apply lookup_lt_Some in Hold. lia.
    + pose proof (Initialise_count (fun e => if is_fish e then 1 else 0) 1 0
                    fuel g nf ns s s' m eq_refl (fun _ => eq_refl) (fun _ => eq_refl) Hg H)
        as E.
      unfold fishIn. lia.
    + pose proof (Initialise_count (fun e => if is_shark e then 1 else 0) 0 1
                    fuel g nf ns s s' m eq_refl (fun _ => eq_refl) (fun _ => eq_refl) Hg H)
        as E.
      unfold sharksIn. lia.
    + exact (Initialise_keeps fuel g nf ns s s' m Hg H).
  - intros Hn Hfuel Hnil Hdist.
    destruct (Initialise_first_draws fuel g nf ns s m Hn Hg Hfuel Hnil Hdist)
      as (s' & Hrun & Hf & Hs & _ & Hfish & Hshark & _).
    exists s'. auto 10.
Qed.

(** Two fish and a shark are added to the grid of the lone fish: the draws
    give the cells [(0, 1)], [(2, 0)] and [(1, 2)]. *)
Lemma Initialise_places_new_entities_witness :
  exists s',
    Initialise 20 (mkGrid 3 0) 2 1 (lone_fish sevens) = Done tt s'
    /\ cells_of s' (mkGrid 3 0)
       = [[Nil; FishPtr 1; Nil]; [Nil; FishPtr 0; SharkPtr 0]; [FishPtr 2; Nil; Nil]]
    /\ fishes s' = [mkFish 0; mkFish 0; mkFish 0]
    /\ sharks s' = [mkShark 0 4]
    /\ fishIn (cells_of s' (mkGrid 3 0)) = fishIn lone_fish_cells + Z.max 0 2
    /\ sharksIn (cells_of s' (mkGrid 3 0)) = sharksIn lone_fish_cells + Z.max 0 1.
Proof.
  destruct (Initialise_places_new_entities 20 (mkGrid 3 0) 2 1 (lone_fish sevens)
              lone_fish_cells ltac:(known_grid)) as [P1 P2].
  destruct P2 as (s' & Hrun & Hf & Hs & _).
  - simpl. lia.
  - lia.
  - intros i Hi. change (Z.to_nat 2 + Z.to_nat 1)%nat with 3%nat in Hi.
    destruct i as [|[|[|i]]]; [reflexivity | reflexivity | reflexivity | lia].
  - intros i j Hij. change (Z.to_nat 2 + Z.to_nat 1)%nat with 3%nat in Hij.
    destruct i as [|[|[|i]]], j as [|[|[|j]]]; try lia; intros E; vm_compute in E;
      discriminate E.
  - destruct (P1 s' Hrun) as (_ & Hfi & Hsh & _).
    exists s'. split; [exact Hrun|].
    split; [|split; [exact Hf | split; [exact Hs | split; assumption]]].
    assert (E : Initialise 20 (mkGrid 3 0) 2 1 (lone_fish sevens) = Done tt s') by exact Hrun.
    vm_compute in E. inversion E. reflexivity.
Defined.

(** ** The capacity of the grid *)

Lemma sumZ_bound {A} (f : A -> Z) (l : list A) b :
  Forall (fun a => f a <= b) l -> sumZ f l <= Z.of_nat (length l) * b.
Proof.
  unfold sumZ. induction 1 as [|a l Ha Hall IH]; simpl length; simpl foldr; [lia|].
  rewrite Nat2Z.inj_succ. lia.
Qed.

(** A square grid of side [n] holds at most [n * n] entities. *)
Lemma population_le n m : 0 <= n -> shape n m -> population m <= n * n.
Proof.
  intros Hn [Hl Hr]. unfold population.
  pose proof (sumZ_bound (sumZ occupied) m n) as B.
  rewrite Hl, Z2Nat.id in B by assumption. apply B.
  revert Hr. apply Forall_impl. intros row Hrow.
  pose proof (sumZ_bound occupied row 1) as B'.
  rewrite Hrow, Z2Nat.id in B' by assumption. rewrite Z.mul_1_r in B'. apply B'.
  apply Forall_forall. intros e _. unfold occupied. destruct (is_nil e); lia.
Qed.

Lemma sumZ_const {A} (l : list A) : sumZ (fun _ => 1) l = Z.of_nat (length l).
Proof. unfold sumZ. induction l as [|a l IH]; simpl length; simpl foldr; lia. Qed.

(** A placement adds one entity to the grid. *)
Lemma addEntity_population fuel g e s s' m :
  e <> Nil -> arrays s !! Cells g = Some m ->
  addEntity fuel g e s = Done tt s' ->
  population (cells_of s' g) = population m + 1.
Proof.
  intros He Hm H. apply addEntity_Done in H.
  destruct H as (x & y & m0 & m' & n & Hm0 & Hnil & Hset & ->).
  assert (m0 = m) as -> by congruence.
  rewrite (cells_of_written_eq _ _ _ _ _ _ m) by exact Hm.
  rewrite (population_set _ _ _ _ _ _ Hnil Hset).
  unfold occupied. destruct e; simpl; (lia || congruence).
Qed.

(** [Initialise] adds one entity for each iteration of its loops. *)
Lemma Initialise_population fuel g nf ns s s' m :
  grid_at s g m ->
  Initialise fuel g nf ns s = Done tt s' ->
  exists m', grid_at s' g m'
    /\ population m' = population m + Z.max 0 nf + Z.max 0 ns.
Proof.
  intros Hg H. pose proof H as Hp. apply Initialise_placing in Hp.
  destruct Hp as (P1 & _). destruct (P1 m Hg) as (m' & Hg').
  exists m'. split; [assumption|].
  unfold Initialise in H. apply bind_Done in H. destruct H as ([] & s1 & H1 & H2).
  pose (I := fun s0 : State => placing g s s0).
  pose (f := fun s0 : State => population (cells_of s0 g)).
  assert (Hstep : forall (e : nat -> Entity) (alloc : M nat) s0 s0',
             I s0 ->
             (forall sa p sb, alloc sa = Done p sb ->
                arrays sb = arrays sa /\ e p <> Nil) ->
             (p <- alloc ;; addEntity fuel g (e p)) s0 = Done tt s0' ->
             f s0' = f s0 + 1).
  { intros e alloc s0 s0' (Q1 & _) Halloc Hrun.
    apply bind_Done in Hrun. destruct Hrun as (p & sa & Ha & Hadd).
    destruct (Halloc _ _ _ Ha) as [Harr He].
    destruct (Q1 m Hg) as (m0 & Hm0 & _).
    unfold f. rewrite (addEntity_population fuel g (e p) sa s0' m0 He); [|congruence|assumption].
    unfold cells_of. rewrite Hm0. reflexivity. }
  unfold forRange in H1, H2.
  apply (forList_measure I f (fun _ => 1)) in H1; [| |apply placing_refl].
  2:{ intros _ s0 s0' _ Hs0 Hrun. split.
      - exact (place_fish g fuel s s0 s0' Hs0 Hrun).
      - apply (Hstep FishPtr (newFish (mkFish 0)) s0 s0' Hs0); [|exact Hrun].
        intros sa p sb Hn. apply newFish_Done in Hn. destruct Hn as [_ ->].
        split; [reflexivity | discriminate]. }
  destruct H1 as [I1 F1].
  apply (forList_measure I f (fun _ => 1)) in H2; [| |exact I1].
  2:{ intros _ s0 s0' _ Hs0 Hrun. split.
      - exact (place_shark g fuel s s0 s0' Hs0 Hrun).
      - apply (Hstep SharkPtr (newShark (mkShark 0 4)) s0 s0' Hs0); [|exact Hrun].
        intros sa p sb Hn. apply newShark_Done in Hn. destruct Hn as [_ ->].
        split; [reflexivity | discriminate]. }
  destruct H2 as [_ F2].
  rewrite !sumZ_const, !length_seqZ in F1, F2.
  unfold f, cells_of in F1, F2.
  destruct Hg as (Hm & _), Hg' as (Hm' & _). rewrite Hm in F1. rewrite Hm' in F2.
  cbn [from_option id] in F1, F2. lia.
Qed.

(** ** The run of [main] *)

Lemma NewGrid_Done n s g s0 :
  NewGrid n s = Done g s0 -> 0 < n ->
  valid_side n /\ g = mkGrid n (length (arrays s))
  /\ s0 = set_arrays (arrays s ++ [replicate (Z.to_nat n) (replicate (Z.to_nat n) Nil)]) s.
Proof.
  intros H Hn.
  assert (Hv : valid_side n).
  { split; [assumption|]. unfold NewGrid in H.
    apply bind_Done in H. destruct H as (cells & s1 & H1 & _).
    apply orPanic_Done in H1. destruct H1 as [H1 _]. unfold makeslice in H1.
    destruct (Z.leb_spec 0 n); [|discriminate].
    destruct (Z.leb_spec (n * 24) maxAlloc); [assumption | discriminate]. }
  rewrite (NewGrid_run n s Hv) in H. inversion H. auto.
Qed.

Lemma countLoop_total g m cells c s :
  arrays s !! Cells g = Some m ->
  (forall cell, cell ∈ cells -> exists e, matrix_get m cell.1 cell.2 = Some e) ->
  exists v, countLoop g cells c s = Done v s.
Proof.
  intros Hm. revert c. induction cells as [|[x y] cells IH]; intros c Hcells.
  - exists c. reflexivity.
  - destruct (Hcells (x, y)) as [e He]; [left|]. cbn [fst snd] in He.
    cbn [countLoop]. rewrite (bind_run _ _ _ _ _ (getCell_run _ _ _ _ _ _ Hm He)).
    apply IH. intros cell Hin. apply Hcells. right. assumption.
Qed.

Lemma CountEntities_total g m s :
  valid_side (Size g) -> grid_at s g m -> exists v, CountEntities g s = Done v s.
Proof.
  intros [Hn _] (Hm & Hs & _). apply (countLoop_total g m); [assumption|].
  intros cell Hin. apply elem_of_cellsOf in Hin.
  apply (matrix_get_shape (Size g)); (assumption || lia).
Qed.

(** The chronons of a simulation all run. *)
Lemma simulate_run n fb sb se threads g m s :
  valid_side (Size g) -> grid_at s g m -> 1 <= threads <= GoInt.max_int ->
  exists g' s' m',
    simulate n (fun g0 => MoveEntitiesWithThreads g0 fb sb se threads) g s = Done g' s'
    /\ Size g' = Size g /\ grid_at s' g' m'.
Proof.
  intros Hv Hg Ht. revert g m s Hv Hg.
  induction n as [|n IH]; intros g m s Hv Hg.
  - exists g, s, m. split; [reflexivity|]. auto.
  - cbn [simulate].
    destruct (CountEntities_total g m s Hv Hg) as [v Hv'].
    rewrite (bind_run _ _ _ _ _ Hv').
    destruct (MoveEntitiesWithThreads_run g m s fb sb se threads Hv Hg Ht)
      as (g1 & s1 & m1 & Hrun & HN & _ & Hg1 & _).
    rewrite (bind_run _ _ _ _ _ Hrun).
    destruct (IH g1 m1 s1) as (g' & s' & m' & Hsim & HN' & Hg');
      [rewrite HN; assumption | assumption |].
    exists g', s', m'. split; [assumption|]. split; [congruence | assumption].
Qed.

(** The grid that [NewGrid] returns is square and empty. *)
Lemma NewGrid_empty n s g s0 :
  NewGrid n s = Done g s0 ->
  0 <= n /\ Size g = n /\ exists m, grid_at s0 g m /\ population m = 0.
Proof.
  unfold NewGrid. intros H.
  apply bind_Done in H. destruct H as (cells & s1 & H1 & H).
  apply orPanic_Done in H1. destruct H1 as [H1 ->].
  apply bind_Done in H. destruct H as (row & s1 & H2 & H).
  apply orPanic_Done in H2. destruct H2 as [H2 ->].
  inversion H; subst g s0. clear H.
  unfold makeslice in H1. destruct (Z.leb_spec 0 n) as [Hn|]; [|discriminate].
  destruct (n * 24 <=? maxAlloc); [|discriminate]. inversion H1; subst cells. clear H1.
  assert (Hrow : row = replicate (Z.to_nat n) Nil).
  { destruct (Z.eqb_spec n 0) as [->|Hne].
    - inversion H2. reflexivity.
    - unfold makeslice in H2. destruct (_ && _); [|discriminate].
      inversion H2. reflexivity. }
  subst row. rewrite fmap_replicate. cbn [const].
  split; [assumption|]. split; [reflexivity|].
  exists (replicate (Z.to_nat n) (replicate (Z.to_nat n) Nil)).
  split; [|apply population_replicate]. split; [|split].
  - simpl. rewrite lookup_app_r, Nat.sub_diag by lia. reflexivity.
  - apply shape_replicate. assumption.
  - apply valid_matrix_replicate.
Qed.

(** A negative grid size: [NewGrid] panics. *)
Lemma run_negative_size fuel c s :
  gridSize c < 0 -> run fuel c s = Fail Panic.
Proof.
  intros Hn. unfold run, NewGrid. apply bind_Fail. apply bind_Fail.
  unfold makeslice. destruct (Z.leb_spec 0 (gridSize c)); [lia | reflexivity].
Qed.

(** More entities than cells: the initial placement does not return. *)
Lemma run_over_capacity fuel c s e s' :
  gridSize c * gridSize c < Z.max 0 (numFish c) + Z.max 0 (numShark c) ->
  run fuel c s <> Done e s'.
Proof.
  intros Hcap H. unfold run in H.
  apply bind_Done in H. destruct H as (g & s0 & Hnew & H).
  apply bind_Done in H. destruct H as ([] & s1 & Hinit & _).
  apply NewGrid_empty in Hnew. destruct Hnew as (Hn & HN & m & Hg & Hpop).
  unfold Initialize in Hinit.
  destruct (Initialise_population _ _ _ _ _ _ _ Hg Hinit) as (m' & (_ & Hs & _) & Hpop').
  rewrite HN in Hs. pose proof (population_le _ _ Hn Hs). lia.
Qed.

(** A run with a fish breed age, a shark breed age and a starvation
    energy of 0 is not rejected: the fifty chronons run and [main] reports a
    final tally.  The same holds with negative values. *)
Lemma nonpositive_rules_accepted :
  (exists s', main 20 [1; 2; 0; 0; 0; 3; 1] (empty_store sevens) = Done (Ran 9 0) s')
  /\ (exists s', main 20 [1; 2; -1; -1; -5; 3; 1] (empty_store sevens) = Done (Ran 9 0) s').
Proof.
  split; eexists; vm_compute; reflexivity.
Qed.

(** C8 (as amended).  [main] validates nothing, and rejects no
    configuration.  A negative grid size makes it panic when the grid is
    allocated.  With more entities to place than the grid has cells, it does
    not return: the initial placement panics or runs for ever.  With a
    positive grid size and a positive number of threads, once the initial
    placement has returned, the fifty chronons run and [main] reports the
    final tally, whatever the breed ages and the starvation energy are,
    positive or not. *)
Theorem main_validates_nothing (fuel : nat) (c : Config) (s : State) :
  let args := [numShark c; numFish c; fishBreed c; sharkBreed c; starveEnergy c;
               gridSize c; threads c] in
  (gridSize c < 0 -> main fuel args s = Fail Panic)
  /\ (gridSize c * gridSize c < Z.max 0 (numFish c) + Z.max 0 (numShark c) ->
      forall e s', main fuel args s <> Done e s')
  /\ (0 < gridSize c -> 1 <= threads c <= GoInt.max_int ->
      forall g s0 s1,
        NewGrid (gridSize c) s = Done g s0 ->
        Initialize fuel g (numFish c) (numShark c) s0 = Done tt s1 ->
        exists nf ns s', main fuel args s = Done (Ran nf ns) s').
Proof.
  intros args.
  assert (Hmain : main fuel args s = run fuel c s) by (destruct c; reflexivity).
  rewrite Hmain. split; [|split].
  - apply run_negative_size.
  - intros Hcap e s'. apply run_over_capacity. assumption.
  - intros Hn Ht g s0 s1 Hnew Hinit. unfold run.
    rewrite (bind_run _ _ _ _ _ Hnew), (bind_run _ _ _ _ _ Hinit).
    destruct (NewGrid_Done _ _ _ _ Hnew Hn) as (Hv & -> & ->).
    set (g := mkGrid (gridSize c) (length (arrays s))) in *.
    assert (Hg0 : grid_at (set_arrays (arrays s ++ [replicate (Z.to_nat (gridSize c))
                                         (replicate (Z.to_nat (gridSize c)) Nil)]) s) g
                    (replicate (Z.to_nat (gridSize c)) (replicate (Z.to_nat (gridSize c)) Nil))).
    { split; [|split].
      - simpl. rewrite lookup_app_r, Nat.sub_diag by lia. reflexivity.
      - apply shape_replicate. simpl. lia.
      - apply valid_matrix_replicate. }
    unfold Initialize in Hinit.
    apply Initialise_placing in Hinit. destruct Hinit as (P1 & _).
    destruct (P1 _ Hg0) as (m1 & Hg1).
    destruct (simulate_run 50 (fishBreed c) (sharkBreed c) (starveEnergy c) (threads c)
                g m1 s1 Hv Hg1 Ht) as (g' & s' & m' & Hsim & HN & Hg').
    rewrite (bind_run _ _ _ _ _ Hsim).
    destruct (CountEntities_total g' m' s') as [[nf ns] Hcount];
      [rewrite HN; assumption | assumption |].
    rewrite (bind_run _ _ _ _ _ Hcount). exists nf, ns, s'. reflexivity.
Qed.

(** Three runs of [main]: with breed ages and a starvation energy of 0, with
    a grid size of -3, and with ten entities for nine cells. *)
Lemma main_validates_nothing_witness :
  (exists nf ns s',
     main 20 [1; 2; 0; 0; 0; 3; 1] (empty_store sevens) = Done (Ran nf ns) s')
  /\ main 20 [1; 2; 3; 3; 4; -3; 1] (empty_store sevens) = Fail Panic
  /\ (forall e s', main 20 [5; 5; 3; 3; 4; 3; 1] (empty_store sevens) <> Done e s').
Proof.
  split; [|split].
  - eapply (proj2 (proj2 (main_validates_nothing 20 (mkConfig 1 2 0 0 0 3 1)
                            (empty_store sevens)))).
    + simpl. lia.
    + known_grid.
    + vm_compute. reflexivity.
    + vm_compute. reflexivity.
  - apply (proj1 (main_validates_nothing 20 (mkConfig 1 2 3 3 4 (-3) 1)
                    (empty_store sevens))).
    simpl. lia.
  - apply (proj1 (proj2 (main_validates_nothing 20 (mkConfig 5 5 3 3 4 3 1)
                           (empty_store sevens)))).
    simpl. lia.
Defined.

(** * The feeding scenario *)

(** ** Runs from a store that is known *)

Lemma bind_assoc {A B C} (c : M A) (f : A -> M B) (k : B -> M C) s :
  bind (bind c f) k s = bind c (fun a => bind (f a) k) s.
Proof. unfold bind. destruct (c s); reflexivity. Qed.

Lemma bind_head {A B} (m m' : M A) (k : A -> M B) s :
  m s = m' s -> bind m k s = bind m' k s.
Proof. unfold bind. intros ->. reflexivity. Qed.

(** A scan visits the neighbours in one of the 24 orders, and consumes three
    draws. *)
Lemma findNearestFish_orders g x y s :
  exists l, l ∈ permutations directions
    /\ findNearestFish g x y s = scanFish g x y l (set_drawn (S (S (S (drawn s)))) s).
Proof.
  destruct (Shuffle_directions s) as (l & Hl & Hperm). exists l. split.
  - apply permutations_Permutation. symmetry. assumption.
  - unfold findNearestFish. rewrite (bind_run _ _ _ _ _ Hl). reflexivity.
Qed.

Lemma findEmptyAdjacent_orders g x y s :
  exists l, l ∈ permutations directions
    /\ findEmptyAdjacent g x y s = scanEmpty g x y l (set_drawn (S (S (S (drawn s)))) s).
Proof.
  destruct (Shuffle_directions s) as (l & Hl & Hperm). exists l. split.
  - apply permutations_Permutation. symmetry. assumption.
  - unfold findEmptyAdjacent. rewrite (bind_run _ _ _ _ _ Hl). reflexivity.
Qed.

(** The cases of a scan, one for each order of the neighbours. *)
Ltac scan_orders H :=
  vm_compute in H;
  repeat (apply elem_of_cons in H; destruct H as [-> | H]);
  [.. | apply elem_of_nil in H; destruct H].

Ltac scan_cases :=
  let l := fresh "l" in
  let Hl := fresh "Hl" in
  lazymatch goal with
  | |- context [findNearestFish ?g ?x ?y ?s] =>
      destruct (findNearestFish_orders g x y s) as (l & Hl & ->)
  | |- context [findEmptyAdjacent ?g ?x ?y ?s] =>
      destruct (findEmptyAdjacent_orders g x y s) as (l & Hl & ->)
  end;
  scan_orders Hl.

(** One step of a run: the computation at the head is a primitive, which is
    evaluated, or a test that is decided, which is replaced by its branch. *)
Ltac is_prim c :=
  lazymatch c with
  | ret _ => idtac | orPanic _ => idtac | emit _ => idtac
  | getCell _ _ _ => idtac | setCell _ _ _ _ => idtac
  | loadFish _ => idtac | loadShark _ => idtac
  | modifyFish _ _ => idtac | modifyShark _ _ => idtac
  | newFish _ => idtac | newShark _ => idtac
  | makeChan _ => idtac | send _ _ => idtac | closeChan _ => idtac
  | recvAll _ => idtac
  end.

Ltac run_step :=
  rewrite ?bind_assoc;
  lazymatch goal with
  | |- context [bind ?c _ _] =>
      lazymatch c with
      | if ?b then ?x else ?y =>
          let v := eval vm_compute in b in
          lazymatch v with
          | true => change (if b then x else y) with x
          | false => change (if b then x else y) with y
          end
      | _ => is_prim c; erewrite bind_run by (vm_compute; reflexivity);
             cbv beta iota
      end
  end.

(** The cell that holds the fish at the end of the step. *)
Ltac fish_cell :=
  first [ exists (2, 1); split; [repeat constructor | vm_compute; reflexivity]
        | exists (1, 1); split; [repeat constructor | vm_compute; reflexivity]
        | exists (0, 2); split; [repeat constructor | vm_compute; reflexivity] ].

(** ** The row-partition strategy *)

Lemma feeding_row_partition d fb sb threads :
  2 <= fb -> 1 <= threads <= GoInt.max_int ->
  exists g' s' ns,
    MoveEntitiesWithThreads (mkGrid 3 0) fb sb 5 threads (feeding d) = Done g' s'
    /\ matrix_get (cells_of s' g') 0 1 = Some (SharkPtr 0)
    /\ (exists bc, sharks s' !! 0%nat = Some (mkShark bc 5))
    /\ (exists c, c ∈ [(2, 1); (1, 1); (0, 2)]
                  /\ matrix_get (cells_of s' g') c.1 c.2 = Some (FishPtr 0))
    /\ CountEntities g' s' = Done (1, ns) s'.
Proof.
  intros Hfb Ht.
  assert (Hfb' : (fb <=? 1) = false) by (apply Z.leb_gt; lia).
  rewrite MoveEntitiesWithThreads_sweep by (assumption || known_grid).
  cbn [Size].
  change (cellsOf 0 3 3) with [(0,0);(0,1);(0,2);(1,0);(1,1);(1,2);(2,0);(2,1);(2,2)].
  cbn [forList fst snd].
  (* the shark of (0, 0) finds the fish of (0, 1), whatever the order *)
  unfold processCell at 1. run_step. unfold processShark. repeat run_step.
  rewrite ?bind_assoc.
  match goal with
  | |- context [bind (findNearestFish ?g ?x ?y) _ ?s] =>
      assert (E : findNearestFish g x y s = Done (0, 1) (set_drawn 3 s))
        by (scan_cases; vm_compute; reflexivity)
  end.
  rewrite (bind_run _ _ _ _ _ E). clear E. cbv beta iota.
  repeat run_step. cbn [Shark_BreedCounter]. change (GoInt.add 0 1) with 1.
  (* the fish of (0, 1) moves to an empty neighbour *)
  destruct (sb <=? 1); repeat run_step; unfold processCell at 1; run_step;
    unfold processFish; rewrite ?bind_assoc;
    match goal with
    | |- context [bind (findEmptyAdjacent ?g ?x ?y) _ ?s] =>
        assert (E : exists c, findEmptyAdjacent g x y s = Done c (set_drawn 6 s)
                              /\ c ∈ [(2, 1); (1, 1); (0, 2)])
          by (scan_cases; eexists; (split; [vm_compute; reflexivity|]);
              repeat constructor)
    end;
    destruct E as (c & E & Hc); rewrite (bind_run _ _ _ _ _ E); clear E;
    cbv beta iota;
    repeat (apply elem_of_cons in Hc; destruct Hc as [-> | Hc]);
    try (apply elem_of_nil in Hc; destruct Hc);
    repeat run_step;
    cbn [Fish_BreedCounter]; rewrite Hfb';
    repeat (repeat run_step; unfold processCell at 1);
    (eexists; eexists; eexists; split; [reflexivity|]);
    (split; [vm_compute; reflexivity|]);
    (split; [eexists; vm_compute; reflexivity|]);
    (split; [fish_cell | vm_compute; reflexivity]).
Qed.

(** ** The message-passing strategy *)

Lemma feeding_message_passing d fb sb :
  exists g' s' ns,
    MoveEntitiesConcurrent (mkGrid 3 0) fb sb 5 (feeding d) = Done g' s'
    /\ matrix_get (cells_of s' g') 0 1 = Some (SharkPtr 0)
    /\ (exists bc, sharks s' !! 0%nat = Some (mkShark bc 5))
    /\ (exists c, c ∈ [(2, 1); (1, 1); (0, 2)]
                  /\ matrix_get (cells_of s' g') c.1 c.2 = Some (FishPtr 0))
    /\ CountEntities g' s' = Done (1, ns) s'.
Proof.
  unfold MoveEntitiesConcurrent. cbn [Size].
  erewrite bind_run by (vm_compute; reflexivity). cbv beta iota.
  erewrite bind_head by apply moveFish_cells.
  cbn [Size].
  change (cellsOf 0 3 3) with [(0,0);(0,1);(0,2);(1,0);(1,1);(1,2);(2,0);(2,1);(2,2)].
  cbn [forList fst snd].
  unfold moveFishCell at 1. repeat run_step.
  (* the fish of (0, 1) moves to an empty neighbour *)
  unfold moveFishCell at 1. run_step. rewrite ?bind_assoc.
  match goal with
  | |- context [bind (findEmptyAdjacent ?g ?x ?y) _ ?s] =>
      assert (E : exists c, findEmptyAdjacent g x y s = Done c (set_drawn 3 s)
                            /\ c ∈ [(2, 1); (1, 1); (0, 2)])
        by (scan_cases; eexists; (split; [vm_compute; reflexivity|]);
            repeat constructor)
  end.
  destruct E as (c & E & Hc). rewrite (bind_run _ _ _ _ _ E). clear E.
  cbv beta iota.
  repeat (apply elem_of_cons in Hc; destruct Hc as [-> | Hc]);
    try (apply elem_of_nil in Hc; destruct Hc);
    repeat run_step; cbn [Fish_BreedCounter];
    destruct (fb <=? 1);
    repeat (repeat run_step; unfold moveFishCell at 1);
    repeat run_step;
    (* the shark of (0, 0) finds the fish of (0, 1), whatever the order *)
    rewrite ?bind_assoc;
    erewrite bind_head by apply moveSharksConcurrent_cells;
    cbn [Size];
    change (cellsOf 0 3 3) with [(0,0);(0,1);(0,2);(1,0);(1,1);(1,2);(2,0);(2,1);(2,2)];
    cbn [forList fst snd];
    unfold moveSharkCell at 1; repeat run_step;
    rewrite ?bind_assoc;
    match goal with
    | |- context [bind (findNearestFish ?g ?x ?y) _ ?s] =>
        assert (E : findNearestFish g x y s = Done (0, 1) (set_drawn 6 s))
          by (scan_cases; vm_compute; reflexivity)
    end;
    rewrite (bind_run _ _ _ _ _ E); clear E; cbv beta iota;
    repeat run_step; cbn [Shark_BreedCounter]; change (GoInt.add 0 1) with 1;
    destruct (sb <=? 1);
    repeat (repeat run_step; unfold moveSharkCell at 1);
    repeat run_step;
    (eexists; eexists; eexists; split; [vm_compute; reflexivity|]);
    (split; [vm_compute; reflexivity|]);
    (split; [eexists; vm_compute; reflexivity|]);
    (split; [fish_cell | vm_compute; reflexivity]).
Qed.

(** C2 (what the code does in the scenario).  In the 3x3 grid with one shark
    of energy 5 at [(0, 0)] and one fish at [(0, 1)], with a starvation
    energy of 5, whatever the random source, the shark breed age and the
    number of workers, and for every fish breed age of 2 or more: the chronon
    returns, the shark occupies [(0, 1)] and its energy is 5; but the fish is
    not removed.  It is processed as any other fish, moves to one of the
    three empty neighbours of [(0, 1)], and the number of fish, 1 before the
    chronon, is 1 after it.  Both strategies do so. *)
Theorem feeding_scenario_fish_survives (d : nat -> Z) (fb sb threads : Z) :
  2 <= fb -> 1 <= threads <= GoInt.max_int ->
  CountEntities (mkGrid 3 0) (feeding d) = Done (1, 1) (feeding d)
  /\ (exists g' s' ns,
        MoveEntitiesWithThreads (mkGrid 3 0) fb sb 5 threads (feeding d) = Done g' s'
        /\ matrix_get (cells_of s' g') 0 1 = Some (SharkPtr 0)
        /\ (exists bc, sharks s' !! 0%nat = Some (mkShark bc 5))
        /\ (exists c, c ∈ [(2, 1); (1, 1); (0, 2)]
                      /\ matrix_get (cells_of s' g') c.1 c.2 = Some (FishPtr 0))
        /\ CountEntities g' s' = Done (1, ns) s')
  /\ (exists g' s' ns,
        MoveEntitiesConcurrent (mkGrid 3 0) fb sb 5 (feeding d) = Done g' s'
        /\ matrix_get (cells_of s' g') 0 1 = Some (SharkPtr 0)
        /\ (exists bc, sharks s' !! 0%nat = Some (mkShark bc 5))
        /\ (exists c, c ∈ [(2, 1); (1, 1); (0, 2)]
                      /\ matrix_get (cells_of s' g') c.1 c.2 = Some (FishPtr 0))
        /\ CountEntities g' s' = Done (1, ns) s').
Proof.
  intros Hfb Ht. split; [reflexivity|]. split.
  - apply feeding_row_partition; assumption.
  - apply feeding_message_passing.
Qed.

(** The scenario with breed ages of 3, one worker, and the random source
    whose draws are all 0. *)
Lemma feeding_scenario_fish_survives_witness :
  CountEntities (mkGrid 3 0) (feeding zeros) = Done (1, 1) (feeding zeros)
  /\ (exists g' s' ns,
        MoveEntitiesWithThreads (mkGrid 3 0) 3 3 5 1 (feeding zeros) = Done g' s'
        /\ matrix_get (cells_of s' g') 0 1 = Some (SharkPtr 0)
        /\ (exists bc, sharks s' !! 0%nat = Some (mkShark bc 5))
        /\ (exists c, c ∈ [(2, 1); (1, 1); (0, 2)]
                      /\ matrix_get (cells_of s' g') c.1 c.2 = Some (FishPtr 0))
        /\ CountEntities g' s' = Done (1, ns) s')
  /\ (exists g' s' ns,
        MoveEntitiesConcurrent (mkGrid 3 0) 3 3 5 (feeding zeros) = Done g' s'
        /\ matrix_get (cells_of s' g') 0 1 = Some (SharkPtr 0)
        /\ (exists bc, sharks s' !! 0%nat = Some (mkShark bc 5))
        /\ (exists c, c ∈ [(2, 1); (1, 1); (0, 2)]
                      /\ matrix_get (cells_of s' g') c.1 c.2 = Some (FishPtr 0))
        /\ CountEntities g' s' = Done (1, ns) s').
Proof.
  apply (feeding_scenario_fish_survives zeros 3 3 1); [lia | known_grid].
Defined.

(** * Further properties of the code *)

(** ** The neighbour scans *)

(** X1.  On a square grid, [findEmptyAdjacent] returns a neighbour that is
    empty and [findNearestFish] a neighbour that holds a fish, among the four
    toroidal neighbours of the cell; each returns [(-1, -1)] only when none
    of the four neighbours qualifies.  Each call consumes three draws of the
    random source, for the shuffle of the four directions, and changes
    nothing else in the store. *)
Theorem scans_return_a_qualifying_neighbour (s : State) (g : Grid) (m : Matrix)
    (x y : Z) :
  valid_side (Size g) -> arrays s !! Cells g = Some m -> shape (Size g) m ->
  in_grid (Size g) (x, y) ->
  (exists r, findEmptyAdjacent g x y s = Done r (set_drawn (S (S (S (drawn s)))) s)
             /\ scan_result is_nil (Size g) m x y r)
  /\ (exists r, findNearestFish g x y s = Done r (set_drawn (S (S (S (drawn s)))) s)
                /\ scan_result is_fish (Size g) m x y r).
Proof.
  intros Hv Hm Hs Hxy. split.
  - apply findEmptyAdjacent_run; assumption.
  - apply findNearestFish_run; assumption.
Qed.

(** The scans around the shark of the feeding scenario. *)
Lemma scans_return_a_qualifying_neighbour_witness :
  (exists r, findEmptyAdjacent (mkGrid 3 0) 0 0 (feeding sevens)
             = Done r (set_drawn 3 (feeding sevens))
             /\ scan_result is_nil 3 feeding_cells 0 0 r)
  /\ (exists r, findNearestFish (mkGrid 3 0) 0 0 (feeding sevens)
                = Done r (set_drawn 3 (feeding sevens))
                /\ scan_result is_fish 3 feeding_cells 0 0 r).
Proof.
  apply (scans_return_a_qualifying_neighbour (feeding sevens) (mkGrid 3 0) feeding_cells 0 0);
    known_grid.
Defined.

(** ** The tally *)

Lemma sumZ_nonneg {A} (f : A -> Z) (l : list A) : (forall a, 0 <= f a) -> 0 <= sumZ f l.
Proof.
  intros Hf. unfold sumZ. induction l as [|a l IH]; simpl; [lia|]. specialize (Hf a). lia.
Qed.

Lemma count_nonneg (f : Entity -> Z) (m : Matrix) :
  (forall e, 0 <= f e) -> 0 <= sumZ (sumZ f) m.
Proof. intros Hf. apply sumZ_nonneg. intros row. apply sumZ_nonneg. assumption. Qed.

(** X2.  On a square grid whose number of cells is an [int],
    [CountEntities] returns the number of cells that hold a fish and the
    number of cells that hold a shark, and leaves the store as it is.  The
    two numbers are not negative, and their sum is the number of occupied
    cells, which is at most [Size * Size]. *)
Theorem CountEntities_counts_the_cells (g : Grid) (m : Matrix) (s : State) :
  valid_side (Size g) -> grid_at s g m -> Size g * Size g <= GoInt.max_int ->
  CountEntities g s = Done (fishIn m, sharksIn m) s
  /\ fishIn m + sharksIn m = population m
  /\ 0 <= fishIn m /\ 0 <= sharksIn m
  /\ population m <= Size g * Size g.
Proof.
  intros Hv Hg Hsq. destruct (CountEntities_run g m s Hv Hg Hsq) as [Hrun Hsum].
  split; [assumption|]. split; [assumption|].
  split; [apply count_nonneg; intros e; destruct (is_fish e); lia|].
  split; [apply count_nonneg; intros e; destruct (is_shark e); lia|].
  destruct Hv as [Hn _], Hg as (_ & Hs & _). apply population_le; [lia | assumption].
Qed.

(** The tally of the 2x2 grid with a shark and three fish. *)
Lemma CountEntities_counts_the_cells_witness :
  CountEntities (mkGrid 2 0) hunted = Done (fishIn hunted_cells, sharksIn hunted_cells) hunted
  /\ fishIn hunted_cells + sharksIn hunted_cells = population hunted_cells
  /\ 0 <= fishIn hunted_cells /\ 0 <= sharksIn hunted_cells
  /\ population hunted_cells <= 2 * 2.
Proof.
  apply (CountEntities_counts_the_cells (mkGrid 2 0) hunted_cells hunted); known_grid.
Defined.

(** ** The number of workers *)

Lemma NewGrid_fails n s f : NewGrid n s = Fail f -> f = Panic.
Proof.
  unfold NewGrid, bind. destruct (makeslice 24 n []) as [cells|]; simpl.
  - destruct (if n =? 0 then Some [] else makeslice 16 n Nil) as [row|]; simpl.
    + discriminate.
    + unfold fail. intros H. inversion H. reflexivity.
  - unfold fail. intros H. inversion H. reflexivity.
Qed.

(** The tally of an array of empty cells. *)
Lemma countLoop_empty g a b cells c s :
  arrays s !! Cells g = Some (replicate a (replicate b Nil)) ->
  (forall cell, cell ∈ cells ->
     exists e, matrix_get (replicate a (replicate b Nil)) cell.1 cell.2 = Some e) ->
  countLoop g cells c s = Done c s.
Proof.
  intros Hm. revert c. induction cells as [|[x y] cells IH]; intros c Hcells.
  - reflexivity.
  - destruct (Hcells (x, y)) as [e He]; [left|]. cbn [fst snd] in He.
    cbn [countLoop]. rewrite (bind_run _ _ _ _ _ (getCell_run _ _ _ _ _ _ Hm He)).
    apply matrix_get_replicate in He. subst e. cbn [countCell].
    apply IH. intros cell Hin. apply Hcells. right. assumption.
Qed.

(** No worker is started when the number of workers is negative. *)
Lemma MoveEntitiesWithThreads_negative g fb sb se threads s :
  threads < 0 -> valid_side (Size g) ->
  MoveEntitiesWithThreads g fb sb se threads s
  = Done (mkGrid (Size g) (length (arrays s)))
         (set_arrays (arrays s ++ [replicate (Z.to_nat (Size g))
                                     (replicate (Z.to_nat (Size g)) Nil)]) s).
Proof.
  intros Ht Hv. unfold MoveEntitiesWithThreads.
  rewrite (bind_run _ _ _ _ _ (NewGrid_run _ s Hv)).
  unfold GoInt.div. destruct (Z.eqb_spec threads 0) as [E|_]; [lia|].
  rewrite (bind_run _ _ _ _ _ (orPanic_Some _ _)).
  unfold forRange. rewrite Z.sub_0_r.
  replace (seqZ 0 threads) with (@nil Z)
    by (unfold seqZ; replace (Z.to_nat threads) with 0%nat by lia; reflexivity).
  reflexivity.
Qed.

Lemma grid_at_fresh_empty n s :
  0 <= n ->
  grid_at (set_arrays (arrays s ++ [replicate (Z.to_nat n) (replicate (Z.to_nat n) Nil)]) s)
          (mkGrid n (length (arrays s)))
          (replicate (Z.to_nat n) (replicate (Z.to_nat n) Nil)).
Proof.
  intros Hn. split; [|split].
  - simpl. rewrite lookup_app_r, Nat.sub_diag by lia. reflexivity.
  - apply shape_replicate. simpl. lia.
  - apply valid_matrix_replicate.
Qed.

(** With a negative number of workers, every chronon returns an empty grid. *)
Lemma simulate_negative_threads n fb sb se threads g m s :
  threads < 0 -> valid_side (Size g) -> grid_at s g m ->
  exists g' s',
    simulate (S n) (fun g0 => MoveEntitiesWithThreads g0 fb sb se threads) g s = Done g' s'
    /\ Size g' = Size g
    /\ arrays s' !! Cells g'
       = Some (replicate (Z.to_nat (Size g)) (replicate (Z.to_nat (Size g)) Nil)).
Proof.
  intros Ht. revert g m s. induction n as [|n IH]; intros g m s Hv Hg;
    destruct (CountEntities_total g m s Hv Hg) as [v Hcount].
  - cbn [simulate]. rewrite (bind_run _ _ _ _ _ Hcount).
    rewrite (bind_run _ _ _ _ _ (MoveEntitiesWithThreads_negative g fb sb se threads s Ht Hv)).
    eexists. eexists. split; [reflexivity|]. split; [reflexivity|].
    simpl. rewrite lookup_app_r, Nat.sub_diag by lia. reflexivity.
  - change (simulate (S (S n)) ?step g)
      with (_ <- CountEntities g ;; g' <- step g ;; simulate (S n) step g').
    rewrite (bind_run _ _ _ _ _ Hcount).
    rewrite (bind_run _ _ _ _ _ (MoveEntitiesWithThreads_negative g fb sb se threads s Ht Hv)).
    assert (Hn : 0 <= Size g) by (destruct Hv; lia).
    destruct (IH (mkGrid (Size g) (length (arrays s))) _ _ Hv
                 (grid_at_fresh_empty (Size g) s Hn))
      as (g' & s' & Hrun & HN & Hcells).
    exists g', s'. auto.
Qed.

(** X3.  A number of workers that is not positive.  With 0 workers
    [MoveEntitiesWithThreads] panics, on the division [g.Size / threads].
    With a negative number no worker is started: the chronon returns the new
    grid as [NewGrid] made it, with no entity, so that the tally after it is
    (0, 0) whatever the grid held; and [main], once the initial placement has
    returned, runs its fifty chronons and reports 0 fish and 0 sharks. *)
Theorem nonpositive_threads (g : Grid) (fb sb se threads : Z) (s : State) :
  (threads = 0 -> MoveEntitiesWithThreads g fb sb se threads s = Fail Panic)
  /\ (threads < 0 -> valid_side (Size g) ->
      let g' := mkGrid (Size g) (length (arrays s)) in
      let s' := set_arrays (arrays s ++ [replicate (Z.to_nat (Size g))
                                           (replicate (Z.to_nat (Size g)) Nil)]) s in
      MoveEntitiesWithThreads g fb sb se threads s = Done g' s'
      /\ CountEntities g' s' = Done (0, 0) s')
  /\ (threads < 0 ->
      forall fuel nsh nf g0 s0 s1,
        NewGrid (Size g) s = Done g0 s0 -> 0 < Size g ->
        Initialize fuel g0 nf nsh s0 = Done tt s1 ->
        exists s', main fuel [nsh; nf; fb; sb; se; Size g; threads] s = Done (Ran 0 0) s').
Proof.
  split; [|split].
  - intros ->. unfold MoveEntitiesWithThreads, bind.
    destruct (NewGrid (Size g) s) as [ng s1|f] eqn:E.
    + reflexivity.
    + apply NewGrid_fails in E. subst f. reflexivity.
  - intros Ht Hv g' s'. split.
    + apply MoveEntitiesWithThreads_negative; assumption.
    + unfold CountEntities. apply (countLoop_empty g' (Z.to_nat (Size g)) (Z.to_nat (Size g))).
      * unfold g', s'. simpl. rewrite lookup_app_r, Nat.sub_diag by lia. reflexivity.
      * intros cell Hin. apply elem_of_cellsOf in Hin. simpl in Hin.
        apply (matrix_get_shape (Size g)); [|lia|lia].
        apply shape_replicate. destruct Hv. lia.
  - intros Ht fuel nsh nf g0 s0 s1 Hnew Hn Hinit.
    change (main fuel [nsh; nf; fb; sb; se; Size g; threads] s)
      with (run fuel (mkConfig nsh nf fb sb se (Size g) threads) s).
    unfold run.
    cbn -[bind NewGrid Initialize simulate CountEntities MoveEntitiesWithThreads].
    rewrite (bind_run _ _ _ _ _ Hnew), (bind_run _ _ _ _ _ Hinit).
    destruct (NewGrid_Done _ _ _ _ Hnew Hn) as (Hv & -> & ->).
    set (g1 := mkGrid (Size g) (length (arrays s))) in *.
    pose proof (grid_at_fresh_empty (Size g) s ltac:(lia)) as Hg0. fold g1 in Hg0.
    unfold Initialize in Hinit.
    apply Initialise_placing in Hinit. destruct Hinit as (P1 & _).
    destruct (P1 _ Hg0) as (m1 & Hg1).
    destruct (simulate_negative_threads 49 fb sb se threads g1 m1 s1 Ht Hv Hg1)
      as (g' & s' & Hsim & HN & Hcells).
    rewrite (bind_run _ _ _ _ _ Hsim).
    assert (Hcount : CountEntities g' s' = Done (0, 0) s').
    { unfold CountEntities.
      apply (countLoop_empty g' (Z.to_nat (Size g)) (Z.to_nat (Size g))); [exact Hcells|].
      intros cell Hin. apply elem_of_cellsOf in Hin. rewrite HN in Hin. simpl in Hin.
      apply (matrix_get_shape (Size g)); [|lia|lia].
      apply shape_replicate. lia. }
    rewrite (bind_run _ _ _ _ _ Hcount). exists s'. reflexivity.
Qed.

(** The 2x2 grid with a shark and three fish, and a run of [main]. *)
Lemma nonpositive_threads_witness :
  MoveEntitiesWithThreads (mkGrid 2 0) 3 3 4 0 hunted = Fail Panic
  /\ (let g' := mkGrid 2 1 in
      let s' := set_arrays [hunted_cells; [[Nil; Nil]; [Nil; Nil]]] hunted in
      MoveEntitiesWithThreads (mkGrid 2 0) 3 3 4 (-2) hunted = Done g' s'
      /\ CountEntities g' s' = Done (0, 0) s')
  /\ (exists s', main 20 [1; 2; 3; 3; 4; 3; -2] (empty_store sevens) = Done (Ran 0 0) s').
Proof.
  split; [|split].
  - apply (proj1 (nonpositive_threads (mkGrid 2 0) 3 3 4 0 hunted)). reflexivity.
  - apply (proj1 (proj2 (nonpositive_threads (mkGrid 2 0) 3 3 4 (-2) hunted)));
      [lia | known_grid].
  - eapply (proj2 (proj2 (nonpositive_threads (mkGrid 3 0) 3 3 4 (-2) (empty_store sevens)))
              ltac:(lia) 20%nat 1 2).
    + vm_compute. reflexivity.
    + simpl. lia.
    + vm_compute. reflexivity.
Defined.

(** ** The placement of one entity *)

(** X4.  [addEntity] draws cells until one is empty and puts the entity in
    the first empty cell drawn: when the cells of the draws 0 to [k - 1]
    are occupied and the cell of draw [k] is empty, the call returns after
    [2 * (k + 1)] draws, the entity is in that cell and every other cell
    is as before. *)
Theorem addEntity_fills_first_empty_draw (fuel k : nat) (g : Grid) (e : Entity)
    (s : State) (m : Matrix) :
  0 < Size g -> arrays s !! Cells g = Some m -> shape (Size g) m ->
  (forall j, (j < k)%nat ->
     matrix_get m (drawnCell g s j).1 (drawnCell g s j).2 <> Some Nil) ->
  matrix_get m (drawnCell g s k).1 (drawnCell g s k).2 = Some Nil ->
  (k < fuel)%nat ->
  exists m',
    addEntity fuel g e s
    = Done tt (set_arrays (<[Cells g := m']> (arrays s))
                 (set_drawn (drawn s + 2 * (k + 1)) s))
    /\ forall x y,
         matrix_get m' x y
         = if decide ((x, y) = drawnCell g s k) then Some e else matrix_get m x y.
Proof.
  intros Hn Hm Hs Hocc Hnil Hfuel.
  destruct (addEntity_first_empty k fuel g e s m Hn Hm Hs Hocc Hnil Hfuel)
    as (m' & Hset & Hrun).
  exists m'. split; [assumption|].
  intros x y. rewrite (matrix_get_set _ _ _ _ _ x y Hset).
  destruct (drawnCell g s k) as [cx cy]. reflexivity.
Qed.

(** In the feeding scenario the first cell drawn, (0, 1), holds the fish;
    the second, (2, 0), is empty and receives the new shark. *)
Lemma addEntity_fills_first_empty_draw_witness :
  exists m',
    addEntity 5 (mkGrid 3 0) (SharkPtr 0) (feeding sevens)
    = Done tt (set_arrays (<[0%nat := m']> (arrays (feeding sevens)))
                 (set_drawn 4 (feeding sevens)))
    /\ forall x y,
         matrix_get m' x y
         = if decide ((x, y) = (2, 0)) then Some (SharkPtr 0)
           else matrix_get feeding_cells x y.
Proof.
  apply (addEntity_fills_first_empty_draw 5 1 (mkGrid 3 0) (SharkPtr 0)
           (feeding sevens) feeding_cells).
  - simpl. lia.
  - reflexivity.
  - known_grid.
  - intros j Hj. assert (j = 0%nat) as -> by lia. vm_compute. discriminate.
  - reflexivity.
  - lia.
Defined.

(** ** A grid without an empty cell *)

Lemma addEntity_full fuel : forall g e s m,
  0 < Size g -> arrays s !! Cells g = Some m -> shape (Size g) m -> full m ->
  addEntity fuel g e s = Fail Fuel.
Proof.
  induction fuel as [|fuel IH]; intros g e s m Hn Hm Hs Hfull; [reflexivity|].
  destruct (addEntity_step fuel g e s m Hn Hm Hs) as (o & Ho & ->).
  apply (matrix_get_Forall (fun e => e <> Nil)) in Ho; [|exact Hfull].
  destruct o; [congruence| |]; cbn [is_nil]; apply (IH g e _ m); assumption.
Qed.

(** A placement returns or exhausts its fuel: it does not panic on a
    square grid. *)
Lemma addEntity_cases fuel : forall g e s m,
  0 < Size g -> arrays s !! Cells g = Some m -> shape (Size g) m ->
  (exists s', addEntity fuel g e s = Done tt s') \/ addEntity fuel g e s = Fail Fuel.
Proof.
  induction fuel as [|fuel IH]; intros g e s m Hn Hm Hs; [right; reflexivity|].
  destruct (addEntity_step fuel g e s m Hn Hm Hs) as (o & Ho & ->).
  destruct (is_nil o).
  - left. destruct (drawnCell_in_grid g s 0 Hn) as [Hx Hy].
    destruct (matrix_set_shape _ _ _ _ e Hs Hx Hy) as (m' & Hset & _).
    unfold setCell. cbn [arrays set_drawn]. rewrite Hm, Ho, Hset.
    destruct (is_nil o); eexists; reflexivity.
  - apply (IH g e _ m); assumption.
Qed.

Lemma forList_cases {A} (I : State -> Prop) (f : failure) (l : list A) body :
  (forall a s, I s -> (exists s', body a s = Done tt s' /\ I s') \/ body a s = Fail f) ->
  forall s, I s ->
    (exists s', forList l body s = Done tt s' /\ I s') \/ forList l body s = Fail f.
Proof.
  intros Hb. induction l as [|a l IH]; intros s Hs; simpl.
  - left. exists s. auto.
  - destruct (Hb a s Hs) as [(s1 & E & H1)|E].
    + rewrite (bind_run _ _ _ _ _ E). apply IH. assumption.
    + right. apply bind_Fail. assumption.
Qed.

(** [Initialise] returns or exhausts its fuel. *)
Lemma Initialise_cases fuel g nf ns s m :
  0 < Size g -> grid_at s g m ->
  (exists s', Initialise fuel g nf ns s = Done tt s')
  \/ Initialise fuel g nf ns s = Fail Fuel.
Proof.
  intros Hn Hg. unfold Initialise, forRange.
  assert (Hstep : forall (alloc : M nat) (e : nat -> Entity),
            (forall sa, exists p sb, alloc sa = Done p sb /\ arrays sb = arrays sa) ->
            (forall s0 s0', placing g s s0 ->
               (p <- alloc ;; addEntity fuel g (e p)) s0 = Done tt s0' -> placing g s s0') ->
            forall (a : Z) s0, placing g s s0 ->
              (exists s', (p <- alloc ;; addEntity fuel g (e p)) s0 = Done tt s'
                          /\ placing g s s')
              \/ (p <- alloc ;; addEntity fuel g (e p)) s0 = Fail Fuel).
  { intros alloc e Halloc Hplace _ s0 Hp.
    destruct (Halloc s0) as (p & sb & Ha & Harr).
    destruct Hp as (P1 & Hrest). destruct (P1 m Hg) as (m0 & Hm0 & Hs0 & _).
    destruct (addEntity_cases fuel g (e p) sb m0 Hn) as [[s' Hrun]|Hrun];
      [congruence | assumption | |].
    - left. exists s'.
      assert (E : (p <- alloc ;; addEntity fuel g (e p)) s0 = Done tt s')
        by (rewrite (bind_run _ _ _ _ _ Ha); assumption).
      split; [assumption|]. apply (Hplace s0); [split; assumption | assumption].
    - right. rewrite (bind_run _ _ _ _ _ Ha). assumption. }
  destruct (forList_cases (placing g s) Fuel (seqZ 0 (nf - 0))
              (fun _ => p <- newFish (mkFish 0) ;; addEntity fuel g (FishPtr p))
              (Hstep (newFish (mkFish 0)) FishPtr
                 (fun sa => ex_intro _ _ (ex_intro _ _ (conj eq_refl eq_refl)))
                 (place_fish g fuel s))
              s (placing_refl g s)) as [(s1 & E1 & H1)|E1].
  - rewrite (bind_run _ _ _ _ _ E1).
    destruct (forList_cases (placing g s) Fuel (seqZ 0 (ns - 0))
                (fun _ => p <- newShark (mkShark 0 4) ;; addEntity fuel g (SharkPtr p))
                (Hstep (newShark (mkShark 0 4)) SharkPtr
                   (fun sa => ex_intro _ _ (ex_intro _ _ (conj eq_refl eq_refl)))
                   (place_shark g fuel s))
                s1 H1) as [(s2 & E2 & _)|E2].
    + left. exists s2. assumption.
    + right. assumption.
  - right. apply bind_Fail. assumption.
Qed.

(** X5.  Without an empty cell the loop of [addEntity] has no exit: on a
    grid all of whose cells are occupied the call never returns, whatever
    the draws; and [Initialise] never returns when it is asked for more
    entities than the grid has empty cells. *)
Theorem placement_needs_an_empty_cell (g : Grid) (s : State) (m : Matrix) :
  valid_side (Size g) -> grid_at s g m ->
  (full m -> forall fuel e, addEntity fuel g e s = Fail Fuel)
  /\ (forall nf ns,
        Size g * Size g < population m + Z.max 0 nf + Z.max 0 ns ->
        forall fuel, Initialise fuel g nf ns s = Fail Fuel).
Proof.
  intros [Hn Hmax] Hg. split.
  - intros Hfull fuel e. destruct Hg as (Hm & Hs & _).
    apply (addEntity_full fuel g e s m); assumption.
  - intros nf ns Hcap fuel.
    destruct (Initialise_cases fuel g nf ns s m Hn Hg) as [[s' Hrun]|Hrun];
      [|assumption].
    destruct (Initialise_population _ _ _ _ _ _ _ Hg Hrun) as (m' & (_ & Hs' & _) & Hpop).
    pose proof (population_le (Size g) m' ltac:(lia) Hs'). lia.
Qed.

(** The grid of the shark and the three fish is full. *)
Lemma placement_needs_an_empty_cell_witness :
  addEntity 7 (mkGrid 2 0) (FishPtr 0) hunted = Fail Fuel
  /\ Initialise 9 (mkGrid 2 0) 1 0 hunted = Fail Fuel.
Proof.
  destruct (placement_needs_an_empty_cell (mkGrid 2 0) hunted hunted_cells) as [H1 H2];
    [known_grid | known_grid |].
  split.
  - apply H1. repeat constructor; discriminate.
  - apply H2. vm_compute. reflexivity.
Defined.

(** ** The numbers of fish and of sharks that [Initialise] adds *)

(** X6.  When [Initialise] returns, the grid has [numFish] more fish and
    [numSharks] more sharks than before (a negative number counts as 0),
    every entity that was on the grid is still in its cell, and the grid
    had room for the entities: the call adds the numbers asked for, on
    empty cells only. *)
Theorem Initialise_adds_the_numbers_asked_for (fuel : nat) (g : Grid) (nf ns : Z)
    (s s' : State) (m : Matrix) :
  valid_side (Size g) -> grid_at s g m ->
  Initialise fuel g nf ns s = Done tt s' ->
  exists m',
    grid_at s' g m'
    /\ fishIn m' = fishIn m + Z.max 0 nf
    /\ sharksIn m' = sharksIn m + Z.max 0 ns
    /\ (forall x y o, matrix_get m x y = Some o -> o <> Nil -> matrix_get m' x y = Some o)
    /\ population m + Z.max 0 nf + Z.max 0 ns <= Size g * Size g.
Proof.
  intros [Hn _] Hg H.
  destruct (Initialise_population _ _ _ _ _ _ _ Hg H) as (m' & Hg' & Hpop).
  assert (Hcells : cells_of s' g = m').
  { unfold cells_of. destruct Hg' as (Hm' & _). rewrite Hm'. reflexivity. }
  exists m'. split; [assumption|]. split; [|split; [|split]].
  - pose proof (Initialise_count (fun e => if is_fish e then 1 else 0) 1 0
                  fuel g nf ns s s' m eq_refl (fun _ => eq_refl) (fun _ => eq_refl) Hg H) as E.
    rewrite Hcells in E. unfold fishIn. lia.
  - pose proof (Initialise_count (fun e => if is_shark e then 1 else 0) 0 1
                  fuel g nf ns s s' m eq_refl (fun _ => eq_refl) (fun _ => eq_refl) Hg H) as E.
    rewrite Hcells in E. unfold sharksIn. lia.
  - rewrite <- Hcells. exact (Initialise_keeps fuel g nf ns s s' m Hg H).
  - destruct Hg' as (_ & Hs' & _).
    pose proof (population_le (Size g) m' ltac:(lia) Hs'). lia.
Qed.

(** A fish and a shark are added to the grid of the feeding scenario. *)
Lemma Initialise_adds_the_numbers_asked_for_witness :
  exists s' m',
    Initialise 20 (mkGrid 3 0) 1 1 (feeding sevens) = Done tt s'
    /\ grid_at s' (mkGrid 3 0) m'
    /\ fishIn m' = fishIn feeding_cells + Z.max 0 1
    /\ sharksIn m' = sharksIn feeding_cells + Z.max 0 1
    /\ (forall x y o, matrix_get feeding_cells x y = Some o -> o <> Nil ->
          matrix_get m' x y = Some o)
    /\ population feeding_cells + Z.max 0 1 + Z.max 0 1 <= 3 * 3.
Proof.
  assert (E : exists s', Initialise 20 (mkGrid 3 0) 1 1 (feeding sevens) = Done tt s')
    by (eexists; vm_compute; reflexivity).
  destruct E as [s' E]. exists s'.
  destruct (Initialise_adds_the_numbers_asked_for 20 (mkGrid 3 0) 1 1 (feeding sevens) s'
              feeding_cells) as (m' & H); [known_grid | known_grid | exact E |].
  exists m'. split; assumption.
Defined.

(** ** A shark that survives *)

(** The move of a shark, in full. *)
Lemma sharkMoves_spec g ng m s shark x y se o :
  dispatch_inv g ng m s -> in_grid (Size g) (x, y) ->
  sharks s !! shark = Some o ->
  exists rf t en m0 m1 s',
    scan_result is_fish (Size g) m x y rf
    /\ (if found rf.1 rf.2 then t = rf /\ en = se
        else en = Shark_Energy o
             /\ exists re, scan_result is_nil (Size g) m x y re
                  /\ t = if found re.1 re.2 then re else (x, y))
    /\ arrays s !! Cells ng = Some m0
    /\ matrix_set m0 t.1 t.2 (SharkPtr shark) = Some m1
    /\ ('(newX, newY) <- findNearestFish g x y ;;
        if found newX newY then
          setCell ng newX newY (SharkPtr shark) ;;
          modifyShark shark (setSharkEnergy se)
        else
          '(newX, newY) <- findEmptyAdjacent g x y ;;
          if found newX newY
          then setCell ng newX newY (SharkPtr shark)
          else setCell ng x y (SharkPtr shark)) s = Done tt s'
    /\ dispatch_inv g ng m s'
    /\ arrays s' !! Cells ng = Some m1
    /\ sharks s' = <[shark := mkShark (Shark_BreedCounter o) en]> (sharks s)
    /\ fishes s' = fishes s.
Proof.
  intros Hinv Hxy Ho. pose proof (lookup_lt_Some _ _ _ Ho) as Hlt.
  pose proof Hinv as (Hv & HN & Hne & (Gm & Gs & Gv) & _).
  destruct (findNearestFish_run g m x y s Hv Gm Gs Hxy) as ([rx ry] & Hr & Hres).
  rewrite (bind_run _ _ _ _ _ Hr).
  set (s1 := set_drawn (S (S (S (drawn s)))) s) in *.
  assert (Hinv1 : dispatch_inv g ng m s1).
  { apply (dispatch_inv_frame _ _ _ s); [reflexivity | solve_grows | assumption]. }
  destruct (scan_result_cases _ _ _ _ _ _ (proj1 Hv) Hres) as [[_ Hf]|[Hin [Hf _]]];
    cbn [fst snd] in Hf.
  - (* no fish next to the shark *)
    destruct (findEmptyAdjacent_run g m x y s1 Hv Gm Gs Hxy) as ([ex ey] & He & Hres').
    set (s2 := set_drawn _ s1) in *.
    assert (Hinv2 : dispatch_inv g ng m s2).
    { apply (dispatch_inv_frame _ _ _ s1); [reflexivity | solve_grows | assumption]. }
    set (t := if found ex ey then (ex, ey) else (x, y)).
    assert (Ht : in_grid (Size g) t).
    { unfold t.
      destruct (scan_result_cases _ _ _ _ _ _ (proj1 Hv) Hres') as [[_ Hf']|[Hin' [Hf' _]]];
        cbn [fst snd] in Hf'; rewrite Hf'; assumption. }
    destruct (setCell_run g ng m s2 t.1 t.2 (SharkPtr shark) Hinv2) as
      (m0 & old & m1 & Hm0 & Hold & Hset & Hrun); [destruct t; exact Ht|].
    exists (rx, ry), t, (Shark_Energy o), m0, m1, (written ng t.1 t.2 old m1 s2).
    split; [assumption|]. cbn [fst snd]. rewrite Hf.
    split; [split; [reflexivity|]; exists (ex, ey); split; [assumption | reflexivity]|].
    split; [exact Hm0|]. split; [assumption|].
    split.
    { rewrite (bind_run _ _ _ _ _ He). rewrite <- Hrun. unfold t.
      destruct (found ex ey); reflexivity. }
    split.
    { apply (dispatch_inv_written _ _ _ _ m0 _ _ _ (SharkPtr shark)); assumption. }
    split.
    { simpl. apply list_lookup_insert_eq. exact (lookup_lt_Some _ _ _ Hm0). }
    split; [|reflexivity].
    simpl. destruct o as [bc en]. symmetry. apply list_insert_id. assumption.
  - (* a fish is eaten *)
    destruct (setCell_run g ng m s1 rx ry (SharkPtr shark) Hinv1 Hin)
      as (m0 & old & m1 & Hm0 & Hold & Hset & Hrun).
    exists (rx, ry), (rx, ry), se, m0, m1.
    set (s2 := written ng rx ry old m1 s1) in *.
    assert (Ho2 : sharks s2 !! shark = Some o) by exact Ho.
    eexists. split; [assumption|]. cbn [fst snd]. rewrite Hf.
    split; [split; reflexivity|]. split; [exact Hm0|]. split; [assumption|].
    split.
    { rewrite (bind_run _ _ _ _ _ Hrun). apply (modifyShark_run _ _ _ _ Ho2). }
    split.
    { apply (dispatch_inv_frame _ _ _ s2); [reflexivity | solve_grows |].
      apply (dispatch_inv_written _ _ _ _ m0 _ _ _ (SharkPtr shark)); assumption. }
    split.
    { simpl. apply list_lookup_insert_eq. exact (lookup_lt_Some _ _ _ Hm0). }
    split; reflexivity.
Qed.

(** The breed counter and the offspring of a shark, in full. *)
Lemma sharkBreeds_spec g ng m s shark x y sb se o m1 :
  dispatch_inv g ng m s -> in_grid (Size g) (x, y) ->
  sharks s !! shark = Some o -> arrays s !! Cells ng = Some m1 ->
  exists s',
    (modifyShark shark (fun k => setSharkBreed (GoInt.add (Shark_BreedCounter k) 1) k) ;;
     k <- loadShark shark ;;
     if sb <=? Shark_BreedCounter k then
       baby <- newShark (mkShark 0 se) ;;
       setCell ng x y (SharkPtr baby) ;;
       emit (EvBorn x y) ;;
       modifyShark shark (setSharkBreed 0)
     else ret tt) s = Done tt s'
    /\ fishes s' = fishes s
    /\ if sb <=? GoInt.add (Shark_BreedCounter o) 1
       then exists m', matrix_set m1 x y (SharkPtr (length (sharks s))) = Some m'
              /\ arrays s' !! Cells ng = Some m'
              /\ sharks s' = <[shark := mkShark 0 (Shark_Energy o)]> (sharks s)
                             ++ [mkShark 0 se]
       else arrays s' !! Cells ng = Some m1
            /\ sharks s' = <[shark := mkShark (GoInt.add (Shark_BreedCounter o) 1)
                                              (Shark_Energy o)]> (sharks s).
Proof.
  intros Hinv Hxy Ho Hm1. pose proof (lookup_lt_Some _ _ _ Ho) as Hlt.
  rewrite (bind_run _ _ _ _ _ (modifyShark_run _ _ _ _ Ho)).
  set (s1 := set_sharks _ s).
  assert (Ho1 : sharks s1 !! shark
                = Some (setSharkBreed (GoInt.add (Shark_BreedCounter o) 1) o)).
  { simpl. apply list_lookup_insert_eq. assumption. }
  rewrite (bind_run _ _ _ _ _ (loadShark_run _ _ _ Ho1)).
  assert (Hinv1 : dispatch_inv g ng m s1).
  { apply (dispatch_inv_frame _ _ _ s); [reflexivity | solve_grows | assumption]. }
  cbn [setSharkBreed Shark_BreedCounter].
  destruct (sb <=? _).
  - unfold newShark at 1.
    set (s2 := set_sharks (sharks s1 ++ [mkShark 0 se]) s1).
    rewrite (bind_run _ _ s1 (length (sharks s1)) s2) by reflexivity.
    assert (Hinv2 : dispatch_inv g ng m s2).
    { apply (dispatch_inv_frame _ _ _ s1); [reflexivity | solve_grows | assumption]. }
    destruct (setCell_run g ng m s2 x y (SharkPtr (length (sharks s1))) Hinv2 Hxy)
      as (m1' & old & m' & Hm1' & Hold & Hset & Hrun).
    assert (m1' = m1) as -> by (change (arrays s2) with (arrays s) in Hm1'; congruence).
    rewrite (bind_run _ _ _ _ _ Hrun).
    set (s3 := written ng x y old m' s2) in *.
    unfold emit at 1.
    rewrite (bind_run _ _ s3 tt (set_events (EvBorn x y :: events s3) s3)) by reflexivity.
    set (s4 := set_events _ s3).
    assert (Ho4 : sharks s4 !! shark
                  = Some (setSharkBreed (GoInt.add (Shark_BreedCounter o) 1) o)).
    { simpl. rewrite lookup_app_l by (rewrite length_insert; assumption).
      apply list_lookup_insert_eq. assumption. }
    rewrite (modifyShark_run _ _ _ _ Ho4). eexists. split; [reflexivity|].
    split; [reflexivity|].
    exists m'. split.
    { replace (length (sharks s)) with (length (sharks s1)); [assumption|].
      simpl. apply length_insert. }
    split.
    { simpl. apply list_lookup_insert_eq. exact (lookup_lt_Some _ _ _ Hm1). }
    simpl. rewrite insert_app_l by (rewrite length_insert; assumption).
    rewrite list_insert_insert_eq. reflexivity.
  - eexists. split; [reflexivity|]. split; [reflexivity|].
    split; [assumption | reflexivity].
Qed.

(** The processing of a shark whose energy does not run out. *)
Lemma processShark_spec g ng m s shark x y sb se o :
  dispatch_inv g ng m s -> in_grid (Size g) (x, y) ->
  sharks s !! shark = Some o -> 0 < GoInt.sub (Shark_Energy o) 1 ->
  exists rf t en m0 m1 s',
    scan_result is_fish (Size g) m x y rf
    /\ (if found rf.1 rf.2 then t = rf /\ en = se
        else en = GoInt.sub (Shark_Energy o) 1
             /\ exists re, scan_result is_nil (Size g) m x y re
                  /\ t = if found re.1 re.2 then re else (x, y))
    /\ arrays s !! Cells ng = Some m0
    /\ matrix_set m0 t.1 t.2 (SharkPtr shark) = Some m1
    /\ processShark g ng shark x y sb se s = Done tt s'
    /\ fishes s' = fishes s
    /\ if sb <=? GoInt.add (Shark_BreedCounter o) 1
       then exists m', matrix_set m1 x y (SharkPtr (length (sharks s))) = Some m'
              /\ arrays s' !! Cells ng = Some m'
              /\ sharks s' = <[shark := mkShark 0 en]> (sharks s) ++ [mkShark 0 se]
       else arrays s' !! Cells ng = Some m1
            /\ sharks s' = <[shark := mkShark (GoInt.add (Shark_BreedCounter o) 1) en]>
                             (sharks s).
Proof.
  intros Hinv Hxy Ho He. pose proof (lookup_lt_Some _ _ _ Ho) as Hlt.
  unfold processShark.
  rewrite (bind_run _ _ _ _ _ (modifyShark_run _ _ _ _ Ho)).
  set (s1 := set_sharks _ s).
  assert (Ho1 : sharks s1 !! shark
                = Some (setSharkEnergy (GoInt.sub (Shark_Energy o) 1) o)).
  { simpl. apply list_lookup_insert_eq. assumption. }
  rewrite (bind_run _ _ _ _ _ (loadShark_run _ _ _ Ho1)).
  assert (Hinv1 : dispatch_inv g ng m s1).
  { apply (dispatch_inv_frame _ _ _ s); [reflexivity | solve_grows | assumption]. }
  cbn [setSharkEnergy Shark_Energy].
  destruct (Z.leb_spec (GoInt.sub (Shark_Energy o) 1) 0) as [|_]; [lia|].
  destruct (sharkMoves_spec g ng m s1 shark x y se _ Hinv1 Hxy Ho1)
    as (rf & t & en & m0 & m1 & s2 & Hrf & Ht & Hm0 & Hset & Hrun2 & Hinv2 & Hm1 & Hsh2 & Hf2).
  rewrite bind_assoc_pair. rewrite (bind_run _ _ _ _ _ Hrun2).
  cbn [setSharkEnergy Shark_Energy Shark_BreedCounter] in Ht, Hsh2.
  assert (Ho2 : sharks s2 !! shark = Some (mkShark (Shark_BreedCounter o) en)).
  { rewrite Hsh2. apply list_lookup_insert_eq. simpl. rewrite length_insert. assumption. }
  destruct (sharkBreeds_spec g ng m s2 shark x y sb se _ m1 Hinv2 Hxy Ho2 Hm1)
    as (s3 & Hrun3 & Hf3 & Hbreed).
  cbn [Shark_BreedCounter Shark_Energy] in Hbreed.
  exists rf, t, en, m0, m1, s3.
  split; [assumption|]. split; [assumption|]. split; [exact Hm0|]. split; [assumption|].
  split; [exact Hrun3|]. split; [rewrite Hf3, Hf2; reflexivity|].
  assert (Hlen : length (sharks s2) = length (sharks s)).
  { rewrite Hsh2. simpl. rewrite !length_insert. reflexivity. }
  assert (Hins : forall k, <[shark := k]> (sharks s2) = <[shark := k]> (sharks s)).
  { intros k. rewrite Hsh2. simpl. rewrite !list_insert_insert_eq. reflexivity. }
  destruct (sb <=? _).
  - destruct Hbreed as (m' & Hset' & Hm' & Hsh3).
    exists m'. rewrite Hlen in Hset'. split; [assumption|]. split; [assumption|].
    rewrite Hsh3, Hins. reflexivity.
  - destruct Hbreed as [Hm' Hsh3]. split; [assumption|].
    rewrite Hsh3, Hins. reflexivity.
Qed.

(** X7.  The processing of a shark whose energy, once 1 is taken from it,
    is still positive.  The shark goes to a neighbour that holds a fish and
    its energy becomes [starveEnergy]; with no fish next to it, it goes to
    an empty neighbour, or stays when there is none, with the energy
    lowered by 1.  Its breed counter goes up by 1; when it reaches
    [sharkBreed] it is reset to 0 and a new shark with breed counter 0 and
    energy [starveEnergy] is put in the cell the shark comes from, which is
    then the cell of the offspring alone if the shark stayed.  At most these
    two cells of the next grid are written, and no fish object changes: the
    fish that is eaten stays in the current grid. *)
Theorem surviving_shark_step (g ng : Grid) (m : Matrix) (s : State)
    (shark : nat) (o : Shark) (x y sb se : Z) :
  dispatch_inv g ng m s -> in_grid (Size g) (x, y) ->
  sharks s !! shark = Some o -> 0 < GoInt.sub (Shark_Energy o) 1 ->
  exists rf t en m0 s' m',
    scan_result is_fish (Size g) m x y rf
    /\ (if found rf.1 rf.2 then t = rf /\ en = se
        else en = GoInt.sub (Shark_Energy o) 1
             /\ exists re, scan_result is_nil (Size g) m x y re
                  /\ t = if found re.1 re.2 then re else (x, y))
    /\ arrays s !! Cells ng = Some m0
    /\ processShark g ng shark x y sb se s = Done tt s'
    /\ arrays s' !! Cells ng = Some m'
    /\ fishes s' = fishes s
    /\ (forall x' y', (x', y') <> t -> (x', y') <> (x, y) ->
          matrix_get m' x' y' = matrix_get m0 x' y')
    /\ if sb <=? GoInt.add (Shark_BreedCounter o) 1
       then sharks s' = <[shark := mkShark 0 en]> (sharks s) ++ [mkShark 0 se]
            /\ matrix_get m' x y = Some (SharkPtr (length (sharks s)))
            /\ (t <> (x, y) -> matrix_get m' t.1 t.2 = Some (SharkPtr shark))
       else sharks s' = <[shark := mkShark (GoInt.add (Shark_BreedCounter o) 1) en]>
                          (sharks s)
            /\ matrix_get m' t.1 t.2 = Some (SharkPtr shark)
            /\ (t <> (x, y) -> matrix_get m' x y = matrix_get m0 x y).
Proof.
  intros Hinv Hxy Ho He.
  destruct (processShark_spec g ng m s shark x y sb se o Hinv Hxy Ho He)
    as (rf & [tx ty] & en & m0 & m1 & s' & Hrf & Ht & Hm0 & Hset & Hrun & Hf & Hbreed).
  cbn [fst snd] in Hset.
  destruct (sb <=? GoInt.add (Shark_BreedCounter o) 1) eqn:Hsb.
  - destruct Hbreed as (m' & Hset' & Hm' & Hsh).
    exists rf, (tx, ty), en, m0, s', m'.
    do 6 (split; [assumption|]). split; [|split; [assumption|split]].
    + intros x' y' H1 H2.
      rewrite (matrix_get_set _ _ _ _ _ x' y' Hset'), (matrix_get_set _ _ _ _ _ x' y' Hset).
      destruct (decide ((x', y') = (x, y))); [contradiction|].
      destruct (decide ((x', y') = (tx, ty))); [contradiction | reflexivity].
    + rewrite (matrix_get_set _ _ _ _ _ x y Hset').
      destruct (decide ((x, y) = (x, y))); [reflexivity | contradiction].
    + intros Hne. cbn [fst snd].
      rewrite (matrix_get_set _ _ _ _ _ tx ty Hset'), (matrix_get_set _ _ _ _ _ tx ty Hset).
      destruct (decide ((tx, ty) = (x, y))); [contradiction|].
      destruct (decide ((tx, ty) = (tx, ty))); [reflexivity | contradiction].
  - destruct Hbreed as [Hm' Hsh].
    exists rf, (tx, ty), en, m0, s', m1.
    do 6 (split; [assumption|]). split; [|split; [assumption|split]].
    + intros x' y' H1 _. rewrite (matrix_get_set _ _ _ _ _ x' y' Hset).
      destruct (decide ((x', y') = (tx, ty))); [contradiction | reflexivity].
    + cbn [fst snd]. rewrite (matrix_get_set _ _ _ _ _ tx ty Hset).
      destruct (decide ((tx, ty) = (tx, ty))); [reflexivity | contradiction].
    + intros Hne. rewrite (matrix_get_set _ _ _ _ _ x y Hset).
      destruct (decide ((x, y) = (tx, ty))) as [E|_]; [|reflexivity].
      exfalso. apply Hne. symmetry. assumption.
Qed.

(** The shark of the feeding scenario, once the next grid is allocated. *)
Lemma surviving_shark_step_witness :
  let s := set_arrays [feeding_cells; replicate 3 (replicate 3 Nil)] (feeding sevens) in
  exists rf t en m0 s' m',
    scan_result is_fish 3 feeding_cells 0 0 rf
    /\ (if found rf.1 rf.2 then t = rf /\ en = 5
        else en = GoInt.sub 5 1
             /\ exists re, scan_result is_nil 3 feeding_cells 0 0 re
                  /\ t = if found re.1 re.2 then re else (0, 0))
    /\ arrays s !! 1%nat = Some m0
    /\ processShark (mkGrid 3 0) (mkGrid 3 1) 0 0 0 2 5 s = Done tt s'
    /\ arrays s' !! 1%nat = Some m'
    /\ fishes s' = fishes s
    /\ (forall x' y', (x', y') <> t -> (x', y') <> (0, 0) ->
          matrix_get m' x' y' = matrix_get m0 x' y')
    /\ if 2 <=? GoInt.add 0 1
       then sharks s' = <[0%nat := mkShark 0 en]> (sharks s) ++ [mkShark 0 5]
            /\ matrix_get m' 0 0 = Some (SharkPtr (length (sharks s)))
            /\ (t <> (0, 0) -> matrix_get m' t.1 t.2 = Some (SharkPtr 0))
       else sharks s' = <[0%nat := mkShark (GoInt.add 0 1) en]> (sharks s)
            /\ matrix_get m' t.1 t.2 = Some (SharkPtr 0)
            /\ (t <> (0, 0) -> matrix_get m' 0 0 = matrix_get m0 0 0).
Proof.
  apply (surviving_shark_step (mkGrid 3 0) (mkGrid 3 1) feeding_cells
           (set_arrays [feeding_cells; replicate 3 (replicate 3 Nil)] (feeding sevens))
           0%nat (mkShark 0 5) 0 0 2 5).
  - split; [known_grid|]. split; [reflexivity|]. split; [simpl; lia|].
    split; [known_grid|]. eexists. known_grid.
  - known_grid.
  - reflexivity.
  - vm_compute. reflexivity.
Defined.

(** ** A fish that does not breed *)

(** X8.  The processing of a fish whose incremented breed counter is below
    [fishBreed]: the fish is put in the next grid at the empty neighbour
    found, or at its own cell when no neighbour is empty; no other cell of
    the next grid is written, its breed counter goes up by 1, and no object
    is allocated.  The message-passing strategy runs the same code for the
    fish of a cell. *)
Theorem fish_moves_without_breeding (g ng : Grid) (m : Matrix) (s : State)
    (fish : nat) (o : Fish) (x y fb : Z) :
  dispatch_inv g ng m s -> in_grid (Size g) (x, y) ->
  matrix_get m x y = Some (FishPtr fish) ->
  fishes s !! fish = Some o ->
  GoInt.add (Fish_BreedCounter o) 1 < fb ->
  exists r t m0 s' m',
    scan_result is_nil (Size g) m x y r
    /\ t = (if found r.1 r.2 then r else (x, y))
    /\ arrays s !! Cells ng = Some m0
    /\ processFish g ng fish x y fb s = Done tt s'
    /\ moveFishCell g ng fb x y s = Done tt s'
    /\ arrays s' !! Cells ng = Some m'
    /\ matrix_get m' t.1 t.2 = Some (FishPtr fish)
    /\ (forall x' y', (x', y') <> t -> matrix_get m' x' y' = matrix_get m0 x' y')
    /\ fishes s' = <[fish := mkFish (GoInt.add (Fish_BreedCounter o) 1)]> (fishes s)
    /\ sharks s' = sharks s.
Proof.
  intros Hinv Hxy Hcell Ho Hfb.
  destruct (processFish_run g ng m s fish x y fb o Hinv Hxy Ho)
    as ([rx ry] & m0 & m1 & s' & Hres & Hm0 & Hset & Hrun & _ & _ & Hsh & Hbreed).
  cbn [fst snd] in Hset.
  destruct (Z.leb_spec fb (GoInt.add (Fish_BreedCounter o) 1)) as [|_]; [lia|].
  destruct Hbreed as [Hm' Hfishes].
  exists (rx, ry), (if found rx ry then (rx, ry) else (x, y)), m0, s', m1.
  cbn [fst snd].
  split; [assumption|]. split; [reflexivity|]. split; [assumption|].
  split; [assumption|]. split.
  { rewrite moveFishCell_eq.
    destruct Hinv as (_ & _ & _ & (Gm & _) & _).
    rewrite (bind_run _ _ _ _ _ (getCell_run _ _ _ _ _ _ Gm Hcell)). assumption. }
  split; [assumption|].
  assert (Ht : ((if found rx ry then (rx, ry) else (x, y)).1 = if found rx ry then rx else x)
               /\ ((if found rx ry then (rx, ry) else (x, y)).2 = if found rx ry then ry else y))
    by (destruct (found rx ry); split; reflexivity).
  destruct Ht as [Ht1 Ht2].
  split; [|split; [|split; assumption]].
  - rewrite (matrix_get_set _ _ _ _ _ _ _ Hset), Ht1, Ht2.
    destruct (decide _) as [_|E]; [reflexivity | contradiction].
  - intros x' y' Hne. rewrite (matrix_get_set _ _ _ _ _ x' y' Hset).
    destruct (decide _) as [E|_]; [|reflexivity].
    exfalso. apply Hne. rewrite E. destruct (found rx ry); reflexivity.
Qed.

(** The fish in the middle of the grid of the lone fish, once the next
    grid is allocated. *)
Lemma fish_moves_without_breeding_witness :
  let s := set_arrays [lone_fish_cells; replicate 3 (replicate 3 Nil)] (lone_fish sevens) in
  exists r t m0 s' m',
    scan_result is_nil 3 lone_fish_cells 1 1 r
    /\ t = (if found r.1 r.2 then r else (1, 1))
    /\ arrays s !! 1%nat = Some m0
    /\ processFish (mkGrid 3 0) (mkGrid 3 1) 0 1 1 3 s = Done tt s'
    /\ moveFishCell (mkGrid 3 0) (mkGrid 3 1) 3 1 1 s = Done tt s'
    /\ arrays s' !! 1%nat = Some m'
    /\ matrix_get m' t.1 t.2 = Some (FishPtr 0)
    /\ (forall x' y', (x', y') <> t -> matrix_get m' x' y' = matrix_get m0 x' y')
    /\ fishes s' = <[0%nat := mkFish (GoInt.add 0 1)]> (fishes s)
    /\ sharks s' = sharks s.
Proof.
  apply (fish_moves_without_breeding (mkGrid 3 0) (mkGrid 3 1) lone_fish_cells
           (set_arrays [lone_fish_cells; replicate 3 (replicate 3 Nil)] (lone_fish sevens))
           0%nat (mkFish 0) 1 1 3).
  - split; [known_grid|]. split; [reflexivity|]. split; [simpl; lia|].
    split; [known_grid|]. eexists. known_grid.
  - known_grid.
  - reflexivity.
  - reflexivity.
  - vm_compute. reflexivity.
Defined.

(** ** The channel of the message-passing strategy *)

Lemma fresh_not_valid s e : fresh s e -> valid_ent s e -> False.
Proof. destruct e; simpl; [tauto | lia | lia]. Qed.

Lemma fresh_grows s s' e : grows s s' -> fresh s' e -> fresh s e.
Proof. intros [? ?]. destruct e; simpl; [tauto | lia | lia]. Qed.

Lemma sends_bind ch k1 k2 (b1 b2 : M unit) s (Q1 Q2 : State -> Prop) :
  0 <= k1 -> 0 <= k2 ->
  sends ch k1 b1 s Q1 ->
  (forall s1, Q1 s1 -> room ch s1 = room ch s - k1 -> sends ch k2 b2 s1 Q2) ->
  sends ch (k1 + k2) (b1 ;; b2) s Q2.
Proof.
  intros H1 H2 [D1 F1] Hnext. split.
  - intros Hroom. destruct D1 as (s1 & E1 & R1 & HQ1); [lia|].
    destruct (Hnext s1 HQ1 R1) as [D2 _]. destruct D2 as (s2 & E2 & R2 & HQ2); [lia|].
    exists s2. split; [rewrite (bind_run _ _ _ _ _ E1); assumption|].
    split; [lia | assumption].
  - intros Hroom. destruct (Z_lt_le_dec (room ch s) k1) as [Hlt|Hge].
    + apply bind_Fail. apply F1. assumption.
    + destruct D1 as (s1 & E1 & R1 & HQ1); [assumption|].
      rewrite (bind_run _ _ _ _ _ E1). destruct (Hnext s1 HQ1 R1) as [_ F2].
      apply F2. lia.
Qed.

Lemma sends_silent ch (b : M unit) s s' (Q : State -> Prop) :
  0 <= room ch s -> b s = Done tt s' -> room ch s' = room ch s -> Q s' ->
  sends ch 0 b s Q.
Proof.
  intros H0 E R HQ. split.
  - intros _. exists s'. split; [assumption|]. split; [lia | assumption].
  - lia.
Qed.

Lemma sends_prefix {A} ch k (pre : M A) (f : A -> M unit) a s s1 (Q : State -> Prop) :
  pre s = Done a s1 -> room ch s1 = room ch s ->
  sends ch k (f a) s1 Q -> sends ch k (bind pre f) s Q.
Proof.
  intros E R [D F]. unfold sends. rewrite (bind_run _ _ _ _ _ E), <- R. split; assumption.
Qed.

Lemma sends_weaken ch k b s (Q Q' : State -> Prop) :
  (forall s', Q s' -> Q' s') -> sends ch k b s Q -> sends ch k b s Q'.
Proof.
  intros HQ [D F]. split; [|assumption].
  intros H. destruct (D H) as (s' & E & R & HQ'). exists s'. auto.
Qed.

Lemma collect_inv_room g ng m ch s : collect_inv g ng m ch 0 s -> 0 <= room ch s.
Proof. intros (_ & c & C1 & _ & C3 & _). unfold room. rewrite C1. lia. Qed.

(** A send takes one place of the channel, or blocks. *)
Lemma send_exact g ng m ch s mv :
  collect_inv g ng m ch 0 s -> valid_move (Size g) s mv ->
  sends ch 1 (send ch mv) s
    (fun s' => collect_inv g ng m ch 0 s' /\ grows s s' /\ sharks s' = sharks s
               /\ arrays s' = arrays s /\ waiting ch s' = waiting ch s ++ [mv]).
Proof.
  intros (Hinv & c & C1 & C2 & C3 & C4) Hmv.
  pose proof (lookup_lt_Some _ _ _ C1) as Hlt.
  unfold sends, room, waiting. rewrite C1. split.
  - intros Hroom.
    exists (set_chans (<[ch := mkChan (cap c) (buf c ++ [mv]) false]> (chans s)) s).
    split; [apply send_Done; exists c; repeat (split; [assumption || lia|]); reflexivity|].
    split.
    { cbn [chans set_chans]. rewrite list_lookup_insert_eq by assumption.
      cbn [cap buf]. rewrite length_app. simpl. lia. }
    split; [|split; [solve_grows | split; [reflexivity | split; [reflexivity|]]]].
    + split.
      * apply (dispatch_inv_frame _ _ _ s); [reflexivity | solve_grows | assumption].
      * eexists. split; [simpl; apply list_lookup_insert_eq; assumption|].
        split; [reflexivity|]. simpl. rewrite length_app. simpl. split; [lia|].
        apply Forall_app. split; [exact C4 | repeat constructor; apply Hmv].
    + cbn [chans set_chans]. rewrite list_lookup_insert_eq by assumption. reflexivity.
  - intros Hroom. unfold send. rewrite C1, C2.
    destruct (Z.ltb_spec (Z.of_nat (length (buf c))) (cap c)); [lia | reflexivity].
Qed.

(** The move of a shark takes one place. *)
Lemma sharkSends_exact g ng m ch s shark x y se o :
  collect_inv g ng m ch 0 s -> in_grid (Size g) (x, y) ->
  sharks s !! shark = Some o ->
  sends ch 1
    ('(newX, newY) <- findNearestFish g x y ;;
     if found newX newY then
       send ch (mkMove newX newY (SharkPtr shark)) ;;
       modifyShark shark (setSharkEnergy se)
     else
       '(newX, newY) <- findEmptyAdjacent g x y ;;
       if found newX newY
       then send ch (mkMove newX newY (SharkPtr shark))
       else send ch (mkMove x y (SharkPtr shark))) s
    (fun s' => collect_inv g ng m ch 0 s' /\ grows s s' /\ arrays s' = arrays s
               /\ (exists en, sharks s'
                              = <[shark := mkShark (Shark_BreedCounter o) en]> (sharks s))
               /\ exists tx ty, waiting ch s'
                                = waiting ch s ++ [mkMove tx ty (SharkPtr shark)]).
Proof.
  intros Hinv Hxy Ho. pose proof (lookup_lt_Some _ _ _ Ho) as Hlt.
  pose proof Hinv as ((Hv & HN & Hne & (Gm & Gs & Gv) & _) & _).
  destruct (findNearestFish_run g m x y s Hv Gm Gs Hxy) as ([rx ry] & Hr & Hres).
  apply (sends_prefix _ _ _ _ _ _ _ _ Hr); [reflexivity|]. cbn beta iota.
  set (s1 := set_drawn (S (S (S (drawn s)))) s) in *.
  assert (Hinv1 : collect_inv g ng m ch 0 s1).
  { apply (collect_inv_frame _ _ _ _ _ s); [reflexivity | reflexivity | solve_grows | assumption]. }
  destruct (scan_result_cases _ _ _ _ _ _ (proj1 Hv) Hres) as [[_ Hf]|[Hin [Hf _]]];
    simpl in Hf; rewrite Hf.
  - (* no fish next to the shark *)
    destruct (findEmptyAdjacent_run g m x y s1 Hv Gm Gs Hxy) as ([ex ey] & He & Hres').
    apply (sends_prefix _ _ _ _ _ _ _ _ He); [reflexivity|]. cbn beta iota.
    set (s2 := set_drawn _ s1) in *.
    assert (Hinv2 : collect_inv g ng m ch 0 s2).
    { apply (collect_inv_frame _ _ _ _ _ s1); [reflexivity | reflexivity | solve_grows | assumption]. }
    assert (Ht : in_grid (Size g) (if found ex ey then ex else x,
                                   if found ex ey then ey else y)).
    { destruct (scan_result_cases _ _ _ _ _ _ (proj1 Hv) Hres') as [[_ Hf']|[Hin' [Hf' _]]];
        simpl in Hf'; rewrite Hf'; assumption. }
    assert (Hsend : sends ch 1
              (send ch (mkMove (if found ex ey then ex else x)
                               (if found ex ey then ey else y) (SharkPtr shark))) s2
              (fun s' => collect_inv g ng m ch 0 s' /\ grows s2 s' /\ sharks s' = sharks s2
                         /\ arrays s' = arrays s2
                         /\ waiting ch s' = waiting ch s2 ++ [mkMove
                              (if found ex ey then ex else x)
                              (if found ex ey then ey else y) (SharkPtr shark)])).
    { apply send_exact; [assumption|]. split; [exact Ht | exact Hlt]. }
    assert (Hbody : (if found ex ey then send ch (mkMove ex ey (SharkPtr shark))
                     else send ch (mkMove x y (SharkPtr shark)))
                    = send ch (mkMove (if found ex ey then ex else x)
                                      (if found ex ey then ey else y) (SharkPtr shark)))
      by (destruct (found ex ey); reflexivity).
    rewrite Hbody. revert Hsend. apply sends_weaken.
    intros s' (Hinv' & Hg' & Hsh' & Harr' & Hw'). split; [assumption|]. split.
    { apply (grows_trans _ s2); [solve_grows | assumption]. }
    split; [rewrite Harr'; reflexivity|]. split.
    + exists (Shark_Energy o). rewrite Hsh'. simpl. destruct o as [bc en].
      symmetry. apply list_insert_id. assumption.
    + eexists. eexists. rewrite Hw'. reflexivity.
  - (* a fish is eaten *)
    change 1 with (1 + 0).
    apply (sends_bind ch 1 0 _ _ s1
             (fun s' => collect_inv g ng m ch 0 s' /\ grows s1 s' /\ sharks s' = sharks s1
                        /\ arrays s' = arrays s1
                        /\ waiting ch s' = waiting ch s1 ++ [mkMove rx ry (SharkPtr shark)]));
      [lia | lia | |].
    + apply send_exact; [assumption|]. split; [exact Hin | exact Hlt].
    + intros s2 (Hinv2 & Hg2 & Hsh2 & Harr2 & Hw2) _.
      assert (Ho2 : sharks s2 !! shark = Some o) by (rewrite Hsh2; exact Ho).
      apply (sends_silent _ _ _ _ _ (collect_inv_room _ _ _ _ _ Hinv2)
               (modifyShark_run _ _ _ _ Ho2)); [reflexivity|].
      split; [|split; [|split; [|split]]].
      * apply (collect_inv_frame _ _ _ _ _ s2);
          [reflexivity | reflexivity | solve_grows | assumption].
      * apply (grows_trans _ s1); [solve_grows|].
        apply (grows_trans _ s2); [assumption | solve_grows].
      * simpl. rewrite Harr2. reflexivity.
      * exists se. simpl. rewrite Hsh2. reflexivity.
      * exists rx, ry. exact Hw2.
Qed.

(** The offspring of a shark takes one place. *)
Lemma sharkBreedSends_exact g ng m ch s shark x y sb se o :
  collect_inv g ng m ch 0 s -> in_grid (Size g) (x, y) ->
  sharks s !! shark = Some o ->
  sends ch (if sb <=? GoInt.add (Shark_BreedCounter o) 1 then 1 else 0)
    (modifyShark shark (fun k => setSharkBreed (GoInt.add (Shark_BreedCounter k) 1) k) ;;
     k <- loadShark shark ;;
     if sb <=? Shark_BreedCounter k then
       baby <- newShark (mkShark 0 se) ;;
       send ch (mkMove x y (SharkPtr baby)) ;;
       emit (EvBorn x y) ;;
       modifyShark shark (setSharkBreed 0)
     else ret tt) s
    (fun s' => collect_inv g ng m ch 0 s' /\ grows s s' /\ arrays s' = arrays s
               /\ (forall q oq, q <> shark -> sharks s !! q = Some oq ->
                     sharks s' !! q = Some oq)
               /\ exists l, waiting ch s' = waiting ch s ++ l
                    /\ (l = []
                        \/ (l = [mkMove x y (SharkPtr (length (sharks s)))]
                            /\ (length (sharks s) < length (sharks s'))%nat))).
Proof.
  intros Hinv Hxy Ho. pose proof (lookup_lt_Some _ _ _ Ho) as Hlt.
  apply (sends_prefix _ _ _ _ _ _ _ _ (modifyShark_run _ _ _ _ Ho)); [reflexivity|].
  set (s1 := set_sharks _ s).
  assert (Ho1 : sharks s1 !! shark
                = Some (setSharkBreed (GoInt.add (Shark_BreedCounter o) 1) o)).
  { simpl. apply list_lookup_insert_eq. assumption. }
  apply (sends_prefix _ _ _ _ _ _ _ _ (loadShark_run _ _ _ Ho1)); [reflexivity|].
  assert (Hinv1 : collect_inv g ng m ch 0 s1).
  { apply (collect_inv_frame _ _ _ _ _ s); [reflexivity | reflexivity | solve_grows | assumption]. }
  assert (Hkeep1 : forall q oq, q <> shark -> sharks s !! q = Some oq ->
                     sharks s1 !! q = Some oq).
  { intros q oq Hq Hoq. simpl. rewrite list_lookup_insert_ne by congruence. assumption. }
  cbn [setSharkBreed Shark_BreedCounter].
  destruct (sb <=? GoInt.add (Shark_BreedCounter o) 1).
  - set (s2 := set_sharks (sharks s1 ++ [mkShark 0 se]) s1).
    apply (sends_prefix _ _ _ _ (length (sharks s1)) _ s2); [reflexivity | reflexivity|].
    assert (Hinv2 : collect_inv g ng m ch 0 s2).
    { apply (collect_inv_frame _ _ _ _ _ s1); [reflexivity | reflexivity | solve_grows | assumption]. }
    change 1 with (1 + 0).
    apply (sends_bind ch 1 0 _ _ s2
             (fun s' => collect_inv g ng m ch 0 s' /\ grows s2 s' /\ sharks s' = sharks s2
                        /\ arrays s' = arrays s2
                        /\ waiting ch s' = waiting ch s2
                                           ++ [mkMove x y (SharkPtr (length (sharks s1)))]));
      [lia | lia | |].
    + apply send_exact; [assumption|]. split; [exact Hxy|].
      simpl. rewrite length_app. simpl. lia.
    + intros s3 (Hinv3 & Hg3 & Hsh3 & Harr3 & Hw3) _.
      set (s4 := set_events (EvBorn x y :: events s3) s3).
      assert (Ho4 : sharks s4 !! shark
                    = Some (setSharkBreed (GoInt.add (Shark_BreedCounter o) 1) o)).
      { simpl. rewrite Hsh3. simpl. rewrite lookup_app_l by (rewrite length_insert; assumption).
        apply list_lookup_insert_eq. assumption. }
      assert (Hrun : (emit (EvBorn x y) ;; modifyShark shark (setSharkBreed 0)) s3
                     = Done tt (set_sharks (<[shark := setSharkBreed 0
                                  (setSharkBreed (GoInt.add (Shark_BreedCounter o) 1) o)]>
                                  (sharks s4)) s4)).
      { unfold emit at 1. rewrite (bind_run _ _ s3 tt s4) by reflexivity.
        apply (modifyShark_run _ _ _ _ Ho4). }
      apply (sends_silent _ _ _ _ _ (collect_inv_room _ _ _ _ _ Hinv3) Hrun); [reflexivity|].
      split; [|split; [|split; [|split]]].
      * apply (collect_inv_frame _ _ _ _ _ s3);
          [reflexivity | reflexivity | solve_grows | assumption].
      * apply (grows_trans _ s2); [solve_grows|].
        apply (grows_trans _ s3); [assumption | solve_grows].
      * simpl. rewrite Harr3. reflexivity.
      * intros q oq Hq Hoq. simpl. rewrite list_lookup_insert_ne by congruence.
        rewrite Hsh3. simpl. rewrite lookup_app_l.
        -- apply Hkeep1; assumption.
        -- rewrite length_insert. exact (lookup_lt_Some _ _ _ Hoq).
      * eexists. split; [exact Hw3|]. right.
        split; [simpl; rewrite length_insert; reflexivity|].
        simpl. rewrite length_insert, Hsh3. simpl. rewrite length_app, length_insert.
        simpl. lia.
  - apply (sends_silent _ _ s1 s1 _ (collect_inv_room _ _ _ _ _ Hinv1) eq_refl); [reflexivity|].
    split; [assumption|]. split; [solve_grows|]. split; [reflexivity|].
    split; [assumption|]. exists []. split; [rewrite app_nil_r; reflexivity | left; reflexivity].
Qed.

Lemma movesOf_nonneg sb o : 0 <= movesOf sb o.
Proof.
  unfold movesOf. destruct (_ <=? 0); [lia|]. destruct (sb <=? _); lia.
Qed.

Lemma movesOfCell_nonneg sb s e : 0 <= movesOfCell sb s e.
Proof.
  destruct e as [| |p]; simpl; try lia.
  destruct (sharks s !! p); simpl; [apply movesOf_nonneg | lia].
Qed.

Lemma sent_by_nil s s' e : sent_by s s' e [].
Proof. split; constructor. Qed.

(** The collection of the move of one cell takes the places of its moves. *)
Lemma moveSharkCell_exact g ng m ch s sb se x y e :
  collect_inv g ng m ch 0 s -> in_grid (Size g) (x, y) ->
  matrix_get m x y = Some e ->
  sends ch (movesOfCell sb s e) (moveSharkCell g sb se ch x y) s
    (fun s' => collect_inv g ng m ch 0 s' /\ grows s s' /\ arrays s' = arrays s
               /\ (forall q oq, e <> SharkPtr q -> sharks s !! q = Some oq ->
                     sharks s' !! q = Some oq)
               /\ exists l, waiting ch s' = waiting ch s ++ l /\ sent_by s s' e l).
Proof.
  intros Hinv Hxy He. pose proof Hinv as ((Hv & HN & Hne & (Gm & Gs & Gv) & _) & _).
  pose proof (matrix_get_valid _ _ _ _ _ Gv He) as Hval.
  pose proof (collect_inv_room _ _ _ _ _ Hinv) as Hroom.
  assert (Hquiet : forall e', collect_inv g ng m ch 0 s /\ grows s s /\ arrays s = arrays s
             /\ (forall q oq, e' <> SharkPtr q -> sharks s !! q = Some oq ->
                   sharks s !! q = Some oq)
             /\ exists l, waiting ch s = waiting ch s ++ l /\ sent_by s s e' l).
  { intros e'. split; [assumption|]. split; [apply grows_refl|]. split; [reflexivity|].
    split; [auto|]. exists []. split; [rewrite app_nil_r; reflexivity | apply sent_by_nil]. }
  unfold moveSharkCell.
  apply (sends_prefix _ _ _ _ _ _ _ _ (getCell_run _ _ _ _ _ _ Gm He)); [reflexivity|].
  destruct e as [|fish|shark]; simpl in Hval; cbn [movesOfCell].
  - apply (sends_silent _ _ s s _ Hroom eq_refl eq_refl). apply Hquiet.
  - apply (sends_silent _ _ s s _ Hroom eq_refl eq_refl). apply Hquiet.
  - clear Hquiet.
    destruct (lookup_lt_is_Some_2 _ _ Hval) as [o Ho]. rewrite Ho. cbn [from_option].
    apply (sends_prefix _ _ _ _ _ _ _ _ (modifyShark_run _ _ _ _ Ho)); [reflexivity|].
    set (s1 := set_sharks _ s).
    assert (Ho1 : sharks s1 !! shark
                  = Some (setSharkEnergy (GoInt.sub (Shark_Energy o) 1) o)).
    { simpl. apply list_lookup_insert_eq. assumption. }
    apply (sends_prefix _ _ _ _ _ _ _ _ (loadShark_run _ _ _ Ho1)); [reflexivity|].
    assert (Hinv1 : collect_inv g ng m ch 0 s1).
    { apply (collect_inv_frame _ _ _ _ _ s); [reflexivity | reflexivity | solve_grows | assumption]. }
    assert (Hkeep1 : forall q oq, SharkPtr shark <> SharkPtr q -> sharks s !! q = Some oq ->
                       sharks s1 !! q = Some oq).
    { intros q oq Hq Hoq. simpl. rewrite list_lookup_insert_ne by congruence. assumption. }
    unfold movesOf. cbn [setSharkEnergy Shark_Energy].
    destruct (GoInt.sub (Shark_Energy o) 1 <=? 0).
    + set (s2 := set_events (EvStarved x y :: events s1) s1).
      apply (sends_silent _ _ s1 s2 _ (collect_inv_room _ _ _ _ _ Hinv1) eq_refl eq_refl).
      split; [|split; [solve_grows | split; [reflexivity | split; [exact Hkeep1|]]]].
      * apply (collect_inv_frame _ _ _ _ _ s1);
          [reflexivity | reflexivity | solve_grows | assumption].
      * exists []. split; [rewrite app_nil_r; reflexivity | apply sent_by_nil].
    + assert (E : (if sb <=? GoInt.add (Shark_BreedCounter o) 1 then 2 else 1)
                  = 1 + (if sb <=? GoInt.add (Shark_BreedCounter o) 1 then 1 else 0))
        by (destruct (sb <=? _); reflexivity).
      rewrite E. clear E.
      unfold sends. setoid_rewrite bind_assoc_pair. fold (sends ch).
      apply (sends_bind ch 1 _ _ _ s1
               (fun s' => collect_inv g ng m ch 0 s' /\ grows s1 s' /\ arrays s' = arrays s1
                          /\ (exists en, sharks s'
                                = <[shark := mkShark (Shark_BreedCounter o) en]> (sharks s1))
                          /\ exists tx ty, waiting ch s'
                                = waiting ch s1 ++ [mkMove tx ty (SharkPtr shark)]));
        [lia | destruct (sb <=? _); lia | |].
      * exact (sharkSends_exact g ng m ch s1 shark x y se _ Hinv1 Hxy Ho1).
      * intros s2 (Hinv2 & Hg2 & Harr2 & (en & Hsh2) & tx & ty & Hw2) _.
        assert (Ho2 : sharks s2 !! shark = Some (mkShark (Shark_BreedCounter o) en)).
        { rewrite Hsh2. apply list_lookup_insert_eq. simpl. rewrite length_insert. assumption. }
        pose proof (sharkBreedSends_exact g ng m ch s2 shark x y sb se _ Hinv2 Hxy Ho2) as H.
        cbn [Shark_BreedCounter] in H. revert H. apply sends_weaken.
        intros s3 (Hinv3 & Hg3 & Harr3 & Hkeep3 & l3 & Hw3 & Hl3).
        assert (Hlen2 : length (sharks s2) = length (sharks s)).
        { rewrite Hsh2. simpl. rewrite !length_insert. reflexivity. }
        split; [assumption|]. split.
        { apply (grows_trans _ s1); [solve_grows|]. apply (grows_trans _ s2); assumption. }
        split; [rewrite Harr3, Harr2; reflexivity|]. split.
        { intros q oq Hq Hoq. apply Hkeep3; [congruence|].
          rewrite Hsh2. rewrite list_lookup_insert_ne by congruence.
          apply Hkeep1; assumption. }
        exists ([mkMove tx ty (SharkPtr shark)] ++ l3).
        split; [rewrite Hw3, Hw2, <- app_assoc; reflexivity|].
        destruct Hl3 as [->|[-> Hlen3]]; cbn [app fmap list_fmap Ent].
        -- split; [apply NoDup_singleton|].
           repeat constructor.
        -- split.
           ++ apply list.NoDup_cons. split; [|apply NoDup_singleton].
              rewrite list_elem_of_singleton. intros E. inversion E. lia.
           ++ constructor; [split; [reflexivity | left; reflexivity]|].
              constructor; [|constructor]. split; [reflexivity|]. right.
              simpl. lia.
Qed.

Lemma cell_weight_nonneg (f : Entity -> Z) m cells :
  (forall e, 0 <= f e) -> 0 <= sumZ (cell_weight f m) cells.
Proof.
  intros Hf. unfold sumZ. induction cells as [|c cells IH]; simpl; [lia|].
  unfold cell_weight at 1. destruct (matrix_get m c.1 c.2) as [e|]; [specialize (Hf e)|]; lia.
Qed.

(** The moves of two parts of the collection. *)
Lemma sent_from_cons s s1 m x y e0 rest l0 l' :
  sharks_distinct m -> valid_matrix s m -> grows s s1 ->
  (x, y) ∉ rest -> matrix_get m x y = Some e0 ->
  sent_by s s1 e0 l0 -> sent_from s1 m rest l' ->
  sent_from s m ((x, y) :: rest) (l0 ++ l').
Proof.
  intros Hdist Gv Hg Hnotin He0 [N0 F0] [N' F'].
  rewrite list.Forall_forall in F0, F'. split.
  - rewrite fmap_app. apply list.NoDup_app. split; [assumption|]. split; [|assumption].
    intros e H0 H'.
    apply list_elem_of_fmap in H0, H'.
    destruct H0 as (mv0 & -> & Hmv0), H' as (mv' & E' & Hmv').
    destruct (F0 mv0 Hmv0) as [K0 P0]. destruct (F' mv' Hmv') as [K' P'].
    rewrite <- E' in P', K'. clear E' Hmv' mv'.
    destruct P0 as [E0|[Hf0 Hv0]], P' as [Hf'|(c & Hc & Hmc)].
    + apply (fresh_not_valid s1 _ Hf'). apply (valid_ent_grows s); [assumption|].
      rewrite E0. exact (matrix_get_valid _ _ _ _ _ Gv He0).
    + rewrite E0 in Hmc, K0. destruct e0 as [| |p]; try discriminate.
      destruct c as [cx cy]. cbn [fst snd] in Hmc.
      apply Hnotin. rewrite (Hdist x y cx cy p He0 Hmc). assumption.
    + exact (fresh_not_valid s1 _ Hf' Hv0).
    + apply (fresh_not_valid s _ Hf0). exact (matrix_get_valid _ _ _ _ _ Gv Hmc).
  - apply Forall_app. split; apply list.Forall_forall; intros mv Hmv.
    + destruct (F0 mv Hmv) as [K0 [E0|[Hf0 _]]]; (split; [assumption|]).
      * right. exists (x, y). split; [left|]. cbn [fst snd]. rewrite E0. assumption.
      * left. assumption.
    + destruct (F' mv Hmv) as [K' [Hf'|(c & Hc & Hmc)]]; (split; [assumption|]).
      * left. apply (fresh_grows s s1); assumption.
      * right. exists c. split; [right|]; assumption.
Qed.

(** The collection of the moves of the sharks of the cells [cells]; [s0] is
    the store in which the collection starts. *)
Lemma moveSharks_exact g ng m ch sb se s0 cells : forall s,
  NoDup cells -> (forall c, c ∈ cells -> in_grid (Size g) c) ->
  sharks_distinct m ->
  collect_inv g ng m ch 0 s ->
  (forall c p, c ∈ cells -> matrix_get m c.1 c.2 = Some (SharkPtr p) ->
     sharks s !! p = sharks s0 !! p) ->
  sends ch (sumZ (cell_weight (movesOfCell sb s0) m) cells)
    (forList cells (fun c => moveSharkCell g sb se ch c.1 c.2)) s
    (fun s' => collect_inv g ng m ch 0 s' /\ grows s s' /\ arrays s' = arrays s
               /\ exists l, waiting ch s' = waiting ch s ++ l /\ sent_from s m cells l).
Proof.
  induction cells as [|[x y] cells IH]; intros s Hnd Hin Hdist Hinv Hobj.
  - apply (sends_silent _ _ s s _ (collect_inv_room _ _ _ _ _ Hinv) eq_refl eq_refl).
    split; [assumption|]. split; [apply grows_refl|]. split; [reflexivity|].
    exists []. split; [rewrite app_nil_r; reflexivity | split; constructor].
  - apply list.NoDup_cons in Hnd. destruct Hnd as [Hnotin Hnd].
    pose proof Hinv as ((Hv & HN & Hne & (Gm & Gs & Gv) & _) & _).
    assert (Hxy : in_grid (Size g) (x, y)) by (apply Hin; left).
    destruct (matrix_get_shape _ _ _ _ Gs (proj1 Hxy) (proj2 Hxy)) as [e He].
    cbn [fst snd] in He. rewrite sumZ_cons. cbn [forList].
    assert (Hk : cell_weight (movesOfCell sb s0) m (x, y) = movesOfCell sb s e).
    { unfold cell_weight. cbn [fst snd]. rewrite He.
      destruct e as [| |p]; try reflexivity. cbn [movesOfCell].
      rewrite (Hobj (x, y) p); [reflexivity | left | exact He]. }
    rewrite Hk.
    apply (sends_bind ch _ _ _ _ s
             (fun s' => collect_inv g ng m ch 0 s' /\ grows s s' /\ arrays s' = arrays s
                        /\ (forall q oq, e <> SharkPtr q -> sharks s !! q = Some oq ->
                              sharks s' !! q = Some oq)
                        /\ exists l, waiting ch s' = waiting ch s ++ l /\ sent_by s s' e l)).
    + apply movesOfCell_nonneg.
    + apply cell_weight_nonneg. intros e'. apply movesOfCell_nonneg.
    + exact (moveSharkCell_exact g ng m ch s sb se x y e Hinv Hxy He).
    + intros s1 (Hinv1 & Hg1 & Harr1 & Hkeep & l0 & Hw0 & Hl0) _.
      assert (IH' : sends ch (sumZ (cell_weight (movesOfCell sb s0) m) cells)
                      (forList cells (fun c => moveSharkCell g sb se ch c.1 c.2)) s1
                      (fun s' => collect_inv g ng m ch 0 s' /\ grows s1 s'
                                 /\ arrays s' = arrays s1
                                 /\ exists l, waiting ch s' = waiting ch s1 ++ l
                                              /\ sent_from s1 m cells l)).
      { apply IH; try assumption.
        - intros c Hc. apply Hin. right. assumption.
        - intros [cx cy] p Hc Hp. cbn [fst snd] in Hp.
          rewrite <- (Hobj (cx, cy) p); [|right; assumption|exact Hp].
          pose proof (matrix_get_valid _ _ _ _ _ Gv Hp) as Hval. simpl in Hval.
          destruct (lookup_lt_is_Some_2 _ _ Hval) as [oq Hoq]. rewrite Hoq.
          apply Hkeep; [|assumption].
          intros ->. apply Hnotin.
          rewrite (Hdist x y cx cy p He Hp). assumption. }
      revert IH'. apply sends_weaken. intros s' (Hinv' & Hg' & Harr' & l' & Hw' & Hl').
      split; [assumption|]. split; [apply (grows_trans _ s1); assumption|].
      split; [congruence|].
      exists (l0 ++ l'). split; [rewrite Hw', Hw0, <- app_assoc; reflexivity|].
      apply (sent_from_cons s s1 m x y e cells); assumption.
Qed.

(** The move of the fish of one cell returns, and changes no shark. *)
Lemma moveFishCell_run_sharks g ng m s fb x y :
  dispatch_inv g ng m s -> in_grid (Size g) (x, y) ->
  exists s', moveFishCell g ng fb x y s = Done tt s'
    /\ dispatch_inv g ng m s' /\ grows s s' /\ sharks s' = sharks s.
Proof.
  intros Hinv Hxy. pose proof Hinv as (Hv & HN & Hne & (Gm & Gs & Gv) & _).
  destruct Hxy as [Hx Hy]. simpl in Hx, Hy.
  destruct (matrix_get_shape _ _ _ _ Gs Hx Hy) as [e He].
  pose proof (matrix_get_valid _ _ _ _ _ Gv He) as Hval.
  rewrite moveFishCell_eq. rewrite (bind_run _ _ _ _ _ (getCell_run _ _ _ _ _ _ Gm He)).
  destruct e as [|fish|shark]; simpl in Hval.
  - exists s. split; [reflexivity|]. split; [assumption|]. split; [apply grows_refl | reflexivity].
  - destruct (lookup_lt_is_Some_2 _ _ Hval) as [o Ho].
    destruct (processFish_run g ng m s fish x y fb o Hinv (conj Hx Hy) Ho)
      as (r & m0 & m1 & s' & _ & _ & _ & Hrun & Hinv' & Hg & Hsh & _).
    exists s'. auto.
  - exists s. split; [reflexivity|]. split; [assumption|]. split; [apply grows_refl | reflexivity].
Qed.

(** A chronon of the message-passing strategy returns when the moves of the
    sharks fit in the channel, and blocks for ever when they do not. *)
Lemma MoveEntitiesConcurrent_exact g m s fb sb se :
  valid_side (Size g) -> grid_at s g m ->
  Size g * Size g <= GoInt.max_int ->
  sharks_distinct m ->
  (movesNeeded sb s m <= Size g * Size g ->
   exists g' s' m',
     MoveEntitiesConcurrent g fb sb se s = Done g' s'
     /\ Size g' = Size g /\ grid_at s' g' m')
  /\ (Size g * Size g < movesNeeded sb s m ->
      MoveEntitiesConcurrent g fb sb se s = Fail Deadlock).
Proof.
  intros Hv Hg Hsq Hdist. pose proof Hg as (Gm & Gs & Gv).
  pose proof (valid_side_in_range _ Hv) as HN.
  unfold MoveEntitiesConcurrent.
  rewrite (bind_run _ _ _ _ _ (NewGrid_run _ s Hv)).
  set (ng := mkGrid (Size g) (length (arrays s))).
  set (s1 := set_arrays _ s).
  assert (Hinv1 : dispatch_inv g ng m s1).
  { pose proof (lookup_lt_Some _ _ _ Gm) as Hlt.
    split; [assumption|]. split; [reflexivity|]. split; [simpl; lia|]. split.
    - split; [|split; assumption]. simpl. rewrite lookup_app_l by assumption. assumption.
    - eexists. split; [|split].
      + simpl. rewrite lookup_app_r by lia. rewrite Nat.sub_diag. reflexivity.
      + apply shape_replicate. lia.
      + apply valid_matrix_replicate. }
  (* the fish *)
  destruct (forList_total
              (fun s' => dispatch_inv g ng m s' /\ grows s1 s' /\ sharks s' = sharks s1)
              (cellsOf 0 (Size g) (Size g))
              (fun c => moveFishCell g ng fb c.1 c.2)) with (s := s1)
    as (s2 & Hfish & Hinv2 & Hg2 & Hsh2).
  { intros [x y] s' Hc (Hinv' & Hg' & Hsh'). apply elem_of_cellsOf in Hc. cbn [fst snd] in *.
    destruct (moveFishCell_run_sharks g ng m s' fb x y Hinv')
      as (s'' & Hrun & Hinv'' & Hg'' & Hsh'').
    { split; simpl; lia. }
    exists s''. split; [assumption|]. split; [assumption|].
    split; [apply (grows_trans _ s'); assumption | congruence]. }
  { split; [assumption|]. split; [apply grows_refl | reflexivity]. }
  rewrite <- moveFish_cells in Hfish. rewrite (bind_run _ _ _ _ _ Hfish).
  (* the channel *)
  assert (Hcap : GoInt.mul (Size g) (Size g) = Size g * Size g).
  { apply mul_id. unfold GoInt.in_range, GoInt.min_int. nia. }
  set (ch := length (chans s2)).
  set (s3 := set_chans (chans s2 ++ [mkChan (Size g * Size g) [] false]) s2).
  assert (Hmk : makeChan (GoInt.mul (Size g) (Size g)) s2 = Done ch s3).
  { unfold makeChan. rewrite Hcap.
    destruct (Z.ltb_spec (Size g * Size g) 0) as [Hneg|_]; [nia | reflexivity]. }
  rewrite (bind_run _ _ _ _ _ Hmk).
  assert (Hch3 : chans s3 !! ch = Some (mkChan (Size g * Size g) [] false)).
  { unfold s3, ch. simpl. rewrite lookup_app_r, Nat.sub_diag by lia. reflexivity. }
  assert (Hinv3 : collect_inv g ng m ch 0 s3).
  { split.
    - apply (dispatch_inv_frame _ _ _ s2); [reflexivity | solve_grows | assumption].
    - eexists. split; [exact Hch3|]. split; [reflexivity|]. simpl. split; [lia | constructor]. }
  assert (Hroom3 : room ch s3 = Size g * Size g).
  { unfold room. rewrite Hch3. simpl. lia. }
  (* the sharks *)
  assert (Hneed : sumZ (cell_weight (movesOfCell sb s3) m) (cellsOf 0 (Size g) (Size g))
                  = movesNeeded sb s m).
  { rewrite (sumZ_cells _ (Size g) m) by (assumption || lia).
    unfold movesNeeded. apply sumZ_ext. intros row _. apply sumZ_ext. intros e _.
    destruct e as [| |p]; try reflexivity. cbn [movesOfCell].
    change (sharks s3) with (sharks s2). rewrite Hsh2. reflexivity. }
  destruct (moveSharks_exact g ng m ch sb se s3 (cellsOf 0 (Size g) (Size g)) s3)
    as [Hdone Hblock].
  { apply NoDup_cellsOf. }
  { intros c Hc. apply elem_of_cellsOf in Hc. split; lia. }
  { assumption. }
  { assumption. }
  { reflexivity. }
  rewrite Hneed, Hroom3 in Hdone, Hblock.
  rewrite <- (moveSharksConcurrent_cells g ng) in Hdone, Hblock.
  split.
  - intros Hfit. destruct (Hdone Hfit) as (s4 & Hsharks & _ & Hinv4 & Hg4).
    rewrite (bind_run _ _ _ _ _ Hsharks).
    (* the moves are applied *)
    destruct Hinv4 as (Hinv4 & c & C1 & C2 & C3 & C4).
    pose proof (lookup_lt_Some _ _ _ C1) as Hchl.
    unfold closeChan at 1. unfold bind at 1. rewrite C1, C2.
    unfold recvAll at 1. unfold bind at 1. cbn [chans set_chans].
    rewrite list_lookup_insert_eq by assumption. cbn [closed cap buf].
    set (s6 := set_chans _ (set_chans _ s4)).
    destruct (drain_run g ng m (buf c) s6) as (s7 & Hdrain & Hinv7 & Hg7).
    { apply (dispatch_inv_frame _ _ _ s4); [reflexivity | solve_grows | assumption]. }
    { revert C4. apply Forall_impl. intros mv [V1 V2]. split; assumption. }
    rewrite (bind_run _ _ _ _ _ Hdrain).
    destruct Hinv7 as (_ & _ & _ & _ & m' & Hnew).
    exists (mkGrid (Size g) (Cells ng)), s7, m'.
    split; [reflexivity|]. split; [reflexivity | exact Hnew].
  - intros Hover. apply bind_Fail. apply Hblock. assumption.
Qed.

Lemma matrix_get_in_shape n m x y e :
  shape n m -> matrix_get m x y = Some e -> 0 <= x < n /\ 0 <= y < n.
Proof.
  intros [Hl Hr] H. apply matrix_get_Some in H. destruct H as (row & H1 & H2).
  apply index_Some in H1, H2. destruct H1 as [Hx H1], H2 as [Hy H2].
  pose proof (lookup_lt_Some _ _ _ H1) as Lx. pose proof (lookup_lt_Some _ _ _ H2) as Ly.
  rewrite Forall_lookup in Hr. rewrite (Hr _ _ H1) in Ly. lia.
Qed.

(** X9.  The channel of [MoveEntitiesConcurrent] has room for
    [Size * Size] moves and nobody receives before all the moves are sent.
    A shark that does not starve sends one move, and one more when it
    breeds.  On a grid in which no shark is in two cells, the chronon
    returns the next grid when these moves fit in the channel, and
    otherwise it blocks for ever in a send: the run time reports a
    deadlock. *)
Theorem message_passing_returns_iff_the_moves_fit (g : Grid) (m : Matrix) (s : State)
    (fb sb se : Z) :
  valid_side (Size g) -> grid_at s g m ->
  Size g * Size g <= GoInt.max_int ->
  sharks_distinct m ->
  (movesNeeded sb s m <= Size g * Size g ->
   exists g' s' m',
     MoveEntitiesConcurrent g fb sb se s = Done g' s'
     /\ Size g' = Size g /\ grid_at s' g' m')
  /\ (Size g * Size g < movesNeeded sb s m ->
      MoveEntitiesConcurrent g fb sb se s = Fail Deadlock).
Proof. apply MoveEntitiesConcurrent_exact. Qed.

(** The shark of the 2x2 grid sends one move, which fits; the breeding
    shark of a grid of one cell sends two moves into a channel that has room
    for one. *)
Lemma message_passing_returns_iff_the_moves_fit_witness :
  (exists g' s' m',
     MoveEntitiesConcurrent (mkGrid 2 0) 3 3 4 hunted = Done g' s'
     /\ Size g' = 2 /\ grid_at s' g' m')
  /\ MoveEntitiesConcurrent (mkGrid 1 0) 3 1 4
       (mkState [] [mkShark 0 5] [[[SharkPtr 0]]] [] zeros 0 [])
     = Fail Deadlock.
Proof.
  assert (D2 : sharks_distinct hunted_cells).
  { intros x y x' y' p H1 H2.
    pose proof (matrix_get_in_shape 2 hunted_cells _ _ _ ltac:(known_grid) H1).
    pose proof (matrix_get_in_shape 2 hunted_cells _ _ _ ltac:(known_grid) H2).
    assert (Ex : x = 0 \/ x = 1) by lia. assert (Ey : y = 0 \/ y = 1) by lia.
    assert (Ex' : x' = 0 \/ x' = 1) by lia. assert (Ey' : y' = 0 \/ y' = 1) by lia.
    destruct Ex as [-> | ->], Ey as [-> | ->], Ex' as [-> | ->], Ey' as [-> | ->];
      (reflexivity || discriminate). }
  assert (D1 : sharks_distinct [[SharkPtr 0]]).
  { intros x y x' y' p H1 H2.
    pose proof (matrix_get_in_shape 1 [[SharkPtr 0]] _ _ _ ltac:(known_grid) H1).
    pose proof (matrix_get_in_shape 1 [[SharkPtr 0]] _ _ _ ltac:(known_grid) H2).
    f_equal; lia. }
  split.
  - apply (proj1 (message_passing_returns_iff_the_moves_fit (mkGrid 2 0) hunted_cells
                    hunted 3 3 4 ltac:(known_grid) ltac:(known_grid) ltac:(known_grid) D2)).
    apply Z.leb_le. vm_compute. reflexivity.
  - apply (proj2 (message_passing_returns_iff_the_moves_fit (mkGrid 1 0) [[SharkPtr 0]]
                    (mkState [] [mkShark 0 5] [[[SharkPtr 0]]] [] zeros 0 []) 3 1 4
                    ltac:(known_grid) ltac:(known_grid) ltac:(known_grid) D1)).
    apply Z.ltb_lt. vm_compute. reflexivity.
Defined.

(** ** No object is in two cells *)

Lemma distinct_replicate a b : distinct (replicate a (replicate b Nil)).
Proof.
  intros x y x' y' e He H _. apply matrix_get_replicate in H. contradiction.
Qed.

(** A write of an entity that the array does not hold. *)
Lemma distinct_set m x y e m' :
  distinct m -> (forall x' y', matrix_get m x' y' <> Some e) ->
  matrix_set m x y e = Some m' -> distinct m'.
Proof.
  intros Hd Habs Hset x1 y1 x2 y2 e' He' H1 H2.
  rewrite (matrix_get_set _ _ _ _ _ x1 y1 Hset) in H1.
  rewrite (matrix_get_set _ _ _ _ _ x2 y2 Hset) in H2.
  destruct (decide ((x1, y1) = (x, y))) as [E1|N1],
           (decide ((x2, y2) = (x, y))) as [E2|N2].
  - congruence.
  - inversion H1; subst e'. destruct (Habs _ _ H2).
  - inversion H2; subst e'. destruct (Habs _ _ H1).
  - exact (Hd _ _ _ _ _ He' H1 H2).
Qed.

(** The entities of an array of valid pointers are not new. *)
Lemma valid_matrix_not_fresh s m e x y :
  valid_matrix s m -> fresh s e -> matrix_get m x y <> Some e.
Proof.
  intros Hv Hf H. apply (fresh_not_valid s e Hf).
  exact (matrix_get_valid _ _ _ _ _ Hv H).
Qed.

(** The cell that a scan gives, or the cell itself, is near the cell. *)
Lemma scan_near p n m x y r :
  0 < n -> scan_result p n m x y r ->
  near n x y (if found r.1 r.2 then r else (x, y)).
Proof.
  intros Hn [[-> _]|(d & e & Hd & -> & _)].
  - left. reflexivity.
  - right. rewrite (found_in_grid n) by (apply neighbour_in_grid; assumption).
    exists d. auto.
Qed.

(** What the processing of a fish writes. *)
Lemma processFish_writes g ng m s fish x y fb sb se :
  dispatch_inv g ng m s -> in_grid (Size g) (x, y) ->
  matrix_get m x y = Some (FishPtr fish) ->
  writes (fun s' e => is_shark e = false /\ ruled fb sb se s' e) g ng m x y (FishPtr fish)
    (processFish g ng fish x y fb) s.
Proof.
  intros Hinv Hxy He. pose proof Hinv as (Hv & HN & Hne & (Gm & Gs & Gv) & _).
  pose proof (matrix_get_valid _ _ _ _ _ Gv He) as Hval. simpl in Hval.
  destruct (lookup_lt_is_Some_2 _ _ Hval) as [o Ho].
  destruct (processFish_run g ng m s fish x y fb o Hinv Hxy Ho)
    as (r & m0 & m1 & s' & Hres & Hm0 & Hset & Hrun & Hinv' & Hg' & _ & Hbreed).
  exists s', m0. do 4 (split; [assumption|]). right.
  split; [discriminate|].
  assert (Hnear : near (Size g) x y (if found r.1 r.2 then r.1 else x,
                                     if found r.1 r.2 then r.2 else y)).
  { pose proof (scan_near _ _ _ _ _ _ (proj1 Hv) Hres) as Hn.
    destruct (found r.1 r.2); [destruct r|]; exact Hn. }
  destruct (Z.leb_spec fb (GoInt.add (Fish_BreedCounter o) 1)) as [Hb|Hb].
  - destruct Hbreed as (m' & Hset' & Hm' & Hfishes).
    assert (Hlen : length (<[fish := mkFish (GoInt.add (Fish_BreedCounter o) 1)]> (fishes s))
                   = length (fishes s)) by apply length_insert.
    split.
    { split; [reflexivity|]. exists (mkFish 0). split; [|left; reflexivity].
      rewrite Hfishes. apply list_lookup_insert_eq. rewrite length_app, Hlen. simpl. lia. }
    eexists. eexists. exists m1. split; [exact Hnear|]. split; [exact Hset|].
    right. exists (FishPtr (length (fishes s))), m'.
    split; [simpl; lia|]. split.
    { simpl. rewrite Hfishes, !length_insert, length_app, !length_insert. simpl. lia. }
    split; [|split; assumption].
    split; [reflexivity|]. exists (mkFish 0). split; [|left; reflexivity].
    rewrite Hfishes. rewrite list_lookup_insert_ne by lia.
    rewrite lookup_app_r by (rewrite Hlen; lia). rewrite Hlen, Nat.sub_diag. reflexivity.
  - destruct Hbreed as [Hm' Hfishes].
    split.
    { split; [reflexivity|]. exists (mkFish (GoInt.add (Fish_BreedCounter o) 1)).
      split; [|right; simpl; lia].
      rewrite Hfishes. apply list_lookup_insert_eq. assumption. }
    eexists. eexists. exists m1. split; [exact Hnear|]. split; [exact Hset|].
    left. assumption.
Qed.

(** What the processing of a shark writes. *)
Lemma processShark_writes g ng m s shark x y fb sb se :
  dispatch_inv g ng m s -> in_grid (Size g) (x, y) ->
  matrix_get m x y = Some (SharkPtr shark) ->
  writes (fun s' e => is_shark e = true /\ ruled fb sb se s' e) g ng m x y (SharkPtr shark)
    (processShark g ng shark x y sb se) s.
Proof.
  intros Hinv Hxy He. pose proof Hinv as (Hv & HN & Hne & (Gm & Gs & Gv) & m0 & Nm & _).
  pose proof (matrix_get_valid _ _ _ _ _ Gv He) as Hval. simpl in Hval.
  destruct (lookup_lt_is_Some_2 _ _ Hval) as [o Ho].
  destruct (processShark_run g ng m s shark x y sb se o Hinv Hxy Ho)
    as (s' & Hrun & Hinv' & Hg' & _).
  exists s', m0. do 3 (split; [assumption|]). split; [exact Nm|].
  destruct (Z_le_gt_dec (GoInt.sub (Shark_Energy o) 1) 0) as [Hstarve|Hlive].
  - left. rewrite (processShark_starved g ng shark x y sb se s o Ho Hstarve) in Hrun.
    inversion Hrun; subst s'. exact Nm.
  - right. split; [discriminate|].
    destruct (processShark_spec g ng m s shark x y sb se o Hinv Hxy Ho ltac:(lia))
      as (rf & t & en & m0' & m1 & s'' & Hrf & Ht & Hm0' & Hset & Hrun' & _ & Hbreed).
    assert (s'' = s') as -> by congruence. assert (m0' = m0) as -> by congruence.
    assert (Hnear : near (Size g) x y (t.1, t.2)).
    { replace (t.1, t.2) with t by (destruct t; reflexivity).
      pose proof (scan_near _ _ _ _ _ _ (proj1 Hv) Hrf) as Hn.
      destruct (found rf.1 rf.2).
      - destruct Ht as [-> _]. exact Hn.
      - destruct Ht as (_ & re & Hre & ->). exact (scan_near _ _ _ _ _ _ (proj1 Hv) Hre). }
    assert (Hen : en = se \/ 0 < en).
    { destruct (found rf.1 rf.2); [left; apply Ht | right; destruct Ht as [-> _]; lia]. }
    destruct (Z.leb_spec sb (GoInt.add (Shark_BreedCounter o) 1)) as [Hb|Hb].
    + destruct Hbreed as (m' & Hset' & Hm' & Hsharks).
      split.
      { split; [reflexivity|].
        exists (mkShark 0 en). split; [|split; [left; reflexivity | exact Hen]].
        rewrite Hsharks. rewrite lookup_app_l by (rewrite length_insert; assumption).
        apply list_lookup_insert_eq. assumption. }
      exists t.1, t.2, m1. split; [exact Hnear|]. split; [exact Hset|].
      right. exists (SharkPtr (length (sharks s))), m'.
      split; [simpl; lia|]. split.
      { simpl. rewrite Hsharks, length_app, !length_insert. simpl. lia. }
      split; [|split; assumption].
      split; [reflexivity|].
      exists (mkShark 0 se). split; [|split; left; reflexivity].
      rewrite Hsharks. rewrite lookup_app_r by (rewrite length_insert; lia).
      rewrite length_insert, Nat.sub_diag. reflexivity.
    + destruct Hbreed as [Hm' Hsharks].
      split.
      { split; [reflexivity|].
        exists (mkShark (GoInt.add (Shark_BreedCounter o) 1) en).
        split; [|split; [right; simpl; lia | exact Hen]].
        rewrite Hsharks. apply list_lookup_insert_eq. assumption. }
      exists t.1, t.2, m1. split; [exact Hnear|]. split; [exact Hset|].
      left. assumption.
Qed.

Lemma writes_nothing K g ng m x y e0 s :
  dispatch_inv g ng m s -> writes K g ng m x y e0 (ret tt) s.
Proof.
  intros Hinv. pose proof Hinv as (_ & _ & _ & _ & m0 & Nm & _).
  exists s, m0. split; [reflexivity|]. split; [assumption|].
  split; [apply grows_refl|]. split; [exact Nm|]. left. exact Nm.
Qed.

Lemma writes_weaken (K K' : State -> Entity -> Prop) g ng m x y e0 body s :
  (forall s' e, K s' e -> K' s' e) ->
  writes K g ng m x y e0 body s -> writes K' g ng m x y e0 body s.
Proof.
  intros HK (s' & m0 & H1 & H2 & H3 & H4 & H5).
  exists s', m0. do 4 (split; [assumption|]).
  destruct H5 as [?|(N0 & K0 & tx & ty & m1 & Hnear & Hset & H5)]; [left; assumption|].
  right. split; [assumption|]. split; [auto|]. exists tx, ty, m1.
  split; [assumption|]. split; [assumption|].
  destruct H5 as [?|(b & m2 & B1 & B2 & B3 & B4 & B5)]; [left; assumption|].
  right. exists b, m2. auto 10.
Qed.

Lemma writes_prefix {A} K g ng m x y e0 (pre : M A) (f : A -> M unit) a s :
  pre s = Done a s -> writes K g ng m x y e0 (f a) s ->
  writes K g ng m x y e0 (bind pre f) s.
Proof.
  intros E (s' & m0 & H1 & H). exists s', m0.
  split; [rewrite (bind_run _ _ _ _ _ E); assumption | assumption].
Qed.

(** What the processing of one cell writes, in the row-partition strategy. *)
Lemma processCell_writes g ng m s fb sb se x y e0 :
  dispatch_inv g ng m s -> in_grid (Size g) (x, y) -> matrix_get m x y = Some e0 ->
  writes (ruled fb sb se) g ng m x y e0 (processCell g ng fb sb se x y) s.
Proof.
  intros Hinv Hxy He. pose proof Hinv as (_ & _ & _ & (Gm & _) & _).
  unfold processCell.
  apply (writes_prefix _ _ _ _ _ _ _ _ _ _ _ (getCell_run _ _ _ _ _ _ Gm He)).
  destruct e0 as [|fish|shark].
  - apply writes_nothing. assumption.
  - apply (writes_weaken (fun s' e => is_shark e = false /\ ruled fb sb se s' e));
      [intros s' e [_ H]; exact H|].
    apply processFish_writes; assumption.
  - apply (writes_weaken (fun s' e => is_shark e = true /\ ruled fb sb se s' e));
      [intros s' e [_ H]; exact H|].
    apply processShark_writes; assumption.
Qed.

(** What the move of the fish of one cell writes, in the message-passing
    strategy. *)
Lemma moveFishCell_writes g ng m s fb sb se x y e0 :
  dispatch_inv g ng m s -> in_grid (Size g) (x, y) -> matrix_get m x y = Some e0 ->
  writes (fun s' e => is_shark e = false /\ ruled fb sb se s' e) g ng m x y e0
    (moveFishCell g ng fb x y) s.
Proof.
  intros Hinv Hxy He. pose proof Hinv as (_ & _ & _ & (Gm & _) & _).
  rewrite moveFishCell_eq.
  apply (writes_prefix _ _ _ _ _ _ _ _ _ _ _ (getCell_run _ _ _ _ _ _ Gm He)).
  destruct e0 as [|fish|shark].
  - apply writes_nothing. assumption.
  - apply processFish_writes; assumption.
  - apply writes_nothing. assumption.
Qed.

(** The processing of a cell leaves the objects of the other cells as they
    are. *)
Lemma ruled_keeps fb sb se s s' e :
  (forall q o, e = FishPtr q -> fishes s !! q = Some o -> fishes s' !! q = Some o) ->
  (forall q o, e = SharkPtr q -> sharks s !! q = Some o -> sharks s' !! q = Some o) ->
  ruled fb sb se s e -> ruled fb sb se s' e.
Proof.
  intros Hf Hs. destruct e as [|p|p]; simpl.
  - auto.
  - intros (o & Ho & H). exists o. split; [apply (Hf p); auto | assumption].
  - intros (o & Ho & H). exists o. split; [apply (Hs p); auto | assumption].
Qed.

Lemma processCell_keeps_ruled g ng m fb sb se x y e0 s s' e :
  arrays s !! Cells g = Some m -> matrix_get m x y = Some e0 ->
  processCell g ng fb sb se x y s = Done tt s' ->
  e <> e0 -> ruled fb sb se s e -> ruled fb sb se s' e.
Proof.
  intros Hm He0 Hrun Hne. apply processCell_effect in Hrun.
  destruct Hrun as (m' & ent & Hm' & Hent & (_ & _ & _ & _ & Ef & Es & _)).
  assert (m' = m) as -> by congruence. assert (ent = e0) as -> by congruence.
  apply ruled_keeps.
  - intros q o ->. apply Ef. congruence.
  - intros q o ->. apply Es. congruence.
Qed.

Lemma moveFishCell_keeps_ruled g ng m fb sb se x y e0 s s' e :
  arrays s !! Cells g = Some m -> matrix_get m x y = Some e0 ->
  moveFishCell g ng fb x y s = Done tt s' ->
  e <> e0 -> ruled fb sb se s e -> ruled fb sb se s' e.
Proof.
  intros Hm He0 Hrun Hne. apply moveFishCell_effect in Hrun.
  destruct Hrun as (m' & ent & Hm' & Hent & (_ & _ & _ & _ & Ef & Es & _)).
  assert (m' = m) as -> by congruence. assert (ent = e0) as -> by congruence.
  apply ruled_keeps.
  - intros q o ->. apply Ef. destruct e0; simpl; congruence.
  - intros q o ->. apply Es. destruct e0; simpl; congruence.
Qed.

(** The invariant of a sweep: the next grid holds no object twice, what it
    holds is new, or comes from a cell that was processed, or is of a kind
    that the sweep leaves alone ([quiet]), and satisfies [K]. *)
Lemma sweep_distinct (K Kw : State -> Entity -> Prop) (quiet : Entity -> Prop)
    g ng m (body : Z -> Z -> M unit) s1 cells s s' :
  (forall s0 x y e0, dispatch_inv g ng m s0 -> in_grid (Size g) (x, y) ->
     matrix_get m x y = Some e0 -> writes Kw g ng m x y e0 (body x y) s0) ->
  (forall s0 e, Kw s0 e -> K s0 e /\ ~ quiet e) ->
  (forall s0 s0' x y e0 e, dispatch_inv g ng m s0 -> matrix_get m x y = Some e0 ->
     body x y s0 = Done tt s0' -> e <> e0 \/ quiet e -> K s0 e -> K s0' e) ->
  distinct m -> valid_matrix s1 m ->
  NoDup cells -> (forall c, c ∈ cells -> in_grid (Size g) c) ->
  dispatch_inv g ng m s -> grows s1 s ->
  distinct (cells_of s ng) ->
  (forall x y e, matrix_get (cells_of s ng) x y = Some e -> e <> Nil ->
     K s e /\ (fresh s1 e \/ (exists c, (c ∉ cells) /\ matrix_get m c.1 c.2 = Some e)
               \/ quiet e)) ->
  forList cells (fun c => body c.1 c.2) s = Done tt s' ->
  dispatch_inv g ng m s' /\ grows s1 s'
  /\ distinct (cells_of s' ng)
  /\ (forall x y e, matrix_get (cells_of s' ng) x y = Some e -> e <> Nil -> K s' e).
Proof.
  intros Hbody HKw Hframe Hdm Hvm Hnd Hin Hinv Hg Hd Hprov Hrun.
  pose (I := fun (rest : list (Z * Z)) (s0 : State) =>
               NoDup rest /\ (forall c, c ∈ rest -> in_grid (Size g) c)
               /\ dispatch_inv g ng m s0 /\ grows s1 s0
               /\ distinct (cells_of s0 ng)
               /\ (forall x y e, matrix_get (cells_of s0 ng) x y = Some e -> e <> Nil ->
                     K s0 e /\ (fresh s1 e
                                \/ (exists c, (c ∉ rest) /\ matrix_get m c.1 c.2 = Some e)
                                \/ quiet e))).
  assert (Hend : I [] s').
  { revert Hrun. apply (forList_rest I); [|unfold I; auto 10].
    clear s s' Hnd Hin Hinv Hg Hd Hprov.
    intros [x y] rest s s' (Hnd & Hin & Hinv & Hg & Hd & Hprov) Hstep.
    cbn [fst snd] in Hstep.
    apply list.NoDup_cons in Hnd. destruct Hnd as [Hnotin Hnd].
    assert (Hxy : in_grid (Size g) (x, y)) by (apply Hin; left).
    pose proof Hinv as (Hv & HN & Hne & (Gm & Gs & Gv) & _).
    destruct (matrix_get_shape _ _ _ _ Gs (proj1 Hxy) (proj2 Hxy)) as [e0 He0].
    cbn [fst snd] in He0.
    destruct (Hbody s x y e0 Hinv Hxy He0)
      as (s'' & m0 & Hrun' & Hinv' & Hg' & Hm0 & Hwrites).
    assert (s'' = s') as -> by congruence.
    assert (Hc0 : cells_of s ng = m0) by (unfold cells_of; rewrite Hm0; reflexivity).
    rewrite Hc0 in Hd, Hprov.
    (* the entity of the cell is not yet in the next grid *)
    assert (Habs0 : forall x' y' e, matrix_get m0 x' y' = Some e -> e <> Nil ->
                      e <> e0 \/ quiet e).
    { intros x' y' e H Hne0.
      destruct (Hprov x' y' e H Hne0) as [_ [Hf|[(c & Hc & Hme)|Hq]]].
      - left. intros ->.
        apply (fresh_not_valid s1 e0 Hf). exact (matrix_get_valid _ _ _ _ _ Hvm He0).
      - left. intros ->. apply Hc. destruct c as [cx cy]. cbn [fst snd] in Hme.
        rewrite (Hdm _ _ _ _ _ Hne0 Hme He0). left.
      - right. assumption. }
    assert (Hold : forall x' y' e, matrix_get m0 x' y' = Some e -> e <> Nil ->
                     K s' e /\ (fresh s1 e
                                \/ (exists c, (c ∉ rest) /\ matrix_get m c.1 c.2 = Some e)
                                \/ quiet e)).
    { intros x' y' e H1 H2. destruct (Hprov x' y' e H1 H2) as [HK Hp]. split.
      - apply (Hframe s s' x y e0 e Hinv He0 Hstep); [|assumption].
        exact (Habs0 x' y' e H1 H2).
      - destruct Hp as [Hf|[(c & Hc & Hme)|Hq]]; [left; assumption | | right; right; assumption].
        right. left. exists c. split; [|assumption]. intros Hcr. apply Hc. right. assumption. }
    split; [assumption|]. split; [intros c Hc; apply Hin; right; assumption|].
    split; [assumption|]. split; [apply (grows_trans _ s); assumption|].
    destruct Hwrites as [Hsame|(Hne0 & HK0 & tx & ty & m1 & _ & Hset1 & Hwrites)].
    { unfold cells_of. rewrite Hsame. cbn [default from_option id]. split; assumption. }
    destruct (HKw _ _ HK0) as [HK0' Hnq0].
    assert (Hd1 : distinct m1).
    { apply (distinct_set m0 tx ty e0); [assumption | | assumption].
      intros x' y' H. destruct (Habs0 x' y' e0 H Hne0) as [E|E]; [apply E; reflexivity|].
      exact (Hnq0 E). }
    assert (Hprov1 : forall x' y' e, matrix_get m1 x' y' = Some e -> e <> Nil ->
                       K s' e /\ (fresh s1 e
                                  \/ (exists c, (c ∉ rest) /\ matrix_get m c.1 c.2 = Some e)
                                  \/ quiet e)).
    { intros x' y' e H1 H2. rewrite (matrix_get_set _ _ _ _ _ x' y' Hset1) in H1.
      destruct (decide ((x', y') = (tx, ty))) as [_|_].
      - inversion H1; subst e. split; [assumption|]. right. left.
        exists (x, y). split; assumption.
      - exact (Hold x' y' e H1 H2). }
    destruct Hwrites as [Hm1|(b & m2 & Hfb & Hvb & HKb & Hset2 & Hm2)].
    { unfold cells_of. rewrite Hm1. cbn [default from_option id]. split; assumption. }
    unfold cells_of. rewrite Hm2. cbn [default from_option id].
    destruct Hinv as (_ & _ & _ & _ & m0' & Nm & _ & Nv).
    assert (m0' = m0) as -> by congruence.
    assert (Hv1 : valid_matrix s m1).
    { apply (matrix_set_valid s m0 tx ty e0); [assumption | | assumption].
      exact (matrix_get_valid _ _ _ _ _ Gv He0). }
    split.
    - apply (distinct_set m1 x y b); [assumption | | assumption].
      intros x' y'. apply (valid_matrix_not_fresh s); assumption.
    - intros x' y' e H1 H2. rewrite (matrix_get_set _ _ _ _ _ x' y' Hset2) in H1.
      destruct (decide ((x', y') = (x, y))) as [_|_].
      + inversion H1; subst e. split; [exact (proj1 (HKw _ _ HKb))|]. left.
        apply (fresh_grows s1 s); assumption.
      + exact (Hprov1 x' y' e H1 H2). }
  destruct Hend as (_ & _ & E1 & E2 & E3 & E4).
  split; [assumption|]. split; [assumption|]. split; [assumption|].
  intros x y e H1 H2. apply (E4 x y e H1 H2).
Qed.

(** The next grid, as [NewGrid] made it, in the store of a step. *)
Lemma next_grid_inv g m s :
  valid_side (Size g) -> grid_at s g m ->
  let ng := mkGrid (Size g) (length (arrays s)) in
  let s1 := set_arrays (arrays s ++ [replicate (Z.to_nat (Size g))
                                       (replicate (Z.to_nat (Size g)) Nil)]) s in
  dispatch_inv g ng m s1
  /\ cells_of s1 ng = replicate (Z.to_nat (Size g)) (replicate (Z.to_nat (Size g)) Nil).
Proof.
  intros Hv (Gm & Gs & Gv) ng s1. pose proof (valid_side_in_range _ Hv) as HN.
  pose proof (lookup_lt_Some _ _ _ Gm) as Hlt.
  assert (E : arrays s1 !! Cells ng
              = Some (replicate (Z.to_nat (Size g)) (replicate (Z.to_nat (Size g)) Nil))).
  { simpl. rewrite lookup_app_r by lia. rewrite Nat.sub_diag. reflexivity. }
  split.
  - split; [assumption|]. split; [reflexivity|]. split; [simpl; lia|]. split.
    + split; [|split; assumption]. simpl. rewrite lookup_app_l by assumption. assumption.
    + eexists. split; [exact E|]. split; [apply shape_replicate; lia|].
      apply valid_matrix_replicate.
  - unfold cells_of. rewrite E. reflexivity.
Qed.

(** ** The order in which the workers run *)

(** The launch order is one of the orders. *)
Lemma MoveEntitiesWithThreads_launch_order g fb sb se threads s :
  MoveEntitiesWithThreads g fb sb se threads s
  = MoveEntitiesWithThreadsIn (seqZ 0 threads) g fb sb se threads s.
Proof.
  unfold MoveEntitiesWithThreads, MoveEntitiesWithThreadsIn, forRange.
  rewrite Z.sub_0_r. reflexivity.
Qed.

Lemma forList_bind {A B} (f : A -> list B) (h : A -> M unit) (body : B -> M unit)
    (l : list A) :
  (forall a s, h a s = forList (f a) body s) ->
  forall s, forList l h s = forList (l ≫= f) body s.
Proof.
  intros Hh. induction l as [|a l IH]; intros s; [reflexivity|].
  cbn [forList]. change ((a :: l) ≫= f) with (f a ++ l ≫= f).
  rewrite forList_app. unfold bind. rewrite Hh.
  destruct (forList (f a) body s) as [[] s1|]; [apply IH | reflexivity].
Qed.

(** The cells that the workers visit, when they run in the order [order]:
    every cell they visit is a cell of the grid, and none is visited
    twice. *)
Lemma order_cells N threads order :
  1 <= N <= GoInt.max_int -> 1 <= threads <= GoInt.max_int ->
  order ≡ₚ seqZ 0 threads ->
  let rpt := rowsPerThreadOf N threads in
  let cells := order ≫= (fun i => cellsOf (startRowOf rpt i) (endRowOf N threads rpt i) N) in
  NoDup cells /\ forall c, c ∈ cells -> in_grid N c.
Proof.
  intros HN Ht Hperm rpt cells.
  assert (Hin : forall i, i ∈ order -> 0 <= i < threads).
  { intros i Hi. rewrite Hperm in Hi. apply elem_of_seqZ in Hi. lia. }
  assert (Hrow : forall i c, i ∈ order ->
            c ∈ cellsOf (startRowOf rpt i) (endRowOf N threads rpt i) N ->
            startRowOf rpt i <= c.1 < endRowOf N threads rpt i /\ in_grid N c).
  { intros i c Hi Hc. apply elem_of_cellsOf in Hc.
    pose proof (row_range_bounds N threads HN Ht i (Hin i Hi)) as Hb. fold rpt in Hb.
    split; [tauto|]. split; lia. }
  split.
  - apply NoDup_bind.
    + intros i1 i2 c H1 H2 Hc1 Hc2.
      destruct (Hrow i1 c H1 Hc1) as [R1 [Hx _]].
      destruct (Hrow i2 c H2 Hc2) as [R2 _].
      destruct (row_range_owner N threads HN Ht c.1 Hx) as (i & _ & Huniq).
      fold rpt in Huniq.
      rewrite (Huniq i1 (Hin i1 H1) R1), (Huniq i2 (Hin i2 H2) R2). reflexivity.
    + intros i _. apply NoDup_cellsOf.
    + rewrite Hperm. apply NoDup_seqZ.
  - intros c Hc. apply list_elem_of_bind in Hc. destruct Hc as (i & Hc & Hi).
    exact (proj2 (Hrow i c Hi Hc)).
Qed.

(** With the workers run in the order [order], a chronon of the
    row-partition strategy is one sweep over the cells of their sections. *)
Lemma MoveEntitiesWithThreadsIn_sweep order g fb sb se threads s :
  valid_side (Size g) -> 1 <= threads <= GoInt.max_int ->
  let ng := mkGrid (Size g) (length (arrays s)) in
  let s1 := set_arrays (arrays s ++ [replicate (Z.to_nat (Size g))
                                       (replicate (Z.to_nat (Size g)) Nil)]) s in
  let rpt := rowsPerThreadOf (Size g) threads in
  MoveEntitiesWithThreadsIn order g fb sb se threads s
  = (forList (order ≫= (fun i => cellsOf (startRowOf rpt i)
                                    (endRowOf (Size g) threads rpt i) (Size g)))
       (fun c => processCell g ng fb sb se c.1 c.2) ;;
     ret ng) s1.
Proof.
  intros Hv Ht ng s1 rpt. pose proof (valid_side_in_range _ Hv) as HN.
  unfold MoveEntitiesWithThreadsIn.
  rewrite (bind_run _ _ _ _ _ (NewGrid_run _ s Hv)).
  rewrite (rowsPerThread_eq _ _ HN Ht).
  rewrite (bind_run _ _ _ _ _ (orPanic_Some _ _)).
  fold ng. fold s1. fold rpt. unfold bind.
  rewrite (forList_bind
             (fun i => cellsOf (startRowOf rpt i) (endRowOf (Size g) threads rpt i) (Size g))
             _ (fun c => processCell g ng fb sb se c.1 c.2)).
  - reflexivity.
  - intros i s0. apply processSection_cells.
Qed.

(** The next grid once the cells [cells] are processed, in this order, each
    once: the processing returns, no object is in two cells of the next
    grid, and the counters of its objects are where the rules leave
    them. *)
Lemma sweep_next g m s fb sb se cells :
  valid_side (Size g) -> grid_at s g m -> distinct m ->
  NoDup cells -> (forall c, c ∈ cells -> in_grid (Size g) c) ->
  let ng := mkGrid (Size g) (length (arrays s)) in
  let s1 := set_arrays (arrays s ++ [replicate (Z.to_nat (Size g))
                                       (replicate (Z.to_nat (Size g)) Nil)]) s in
  exists s',
    forList cells (fun c => processCell g ng fb sb se c.1 c.2) s1 = Done tt s'
    /\ distinct (cells_of s' ng)
    /\ forall x y e, matrix_get (cells_of s' ng) x y = Some e -> ruled fb sb se s' e.
Proof.
  intros Hv Hg Hdm Hnd Hin ng s1.
  destruct (next_grid_inv g m s Hv Hg) as [Hinv1 Hcells1].
  fold ng in Hinv1, Hcells1. fold s1 in Hinv1, Hcells1.
  destruct (forList_total (fun s0 => dispatch_inv g ng m s0) cells
              (fun c => processCell g ng fb sb se c.1 c.2)) with (s := s1)
    as (s' & Hsweep & _); [|assumption|].
  { intros [x y] s0 Hc Hinv0.
    destruct (processCell_run g ng m s0 fb sb se x y Hinv0 (Hin _ Hc))
      as (s0' & Hrun & Hinv0' & _).
    exists s0'. split; assumption. }
  exists s'. split; [assumption|].
  destruct (sweep_distinct (ruled fb sb se) (ruled fb sb se) (fun _ => False) g ng m
              (processCell g ng fb sb se) s1 cells s1 s') as (_ & _ & Hd & Hk);
    try assumption.
  - intros s0 x y e0. apply processCell_writes.
  - intros s0 e H. split; [assumption | tauto].
  - intros s0 s0' x y e0 e (_ & _ & _ & (Gm0 & _) & _) He0 Hstep [Hne|[]].
    exact (processCell_keeps_ruled g ng m fb sb se x y e0 s0 s0' e Gm0 He0 Hstep Hne).
  - destruct Hinv1 as (_ & _ & _ & (_ & _ & Gv1) & _). exact Gv1.
  - apply grows_refl.
  - rewrite Hcells1. apply distinct_replicate.
  - intros x y e H. rewrite Hcells1 in H. apply matrix_get_replicate in H. contradiction.
  - split; [assumption|]. intros x y e H.
    destruct e as [|p|p]; [exact I | |]; apply (Hk x y); (assumption || discriminate).
Qed.

(** The next grid of a chronon of the row-partition strategy, whatever the
    order in which the workers run. *)
Lemma MoveEntitiesWithThreadsIn_next order g m s fb sb se threads :
  valid_side (Size g) -> grid_at s g m -> 1 <= threads <= GoInt.max_int ->
  distinct m -> order ≡ₚ seqZ 0 threads ->
  exists g' s',
    MoveEntitiesWithThreadsIn order g fb sb se threads s = Done g' s'
    /\ distinct (cells_of s' g')
    /\ forall x y e, matrix_get (cells_of s' g') x y = Some e -> ruled fb sb se s' e.
Proof.
  intros Hv Hg Ht Hdm Hperm. pose proof (valid_side_in_range _ Hv) as HN.
  rewrite MoveEntitiesWithThreadsIn_sweep by assumption.
  destruct (order_cells (Size g) threads order HN Ht Hperm) as [Hnd Hin].
  destruct (sweep_next g m s fb sb se _ Hv Hg Hdm Hnd Hin) as (s' & Hsweep & Hd & Hr).
  eexists. exists s'. split; [rewrite (bind_run _ _ _ _ _ Hsweep); reflexivity|].
  split; assumption.
Qed.

(** The same, from the call of [NewGrid] on. *)
Lemma cells_in_any_order g m s fb sb se cells :
  valid_side (Size g) -> grid_at s g m -> distinct m ->
  NoDup cells -> (forall c, c ∈ cells -> in_grid (Size g) c) ->
  exists ng s1 s',
    NewGrid (Size g) s = Done ng s1
    /\ forList cells (fun c => processCell g ng fb sb se c.1 c.2) s1 = Done tt s'
    /\ distinct (cells_of s' ng)
    /\ forall x y e, matrix_get (cells_of s' ng) x y = Some e -> ruled fb sb se s' e.
Proof.
  intros Hv Hg Hdm Hnd Hin.
  destruct (sweep_next g m s fb sb se cells Hv Hg Hdm Hnd Hin) as (s' & Hsweep & Hd & Hr).
  eexists. eexists. exists s'. split; [exact (NewGrid_run _ s Hv)|].
  split; [exact Hsweep|]. split; assumption.
Qed.

(** A placement of a new object keeps the objects apart. *)
Lemma addEntity_distinct fuel g e s s' m :
  arrays s !! Cells g = Some m -> distinct m ->
  (forall x y, matrix_get m x y <> Some e) ->
  addEntity fuel g e s = Done tt s' ->
  distinct (cells_of s' g).
Proof.
  intros Hm Hd Habs H. apply addEntity_Done in H.
  destruct H as (x & y & m0 & m' & n & Hm0 & _ & Hset & ->).
  assert (m0 = m) as -> by congruence.
  rewrite (cells_of_written_eq _ _ _ _ _ _ m) by exact Hm.
  exact (distinct_set _ _ _ _ _ Hd Habs Hset).
Qed.

Lemma Initialise_distinct fuel g nf ns s s' m :
  grid_at s g m -> distinct m ->
  Initialise fuel g nf ns s = Done tt s' ->
  distinct (cells_of s' g).
Proof.
  intros Hg Hd H.
  unfold Initialise in H. apply bind_Done in H. destruct H as ([] & s1 & H1 & H2).
  pose (I := fun s0 : State => placing g s s0 /\ distinct (cells_of s0 g)).
  assert (Hstep : forall (e : nat -> Entity) (alloc : M nat) s0 s0',
             I s0 ->
             (forall sa p sb, alloc sa = Done p sb ->
                arrays sb = arrays sa /\ fresh sa (e p)) ->
             (p <- alloc ;; addEntity fuel g (e p)) s0 = Done tt s0' ->
             distinct (cells_of s0' g)).
  { intros e alloc s0 s0' ((Q1 & _) & Hd0) Halloc Hrun.
    apply bind_Done in Hrun. destruct Hrun as (p & sa & Hal & Hadd).
    destruct (Halloc _ _ _ Hal) as [Harr Hfresh].
    destruct (Q1 m Hg) as (m0 & Hm0 & _ & Hv0).
    assert (Hc0 : cells_of s0 g = m0) by (unfold cells_of; rewrite Hm0; reflexivity).
    rewrite Hc0 in Hd0.
    apply (addEntity_distinct fuel g (e p) sa s0' m0); [congruence | assumption | | assumption].
    intros x y. apply (valid_matrix_not_fresh s0); assumption. }
  assert (I0 : I s).
  { split; [apply placing_refl|].
    unfold cells_of. destruct Hg as (Hm & _). rewrite Hm. exact Hd. }
  unfold forRange in H1, H2.
  apply (forList_rest (fun _ => I)) in H1; [| |exact I0].
  2:{ intros _ _ s0 s0' Hs0 Hrun. split.
      - exact (place_fish g fuel s s0 s0' (proj1 Hs0) Hrun).
      - apply (Hstep FishPtr (newFish (mkFish 0)) s0 s0' Hs0); [|exact Hrun].
        intros sa p sb Hn. apply newFish_Done in Hn. destruct Hn as [-> ->].
        split; [reflexivity | simpl; lia]. }
  apply (forList_rest (fun _ => I)) in H2; [| |exact H1].
  2:{ intros _ _ s0 s0' Hs0 Hrun. split.
      - exact (place_shark g fuel s s0 s0' (proj1 Hs0) Hrun).
      - apply (Hstep SharkPtr (newShark (mkShark 0 4)) s0 s0' Hs0); [|exact Hrun].
        intros sa p sb Hn. apply newShark_Done in Hn. destruct Hn as [-> ->].
        split; [reflexivity | simpl; lia]. }
  exact (proj2 H2).
Qed.

Lemma distinct_sharks m : distinct m -> sharks_distinct m.
Proof. intros Hd x y x' y' p. apply Hd. discriminate. Qed.

Lemma sends_Done ch k (b : M unit) s s' (Q : State -> Prop) :
  sends ch k b s Q -> b s = Done tt s' -> Q s'.
Proof.
  intros [D F] Hrun. destruct (Z_le_gt_dec k (room ch s)) as [Hle|Hgt].
  - destruct (D Hle) as (s'' & E & _ & HQ). congruence.
  - rewrite F in Hrun by lia. discriminate.
Qed.

(** The moves that are applied carry objects that the next grid does not
    hold. *)
Lemma drain_distinct ng moves : forall s s',
  distinct (cells_of s ng) -> NoDup (Ent <$> moves) ->
  Forall (fun mv => forall x y, matrix_get (cells_of s ng) x y <> Some (Ent mv)) moves ->
  forList moves (fun move => setCell ng (X move) (Y move) (Ent move)) s = Done tt s' ->
  distinct (cells_of s' ng).
Proof.
  induction moves as [|mv moves IH]; intros s s' Hd Hnd Hall Hrun.
  - inversion Hrun; subst. assumption.
  - cbn [forList] in Hrun. apply bind_Done in Hrun. destruct Hrun as ([] & s1 & H1 & H2).
    apply setCell_Done in H1. destruct H1 as (m0 & old & m' & Ha & Hg & Hs & ->).
    assert (Hc0 : cells_of s ng = m0) by (unfold cells_of; rewrite Ha; reflexivity).
    rewrite Hc0 in Hd, Hall.
    cbn [fmap list_fmap] in Hnd. apply list.NoDup_cons in Hnd. destruct Hnd as [Hnotin Hnd].
    apply list.Forall_cons in Hall. destruct Hall as [Habs Hall].
    apply (IH (written ng (X mv) (Y mv) old m' s) s'); [| assumption | | assumption];
      rewrite (cells_of_written_eq _ _ _ _ _ _ m0) by exact Ha.
    + exact (distinct_set _ _ _ _ _ Hd Habs Hs).
    + rewrite list.Forall_forall in Hall. apply list.Forall_forall. intros mv' Hmv' x y.
      rewrite (matrix_get_set _ _ _ _ _ x y Hs).
      destruct (decide ((x, y) = (X mv, Y mv))) as [_|_]; [|apply Hall; assumption].
      intros E. inversion E as [E']. apply Hnotin. rewrite E'.
      apply list_elem_of_fmap. exists mv'. split; [reflexivity | assumption].
Qed.

(** The next grid once the fish have moved, in the message-passing
    strategy. *)
Lemma moveFish_next g m s fb sb se s2 :
  valid_side (Size g) -> grid_at s g m -> distinct m ->
  let ng := mkGrid (Size g) (length (arrays s)) in
  let s1 := set_arrays (arrays s ++ [replicate (Z.to_nat (Size g))
                                       (replicate (Z.to_nat (Size g)) Nil)]) s in
  moveFish g ng fb s1 = Done tt s2 ->
  dispatch_inv g ng m s2 /\ grows s1 s2 /\ distinct (cells_of s2 ng)
  /\ forall x y e, matrix_get (cells_of s2 ng) x y = Some e -> e <> Nil ->
       is_shark e = false /\ ruled fb sb se s2 e.
Proof.
  intros Hv Hg Hdm ng s1 Hfish.
  destruct (next_grid_inv g m s Hv Hg) as [Hinv1 Hcells1].
  fold ng in Hinv1, Hcells1. fold s1 in Hinv1, Hcells1.
  rewrite moveFish_cells in Hfish.
  pose (K := fun (s' : State) e => is_shark e = false /\ ruled fb sb se s' e).
  apply (sweep_distinct K K (fun _ => False) g ng m (moveFishCell g ng fb) s1
           (cellsOf 0 (Size g) (Size g)) s1 s2); try assumption.
  - intros s0 x y e0. apply moveFishCell_writes.
  - intros s0 e H. split; [assumption | tauto].
  - intros s0 s0' x y e0 e (_ & _ & _ & (Gm0 & _) & _) He0 Hstep [Hne|[]] [H1 H2].
    split; [assumption|].
    exact (moveFishCell_keeps_ruled g ng m fb sb se x y e0 s0 s0' e Gm0 He0 Hstep Hne H2).
  - destruct Hinv1 as (_ & _ & _ & (_ & _ & Gv1) & _). exact Gv1.
  - apply NoDup_cellsOf.
  - intros c Hc. apply elem_of_cellsOf in Hc. destruct Hv. split; lia.
  - apply grows_refl.
  - rewrite Hcells1. apply distinct_replicate.
  - intros x y e H. rewrite Hcells1 in H. apply matrix_get_replicate in H. contradiction.
Qed.

(** A chronon of the message-passing strategy keeps the objects apart. *)
Lemma MoveEntitiesConcurrent_distinct g m s fb sb se g' s' :
  valid_side (Size g) -> grid_at s g m -> distinct m ->
  MoveEntitiesConcurrent g fb sb se s = Done g' s' ->
  distinct (cells_of s' g').
Proof.
  intros Hv Hg Hdm Hrun. unfold MoveEntitiesConcurrent in Hrun.
  rewrite (bind_run _ _ _ _ _ (NewGrid_run _ s Hv)) in Hrun.
  destruct (next_grid_inv g m s Hv Hg) as [Hinv1 Hcells1].
  set (ng := mkGrid (Size g) (length (arrays s))) in *.
  set (s1 := set_arrays _ s) in *.
  (* the fish *)
  apply bind_Done in Hrun. destruct Hrun as ([] & s2 & Hfish & Hrun).
  destruct (moveFish_next g m s fb sb se s2 Hv Hg Hdm Hfish) as (Hinv2 & Hg2 & Hd2 & Hk2).
  (* the channel *)
  apply bind_Done in Hrun. destruct Hrun as (ch & s3 & Hmk & Hrun).
  unfold makeChan in Hmk.
  destruct (Z.ltb_spec (GoInt.mul (Size g) (Size g)) 0) as [|Hcap]; [discriminate|].
  inversion Hmk; subst ch s3. clear Hmk.
  set (ch := length (chans s2)) in *.
  set (s3 := set_chans _ s2) in *.
  assert (Hch3 : chans s3 !! ch = Some (mkChan (GoInt.mul (Size g) (Size g)) [] false)).
  { unfold s3, ch. simpl. rewrite lookup_app_r, Nat.sub_diag by lia. reflexivity. }
  assert (Hinv3 : collect_inv g ng m ch 0 s3).
  { split.
    - apply (dispatch_inv_frame _ _ _ s2); [reflexivity | solve_grows | assumption].
    - eexists. split; [exact Hch3|]. split; [reflexivity|]. simpl. split; [lia | constructor]. }
  (* the sharks *)
  apply bind_Done in Hrun. destruct Hrun as ([] & s4 & Hsharks & Hrun).
  rewrite moveSharksConcurrent_cells in Hsharks.
  apply (sends_Done _ _ _ _ _ _
           (moveSharks_exact g ng m ch sb se s3 (cellsOf 0 (Size g) (Size g)) s3
              (NoDup_cellsOf _ _ _)
              ltac:(intros c Hc; apply elem_of_cellsOf in Hc; destruct Hv; split; lia)
              (distinct_sharks m Hdm) Hinv3 ltac:(reflexivity))) in Hsharks.
  destruct Hsharks as ((Hinv4 & c & C1 & C2 & _) & Hg4 & Harr4 & l & Hw4 & Hnd & Hl).
  unfold waiting in Hw4. rewrite C1, Hch3 in Hw4. cbn [buf app] in Hw4.
  (* the moves are applied *)
  apply bind_Done in Hrun. destruct Hrun as ([] & s5 & Hclose & Hrun).
  unfold closeChan in Hclose. rewrite C1, C2 in Hclose. inversion Hclose; subst s5.
  clear Hclose.
  apply bind_Done in Hrun. destruct Hrun as (moves & s6 & Hrecv & Hrun).
  unfold recvAll in Hrecv. cbn [chans set_chans] in Hrecv.
  rewrite list_lookup_insert_eq in Hrecv by exact (lookup_lt_Some _ _ _ C1).
  cbn [closed buf cap] in Hrecv. inversion Hrecv; subst moves s6. clear Hrecv.
  apply bind_Done in Hrun. destruct Hrun as ([] & s7 & Hdrain & Hret).
  inversion Hret; subst g' s7. clear Hret.
  change (cells_of s' (mkGrid (Size g) (Cells ng))) with (cells_of s' ng).
  revert Hdrain. rewrite Hw4. apply drain_distinct.
  - unfold cells_of. cbn [arrays set_chans]. rewrite Harr4. exact Hd2.
  - assumption.
  - rewrite list.Forall_forall in Hl. apply list.Forall_forall. intros mv Hmv x y H.
    destruct (Hl mv Hmv) as [Hshark _].
    unfold cells_of in H. cbn [arrays set_chans] in H. rewrite Harr4 in H.
    assert (Hne : Ent mv <> Nil) by (intros E; rewrite E in Hshark; discriminate).
    rewrite (proj1 (Hk2 x y (Ent mv) H Hne)) in Hshark. discriminate.
Qed.

Lemma NewGrid_cells n s g s0 :
  NewGrid n s = Done g s0 ->
  cells_of s0 g = replicate (Z.to_nat n) (replicate (Z.to_nat n) Nil).
Proof.
  unfold NewGrid. intros H.
  apply bind_Done in H. destruct H as (cells & s1 & H1 & H).
  apply orPanic_Done in H1. destruct H1 as [H1 ->].
  apply bind_Done in H. destruct H as (row & s1 & H2 & H).
  apply orPanic_Done in H2. destruct H2 as [H2 ->].
  inversion H; subst g s0. clear H.
  unfold cells_of. cbn [arrays set_arrays Cells].
  rewrite lookup_app_r, Nat.sub_diag by lia. cbn [lookup list_lookup default from_option id].
  unfold makeslice in H1, H2.
  destruct ((0 <=? n) && (n * 24 <=? maxAlloc)); [|discriminate].
  inversion H1; subst cells. rewrite fmap_replicate. cbn [const].
  destruct (Z.eqb_spec n 0) as [->|Hn].
  - reflexivity.
  - destruct ((0 <=? n) && (n * 16 <=? maxAlloc)); [|discriminate].
    inversion H2. reflexivity.
Qed.

Lemma hunted_cells_distinct : distinct hunted_cells.
Proof.
  intros x y x' y' e He H1 H2.
  pose proof (matrix_get_in_shape 2 hunted_cells _ _ _ ltac:(known_grid) H1).
  pose proof (matrix_get_in_shape 2 hunted_cells _ _ _ ltac:(known_grid) H2).
  assert (Ex : x = 0 \/ x = 1) by lia. assert (Ey : y = 0 \/ y = 1) by lia.
  assert (Ex' : x' = 0 \/ x' = 1) by lia. assert (Ey' : y' = 0 \/ y' = 1) by lia.
  destruct Ex as [-> | ->], Ey as [-> | ->], Ex' as [-> | ->], Ey' as [-> | ->];
    first [reflexivity | vm_compute in H1, H2; congruence].
Qed.

(** X10.  No object is in two cells: this holds of the grid that [NewGrid]
    returns, [Initialise] keeps it when it returns, and so does a chronon of
    each strategy: that of the row-partition strategy, which returns,
    whatever the order in which its workers run, and that of the
    message-passing strategy whenever it returns.  For the row-partition
    strategy it holds as well of the next grid in which the cells were
    processed in any order, each at most once, as when the workers take
    turns.  So each entity is processed once in a chronon, and the in-place
    update of its counters is not seen through another cell. *)
Theorem no_object_in_two_cells :
  (forall n s g s0, NewGrid n s = Done g s0 -> distinct (cells_of s0 g))
  /\ (forall fuel g nf ns s s' m,
        grid_at s g m -> distinct m ->
        Initialise fuel g nf ns s = Done tt s' -> distinct (cells_of s' g))
  /\ (forall g m s fb sb se threads order,
        valid_side (Size g) -> grid_at s g m -> 1 <= threads <= GoInt.max_int ->
        distinct m -> order ≡ₚ seqZ 0 threads ->
        exists g' s', MoveEntitiesWithThreadsIn order g fb sb se threads s = Done g' s'
                      /\ distinct (cells_of s' g'))
  /\ (forall g m s fb sb se cells,
        valid_side (Size g) -> grid_at s g m -> distinct m ->
        NoDup cells -> (forall c, c ∈ cells -> in_grid (Size g) c) ->
        exists ng s1 s',
          NewGrid (Size g) s = Done ng s1
          /\ forList cells (fun c => processCell g ng fb sb se c.1 c.2) s1 = Done tt s'
          /\ distinct (cells_of s' ng))
  /\ (forall g m s fb sb se g' s',
        valid_side (Size g) -> grid_at s g m -> distinct m ->
        MoveEntitiesConcurrent g fb sb se s = Done g' s' -> distinct (cells_of s' g')).
Proof.
  split; [|split; [|split; [|split]]].
  - intros n s g s0 H. rewrite (NewGrid_cells n s g s0 H). apply distinct_replicate.
  - intros fuel g nf ns s s' m. apply Initialise_distinct.
  - intros g m s fb sb se threads order Hv Hg Ht Hd Hperm.
    destruct (MoveEntitiesWithThreadsIn_next order g m s fb sb se threads Hv Hg Ht Hd Hperm)
      as (g' & s' & Hrun & Hdist & _).
    exists g', s'. split; assumption.
  - intros g m s fb sb se cells Hv Hg Hd Hnd Hin.
    destruct (cells_in_any_order g m s fb sb se cells Hv Hg Hd Hnd Hin)
      as (ng & s1 & s' & Hnew & Hrun & Hdist & _).
    exists ng, s1, s'. auto.
  - intros g m s fb sb se g' s'. apply MoveEntitiesConcurrent_distinct.
Qed.

(** The 2x2 grid with a shark and three fish, in a chronon of each
    strategy; the two workers of the row-partition strategy run in the one
    order and in the other. *)
Lemma no_object_in_two_cells_witness :
  (exists g' s', MoveEntitiesWithThreadsIn [0; 1] (mkGrid 2 0) 3 3 4 2 hunted = Done g' s'
                 /\ distinct (cells_of s' g'))
  /\ (exists g' s', MoveEntitiesWithThreadsIn [1; 0] (mkGrid 2 0) 3 3 4 2 hunted = Done g' s'
                    /\ distinct (cells_of s' g'))
  /\ (exists g' s', MoveEntitiesConcurrent (mkGrid 2 0) 3 3 4 hunted = Done g' s'
                    /\ distinct (cells_of s' g')).
Proof.
  pose proof hunted_cells_distinct as D.
  destruct no_object_in_two_cells as (_ & _ & P3 & _ & P4). split; [|split].
  - apply (P3 (mkGrid 2 0) hunted_cells hunted 3 3 4 2); try (assumption || known_grid).
    reflexivity.
  - apply (P3 (mkGrid 2 0) hunted_cells hunted 3 3 4 2); try (assumption || known_grid).
    apply perm_swap.
  - assert (E : exists g' s', MoveEntitiesConcurrent (mkGrid 2 0) 3 3 4 hunted = Done g' s')
      by (eexists; eexists; vm_compute; reflexivity).
    destruct E as (g' & s' & E). exists g', s'. split; [exact E|].
    apply (P4 (mkGrid 2 0) hunted_cells hunted 3 3 4 g' s'); (assumption || known_grid).
Defined.

(** ** The program of the message-passing version *)

(** The chronons of the message-passing strategy run, or one of them
    blocks. *)
Lemma simulate_concurrent_cases n fb sb se : forall g m s,
  valid_side (Size g) -> Size g * Size g <= GoInt.max_int ->
  grid_at s g m -> distinct m ->
  (exists g' s' m',
     simulate n (fun g0 => MoveEntitiesConcurrent g0 fb sb se) g s = Done g' s'
     /\ Size g' = Size g /\ grid_at s' g' m')
  \/ simulate n (fun g0 => MoveEntitiesConcurrent g0 fb sb se) g s = Fail Deadlock.
Proof.
  induction n as [|n IH]; intros g m s Hv Hsq Hg Hd.
  - left. exists g, s, m. split; [reflexivity|]. auto.
  - cbn [simulate].
    destruct (CountEntities_total g m s Hv Hg) as [v Hcount].
    rewrite (bind_run _ _ _ _ _ Hcount).
    destruct (MoveEntitiesConcurrent_exact g m s fb sb se Hv Hg Hsq (distinct_sharks m Hd))
      as [Hfit Hblock].
    destruct (Z_le_gt_dec (movesNeeded sb s m) (Size g * Size g)) as [Hle|Hgt].
    + destruct (Hfit Hle) as (g1 & s1 & m1 & Hrun & HN & Hg1).
      rewrite (bind_run _ _ _ _ _ Hrun).
      pose proof (MoveEntitiesConcurrent_distinct g m s fb sb se g1 s1 Hv Hg Hd Hrun) as Hd1.
      assert (Hc1 : cells_of s1 g1 = m1).
      { unfold cells_of. destruct Hg1 as (E & _). rewrite E. reflexivity. }
      rewrite Hc1 in Hd1.
      destruct (IH g1 m1 s1) as [(g' & s' & m' & Hsim & HN' & Hg')|Hfail];
        try (rewrite HN; assumption); try assumption.
      * left. exists g', s', m'. split; [assumption|]. split; [congruence | assumption].
      * right. assumption.
    + right. apply bind_Fail. apply Hblock. lia.
Qed.

(** X11.  The program of the message-passing version does not panic: it
    reports a final tally, of at most 10000 entities, or the initial
    placement does not end, or a chronon blocks for ever on the channel.
    No index is out of range, no pointer is nil where it is dereferenced,
    and the channel is closed once. *)
Theorem watorMain_does_not_panic (fuel : nat) (s : State) :
  (exists nf ns s', watorMain fuel s = Done (Ran nf ns) s'
                    /\ 0 <= nf /\ 0 <= ns /\ nf + ns <= 10000)
  \/ watorMain fuel s = Fail Fuel
  \/ watorMain fuel s = Fail Deadlock.
Proof.
  assert (Hv : valid_side 100) by (unfold valid_side, maxAlloc; lia).
  unfold watorMain.
  rewrite (bind_run _ _ _ _ _ (NewGrid_run 100 s Hv)).
  set (g := mkGrid 100 (length (arrays s))).
  set (s0 := set_arrays _ s).
  pose proof (grid_at_fresh_empty 100 s ltac:(lia)) as Hg0. fold g s0 in Hg0.
  destruct (Initialise_cases fuel g 100 100 s0 _ ltac:(simpl; lia) Hg0) as [[s1 Hinit]|Hinit].
  2:{ right. left. apply bind_Fail. assumption. }
  rewrite (bind_run _ _ _ _ _ Hinit).
  pose proof (Initialise_distinct fuel g 100 100 s0 s1 _ Hg0 (distinct_replicate _ _) Hinit)
    as Hd1.
  pose proof Hinit as Hp. apply Initialise_placing in Hp. destruct Hp as (P1 & _).
  destruct (P1 _ Hg0) as (m1 & Hg1).
  assert (Hc1 : cells_of s1 g = m1).
  { unfold cells_of. destruct Hg1 as (E & _). rewrite E. reflexivity. }
  rewrite Hc1 in Hd1.
  destruct (simulate_concurrent_cases 50 3 4 4 g m1 s1 Hv
              ltac:(unfold GoInt.max_int; simpl; lia) Hg1 Hd1)
    as [(g' & s' & m' & Hsim & HN & Hg')|Hfail].
  2:{ right. right. apply bind_Fail. assumption. }
  rewrite (bind_run _ _ _ _ _ Hsim). left.
  assert (Hv' : valid_side (Size g')) by (rewrite HN; exact Hv).
  destruct (CountEntities_run g' m' s' Hv' Hg') as [Hcount Hsum].
  { rewrite HN. unfold GoInt.max_int. simpl. lia. }
  rewrite (bind_run _ _ _ _ _ Hcount).
  exists (fishIn m'), (sharksIn m'), s'. split; [reflexivity|].
  split; [apply count_nonneg; intros e; destruct (is_fish e); lia|].
  split; [apply count_nonneg; intros e; destruct (is_shark e); lia|].
  destruct Hg' as (_ & Hs' & _). rewrite HN in Hs'.
  pose proof (population_le 100 m' ltac:(lia) Hs'). lia.
Qed.

(** ** The rows that a worker writes *)

(** The processing of a cell writes to the cell and to its neighbours
    only. *)
Lemma writes_footprint K g ng m x y e0 body s s' :
  writes K g ng m x y e0 body s -> body s = Done tt s' ->
  forall x' y', ~ near (Size g) x y (x', y') ->
    matrix_get (cells_of s' ng) x' y' = matrix_get (cells_of s ng) x' y'.
Proof.
  intros (s'' & m0 & Hrun & _ & _ & Hm0 & Hwrites) Hrun' x' y' Hfar.
  assert (s'' = s') as -> by congruence.
  unfold cells_of. rewrite Hm0. cbn [default from_option id].
  destruct Hwrites as [->|(_ & _ & tx & ty & m1 & Hnear & Hset1 & Hwrites)];
    [reflexivity|].
  assert (E1 : matrix_get m1 x' y' = matrix_get m0 x' y').
  { rewrite (matrix_get_set _ _ _ _ _ x' y' Hset1).
    destruct (decide ((x', y') = (tx, ty))) as [E|_]; [|reflexivity].
    destruct Hfar. rewrite E. assumption. }
  destruct Hwrites as [->|(b & m2 & _ & _ & _ & Hset2 & ->)]; cbn [default from_option id].
  - assumption.
  - rewrite (matrix_get_set _ _ _ _ _ x' y' Hset2).
    destruct (decide ((x', y') = (x, y))) as [E|_]; [|assumption].
    destruct Hfar. left. assumption.
Qed.

(** The rows of the cells near a cell. *)
Lemma near_row n x y x' y' :
  0 <= x < n -> near n x y (x', y') ->
  x' = x \/ x' = (x - 1) mod n \/ x' = (x + 1) mod n.
Proof.
  intros Hx [E|(d & Hd & E)].
  - inversion E. auto.
  - unfold neighbour in E. inversion E as [[E1 E2]]. clear E E2.
    unfold directions in Hd. rewrite !elem_of_cons, elem_of_nil in Hd.
    destruct Hd as [->|[->|[->|[->|[]]]]]; cbn [fst].
    + right. left. reflexivity.
    + right. right. reflexivity.
    + left. rewrite Z.add_0_r. apply Z.mod_small. assumption.
    + left. rewrite Z.add_0_r. apply Z.mod_small. assumption.
Qed.

(** X12.  A worker of the row-partition strategy processes the rows
    [startRow .. endRow - 1] and returns.  It writes to the next grid in
    these rows and in the rows just above and just below them, around the
    edges of the grid, and nowhere else: a cell of the next grid in a row
    that is not within one row of the section is left as it was.  (So the
    rows at the border between two sections are written by both
    workers.) *)
Theorem worker_writes_within_a_row_of_its_section (g ng : Grid) (m : Matrix) (s : State)
    (startRow endRow fb sb se : Z) :
  dispatch_inv g ng m s -> 0 <= startRow -> endRow <= Size g ->
  exists s',
    processSection g ng startRow endRow fb sb se s = Done tt s'
    /\ dispatch_inv g ng m s'
    /\ forall x' y',
         (forall x, startRow <= x < endRow ->
            x' <> x /\ x' <> (x - 1) mod Size g /\ x' <> (x + 1) mod Size g) ->
         matrix_get (cells_of s' ng) x' y' = matrix_get (cells_of s ng) x' y'.
Proof.
  intros Hinv Hlo Hhi. rewrite processSection_cells.
  apply (forList_total
           (fun s0 => dispatch_inv g ng m s0
                      /\ forall x' y',
                           (forall x, startRow <= x < endRow ->
                              x' <> x /\ x' <> (x - 1) mod Size g
                              /\ x' <> (x + 1) mod Size g) ->
                           matrix_get (cells_of s0 ng) x' y'
                           = matrix_get (cells_of s ng) x' y'));
    [|split; [assumption | reflexivity]].
  intros [x y] s0 Hc [Hinv0 Hsame]. apply elem_of_cellsOf in Hc. cbn [fst snd] in *.
  assert (Hxy : in_grid (Size g) (x, y)) by (split; simpl; lia).
  pose proof Hinv0 as (_ & _ & _ & (_ & Gs & _) & _).
  destruct (matrix_get_shape _ _ _ _ Gs (proj1 Hxy) (proj2 Hxy)) as [e0 He0].
  cbn [fst snd] in He0.
  pose proof (processCell_writes g ng m s0 fb sb se x y e0 Hinv0 Hxy He0) as Hw.
  pose proof Hw as (s' & m0 & Hrun & Hinv' & _).
  exists s'. split; [assumption|]. split; [assumption|].
  intros x' y' Hfar. rewrite <- (Hsame x' y' Hfar).
  apply (writes_footprint _ _ _ _ _ _ _ _ _ _ Hw Hrun).
  intros Hnear. apply (near_row (Size g) x y x' y') in Hnear; [|lia].
  destruct (Hfar x ltac:(lia)) as (N1 & N2 & N3).
  destruct Hnear as [?|[?|?]]; contradiction.
Qed.

(** A worker for the first row of a grid of side 4 leaves the third row
    of the next grid alone. *)
Lemma worker_writes_within_a_row_of_its_section_witness :
  let m := [[FishPtr 0; Nil; Nil; Nil]; [Nil; Nil; Nil; Nil];
            [Nil; Nil; Nil; Nil]; [Nil; Nil; Nil; Nil]] in
  let s := mkState [mkFish 0] [] [m; replicate 4 (replicate 4 Nil)] [] sevens 0 [] in
  exists s',
    processSection (mkGrid 4 0) (mkGrid 4 1) 0 1 3 3 4 s = Done tt s'
    /\ dispatch_inv (mkGrid 4 0) (mkGrid 4 1) m s'
    /\ forall x' y',
         (forall x, 0 <= x < 1 -> x' <> x /\ x' <> (x - 1) mod 4 /\ x' <> (x + 1) mod 4) ->
         matrix_get (cells_of s' (mkGrid 4 1)) x' y'
         = matrix_get (cells_of s (mkGrid 4 1)) x' y'.
Proof.
  intros m s.
  apply (worker_writes_within_a_row_of_its_section (mkGrid 4 0) (mkGrid 4 1) m s 0 1 3 3 4).
  - split; [known_grid|]. split; [reflexivity|]. split; [simpl; lia|].
    split; [known_grid|]. eexists. known_grid.
  - lia.
  - simpl. lia.
Defined.

(** ** A grid without cells *)

Lemma forList_skip {A} (l : list A) (body : A -> M unit) s :
  (forall a, body a s = Done tt s) -> forList l body s = Done tt s.
Proof.
  intros Hb. induction l as [|a l IH]; [reflexivity|].
  cbn [forList]. rewrite (bind_run _ _ _ _ _ (Hb a)). assumption.
Qed.

Lemma forRange_first lo hi (body : Z -> M unit) s f :
  lo < hi -> body lo s = Fail f -> forRange lo hi body s = Fail f.
Proof.
  intros Hlt Hb. unfold forRange. rewrite seqZ_cons by lia. cbn [forList].
  apply bind_Fail. assumption.
Qed.

Lemma forRange_none lo hi (body : Z -> M unit) s :
  hi <= lo -> forRange lo hi body s = Done tt s.
Proof.
  intros Hle. unfold forRange, seqZ.
  replace (Z.to_nat (hi - lo)) with 0%nat by lia. reflexivity.
Qed.

(** A placement on a grid without cells panics, in [rand.Intn]. *)
Lemma addEntity_no_cell fuel g e s :
  Size g <= 0 -> addEntity (S fuel) g e s = Fail Panic.
Proof.
  intros Hn. cbn [addEntity]. apply bind_Fail. unfold Intn.
  destruct (Z.leb_spec (Size g) 0); [reflexivity | lia].
Qed.

Lemma Initialise_no_cell fuel g nf ns s :
  Size g <= 0 -> 0 < nf \/ 0 < ns -> Initialise (S fuel) g nf ns s = Fail Panic.
Proof.
  intros Hn Hsome. unfold Initialise.
  destruct (Z_lt_le_dec 0 nf) as [Hnf|Hnf].
  - apply bind_Fail. apply forRange_first; [assumption|].
    unfold newFish at 1, bind at 1. apply addEntity_no_cell. assumption.
  - rewrite (bind_run _ _ _ _ _ (forRange_none 0 nf _ s Hnf)).
    apply forRange_first; [lia|].
    unfold newShark at 1, bind at 1. apply addEntity_no_cell. assumption.
Qed.

Lemma CountEntities_no_cell g s : Size g = 0 -> CountEntities g s = Done (0, 0) s.
Proof. intros Hn. unfold CountEntities. rewrite Hn. reflexivity. Qed.

Lemma processSection_no_row g ng lo hi fb sb se s :
  hi <= lo -> processSection g ng lo hi fb sb se s = Done tt s.
Proof. intros Hle. unfold processSection. apply forRange_none. assumption. Qed.

(** A chronon of the row-partition strategy on a grid without cells. *)
Lemma MoveEntitiesWithThreads_no_cell g fb sb se threads s :
  Size g = 0 -> threads <> 0 ->
  MoveEntitiesWithThreads g fb sb se threads s
  = Done (mkGrid 0 (length (arrays s))) (set_arrays (arrays s ++ [[]]) s).
Proof.
  intros Hn Ht. unfold MoveEntitiesWithThreads. rewrite Hn.
  rewrite (bind_run _ _ s (mkGrid 0 (length (arrays s)))
             (set_arrays (arrays s ++ [[]]) s)) by reflexivity.
  unfold GoInt.div. destruct (Z.eqb_spec threads 0) as [|_]; [contradiction|].
  rewrite Z.quot_0_l by assumption.
  rewrite (bind_run _ _ _ 0 _ (orPanic_Some _ _)).
  set (s1 := set_arrays _ s).
  assert (Hloop : forRange 0 threads
                    (fun i => processSection g (mkGrid 0 (length (arrays s)))
                                (startRowOf (GoInt.wrap 0) i)
                                (endRowOf 0 threads (GoInt.wrap 0) i) fb sb se) s1
                  = Done tt s1).
  { unfold forRange. apply forList_skip. intros i.
    apply processSection_no_row.
    unfold endRowOf, startRowOf, GoInt.mul, GoInt.add.
    change (GoInt.wrap 0) with 0. rewrite Z.mul_0_r. change (GoInt.wrap 0) with 0.
    destruct (i =? _); [lia|]. change (GoInt.wrap (0 + 0)) with 0. lia. }
  rewrite (bind_run _ _ _ _ _ Hloop). reflexivity.
Qed.

(** A chronon of the message-passing strategy on a grid without cells. *)
Lemma MoveEntitiesConcurrent_no_cell g fb sb se s :
  Size g = 0 ->
  MoveEntitiesConcurrent g fb sb se s
  = Done (mkGrid 0 (length (arrays s)))
         (set_chans (chans s ++ [mkChan 0 [] true]) (set_arrays (arrays s ++ [[]]) s)).
Proof.
  intros Hn. unfold MoveEntitiesConcurrent. rewrite Hn.
  rewrite (bind_run _ _ s (mkGrid 0 (length (arrays s)))
             (set_arrays (arrays s ++ [[]]) s)) by reflexivity.
  set (s1 := set_arrays _ s).
  unfold moveFish, moveSharksConcurrent. rewrite Hn.
  rewrite (bind_run _ _ _ _ _ (forRange_none 0 0 _ s1 ltac:(lia))).
  change (GoInt.mul 0 0) with 0.
  rewrite (bind_run _ _ s1 (length (chans s1))
             (set_chans (chans s1 ++ [mkChan 0 [] false]) s1)) by reflexivity.
  set (s2 := set_chans _ s1).
  rewrite (bind_run _ _ _ _ _ (forRange_none 0 0 _ s2 ltac:(lia))).
  unfold closeChan at 1, bind at 1. cbn [chans set_chans s2].
  rewrite lookup_app_r, Nat.sub_diag by lia. cbn [lookup list_lookup closed cap buf].
  unfold recvAll at 1, bind at 1. cbn [chans set_chans].
  rewrite list_lookup_insert_eq by (rewrite length_app; simpl; lia).
  cbn [closed cap buf forList]. unfold bind, ret. f_equal.
  unfold set_chans. cbn [fishes sharks arrays chans draws drawn events]. f_equal.
  rewrite list_insert_insert_eq.
  rewrite insert_app_r_alt, Nat.sub_diag by lia. reflexivity.
Qed.

Lemma simulate_no_cell n fb sb se threads : forall g s,
  Size g = 0 -> threads <> 0 ->
  exists g' s',
    simulate n (fun g0 => MoveEntitiesWithThreads g0 fb sb se threads) g s = Done g' s'
    /\ Size g' = 0.
Proof.
  induction n as [|n IH]; intros g s Hn Ht.
  - exists g, s. split; [reflexivity | assumption].
  - cbn [simulate]. rewrite (bind_run _ _ _ _ _ (CountEntities_no_cell g s Hn)).
    rewrite (bind_run _ _ _ _ _ (MoveEntitiesWithThreads_no_cell g fb sb se threads s Hn Ht)).
    apply IH; [reflexivity | assumption].
Qed.

(** X13.  A grid of side 0.  [Initialise] panics, in [rand.Intn(0)], as soon
    as it is asked for one entity.  The tally is (0, 0), and a chronon of
    either strategy returns a new grid without cells (that of the
    row-partition strategy for any number of workers other than 0).  So
    [main], with a grid size of 0 and once the initial placement has
    returned, runs its fifty chronons and reports 0 fish and 0 sharks. *)
Theorem grid_without_cells :
  (forall fuel g nf ns s,
     Size g <= 0 -> 0 < nf \/ 0 < ns -> Initialise (S fuel) g nf ns s = Fail Panic)
  /\ (forall g s, Size g = 0 -> CountEntities g s = Done (0, 0) s)
  /\ (forall g fb sb se threads s,
        Size g = 0 -> threads <> 0 ->
        MoveEntitiesWithThreads g fb sb se threads s
        = Done (mkGrid 0 (length (arrays s))) (set_arrays (arrays s ++ [[]]) s))
  /\ (forall g fb sb se s,
        Size g = 0 ->
        MoveEntitiesConcurrent g fb sb se s
        = Done (mkGrid 0 (length (arrays s)))
               (set_chans (chans s ++ [mkChan 0 [] true])
                  (set_arrays (arrays s ++ [[]]) s)))
  /\ (forall fuel nsh nf fb sb se threads s g0 s0 s1,
        threads <> 0 ->
        NewGrid 0 s = Done g0 s0 ->
        Initialize fuel g0 nf nsh s0 = Done tt s1 ->
        exists s', main fuel [nsh; nf; fb; sb; se; 0; threads] s = Done (Ran 0 0) s').
Proof.
  split; [|split; [|split; [|split]]].
  - apply Initialise_no_cell.
  - apply CountEntities_no_cell.
  - apply MoveEntitiesWithThreads_no_cell.
  - apply MoveEntitiesConcurrent_no_cell.
  - intros fuel nsh nf fb sb se threads s g0 s0 s1 Ht Hnew Hinit.
    change (main fuel [nsh; nf; fb; sb; se; 0; threads] s)
      with (run fuel (mkConfig nsh nf fb sb se 0 threads) s).
    unfold run.
    cbn -[bind NewGrid Initialize simulate CountEntities MoveEntitiesWithThreads].
    rewrite (bind_run _ _ _ _ _ Hnew), (bind_run _ _ _ _ _ Hinit).
    assert (Hn0 : Size g0 = 0) by (inversion Hnew; reflexivity).
    destruct (simulate_no_cell 50 fb sb se threads g0 s1 Hn0 Ht) as (g' & s' & Hsim & Hn').
    rewrite (bind_run _ _ _ _ _ Hsim).
    rewrite (bind_run _ _ _ _ _ (CountEntities_no_cell g' s' Hn')).
    exists s'. reflexivity.
Qed.

(** A run of [main] with a grid size of 0 and no entity to place. *)
Lemma grid_without_cells_witness :
  Initialise 5 (mkGrid 0 0) 1 0 (mkState [] [] [[]] [] sevens 0 []) = Fail Panic
  /\ exists s', main 20 [0; 0; 3; 3; 4; 0; 2] (empty_store sevens) = Done (Ran 0 0) s'.
Proof.
  destruct grid_without_cells as (P1 & _ & _ & _ & P5). split.
  - apply (P1 4%nat); [simpl; lia | left; lia].
  - apply (P5 20%nat 0 0 3 3 4 2 (empty_store sevens) (mkGrid 0 0)
             (set_arrays [[]] (empty_store sevens)) (set_arrays [[]] (empty_store sevens)));
      [lia | reflexivity | reflexivity].
Defined.

(** ** The moves of a shark are its writes, deferred *)

Lemma processShark_rule g ng shark x y sb se :
  processShark g ng shark x y sb se = sharkRule (setCell ng) g shark x y sb se.
Proof. reflexivity. Qed.

Lemma moveSharkCell_rule g sb se ch x y :
  moveSharkCell g sb se ch x y
  = (c <- getCell g x y ;;
     match c with
     | SharkPtr shark =>
         sharkRule (fun x' y' e => send ch (mkMove x' y' e)) g shark x y sb se
     | _ => ret tt
     end).
Proof. reflexivity. Qed.

(** The scans read the current grid and the random source only. *)

Lemma set_drawn_id s : set_drawn (drawn s) s = s.
Proof. destruct s. reflexivity. Qed.

Lemma reader_ret {A} g (a : A) : reader g (ret a).
Proof.
  intros sa sb a' sa' _ Hn _ H. inversion H; subst.
  rewrite set_drawn_id. split; [reflexivity|]. rewrite Hn, set_drawn_id. reflexivity.
Qed.

Lemma reader_orPanic {A} g (o : option A) : reader g (orPanic o).
Proof.
  intros sa sb a sa' _ Hn _ H. destruct o as [v|]; [|discriminate].
  inversion H; subst.
  rewrite set_drawn_id. split; [reflexivity|]. rewrite Hn, set_drawn_id. reflexivity.
Qed.

Lemma reader_bind {A B} g (c : M A) (k : A -> M B) :
  reader g c -> (forall a, reader g (k a)) -> reader g (bind c k).
Proof.
  intros Hc Hk sa sb b sa' Hd Hn Ha H.
  apply bind_Done in H. destruct H as (a & s1 & H1 & H2).
  destruct (Hc sa sb a s1 Hd Hn Ha H1) as [E1 R1].
  rewrite (bind_run _ _ _ _ _ R1).
  destruct (Hk a s1 (set_drawn (drawn s1) sb) b sa') as [E2 R2]; try assumption.
  - rewrite E1. simpl. assumption.
  - reflexivity.
  - rewrite E1. simpl. assumption.
  - split; [|exact R2]. rewrite E2 at 1. rewrite E1. reflexivity.
Qed.

Lemma reader_Intn g n : reader g (Intn n).
Proof.
  intros sa sb a sa' Hd Hn _ H. unfold Intn in *.
  destruct (n <=? 0); [discriminate|]. inversion H; subst. simpl.
  split; [reflexivity|]. rewrite Hd, Hn. reflexivity.
Qed.

Lemma reader_getCell g x y : reader g (getCell g x y).
Proof.
  intros sa sb a sa' _ Hn Ha H. unfold getCell in *. rewrite <- Ha.
  destruct (arrays sa !! Cells g ≫= _) as [v|]; [|discriminate].
  inversion H; subst.
  rewrite set_drawn_id. split; [reflexivity|]. rewrite Hn, set_drawn_id. reflexivity.
Qed.

Lemma reader_shuffleFrom {A} g i : forall l : list A, reader g (shuffleFrom i l).
Proof.
  induction i as [|i IH]; intros l; cbn [shuffleFrom].
  - apply reader_ret.
  - apply reader_bind; [apply reader_Intn|]. intros j.
    apply reader_bind; [apply reader_orPanic|]. intros l'. apply IH.
Qed.

Lemma reader_scanWith g p x y dirs : reader g (scanWith p g x y dirs).
Proof.
  induction dirs as [|[dx dy] rest IH]; cbn [scanWith].
  - apply reader_ret.
  - apply reader_bind; [apply reader_orPanic|]. intros nx.
    apply reader_bind; [apply reader_orPanic|]. intros ny.
    apply reader_bind; [apply reader_getCell|]. intros c.
    destruct (p c); [apply reader_ret | apply IH].
Qed.

Lemma reader_findNearestFish g x y : reader g (findNearestFish g x y).
Proof.
  unfold findNearestFish. apply reader_bind; [apply reader_shuffleFrom|].
  intros dirs. rewrite scanFish_scanWith. apply reader_scanWith.
Qed.

Lemma reader_findEmptyAdjacent g x y : reader g (findEmptyAdjacent g x y).
Proof.
  unfold findEmptyAdjacent. apply reader_bind; [apply reader_shuffleFrom|].
  intros dirs. rewrite scanEmpty_scanWith. apply reader_scanWith.
Qed.

(** The steps of the rule keep the two stores in correspondence. *)

Section Correspondence.
Variables (g ng : Grid) (ch : nat) (w0 : list Move).
Hypothesis Hne : Cells g <> Cells ng.

Lemma corresponds_ret {A} (a : A) : corresponds ng ch w0 (ret a) (ret a).
Proof.
  intros sa sb a1 sa' a2 sb' Hd H1 H2. inversion H1; inversion H2; subst. auto.
Qed.

Lemma corresponds_bind {A B} (ca cb : M A) (ka kb : A -> M B) :
  corresponds ng ch w0 ca cb -> (forall a, corresponds ng ch w0 (ka a) (kb a)) ->
  corresponds ng ch w0 (bind ca ka) (bind cb kb).
Proof.
  intros Hc Hk sa sb b1 sa' b2 sb' Hd H1 H2.
  apply bind_Done in H1, H2.
  destruct H1 as (a1 & sa1 & E1 & H1), H2 as (a2 & sb1 & E2 & H2).
  destruct (Hc sa sb a1 sa1 a2 sb1 Hd E1 E2) as [<- Hd1].
  exact (Hk a1 sa1 sb1 b1 sa' b2 sb' Hd1 H1 H2).
Qed.

Lemma deferred_silent sa sb sa' sb' :
  deferred ng ch w0 sa sb ->
  fishes sa' = fishes sb' -> sharks sa' = sharks sb' ->
  draws sa' = draws sb' -> drawn sa' = drawn sb' ->
  arrays sa' = arrays sa -> arrays sb' = arrays sb -> chans sb' = chans sb ->
  deferred ng ch w0 sa' sb'.
Proof.
  intros (_ & _ & _ & _ & D5 & D6 & D7) F S R N A1 A2 C.
  do 4 (split; [assumption|]). unfold waiting. rewrite A1, A2, C.
  split; [assumption|]. split; assumption.
Qed.

Lemma corresponds_reader {A} (c : M A) : reader g c -> corresponds ng ch w0 c c.
Proof.
  intros Hc sa sb a sa' b sb' Hd H1 H2.
  pose proof Hd as (D1 & D2 & D3 & D4 & D5 & D6 & D7).
  destruct (Hc sa sb a sa' D3 D4 (D6 _ Hne) H1) as [E1 R1].
  rewrite R1 in H2. inversion H2; subst b sb'. split; [reflexivity|].
  rewrite E1. apply (deferred_silent sa sb); try assumption; reflexivity.
Qed.

Lemma corresponds_modifyShark p f :
  corresponds ng ch w0 (modifyShark p f) (modifyShark p f).
Proof.
  intros sa sb a sa' b sb' Hd H1 H2.
  pose proof Hd as (D1 & D2 & D3 & D4 & _).
  apply modifyShark_Done in H1, H2.
  destruct H1 as (o1 & Ho1 & ->), H2 as (o2 & Ho2 & ->).
  rewrite D2 in Ho1. assert (o1 = o2) as -> by congruence.
  split; [destruct a, b; reflexivity|].
  apply (deferred_silent sa sb); try assumption; try reflexivity.
  simpl. rewrite D2. reflexivity.
Qed.

Lemma corresponds_loadShark p : corresponds ng ch w0 (loadShark p) (loadShark p).
Proof.
  intros sa sb a sa' b sb' Hd H1 H2.
  pose proof Hd as (_ & D2 & _).
  apply loadShark_Done in H1, H2. destruct H1 as [-> H1], H2 as [-> H2].
  split; [congruence | assumption].
Qed.

Lemma corresponds_newShark k : corresponds ng ch w0 (newShark k) (newShark k).
Proof.
  intros sa sb a sa' b sb' Hd H1 H2.
  pose proof Hd as (D1 & D2 & D3 & D4 & _).
  apply newShark_Done in H1, H2. destruct H1 as [-> ->], H2 as [-> ->].
  split; [rewrite D2; reflexivity|].
  apply (deferred_silent sa sb); try assumption; try reflexivity.
  simpl. rewrite D2. reflexivity.
Qed.

Lemma corresponds_emit ev : corresponds ng ch w0 (emit ev) (emit ev).
Proof.
  intros sa sb a sa' b sb' Hd H1 H2.
  pose proof Hd as (D1 & D2 & D3 & D4 & _).
  apply emit_Done in H1, H2. subst sa' sb'.
  split; [destruct a, b; reflexivity|].
  apply (deferred_silent sa sb); try assumption; reflexivity.
Qed.

Lemma applyMoves_snoc l mv m :
  applyMoves (l ++ [mv]) m = (m' ← applyMoves l m; matrix_set m' (X mv) (Y mv) (Ent mv)).
Proof.
  revert m. induction l as [|mv' l IH]; intros m; cbn [app applyMoves mbind option_bind].
  - destruct (matrix_set m (X mv) (Y mv) (Ent mv)); reflexivity.
  - destruct (matrix_set m (X mv') (Y mv') (Ent mv')) as [m1|]; [apply IH | reflexivity].
Qed.

(** A write on one side, the move sent on the other. *)
Lemma corresponds_put x y e :
  corresponds ng ch w0 (setCell ng x y e) (send ch (mkMove x y e)).
Proof.
  intros sa sb a sa' b sb' Hd H1 H2.
  destruct Hd as (D1 & D2 & D3 & D4 & D5 & D6 & l & mb & Hw & Hmb & Hma).
  apply setCell_Done in H1. destruct H1 as (ma & old & m' & Ha & _ & Hset & ->).
  apply send_Done in H2. destruct H2 as (c & Hc & _ & _ & ->).
  pose proof (lookup_lt_Some _ _ _ Ha) as Hlt.
  pose proof (lookup_lt_Some _ _ _ Hc) as Hlc.
  split; [destruct a, b; reflexivity|].
  do 4 (split; [assumption|]).
  split; [unfold written; simpl; rewrite length_insert; assumption|].
  split.
  { intros c' Hc'. unfold written. simpl.
    rewrite list_lookup_insert_ne by congruence. apply D6. assumption. }
  exists (l ++ [mkMove x y e]), mb. split; [|split].
  - unfold waiting in *. cbn [chans set_chans].
    rewrite list_lookup_insert_eq by assumption. rewrite Hc in Hw. cbn [buf].
    rewrite Hw, app_assoc. reflexivity.
  - exact Hmb.
  - unfold written. simpl. rewrite list_lookup_insert_eq by assumption.
    rewrite applyMoves_snoc, <- Hma, Ha. simpl. symmetry. exact Hset.
Qed.

(** The rule of a shark, with writes and with moves. *)
Lemma corresponds_sharkRule shark x y sb se :
  corresponds ng ch w0
    (sharkRule (setCell ng) g shark x y sb se)
    (sharkRule (fun x' y' e => send ch (mkMove x' y' e)) g shark x y sb se).
Proof.
  unfold sharkRule.
  apply corresponds_bind; [apply corresponds_modifyShark|]. intros _.
  apply corresponds_bind; [apply corresponds_loadShark|]. intros k.
  destruct (Shark_Energy k <=? 0); [apply corresponds_emit|].
  apply corresponds_bind;
    [apply corresponds_reader, reader_findNearestFish|]. intros [rx ry].
  apply corresponds_bind.
  { destruct (found rx ry).
    - apply corresponds_bind; [apply corresponds_put|]. intros _.
      apply corresponds_modifyShark.
    - apply corresponds_bind;
        [apply corresponds_reader, reader_findEmptyAdjacent|]. intros [ex ey].
      destruct (found ex ey); apply corresponds_put. }
  intros _.
  apply corresponds_bind; [apply corresponds_modifyShark|]. intros _.
  apply corresponds_bind; [apply corresponds_loadShark|]. intros k'.
  destruct (sb <=? Shark_BreedCounter k'); [|apply corresponds_ret].
  apply corresponds_bind; [apply corresponds_newShark|]. intros baby.
  apply corresponds_bind; [apply corresponds_put|]. intros _.
  apply corresponds_bind; [apply corresponds_emit|]. intros _.
  apply corresponds_modifyShark.
Qed.
End Correspondence.

(** The moves are applied: the loop of [MoveEntitiesConcurrent] that
    receives them computes [applyMoves]. *)
Lemma drain_applyMoves ng l : forall s mb m',
  arrays s !! Cells ng = Some mb -> applyMoves l mb = Some m' ->
  exists s',
    forList l (fun move => setCell ng (X move) (Y move) (Ent move)) s = Done tt s'
    /\ arrays s' = <[Cells ng := m']> (arrays s)
    /\ fishes s' = fishes s /\ sharks s' = sharks s /\ drawn s' = drawn s.
Proof.
  induction l as [|mv l IH]; intros s mb m' Hmb Happ; cbn [applyMoves forList] in *.
  - inversion Happ; subst m'. exists s. split; [reflexivity|].
    split; [symmetry; apply list_insert_id; assumption | auto].
  - destruct (matrix_set mb (X mv) (Y mv) (Ent mv)) as [m1|] eqn:Hset; [|discriminate].
    cbn [mbind option_bind] in Happ.
    assert (Hget : exists old, matrix_get mb (X mv) (Y mv) = Some old).
    { apply matrix_set_Some in Hset. destruct Hset as (row & Hrow & Hy & Hl & _).
      destruct (lookup_lt_is_Some_2 row (Z.to_nat (Y mv)) Hl) as [old Hold].
      exists old. apply matrix_get_Some. exists row. split; [assumption|].
      apply index_Some. split; assumption. }
    destruct Hget as [old Hold].
    assert (Hrun : setCell ng (X mv) (Y mv) (Ent mv) s
                   = Done tt (written ng (X mv) (Y mv) old m1 s)).
    { apply setCell_Done. exists mb, old, m1. auto. }
    rewrite (bind_run _ _ _ _ _ Hrun).
    pose proof (lookup_lt_Some _ _ _ Hmb) as Hlt.
    destruct (IH (written ng (X mv) (Y mv) old m1 s) m1 m') as (s' & Hrun' & Ha & Hf & Hs & Hd).
    + unfold written. simpl. apply list_lookup_insert_eq. assumption.
    + assumption.
    + exists s'. split; [assumption|]. split; [|auto].
      rewrite Ha. unfold written. simpl. apply list_insert_insert_eq.
Qed.

(** X14.  The shark of a cell, in the two strategies.  [moveSharksConcurrent]
    runs the code of [processShark] with each write to the next grid
    replaced by a move on the channel.  From the same store, with room for
    two moves on the channel, both return; the message-passing code has not
    written to any cell array, and once the moves it has sent are applied,
    in the order in which they were sent, the cell arrays, the fish, the
    sharks and the number of draws consumed are those that [processShark]
    leaves. *)
Theorem shark_moves_are_deferred_writes (g ng : Grid) (m : Matrix) (ch : nat)
    (s : State) (shark : nat) (x y sb se : Z) :
  collect_inv g ng m ch 2 s -> in_grid (Size g) (x, y) ->
  matrix_get m x y = Some (SharkPtr shark) ->
  exists s1 s2 l s3,
    processShark g ng shark x y sb se s = Done tt s1
    /\ moveSharkCell g sb se ch x y s = Done tt s2
    /\ arrays s2 = arrays s
    /\ waiting ch s2 = waiting ch s ++ l
    /\ forList l (fun move => setCell ng (X move) (Y move) (Ent move)) s2 = Done tt s3
    /\ arrays s3 = arrays s1 /\ fishes s3 = fishes s1 /\ sharks s3 = sharks s1
    /\ drawn s3 = drawn s1.
Proof.
  intros Hinv Hxy Hcell.
  pose proof Hinv as (Hdi & _).
  pose proof Hdi as (Hv & HN & Hne & (Gm & Gs & Gv) & m0 & Nm & _).
  pose proof (matrix_get_valid _ _ _ _ _ Gv Hcell) as Hval. simpl in Hval.
  destruct (lookup_lt_is_Some_2 _ _ Hval) as [o Ho].
  destruct (processShark_run g ng m s shark x y sb se o Hdi Hxy Ho)
    as (s1 & Hrun1 & Hdi1 & _).
  destruct (moveSharkCell_run g ng m ch 2 s sb se x y Hinv Hxy) as (s2 & Hrun2 & _).
  { unfold cell_weight. cbn [fst snd]. rewrite Hcell. simpl. lia. }
  pose proof Hrun2 as Heff. apply moveSharkCell_effect in Heff.
  destruct Heff as (_ & _ & _ & _ & (Harr2 & _)).
  assert (Hd0 : deferred ng ch (waiting ch s) s s).
  { do 5 (split; [reflexivity|]). split; [reflexivity|].
    exists [], m0. rewrite app_nil_r. auto. }
  pose proof Hrun1 as R1. rewrite processShark_rule in R1.
  pose proof Hrun2 as R2. rewrite moveSharkCell_rule in R2.
  rewrite (bind_run _ _ _ _ _ (getCell_run _ _ _ _ _ _ Gm Hcell)) in R2.
  destruct (corresponds_sharkRule g ng ch (waiting ch s) ltac:(congruence)
              shark x y sb se s s tt s1 tt s2 Hd0 R1 R2)
    as (_ & D1 & D2 & D3 & D4 & D5 & D6 & l & mb & Hw & Hmb & Hma).
  destruct Hdi1 as (_ & _ & _ & _ & m1 & Nm1 & _).
  rewrite Nm1 in Hma. symmetry in Hma.
  destruct (drain_applyMoves ng l s2 mb m1 Hmb Hma) as (s3 & Hdrain & Ha3 & Hf3 & Hs3 & Hn3).
  exists s1, s2, l, s3. do 5 (split; [assumption|]).
  split; [|split; [congruence | split; congruence]].
  rewrite Ha3. apply list_eq. intros c.
  destruct (decide (c = Cells ng)) as [->|Hc].
  - rewrite list_lookup_insert_eq by exact (lookup_lt_Some _ _ _ Hmb). symmetry. assumption.
  - rewrite list_lookup_insert_ne by congruence. symmetry. apply D6. assumption.
Qed.

(** The shark of the feeding scenario, with an empty channel of capacity
    9. *)
Lemma shark_moves_are_deferred_writes_witness :
  let s := mkState [mkFish 0] [mkShark 0 5] [feeding_cells; replicate 3 (replicate 3 Nil)]
             [mkChan 9 [] false] sevens 0 [] in
  exists s1 s2 l s3,
    processShark (mkGrid 3 0) (mkGrid 3 1) 0 0 0 1 5 s = Done tt s1
    /\ moveSharkCell (mkGrid 3 0) 1 5 0 0 0 s = Done tt s2
    /\ arrays s2 = arrays s
    /\ waiting 0 s2 = waiting 0 s ++ l
    /\ forList l (fun move => setCell (mkGrid 3 1) (X move) (Y move) (Ent move)) s2
       = Done tt s3
    /\ arrays s3 = arrays s1 /\ fishes s3 = fishes s1 /\ sharks s3 = sharks s1
    /\ drawn s3 = drawn s1.
Proof.
  intros s.
  apply (shark_moves_are_deferred_writes (mkGrid 3 0) (mkGrid 3 1) feeding_cells 0%nat s
           0%nat 0 0 1 5).
  - split.
    + split; [known_grid|]. split; [reflexivity|]. split; [simpl; lia|].
      split; [known_grid|]. eexists. known_grid.
    + eexists. split; [reflexivity|]. split; [reflexivity|].
      split; [simpl; lia | constructor].
  - known_grid.
  - reflexivity.
Defined.

(** ** The counters after a chronon *)

(** What the processing of the shark of a cell writes, when it writes at
    once. *)
Lemma writeSharkCell_writes g ng m s fb sb se x y e0 :
  dispatch_inv g ng m s -> in_grid (Size g) (x, y) -> matrix_get m x y = Some e0 ->
  writes (fun s' e => is_shark e = true /\ ruled fb sb se s' e) g ng m x y e0
    (writeSharkCell g ng sb se x y) s.
Proof.
  intros Hinv Hxy He. pose proof Hinv as (_ & _ & _ & (Gm & _) & _).
  unfold writeSharkCell.
  apply (writes_prefix _ _ _ _ _ _ _ _ _ _ _ (getCell_run _ _ _ _ _ _ Gm He)).
  destruct e0 as [|fish|shark].
  - apply writes_nothing. assumption.
  - apply writes_nothing. assumption.
  - apply processShark_writes; assumption.
Qed.

Lemma writeSharkCell_keeps_ruled g ng m fb sb se x y e0 s s' e :
  arrays s !! Cells g = Some m -> matrix_get m x y = Some e0 ->
  writeSharkCell g ng sb se x y s = Done tt s' ->
  e <> e0 \/ is_shark e = false -> ruled fb sb se s e -> ruled fb sb se s' e.
Proof.
  intros Hm He0 Hrun Hne. unfold writeSharkCell in Hrun.
  rewrite (bind_run _ _ _ _ _ (getCell_run _ _ _ _ _ _ Hm He0)) in Hrun.
  destruct e0 as [|fish|shark]; try (inversion Hrun; subst; tauto).
  apply processShark_effect in Hrun. destruct Hrun as (_ & _ & _ & _ & Ef & Es & _).
  apply ruled_keeps.
  - intros q o _. apply Ef. discriminate.
  - intros q o ->. apply Es. destruct Hne as [Hne|Hne]; [congruence | discriminate].
Qed.

(** The collection of the moves of the sharks is the sweep that writes at
    once, with its writes deferred. *)
Lemma corresponds_sharks g ng ch w0 sb se (cells : list (Z * Z)) :
  Cells g <> Cells ng ->
  corresponds ng ch w0
    (forList cells (fun c => writeSharkCell g ng sb se c.1 c.2))
    (forList cells (fun c => moveSharkCell g sb se ch c.1 c.2)).
Proof.
  intros Hne. induction cells as [|[x y] cells IH]; cbn [forList fst snd].
  - apply corresponds_ret.
  - apply corresponds_bind; [|intros []; exact IH].
    rewrite moveSharkCell_rule. unfold writeSharkCell.
    apply corresponds_bind.
    + apply (corresponds_reader g); [assumption | apply reader_getCell].
    + intros [|fish|shark]; try apply corresponds_ret.
      rewrite processShark_rule. apply corresponds_sharkRule. assumption.
Qed.

(** The sweep that writes at once returns. *)
Lemma writeSharks_run g ng m sb se cells s :
  (forall c, c ∈ cells -> in_grid (Size g) c) ->
  dispatch_inv g ng m s ->
  exists s', forList cells (fun c => writeSharkCell g ng sb se c.1 c.2) s = Done tt s'
             /\ dispatch_inv g ng m s'.
Proof.
  intros Hin. apply forList_total. intros [x y] s0 Hc Hinv.
  pose proof Hinv as (_ & _ & _ & (_ & Gs & _) & _).
  pose proof (Hin _ Hc) as Hxy.
  destruct (matrix_get_shape _ _ _ _ Gs (proj1 Hxy) (proj2 Hxy)) as [e0 He0].
  cbn [fst snd] in He0 |- *.
  destruct (writeSharkCell_writes g ng m s0 0 sb se x y e0 Hinv Hxy He0)
    as (s' & _ & Hrun & Hinv' & _).
  exists s'. split; assumption.
Qed.

(** The next grid of a chronon of the message-passing strategy. *)
Lemma MoveEntitiesConcurrent_next g m s fb sb se g' s' :
  valid_side (Size g) -> grid_at s g m -> distinct m ->
  MoveEntitiesConcurrent g fb sb se s = Done g' s' ->
  forall x y e, matrix_get (cells_of s' g') x y = Some e -> ruled fb sb se s' e.
Proof.
  intros Hv Hg Hdm Hrun. unfold MoveEntitiesConcurrent in Hrun.
  rewrite (bind_run _ _ _ _ _ (NewGrid_run _ s Hv)) in Hrun.
  destruct (next_grid_inv g m s Hv Hg) as [Hinv1 Hcells1].
  set (ng := mkGrid (Size g) (length (arrays s))) in *.
  set (s1 := set_arrays _ s) in *.
  assert (Hin : forall c, c ∈ cellsOf 0 (Size g) (Size g) -> in_grid (Size g) c).
  { intros c Hc. apply elem_of_cellsOf in Hc. destruct Hv. split; lia. }
  (* the fish *)
  apply bind_Done in Hrun. destruct Hrun as ([] & s2 & Hfish & Hrun).
  destruct (moveFish_next g m s fb sb se s2 Hv Hg Hdm Hfish) as (Hinv2 & Hg2 & Hd2 & Hk2).
  (* the channel *)
  apply bind_Done in Hrun. destruct Hrun as (ch & s3 & Hmk & Hrun).
  unfold makeChan in Hmk.
  destruct (Z.ltb_spec (GoInt.mul (Size g) (Size g)) 0) as [|Hcap]; [discriminate|].
  inversion Hmk; subst ch s3. clear Hmk.
  set (ch := length (chans s2)) in *.
  set (s3 := set_chans _ s2) in *.
  assert (Hch3 : chans s3 !! ch = Some (mkChan (GoInt.mul (Size g) (Size g)) [] false)).
  { unfold s3, ch. simpl. rewrite lookup_app_r, Nat.sub_diag by lia. reflexivity. }
  assert (Hinv3 : dispatch_inv g ng m s3).
  { apply (dispatch_inv_frame _ _ _ s2); [reflexivity | solve_grows | assumption]. }
  (* the sharks, with their writes made at once *)
  destruct (writeSharks_run g ng m sb se _ s3 Hin Hinv3) as (sd & Hdirect & _).
  destruct (sweep_distinct (ruled fb sb se)
              (fun s0 e => is_shark e = true /\ ruled fb sb se s0 e)
              (fun e => is_shark e = false) g ng m (writeSharkCell g ng sb se) s1
              (cellsOf 0 (Size g) (Size g)) s3 sd) as (Hinvd & _ & _ & Hkd);
    try assumption.
  { intros s0 x y e0. apply writeSharkCell_writes. }
  { intros s0 e [H1 H2]. split; [assumption|]. rewrite H1. discriminate. }
  { intros s0 s0' x y e0 e (_ & _ & _ & (Gm0 & _) & _) He0 Hstep.
    exact (writeSharkCell_keeps_ruled g ng m fb sb se x y e0 s0 s0' e Gm0 He0 Hstep). }
  { destruct Hinv1 as (_ & _ & _ & (_ & _ & Gv1) & _). exact Gv1. }
  { apply NoDup_cellsOf. }
  { intros x y e H Hne0. destruct (Hk2 x y e H Hne0) as [H1 H2].
    split; [exact H2 | right; right; exact H1]. }
  (* the sharks, with their moves sent *)
  apply bind_Done in Hrun. destruct Hrun as ([] & s4 & Hsharks & Hrun).
  rewrite moveSharksConcurrent_cells in Hsharks.
  pose proof Hinv3 as (_ & _ & Hne & _ & m3 & Nm3 & _).
  assert (Hd0 : deferred ng ch [] s3 s3).
  { do 5 (split; [reflexivity|]). split; [reflexivity|].
    exists [], m3. unfold waiting. rewrite Hch3. auto. }
  destruct (corresponds_sharks g ng ch [] sb se (cellsOf 0 (Size g) (Size g))
              ltac:(congruence) s3 s3 tt sd tt s4 Hd0 Hdirect Hsharks)
    as (_ & D1 & D2 & _ & _ & _ & _ & l & mb & Hw & Hmb & Hma).
  destruct Hinvd as (_ & _ & _ & _ & md & Nmd & _).
  rewrite Nmd in Hma. symmetry in Hma. cbn [app] in Hw.
  (* the moves are applied *)
  unfold waiting in Hw.
  destruct (chans s4 !! ch) as [c|] eqn:C1.
  2:{ apply bind_Done in Hrun. destruct Hrun as ([] & s5 & Hclose & _).
      unfold closeChan in Hclose. rewrite C1 in Hclose. discriminate. }
  apply bind_Done in Hrun. destruct Hrun as ([] & s5 & Hclose & Hrun).
  unfold closeChan in Hclose. rewrite C1 in Hclose.
  destruct (closed c); [discriminate|]. inversion Hclose; subst s5. clear Hclose.
  apply bind_Done in Hrun. destruct Hrun as (moves & s6 & Hrecv & Hrun).
  unfold recvAll in Hrecv. cbn [chans set_chans] in Hrecv.
  rewrite list_lookup_insert_eq in Hrecv by exact (lookup_lt_Some _ _ _ C1).
  cbn [closed buf cap] in Hrecv. inversion Hrecv; subst moves s6. clear Hrecv.
  apply bind_Done in Hrun. destruct Hrun as ([] & s7 & Hdrain & Hret).
  inversion Hret; subst g' s7. clear Hret.
  change (mkGrid (Size g) (Cells ng)) with ng.
  rewrite Hw in Hdrain.
  set (s6 := set_chans _ _) in Hdrain.
  destruct (drain_applyMoves ng l s6 mb md Hmb Hma) as (s7 & Hdrain' & Ha7 & Hf7 & Hs7 & _).
  assert (s7 = s') as -> by congruence.
  assert (Hcells : cells_of s' ng = cells_of sd ng).
  { unfold cells_of. rewrite Ha7, Nmd.
    rewrite list_lookup_insert_eq by exact (lookup_lt_Some _ _ _ Hmb). reflexivity. }
  intros x y e H. change (matrix_get (cells_of s' ng) x y = Some e) in H.
  rewrite Hcells in H.
  destruct e as [|p|p]; [exact I | |].
  - pose proof (Hkd x y _ H ltac:(discriminate)) as (o & Ho & Hr).
    exists o. split; [|assumption]. rewrite Hf7. unfold s6. cbn [fishes set_chans]. rewrite <- D1.
    assumption.
  - pose proof (Hkd x y _ H ltac:(discriminate)) as (o & Ho & Hr).
    exists o. split; [|assumption]. rewrite Hs7. unfold s6. cbn [sharks set_chans]. rewrite <- D2.
    assumption.
Qed.

(** X15.  A chronon settles the counters, whatever they were before.  When no
    object is in two cells of the grid, every fish of the grid that a
    chronon returns has a breed counter that is 0 or below [fishBreed], and
    every shark has a breed counter that is 0 or below [sharkBreed] and an
    energy that is [starveEnergy] or positive: no shark that ran out of
    energy is left on the grid.  This holds of the row-partition strategy,
    which returns, whatever the order in which its workers run, and of the
    message-passing strategy whenever it returns.  For the row-partition
    strategy it holds as well of the next grid in which the cells were
    processed in any order, each at most once, as when the workers take
    turns. *)
Theorem chronon_settles_the_counters (g : Grid) (m : Matrix) (s : State)
    (fb sb se : Z) :
  valid_side (Size g) -> grid_at s g m -> distinct m ->
  (forall threads order, 1 <= threads <= GoInt.max_int -> order ≡ₚ seqZ 0 threads ->
     exists g' s', MoveEntitiesWithThreadsIn order g fb sb se threads s = Done g' s'
                   /\ forall x y e, matrix_get (cells_of s' g') x y = Some e ->
                        ruled fb sb se s' e)
  /\ (forall cells, NoDup cells -> (forall c, c ∈ cells -> in_grid (Size g) c) ->
        exists ng s1 s',
          NewGrid (Size g) s = Done ng s1
          /\ forList cells (fun c => processCell g ng fb sb se c.1 c.2) s1 = Done tt s'
          /\ forall x y e, matrix_get (cells_of s' ng) x y = Some e ->
               ruled fb sb se s' e)
  /\ (forall g' s', MoveEntitiesConcurrent g fb sb se s = Done g' s' ->
        forall x y e, matrix_get (cells_of s' g') x y = Some e -> ruled fb sb se s' e).
Proof.
  intros Hv Hg Hd. split; [|split].
  - intros threads order Ht Hperm.
    destruct (MoveEntitiesWithThreadsIn_next order g m s fb sb se threads Hv Hg Ht Hd Hperm)
      as (g' & s' & Hrun & _ & Hruled).
    exists g', s'. split; assumption.
  - intros cells Hnd Hin.
    destruct (cells_in_any_order g m s fb sb se cells Hv Hg Hd Hnd Hin)
      as (ng & s1 & s' & Hnew & Hrun & _ & Hruled).
    exists ng, s1, s'. auto.
  - intros g' s'. apply (MoveEntitiesConcurrent_next g m); assumption.
Qed.

(** The 2x2 grid with a shark and three fish, in a chronon of each
    strategy; the two workers of the row-partition strategy run in the one
    order and in the other. *)
Lemma chronon_settles_the_counters_witness :
  (exists g' s', MoveEntitiesWithThreadsIn [0; 1] (mkGrid 2 0) 3 3 4 2 hunted = Done g' s'
                 /\ forall x y e, matrix_get (cells_of s' g') x y = Some e ->
                      ruled 3 3 4 s' e)
  /\ (exists g' s', MoveEntitiesWithThreadsIn [1; 0] (mkGrid 2 0) 3 3 4 2 hunted = Done g' s'
                    /\ forall x y e, matrix_get (cells_of s' g') x y = Some e ->
                         ruled 3 3 4 s' e)
  /\ (exists g' s', MoveEntitiesConcurrent (mkGrid 2 0) 3 3 4 hunted = Done g' s'
                    /\ forall x y e, matrix_get (cells_of s' g') x y = Some e ->
                         ruled 3 3 4 s' e).
Proof.
  destruct (chronon_settles_the_counters (mkGrid 2 0) hunted_cells hunted 3 3 4)
    as (P1 & _ & P2); [known_grid | known_grid | exact hunted_cells_distinct |].
  split; [|split].
  - apply (P1 2); [unfold GoInt.max_int; lia | reflexivity].
  - apply (P1 2); [unfold GoInt.max_int; lia | apply perm_swap].
  - assert (E : exists g' s', MoveEntitiesConcurrent (mkGrid 2 0) 3 3 4 hunted = Done g' s')
      by (eexists; eexists; vm_compute; reflexivity).
    destruct E as (g' & s' & E). exists g', s'. split; [exact E|].
    exact (P2 g' s' E).
Defined.
